(** * InvertibleMPMSolid: a shallow embedding of one explicit MPM step

    Source: Physika_Src/Physika_Dynamics/MPM/invertible_mpm_solid.cpp
    (class [InvertibleMPMSolid<Scalar,Dim>], derived from [CPDIMPMSolid]).

    Modelling conventions.
    - [Scalar] is idealised as the exact rationals [Qc]; rounding is not
      modelled.  [std::numeric_limits<Scalar>::epsilon()] is the section
      variable [epsilon].
    - [Vector<Scalar,Dim>] and [SquareMatrix<Scalar,Dim>] are [Dim]-indexed
      tuples, so both template instantiations (Dim = 2, Dim = 3) are covered.
    - [std::vector] is [list]; [v[i]] out of range is undefined behaviour in
      C++: reads yield an explicit default and writes are dropped, and the
      theorems state the ranges they rely on.
    - [std::map<unsigned,T>] is [gmap nat T], iterated in increasing key
      order; [std::set<unsigned>] is [gset nat]; the [std::multimap]
      [active_grid_node_] is a key-sorted association list.
    - A grid node index [Vector<unsigned,Dim>] is represented by its flat
      1-D index ([flatIndex] is a bijection on in-range indices).
    - [PHYSIKA_ASSERT] / [PHYSIKA_ERROR] abort: the functions containing
      them return [option], [None] being the abort.
    - The plugin list is empty (plugin callbacks are external code). *)

From Stdlib Require Import QArith Qcanon.
From stdpp Require Import base numbers option list gmap fin_maps sorting.

Local Open Scope Qc_scope.

Abbreviation Scalar := Qc.

(** ** Fixed-size tuples *)

Fixpoint Tup (A : Type) (n : nat) : Type :=
  match n with O => unit | S k => (A * Tup A k)%type end.

Fixpoint tconst {A} (n : nat) (a : A) : Tup A n :=
  match n with O => tt | S k => (a, tconst k a) end.

Fixpoint tmap {A B} (f : A -> B) (n : nat) : Tup A n -> Tup B n :=
  match n with
  | O => fun _ => tt
  | S k => fun t => (f (fst t), tmap f k (snd t))
  end.

Fixpoint tzip {A B C} (f : A -> B -> C) (n : nat) : Tup A n -> Tup B n -> Tup C n :=
  match n with
  | O => fun _ _ => tt
  | S k => fun s t => (f (fst s) (fst t), tzip f k (snd s) (snd t))
  end.

Fixpoint tfold {A B} (f : A -> B -> B) (b : B) (n : nat) : Tup A n -> B :=
  match n with
  | O => fun _ => b
  | S k => fun t => f (fst t) (tfold f b k (snd t))
  end.

Fixpoint tremove {A} (n : nat) (j : nat) : Tup A (S n) -> Tup A n :=
  match n with
  | O => fun _ => tt
  | S k => fun t => match j with
                    | O => snd t
                    | S j' => (fst t, tremove k j' (snd t))
                    end
  end.

Fixpoint talter {A} (f : A -> A) (n : nat) (j : nat) : Tup A n -> Tup A n :=
  match n with
  | O => fun t => t
  | S k => fun t => match j with
                    | O => (f (fst t), snd t)
                    | S j' => (fst t, talter f k j' (snd t))
                    end
  end.

(** Component [j] of a tuple ([d] out of range). *)
Fixpoint tget {A} (d : A) (n : nat) (j : nat) : Tup A n -> A :=
  match n with
  | O => fun _ => d
  | S k => fun t => match j with
                    | O => fst t
                    | S j' => tget d k j' (snd t)
                    end
  end.

Fixpoint tunit {A} (zero one : A) (n : nat) (j : nat) : Tup A n :=
  match n with
  | O => tt
  | S k => match j with
           | O => (one, tconst k zero)
           | S j' => (zero, tunit zero one k j')
           end
  end.

Fixpoint Tup_eq_dec {A} `{EqDecision A} (n : nat) : EqDecision (Tup A n) :=
  match n with
  | O => fun s t => left (match s, t with tt, tt => eq_refl end)
  | S k => @prod_eq_dec A _ (Tup A k) (Tup_eq_dec k)
  end.
#[global] Existing Instance Tup_eq_dec.

(** ** Vectors and square matrices

    Modelled from the spec: the classes [Vector] and [SquareMatrix] of
    Physika_Core are not part of the sources at hand; they are the usual
    componentwise vector operations, the matrix product, the outer product
    and the determinant (Laplace expansion along the first row). *)

Definition Vector (Dim : nat) : Type := Tup Scalar Dim.
Definition SquareMatrix (Dim : nat) : Type := Tup (Vector Dim) Dim.

#[global] Instance Vector_eq_dec Dim : EqDecision (Vector Dim) := Tup_eq_dec Dim.

Section LinearAlgebra.
Context {Dim : nat}.

Definition vzero : Vector Dim := tconst Dim 0.
Definition vadd (u v : Vector Dim) : Vector Dim := tzip Qcplus Dim u v.
Definition vsub (u v : Vector Dim) : Vector Dim := tzip Qcminus Dim u v.
Definition vscale (s : Scalar) (v : Vector Dim) : Vector Dim := tmap (Qcmult s) Dim v.
Definition vdiv (v : Vector Dim) (s : Scalar) : Vector Dim := tmap (fun x => x / s) Dim v.

Definition outerProduct (u w : Vector Dim) : SquareMatrix Dim :=
  tmap (fun ui => vscale ui w) Dim u.

Definition mzero : SquareMatrix Dim := tconst Dim vzero.
Definition madd (A B : SquareMatrix Dim) : SquareMatrix Dim := tzip vadd Dim A B.
Definition mscale (s : Scalar) (A : SquareMatrix Dim) : SquareMatrix Dim :=
  tmap (vscale s) Dim A.
(** row i of [A*B] is the combination of the rows of [B] with the
    coefficients of row i of [A] *)
Definition mmul (A B : SquareMatrix Dim) : SquareMatrix Dim :=
  tmap (fun row => tfold vadd vzero Dim (tzip vscale Dim row B)) Dim A.
Definition mvmul (A : SquareMatrix Dim) (v : Vector Dim) : Vector Dim :=
  tmap (fun row => tfold Qcplus 0 Dim (tzip Qcmult Dim row v)) Dim A.
End LinearAlgebra.

Fixpoint identity_rows (n k : nat) : Tup (Vector n) k :=
  match k with
  | O => tt
  | S k' => (tunit 0 1 n (n - k), identity_rows n k')
  end.

Definition identityMatrix (Dim : nat) : SquareMatrix Dim := identity_rows Dim Dim.

Fixpoint laplace {n} (det : Tup (Vector n) n -> Scalar) (k : nat) (sign : Scalar)
  (m : nat) : Tup Scalar m -> Tup (Vector (S n)) n -> Scalar :=
  match m with
  | O => fun _ _ => 0
  | S m' => fun row rest =>
      sign * fst row * det (tmap (tremove n k) n rest)
      + laplace det (S k) (- sign) m' (snd row) rest
  end.

Fixpoint determinant (Dim : nat) : SquareMatrix Dim -> Scalar :=
  match Dim with
  | O => fun _ => 1
  | S n => fun M => laplace (determinant n) 0 1 (S n) (fst M) (snd M)
  end.

(** The literal [0.25]. *)
Definition quarter : Scalar := Q2Qc (1 # 4).
Definition half : Scalar := Q2Qc (1 # 2).

(** ** The deformation-gradient integrator

    Lines 292-298 of [updateParticleConstitutiveModelState], as a function of
    the time step, the reconstructed velocity gradient and the old
    deformation gradient.  C++ evaluates [dt*L*F] as [(dt*L)*F] and
    [0.25*dt*dt*L*L] as [(((0.25*dt)*dt)*L)*L]. *)
Definition integrateDeformationGradient (Dim : nat) (dt : Scalar)
  (particle_vel_grad particle_deform_grad : SquareMatrix Dim) : SquareMatrix Dim :=
  let identity := identityMatrix Dim in
  if decide (0 < determinant Dim (madd identity (mscale dt particle_vel_grad))) then
    (* normal update *)
    madd particle_deform_grad (mmul (mscale dt particle_vel_grad) particle_deform_grad)
  else
    (* the remedy *)
    madd particle_deform_grad
      (mmul (madd (mscale dt particle_vel_grad)
                  (mmul (mscale (quarter * dt * dt) particle_vel_grad) particle_vel_grad))
            particle_deform_grad).

(** ** Loops *)

(** [for(i = 0; i < n; ++i) body] over a state [S]. *)
Definition loop {S : Type} (n : nat) (body : nat -> S -> S) (s : S) : S :=
  foldl (fun s i => body i s) s (seq 0 n).

(** The same loop when the body can abort. *)
Fixpoint for_each {S : Type} (body : nat -> S -> option S) (idx : list nat) (s : S)
  : option S :=
  match idx with
  | [] => Some s
  | i :: rest => match body i s with
                 | Some s' => for_each body rest s'
                 | None => None
                 end
  end.

Definition loopM {S : Type} (n : nat) (body : nat -> S -> option S) (s : S) : option S :=
  for_each body (seq 0 n) s.

(** Keys of a [std::map<unsigned,T>] in iteration (increasing) order. *)
Definition keys {V} (m : gmap nat V) : list nat :=
  merge_sort Nat.le (elements (dom m)).

(** [m[k]] on a [std::map]: the entry is created with the default value
    when it is absent. *)
Definition touch {V} (d : V) (k : nat) (m : gmap nat V) : gmap nat V :=
  match m !! k with Some _ => m | None => <[k := d]> m end.

(** Nested [std::vector] access. *)
Definition row {A} (l : list (list A)) (i : nat) : list A := default [] (l !! i).
Definition at2 {A} (d : A) (l : list (list A)) (i j : nat) : A :=
  default d (row l i !! j).
Definition at3 {A} (d : A) (l : list (list (list A))) (i j k : nat) : A :=
  at2 d (row l i) j k.
Definition at4 {A} (d : A) (l : list (list (list (list A)))) (i j k n : nat) : A :=
  at3 d (row l i) j k n.

(** [std::multimap::insert]: after the last entry whose key is not larger. *)
Fixpoint multimap_insert (k v : nat) (l : list (nat * nat)) : list (nat * nat) :=
  match l with
  | [] => [(k, v)]
  | (k', v') :: rest =>
      if decide (k' ≤ k)%nat then (k', v') :: multimap_insert k v rest
      else (k, v) :: l
  end.

(** [equal_range(k)]: the values stored under key [k], in order. *)
Definition equal_range (k : nat) (l : list (nat * nat)) : list nat :=
  snd <$> filter (fun e => e.1 = k) l.

(** [n - 1] in [unsigned int] (32 bits): 0 wraps to 4294967295. *)
Definition unsignedMinusOne (n : nat) : nat :=
  Z.to_nat ((Z.of_nat n - 1) mod 2 ^ 32).

(** ** The data model *)

Section Solver.
Context {Dim : nat}.
Variable epsilon : Scalar.

(** Modelled from the spec: the class [SolidParticle] is not part of the
    sources at hand.  The record holds the values that the solver reads and
    writes through the accessors it calls: [mass()], [volume()] and
    [setVolume], [velocity()] and [setVelocity], [deformationGradient()] and
    [setDeformationGradient], and the matrix that [cauchyStress()] returns.
    The spec has the Cauchy stress computed externally from a constitutive
    law; how the class derives it from the deformation gradient is outside
    the sources, so the field stands for the value of one call and no
    statement below relates the stress after [setDeformationGradient] or
    [setVolume] to the stress before. *)
Record SolidParticle : Type := mkSolidParticle {
  mass : Scalar;
  volume : Scalar;
  velocity : Vector Dim;
  deformationGradient : SquareMatrix Dim;
  cauchyStress : SquareMatrix Dim
}.

Definition setVelocity (v : Vector Dim) (p : SolidParticle) : SolidParticle :=
  mkSolidParticle (mass p) (volume p) v (deformationGradient p) (cauchyStress p).
Definition setDeformationGradient (F : SquareMatrix Dim) (p : SolidParticle) : SolidParticle :=
  mkSolidParticle (mass p) (volume p) (velocity p) F (cauchyStress p).
Definition setVolume (vol : Scalar) (p : SolidParticle) : SolidParticle :=
  mkSolidParticle (mass p) vol (velocity p) (deformationGradient p) (cauchyStress p).

Definition noParticle : SolidParticle :=
  mkSolidParticle 0 0 vzero mzero mzero.

(** [MPMInternal::NodeIndexWeightGradientPair] *)
Record NodeIndexWeightGradientPair : Type := mkPair {
  node_idx_ : nat;
  weight_value_ : Scalar;
  gradient_value_ : Vector Dim
}.

Definition noPair : NodeIndexWeightGradientPair := mkPair 0 0 vzero.

(** Modelled from the spec: the mesh classes ([VolumetricMesh], [QuadMesh],
    [CubicMesh]) are not part of the sources at hand.  A particle-domain
    mesh is a vertex list and, per element (particle), the list of the
    global vertex indices of its corners. *)
Record VolumetricMesh : Type := mkMesh {
  vertices : list (Vector Dim);
  elements : list (list nat)
}.

Definition noMesh : VolumetricMesh := mkMesh [] [].
Definition vertNum (m : VolumetricMesh) : nat := length (vertices m).
Definition eleNum (m : VolumetricMesh) : nat := length (elements m).
Definition eleVertNum (m : VolumetricMesh) (ele : nat) : nat := length (row (elements m) ele).
Definition eleVertIndex (m : VolumetricMesh) (ele c : nat) : nat := at2 0%nat (elements m) ele c.
Definition vertPos (m : VolumetricMesh) (g : nat) : Vector Dim := default vzero (vertices m !! g).
Definition setVertPos (g : nat) (pos : Vector Dim) (m : VolumetricMesh) : VolumetricMesh :=
  mkMesh (<[g := pos]> (vertices m)) (elements m).
Definition setEleVertPos (ele c : nat) (pos : Vector Dim) (m : VolumetricMesh) : VolumetricMesh :=
  setVertPos (eleVertIndex m ele c) pos m.

(** The members of the base classes ([MPMSolid], [CPDIMPMSolid]) that the
    solver reads or writes. *)
Record CPDIMPMSolid : Type := mkBase {
  particles_ : list (list SolidParticle);
  is_dirichlet_particle_ : list (list bool);
  particle_initial_volume_ : list (list Scalar);
  particle_grid_weight_and_gradient_ : list (list (list NodeIndexWeightGradientPair));
  particle_grid_pair_num_ : list (list nat);
  grid_mass_ : list (gmap nat Scalar);
  grid_velocity_ : list (gmap nat (Vector Dim));
  grid_velocity_before_ : list (gmap nat (Vector Dim));
  is_dirichlet_grid_node_ : list (gset nat);
  active_grid_node_ : list (nat * nat);
  contact_method_ : bool;   (* [true] when the pointer is not NULL *)
  gravity_ : Scalar;
  particle_domain_corners_ : list (list (list (Vector Dim)));
  corner_grid_weight_and_gradient_ : list (list (list (list NodeIndexWeightGradientPair)));
  corner_grid_pair_num_ : list (list (list nat))
}.

Record InvertibleMPMSolid : Type := mkSolid {
  base : CPDIMPMSolid;
  particle_domain_mesh_ : list VolumetricMesh;
  is_enriched_domain_corner_ : list (list bool);
  domain_corner_mass_ : list (list Scalar);
  domain_corner_velocity_ : list (list (Vector Dim));
  domain_corner_velocity_before_ : list (list (Vector Dim));
  particle_corner_weight_ : list (list (list Scalar));
  particle_corner_gradient_ : list (list (list (Vector Dim)))
}.

(** Field updates. *)
Definition map_particles (f : list (list SolidParticle) -> list (list SolidParticle))
  (b : CPDIMPMSolid) : CPDIMPMSolid :=
  mkBase (f (particles_ b)) (is_dirichlet_particle_ b) (particle_initial_volume_ b)
    (particle_grid_weight_and_gradient_ b) (particle_grid_pair_num_ b)
    (grid_mass_ b) (grid_velocity_ b) (grid_velocity_before_ b)
    (is_dirichlet_grid_node_ b) (active_grid_node_ b) (contact_method_ b) (gravity_ b)
    (particle_domain_corners_ b) (corner_grid_weight_and_gradient_ b)
    (corner_grid_pair_num_ b).
Definition map_grid_mass (f : list (gmap nat Scalar) -> list (gmap nat Scalar))
  (b : CPDIMPMSolid) : CPDIMPMSolid :=
  mkBase (particles_ b) (is_dirichlet_particle_ b) (particle_initial_volume_ b)
    (particle_grid_weight_and_gradient_ b) (particle_grid_pair_num_ b)
    (f (grid_mass_ b)) (grid_velocity_ b) (grid_velocity_before_ b)
    (is_dirichlet_grid_node_ b) (active_grid_node_ b) (contact_method_ b) (gravity_ b)
    (particle_domain_corners_ b) (corner_grid_weight_and_gradient_ b)
    (corner_grid_pair_num_ b).
Definition map_grid_velocity
  (f : list (gmap nat (Vector Dim)) -> list (gmap nat (Vector Dim)))
  (b : CPDIMPMSolid) : CPDIMPMSolid :=
  mkBase (particles_ b) (is_dirichlet_particle_ b) (particle_initial_volume_ b)
    (particle_grid_weight_and_gradient_ b) (particle_grid_pair_num_ b)
    (grid_mass_ b) (f (grid_velocity_ b)) (grid_velocity_before_ b)
    (is_dirichlet_grid_node_ b) (active_grid_node_ b) (contact_method_ b) (gravity_ b)
    (particle_domain_corners_ b) (corner_grid_weight_and_gradient_ b)
    (corner_grid_pair_num_ b).
Definition map_grid_velocity_before
  (f : list (gmap nat (Vector Dim)) -> list (gmap nat (Vector Dim)))
  (b : CPDIMPMSolid) : CPDIMPMSolid :=
  mkBase (particles_ b) (is_dirichlet_particle_ b) (particle_initial_volume_ b)
    (particle_grid_weight_and_gradient_ b) (particle_grid_pair_num_ b)
    (grid_mass_ b) (grid_velocity_ b) (f (grid_velocity_before_ b))
    (is_dirichlet_grid_node_ b) (active_grid_node_ b) (contact_method_ b) (gravity_ b)
    (particle_domain_corners_ b) (corner_grid_weight_and_gradient_ b)
    (corner_grid_pair_num_ b).
Definition map_active_grid_node (f : list (nat * nat) -> list (nat * nat))
  (b : CPDIMPMSolid) : CPDIMPMSolid :=
  mkBase (particles_ b) (is_dirichlet_particle_ b) (particle_initial_volume_ b)
    (particle_grid_weight_and_gradient_ b) (particle_grid_pair_num_ b)
    (grid_mass_ b) (grid_velocity_ b) (grid_velocity_before_ b)
    (is_dirichlet_grid_node_ b) (f (active_grid_node_ b)) (contact_method_ b) (gravity_ b)
    (particle_domain_corners_ b) (corner_grid_weight_and_gradient_ b)
    (corner_grid_pair_num_ b).
Definition map_particle_domain_corners
  (f : list (list (list (Vector Dim))) -> list (list (list (Vector Dim))))
  (b : CPDIMPMSolid) : CPDIMPMSolid :=
  mkBase (particles_ b) (is_dirichlet_particle_ b) (particle_initial_volume_ b)
    (particle_grid_weight_and_gradient_ b) (particle_grid_pair_num_ b)
    (grid_mass_ b) (grid_velocity_ b) (grid_velocity_before_ b)
    (is_dirichlet_grid_node_ b) (active_grid_node_ b) (contact_method_ b) (gravity_ b)
    (f (particle_domain_corners_ b)) (corner_grid_weight_and_gradient_ b)
    (corner_grid_pair_num_ b).

Definition map_base (f : CPDIMPMSolid -> CPDIMPMSolid) (s : InvertibleMPMSolid)
  : InvertibleMPMSolid :=
  mkSolid (f (base s)) (particle_domain_mesh_ s) (is_enriched_domain_corner_ s)
    (domain_corner_mass_ s) (domain_corner_velocity_ s)
    (domain_corner_velocity_before_ s) (particle_corner_weight_ s)
    (particle_corner_gradient_ s).
Definition map_mesh (f : list VolumetricMesh -> list VolumetricMesh)
  (s : InvertibleMPMSolid) : InvertibleMPMSolid :=
  mkSolid (base s) (f (particle_domain_mesh_ s)) (is_enriched_domain_corner_ s)
    (domain_corner_mass_ s) (domain_corner_velocity_ s)
    (domain_corner_velocity_before_ s) (particle_corner_weight_ s)
    (particle_corner_gradient_ s).
Definition map_enriched (f : list (list bool) -> list (list bool))
  (s : InvertibleMPMSolid) : InvertibleMPMSolid :=
  mkSolid (base s) (particle_domain_mesh_ s) (f (is_enriched_domain_corner_ s))
    (domain_corner_mass_ s) (domain_corner_velocity_ s)
    (domain_corner_velocity_before_ s) (particle_corner_weight_ s)
    (particle_corner_gradient_ s).
Definition map_corner_mass (f : list (list Scalar) -> list (list Scalar))
  (s : InvertibleMPMSolid) : InvertibleMPMSolid :=
  mkSolid (base s) (particle_domain_mesh_ s) (is_enriched_domain_corner_ s)
    (f (domain_corner_mass_ s)) (domain_corner_velocity_ s)
    (domain_corner_velocity_before_ s) (particle_corner_weight_ s)
    (particle_corner_gradient_ s).
Definition map_corner_velocity
  (f : list (list (Vector Dim)) -> list (list (Vector Dim)))
  (s : InvertibleMPMSolid) : InvertibleMPMSolid :=
  mkSolid (base s) (particle_domain_mesh_ s) (is_enriched_domain_corner_ s)
    (domain_corner_mass_ s) (f (domain_corner_velocity_ s))
    (domain_corner_velocity_before_ s) (particle_corner_weight_ s)
    (particle_corner_gradient_ s).
Definition map_corner_velocity_before
  (f : list (list (Vector Dim)) -> list (list (Vector Dim)))
  (s : InvertibleMPMSolid) : InvertibleMPMSolid :=
  mkSolid (base s) (particle_domain_mesh_ s) (is_enriched_domain_corner_ s)
    (domain_corner_mass_ s) (domain_corner_velocity_ s)
    (f (domain_corner_velocity_before_ s)) (particle_corner_weight_ s)
    (particle_corner_gradient_ s).
Definition map_corner_weight
  (f : list (list (list Scalar)) -> list (list (list Scalar)))
  (s : InvertibleMPMSolid) : InvertibleMPMSolid :=
  mkSolid (base s) (particle_domain_mesh_ s) (is_enriched_domain_corner_ s)
    (domain_corner_mass_ s) (domain_corner_velocity_ s)
    (domain_corner_velocity_before_ s) (f (particle_corner_weight_ s))
    (particle_corner_gradient_ s).
Definition map_corner_gradient
  (f : list (list (list (Vector Dim))) -> list (list (list (Vector Dim))))
  (s : InvertibleMPMSolid) : InvertibleMPMSolid :=
  mkSolid (base s) (particle_domain_mesh_ s) (is_enriched_domain_corner_ s)
    (domain_corner_mass_ s) (domain_corner_velocity_ s)
    (domain_corner_velocity_before_ s) (particle_corner_weight_ s)
    (f (particle_corner_gradient_ s)).

(** ** Accessors of the base classes

    Modelled from the spec: [objectNum], [particleNumOfObject], [gridMass]
    and [gridVelocity] belong to [MPMSolid], which is not part of the sources
    at hand.  They are the sizes of the particle arrays and the per-object
    value stored at a grid node (zero when the object has no entry there). *)
Definition objectNum (b : CPDIMPMSolid) : nat := length (particles_ b).
Definition particleNumOfObject (b : CPDIMPMSolid) (obj : nat) : nat :=
  length (row (particles_ b) obj).
Definition gridMass (b : CPDIMPMSolid) (obj node : nat) : Scalar :=
  default 0 (grid_mass_ b !! node ≫= (.!! obj)).
Definition gridVelocity (b : CPDIMPMSolid) (obj node : nat) : Vector Dim :=
  default vzero (grid_velocity_ b !! node ≫= (.!! obj)).
(** [is_dirichlet_grid_node_(node).count(obj) > 0] *)
Definition isDirichletGridNode (b : CPDIMPMSolid) (node obj : nat) : bool :=
  bool_decide (obj ∈ default (∅ : gset nat) (is_dirichlet_grid_node_ b !! node)).

Definition particle (b : CPDIMPMSolid) (obj p : nat) : SolidParticle :=
  at2 noParticle (particles_ b) obj p.
Definition mesh (s : InvertibleMPMSolid) (obj : nat) : VolumetricMesh :=
  default noMesh (particle_domain_mesh_ s !! obj).
Definition isEnriched (s : InvertibleMPMSolid) (obj g : nat) : bool :=
  at2 false (is_enriched_domain_corner_ s) obj g.
Definition cornerMass (s : InvertibleMPMSolid) (obj g : nat) : Scalar :=
  at2 0 (domain_corner_mass_ s) obj g.
Definition cornerVelocity (s : InvertibleMPMSolid) (obj g : nat) : Vector Dim :=
  at2 vzero (domain_corner_velocity_ s) obj g.
Definition cornerVelocityBefore (s : InvertibleMPMSolid) (obj g : nat) : Vector Dim :=
  at2 vzero (domain_corner_velocity_before_ s) obj g.

(** [(Dim==2) ? 4 : 8] *)
Definition corner_num : nat := if decide (Dim = 2%nat) then 4%nat else 8%nat.

(** The particle-type test shared by all phases: the number of enriched
    corners of the particle's domain. *)
Definition enrichedCornerNum (s : InvertibleMPMSolid) (obj p : nat) : nat :=
  loop corner_num
    (fun corner_idx n =>
       let global_corner_idx := eleVertIndex (mesh s obj) p corner_idx in
       if isEnriched s obj global_corner_idx then S n else n) 0%nat.

(** ** Enrichment classification *)

(** [resetParticleDomainData] *)
Definition resetParticleDomainData (s : InvertibleMPMSolid) : InvertibleMPMSolid :=
  loop (objectNum (base s))
    (fun obj_idx s =>
       let domain_corner_num := vertNum (mesh s obj_idx) in
       loop domain_corner_num
         (fun domain_corner_idx s =>
            let s := map_enriched (alter (<[domain_corner_idx := false]>) obj_idx) s in
            let s := map_corner_mass (alter (<[domain_corner_idx := 0]>) obj_idx) s in
            let s := map_corner_velocity (alter (<[domain_corner_idx := vzero]>) obj_idx) s in
            map_corner_velocity_before (alter (<[domain_corner_idx := vzero]>) obj_idx) s)
         s)
    s.

(** [isEnrichCriteriaSatisfied]: the body in the source is [return true]
    with a TO DO.  The phases below take the criterion as an argument
    [crit]; the source's solver is their instance at this function. *)
Definition isEnrichCriteriaSatisfied (obj_idx particle_idx : nat) : bool := true.

(** [updateParticleDomainEnrichState].  The source keeps the meshes as
    pointers and asserts at line 642 that the pointer of the object is set;
    the state below holds the meshes by value, so the function is written
    for states in which every object has its mesh (which is what
    [constructParticleDomainMesh] leaves), and the statements about aborts
    assume so ([storageInRange]). *)
Definition updateParticleDomainEnrichState (crit : nat -> nat -> bool)
  (s : InvertibleMPMSolid) : InvertibleMPMSolid :=
  loop (objectNum (base s))
    (fun obj_idx s =>
       loop (particleNumOfObject (base s) obj_idx)
         (fun particle_idx s =>
            if crit obj_idx particle_idx then
              let corner_num := eleVertNum (mesh s obj_idx) particle_idx in
              loop corner_num
                (fun corner_idx s =>
                   let global_corner_idx :=
                     eleVertIndex (mesh s obj_idx) particle_idx corner_idx in
                   map_enriched (alter (<[global_corner_idx := true]>) obj_idx) s)
                s
            else s)
         s)
    s.

(** ** Rasterization *)

(** Modelled from the spec: [MPMSolid::resetGridData] is not part of the
    sources at hand.  The spec and the comment of line 97 say only that the
    data on the grid are reset before rasterization and that the
    active-node table is recomputed every step: the per-object masses of
    every node and the active-node table are cleared.  What happens to the
    velocity entries is not written anywhere; the definition assumes that an
    entry is kept where it is the prescribed velocity of a Dirichlet node of
    the object (the entries that lines 216-222 and 461-472 read) and dropped
    elsewhere.  The statements below use the cleared masses and table only;
    where a statement needs the velocity entries after the reset, it has a
    hypothesis about [resetGridData (base s)] itself. *)
Definition resetGridData (b : CPDIMPMSolid) : CPDIMPMSolid :=
  let keep (vel : list (gmap nat (Vector Dim))) :=
    imap (fun node m =>
            filter (fun kv => kv.1 ∈ default (∅ : gset nat) (is_dirichlet_grid_node_ b !! node)) m)
         vel in
  map_active_grid_node (fun _ => [])
    (map_grid_velocity_before keep
       (map_grid_velocity keep
          (map_grid_mass (fmap (fun _ => ∅)) b))).

(** Lines 122-139: one particle scattered to the grid nodes of its
    influence list. *)
Definition rasterizeParticleToGrid (obj_idx particle_idx : nat) (b : CPDIMPMSolid)
  : option CPDIMPMSolid :=
  let particle := particle b obj_idx particle_idx in
  loopM (at2 0%nat (particle_grid_pair_num_ b) obj_idx particle_idx)
    (fun i b =>
       let pair := at3 noPair (particle_grid_weight_and_gradient_ b) obj_idx particle_idx i in
       let weight := weight_value_ pair in
       if decide (epsilon < weight) then
         let b :=
           map_grid_mass
             (alter (fun m =>
                       match m !! obj_idx with
                       | Some old => <[obj_idx := old + weight * mass particle]> m
                       | None => <[obj_idx := weight * mass particle]> m
                       end) (node_idx_ pair)) b in
         if isDirichletGridNode b (node_idx_ pair) obj_idx then Some b
         else
           Some (map_grid_velocity
                   (alter (fun m =>
                             match m !! obj_idx with
                             | Some old =>
                                 <[obj_idx := vadd old (vscale weight (vscale (mass particle) (velocity particle)))]> m
                             | None =>
                                 <[obj_idx := vscale weight (vscale (mass particle) (velocity particle))]> m
                             end) (node_idx_ pair)) b)
       else None)
    b.

(** Lines 144-153: one particle scattered to the enriched corners of its
    domain. *)
Definition rasterizeParticleToCorners (obj_idx particle_idx : nat) (s : InvertibleMPMSolid)
  : InvertibleMPMSolid :=
  let particle := particle (base s) obj_idx particle_idx in
  loop corner_num
    (fun corner_idx s =>
       let global_corner_idx := eleVertIndex (mesh s obj_idx) particle_idx corner_idx in
       if isEnriched s obj_idx global_corner_idx then
         let weight := at3 0 (particle_corner_weight_ s) obj_idx particle_idx corner_idx in
         let s := map_corner_mass
                    (alter (alter (fun m => m + weight * mass particle) global_corner_idx) obj_idx) s in
         map_corner_velocity
           (alter (alter (fun v => vadd v (vscale weight (vscale (mass particle) (velocity particle))))
                     global_corner_idx) obj_idx) s
       else s)
    s.

(** Lines 104-155: the body of the particle loop. *)
Definition rasterizeParticle (obj_idx particle_idx : nat) (s : InvertibleMPMSolid)
  : option InvertibleMPMSolid :=
  let enriched_corner_num := enrichedCornerNum s obj_idx particle_idx in
  match (if decide (enriched_corner_num < corner_num)%nat
         then (fun b => map_base (fun _ => b) s) <$> rasterizeParticleToGrid obj_idx particle_idx (base s)
         else Some s) with
  | Some s =>
      if decide (0 < enriched_corner_num)%nat
      then Some (rasterizeParticleToCorners obj_idx particle_idx s)
      else Some s
  | None => None
  end.

(** Lines 157-162: corner momentum divided by corner mass. *)
Definition computeDomainCornerVelocity (obj_idx : nat) (s : InvertibleMPMSolid)
  : InvertibleMPMSolid :=
  loop (length (row (domain_corner_mass_ s) obj_idx))
    (fun corner_idx s =>
       if decide (epsilon < cornerMass s obj_idx corner_idx) then
         let s := map_corner_velocity
                    (alter (alter (fun v => vdiv v (cornerMass s obj_idx corner_idx)) corner_idx)
                       obj_idx) s in
         map_corner_velocity_before
           (alter (<[corner_idx := cornerVelocity s obj_idx corner_idx]>) obj_idx) s
       else s)
    s.

(** Lines 102-163: the object loop. *)
Definition rasterizeObjects (s : InvertibleMPMSolid) : option InvertibleMPMSolid :=
  loopM (objectNum (base s))
    (fun obj_idx s =>
       match loopM (particleNumOfObject (base s) obj_idx) (rasterizeParticle obj_idx) s with
       | Some s => Some (computeDomainCornerVelocity obj_idx s)
       | None => None
       end)
    s.

(** Lines 165-179: the active grid nodes; the second component is the
    local [active_node_idx_1d_nd_map]. *)
Definition determineActiveGridNodes (b : CPDIMPMSolid) : CPDIMPMSolid * gmap nat nat :=
  loop (length (grid_mass_ b))
    (fun node_idx st =>
       loop (objectNum b)
         (fun obj_idx (st : CPDIMPMSolid * gmap nat nat) =>
            if decide (epsilon < gridMass st.1 obj_idx node_idx) then
              (map_active_grid_node (multimap_insert node_idx obj_idx) st.1,
               match st.2 !! node_idx with
               | Some _ => st.2
               | None => <[node_idx := node_idx]> st.2
               end)
            else st)
         st)
    (b, ∅).

(** Lines 181-188: grid momentum divided by grid mass. *)
Definition computeGridVelocity (st : CPDIMPMSolid * gmap nat nat)
  : CPDIMPMSolid * gmap nat nat :=
  foldl
    (fun (st : CPDIMPMSolid * gmap nat nat) (entry : nat * nat) =>
       let node_idx_1d := entry.1 in
       let object_idx := entry.2 in
       let amap := touch 0%nat node_idx_1d st.2 in
       let node_idx := default 0%nat (amap !! node_idx_1d) in
       let b := st.1 in
       let b :=
         if isDirichletGridNode b node_idx object_idx then b
         else
           let b := map_grid_velocity (alter (touch vzero object_idx) node_idx) b in
           let b := map_grid_mass (alter (touch 0 object_idx) node_idx) b in
           map_grid_velocity
             (alter (fun m => <[object_idx := vdiv (default vzero (m !! object_idx))
                                                 (gridMass b object_idx node_idx)]> m)
                node_idx) b in
       let b := map_grid_velocity (alter (touch vzero object_idx) node_idx) b in
       let b := map_grid_velocity_before
                  (alter (<[object_idx := gridVelocity b object_idx node_idx]>) node_idx) b in
       (b, amap))
    st (active_grid_node_ st.1).

(** Lines 202-210: mass and momentum of all involved objects. *)
Definition accumulateAtNode (node_idx : nat) (objs : list nat) (b : CPDIMPMSolid)
  : CPDIMPMSolid * Scalar * Vector Dim :=
  foldl
    (fun (acc : CPDIMPMSolid * Scalar * Vector Dim) (obj : nat) =>
       let '(b, mass_at_node, momentum_at_node) := acc in
       let b := map_grid_mass (alter (touch 0 obj) node_idx) b in
       let b := map_grid_velocity (alter (touch vzero obj) node_idx) b in
       (b,
        mass_at_node + gridMass b obj node_idx,
        vadd momentum_at_node (vscale (gridMass b obj node_idx) (gridVelocity b obj node_idx))))
    (b, 0, vzero) objs.

(** Lines 216-222: the first velocity entry of an object for which the node
    is Dirichlet overrides the merged velocity. *)
Fixpoint dirichletOverride (dirichlet : gset nat) (vel : gmap nat (Vector Dim))
  (ks : list nat) (momentum_at_node : Vector Dim) : Vector Dim :=
  match ks with
  | [] => momentum_at_node
  | k :: rest =>
      if decide (k ∈ dirichlet) then default vzero (vel !! k)
      else dirichletOverride dirichlet vel rest momentum_at_node
  end.

(** Lines 195-229: one node of the merge loop. *)
Definition unifyNode (node_idx_1d node_idx : nat) (b : CPDIMPMSolid) : CPDIMPMSolid :=
  let objs := equal_range node_idx_1d (active_grid_node_ b) in
  if decide (length objs = 1%nat) then b
  else
    let '(b, mass_at_node, momentum_at_node) := accumulateAtNode node_idx objs b in
    let momentum_at_node := vdiv momentum_at_node mass_at_node in
    let b := map_grid_mass (alter (fmap (fun _ => mass_at_node)) node_idx) b in
    let vel := default ∅ (grid_velocity_ b !! node_idx) in
    let momentum_at_node :=
      dirichletOverride (default ∅ (is_dirichlet_grid_node_ b !! node_idx)) vel (keys vel)
        momentum_at_node in
    let b := map_grid_velocity (alter (fmap (fun _ => momentum_at_node)) node_idx) b in
    map_grid_velocity_before
      (alter (fun before => foldl (fun before k => <[k := momentum_at_node]> before) before (keys vel))
         node_idx) b.

(** Lines 190-231: multi-valued nodes are unified when there is no contact
    method. *)
Definition unifyMultiValuedNodes (st : CPDIMPMSolid * gmap nat nat) : CPDIMPMSolid :=
  if contact_method_ st.1 then st.1
  else
    foldl (fun b node_idx_1d => unifyNode node_idx_1d (default 0%nat (st.2 !! node_idx_1d)) b)
      st.1 (keys st.2).

(** The state of the solver after the scatter and the two normalisation
    passes, before the merge of line 190. *)
Definition rasterizeBeforeMerge (crit : nat -> nat -> bool) (s : InvertibleMPMSolid)
  : option (InvertibleMPMSolid * gmap nat nat) :=
  let s := map_base resetGridData s in
  let s := resetParticleDomainData s in
  let s := updateParticleDomainEnrichState crit s in
  match rasterizeObjects s with
  | Some s =>
      let st := computeGridVelocity (determineActiveGridNodes (base s)) in
      Some (map_base (fun _ => st.1) s, st.2)
  | None => None
  end.

(** [rasterize] *)
Definition rasterize (crit : nat -> nat -> bool) (s : InvertibleMPMSolid)
  : option InvertibleMPMSolid :=
  match rasterizeBeforeMerge crit s with
  | Some (s, amap) => Some (map_base (fun b => unifyMultiValuedNodes (b, amap)) s)
  | None => None
  end.

(** ** Constitutive update *)

(** Lines 273-291: the velocity gradient of a particle, reconstructed from
    the grid nodes and from the enriched corners of its domain. *)
Definition particleVelocityGradient (s : InvertibleMPMSolid) (obj_idx particle_idx : nat)
  : SquareMatrix Dim :=
  let enriched_corner_num := enrichedCornerNum s obj_idx particle_idx in
  let particle_vel_grad := mzero in
  let particle_vel_grad :=
    if decide (enriched_corner_num < corner_num)%nat then
      loop (at2 0%nat (particle_grid_pair_num_ (base s)) obj_idx particle_idx)
        (fun i particle_vel_grad =>
           let pair := at3 noPair (particle_grid_weight_and_gradient_ (base s))
                         obj_idx particle_idx i in
           let node_idx := node_idx_ pair in
           let weight_gradient := gradient_value_ pair in
           madd particle_vel_grad
             (outerProduct (gridVelocity (base s) obj_idx node_idx) weight_gradient))
        particle_vel_grad
    else particle_vel_grad in
  if decide (0 < enriched_corner_num)%nat then
    loop corner_num
      (fun corner_idx particle_vel_grad =>
         let global_corner_idx := eleVertIndex (mesh s obj_idx) particle_idx corner_idx in
         if isEnriched s obj_idx global_corner_idx then
           madd particle_vel_grad
             (outerProduct (cornerVelocity s obj_idx global_corner_idx)
                (at3 vzero (particle_corner_gradient_ s) obj_idx particle_idx corner_idx))
         else particle_vel_grad)
      particle_vel_grad
  else particle_vel_grad.

(** Lines 262-303: the body of the particle loop; [None] is the failure of
    [PHYSIKA_ASSERT(particle_deform_grad.determinant() > 0)]. *)
Definition updateParticleConstitutiveModel (dt : Scalar) (obj_idx particle_idx : nat)
  (s : InvertibleMPMSolid) : option InvertibleMPMSolid :=
  let particle := particle (base s) obj_idx particle_idx in
  let particle_vel_grad := particleVelocityGradient s obj_idx particle_idx in
  let particle_deform_grad :=
    integrateDeformationGradient Dim dt particle_vel_grad (deformationGradient particle) in
  if decide (0 < determinant Dim particle_deform_grad) then
    let particle_vol :=
      determinant Dim particle_deform_grad
      * at2 0 (particle_initial_volume_ (base s)) obj_idx particle_idx in
    Some (map_base
            (map_particles
               (alter (alter (fun p => setVolume particle_vol
                                         (setDeformationGradient particle_deform_grad p))
                         particle_idx) obj_idx)) s)
  else None.

(** [updateParticleConstitutiveModelState] *)
Definition updateParticleConstitutiveModelState (dt : Scalar) (s : InvertibleMPMSolid)
  : option InvertibleMPMSolid :=
  loopM (objectNum (base s))
    (fun obj_idx s =>
       loopM (particleNumOfObject (base s) obj_idx)
         (updateParticleConstitutiveModel dt obj_idx) s)
    s.

(** ** Velocity update *)

(** Lines 339-355: the accumulation over the grid influence list;
    [None] is [PHYSIKA_ERROR]. *)
Definition gridVelocityDelta (s : InvertibleMPMSolid) (obj_idx particle_idx : nat)
  (new_vel : Vector Dim) : option (Vector Dim) :=
  let b := base s in
  loopM (at2 0%nat (particle_grid_pair_num_ b) obj_idx particle_idx)
    (fun i new_vel =>
       let pair := at3 noPair (particle_grid_weight_and_gradient_ b) obj_idx particle_idx i in
       let node_idx := node_idx_ pair in
       if decide (gridMass b obj_idx node_idx <= epsilon) then Some new_vel
       else
         let weight := weight_value_ pair in
         match default ∅ (grid_velocity_ b !! node_idx) !! obj_idx with
         | Some cur_grid_vel =>
             match default ∅ (grid_velocity_before_ b !! node_idx) !! obj_idx with
             | Some grid_vel_before =>
                 Some (vadd new_vel (vscale weight (vsub cur_grid_vel grid_vel_before)))
             | None => None
             end
         | None => None
         end)
    new_vel.

(** Lines 359-367: the accumulation over the enriched corners.  The weight
    is read at [particle_corner_weight_[obj_idx][obj_idx][corner_idx]], as
    the source has it.  The read of line 364 is an unchecked vector access:
    where the record [obj_idx] of object [obj_idx] does not exist the source
    has no defined result, and the definition reads 0 there; the statements
    that conclude a return assume the record exists ([weightReadInRange]). *)
Definition cornerVelocityDelta (s : InvertibleMPMSolid) (obj_idx particle_idx : nat)
  (new_vel : Vector Dim) : Vector Dim :=
  loop corner_num
    (fun corner_idx new_vel =>
       let global_corner_idx := eleVertIndex (mesh s obj_idx) particle_idx corner_idx in
       if isEnriched s obj_idx global_corner_idx then
         let weight := at3 0 (particle_corner_weight_ s) obj_idx obj_idx corner_idx in
         vadd new_vel
           (vscale weight
              (vsub (cornerVelocity s obj_idx global_corner_idx)
                    (cornerVelocityBefore s obj_idx global_corner_idx)))
       else new_vel)
    new_vel.

(** Lines 323-370: the body of the particle loop. *)
Definition updateOneParticleVelocity (obj_idx particle_idx : nat) (s : InvertibleMPMSolid)
  : option InvertibleMPMSolid :=
  if at2 false (is_dirichlet_particle_ (base s)) obj_idx particle_idx then Some s
  else
    let enriched_corner_num := enrichedCornerNum s obj_idx particle_idx in
    let particle := particle (base s) obj_idx particle_idx in
    let new_vel := velocity particle in
    match (if decide (enriched_corner_num < corner_num)%nat
           then gridVelocityDelta s obj_idx particle_idx new_vel
           else Some new_vel) with
    | Some new_vel =>
        let new_vel :=
          if decide (0 < enriched_corner_num)%nat
          then cornerVelocityDelta s obj_idx particle_idx new_vel
          else new_vel in
        Some (map_base
                (map_particles (alter (alter (setVelocity new_vel) particle_idx) obj_idx)) s)
    | None => None
    end.

(** [updateParticleVelocity] *)
Definition updateParticleVelocity (s : InvertibleMPMSolid) : option InvertibleMPMSolid :=
  loopM (objectNum (base s))
    (fun obj_idx s =>
       loopM (particleNumOfObject (base s) obj_idx) (updateOneParticleVelocity obj_idx) s)
    s.

(** ** Position update *)

(** Lines 398-410: the new position of one corner of one particle. *)
Definition newCornerPosition (dt : Scalar) (s : InvertibleMPMSolid)
  (obj_idx particle_idx corner_idx : nat) : Vector Dim :=
  let b := base s in
  let global_corner_idx := eleVertIndex (mesh s obj_idx) particle_idx corner_idx in
  let new_corner_pos := at3 vzero (particle_domain_corners_ b) obj_idx particle_idx corner_idx in
  if isEnriched s obj_idx global_corner_idx then
    vadd new_corner_pos (vscale dt (cornerVelocity s obj_idx global_corner_idx))
  else
    loop (at3 0%nat (corner_grid_pair_num_ b) obj_idx particle_idx corner_idx)
      (fun i new_corner_pos =>
         let pair := at4 noPair (corner_grid_weight_and_gradient_ b)
                       obj_idx particle_idx corner_idx i in
         let weight := weight_value_ pair in
         let node_vel := gridVelocity b obj_idx (node_idx_ pair) in
         vadd new_corner_pos (vscale dt (vscale weight node_vel)))
      new_corner_pos.

(** Lines 391-415: the particle domains are advanced corner by corner; each
    new position goes to the per-particle array and to the mesh vertex. *)
Definition updateParticleDomains (dt : Scalar) (s : InvertibleMPMSolid) : InvertibleMPMSolid :=
  loop (objectNum (base s))
    (fun obj_idx s =>
       loop (particleNumOfObject (base s) obj_idx)
         (fun particle_idx s =>
            loop corner_num
              (fun corner_idx s =>
                 let global_corner_idx :=
                   eleVertIndex (mesh s obj_idx) particle_idx corner_idx in
                 let new_corner_pos := newCornerPosition dt s obj_idx particle_idx corner_idx in
                 let s := map_base
                            (map_particle_domain_corners
                               (alter (alter (<[corner_idx := new_corner_pos]>) particle_idx)
                                  obj_idx)) s in
                 map_mesh (alter (setVertPos global_corner_idx new_corner_pos) obj_idx) s)
              s)
         s)
    s.

(** [CPDI2UpdateMethod::updateParticlePosition] is an external collaborator
    that is not part of the sources at hand; it is the parameter
    [cpdi2UpdateParticlePosition], a function of the time step and of the
    base-class members. *)
Variable cpdi2UpdateParticlePosition : Scalar -> CPDIMPMSolid -> list (list SolidParticle).

(** [updateParticlePosition] (the installed update method is CPDI2, as the
    constructors set it). *)
Definition updateParticlePosition (dt : Scalar) (s : InvertibleMPMSolid) : InvertibleMPMSolid :=
  let s := updateParticleDomains dt s in
  map_base (fun b => map_particles (fun _ => cpdi2UpdateParticlePosition dt b) b) s.

(** Modelled from the spec: [CPDIMPMSolid::setCurrentParticleDomain] is not
    part of the sources at hand; it stores the given corners as the current
    domain of the particle. *)
Definition CPDIMPMSolid_setCurrentParticleDomain (object_idx particle_idx : nat)
  (particle_domain_corner : list (Vector Dim)) (b : CPDIMPMSolid) : CPDIMPMSolid :=
  map_particle_domain_corners
    (alter (alter (fun old =>
                     foldl (fun cs (e : nat * Vector Dim) => <[e.1 := e.2]> cs) old
                       (imap pair particle_domain_corner))
              particle_idx) object_idx) b.

(** [setCurrentParticleDomain] *)
Definition setCurrentParticleDomain (object_idx particle_idx : nat)
  (particle_domain_corner : list (Vector Dim)) (s : InvertibleMPMSolid) : InvertibleMPMSolid :=
  let s := map_base
             (CPDIMPMSolid_setCurrentParticleDomain object_idx particle_idx
                particle_domain_corner) s in
  foldl
    (fun s (e : nat * Vector Dim) =>
       let corner_idx := e.1 in
       map_mesh (alter (setEleVertPos particle_idx corner_idx e.2) object_idx) s)
    s (imap pair particle_domain_corner).

(** ** Explicit solve on the grid and on the domain corners *)

(** [dt*(-1)*(particle->volume())*cauchy_stress*weight_gradient/m] *)
Definition internalForceDelta (dt : Scalar) (p : SolidParticle)
  (weight_gradient : Vector Dim) (m : Scalar) : Vector Dim :=
  vdiv (mvmul (mscale (dt * (- (1)) * volume p) (cauchyStress p)) weight_gradient) m.

(** Lines 458-478. *)
Definition solveParticleOnGrid (dt : Scalar) (obj_idx particle_idx : nat)
  (b : CPDIMPMSolid) : CPDIMPMSolid :=
  let particle := particle b obj_idx particle_idx in
  loop (at2 0%nat (particle_grid_pair_num_ b) obj_idx particle_idx)
    (fun i b =>
       let pair := at3 noPair (particle_grid_weight_and_gradient_ b) obj_idx particle_idx i in
       let node := node_idx_ pair in
       if isDirichletGridNode b node obj_idx then b
       else
         let weight_gradient := gradient_value_ pair in
         let b := map_grid_mass (alter (touch 0 obj_idx) node) b in
         if decide (gridMass b obj_idx node <= epsilon) then b
         else
           let delta := internalForceDelta dt particle weight_gradient (gridMass b obj_idx node) in
           if contact_method_ b then
             map_grid_velocity
               (alter (fun m => <[obj_idx := vadd (default vzero (m !! obj_idx)) delta]> m) node) b
           else if decide (0 < size (default (∅ : gset nat) (is_dirichlet_grid_node_ b !! node)))%nat
           then b
           else
             map_grid_velocity
               (alter (fun m =>
                         foldl (fun m k =>
                                  if decide (epsilon < gridMass b k node)
                                  then <[k := vadd (default vzero (m !! k)) delta]> m
                                  else m)
                           m (keys m))
                  node) b)
    b.

(** Lines 482-494. *)
Definition solveParticleOnCorners (dt : Scalar) (obj_idx particle_idx : nat)
  (s : InvertibleMPMSolid) : InvertibleMPMSolid :=
  let particle := particle (base s) obj_idx particle_idx in
  loop corner_num
    (fun corner_idx s =>
       let global_corner_idx := eleVertIndex (mesh s obj_idx) particle_idx corner_idx in
       if isEnriched s obj_idx global_corner_idx then
         if decide (cornerMass s obj_idx global_corner_idx <= epsilon) then s
         else
           let weight_gradient :=
             at3 vzero (particle_corner_gradient_ s) obj_idx particle_idx corner_idx in
           map_corner_velocity
             (alter (alter (fun v =>
                              vadd v (internalForceDelta dt particle weight_gradient
                                        (cornerMass s obj_idx global_corner_idx)))
                       global_corner_idx) obj_idx) s
       else s)
    s.

(** [applyGravityOnEnrichedDomainCorner] *)
Definition applyGravityOnEnrichedDomainCorner (dt : Scalar) (s : InvertibleMPMSolid)
  : InvertibleMPMSolid :=
  loop (objectNum (base s))
    (fun obj_idx s =>
       loop (length (row (domain_corner_velocity_ s) obj_idx))
         (fun corner_idx s =>
            if isEnriched s obj_idx corner_idx then
              map_corner_velocity
                (alter (alter (talter (fun x => x + dt * (- (1)) * gravity_ (base s)) Dim 1)
                          corner_idx) obj_idx) s
            else s)
         s)
    s.

(** [solveOnGridForwardEuler] *)
Definition solveOnGridForwardEuler (dt : Scalar) (s : InvertibleMPMSolid) : InvertibleMPMSolid :=
  let s :=
    loop (objectNum (base s))
      (fun obj_idx s =>
         loop (particleNumOfObject (base s) obj_idx)
           (fun particle_idx s =>
              let enriched_corner_num := enrichedCornerNum s obj_idx particle_idx in
              let s :=
                if decide (enriched_corner_num < corner_num)%nat
                then map_base (solveParticleOnGrid dt obj_idx particle_idx) s
                else s in
              if decide (0 < enriched_corner_num)%nat
              then solveParticleOnCorners dt obj_idx particle_idx s
              else s)
           s)
      s in
  applyGravityOnEnrichedDomainCorner dt s.

(** ** Particle and object life cycle

    The four functions first call their [CPDIMPMSolid] counterparts, which
    are not part of the sources at hand; they act on the base-class members
    only and are the parameters below. *)
Variable CPDIMPMSolid_appendAllParticleRelatedDataOfLastObject : CPDIMPMSolid -> CPDIMPMSolid.
Variable CPDIMPMSolid_appendLastParticleRelatedDataOfObject : nat -> CPDIMPMSolid -> CPDIMPMSolid.
Variable CPDIMPMSolid_deleteAllParticleRelatedDataOfObject : nat -> CPDIMPMSolid -> CPDIMPMSolid.
Variable CPDIMPMSolid_deleteOneParticleRelatedDataOfObject :
  nat -> nat -> CPDIMPMSolid -> CPDIMPMSolid.

(** [appendAllParticleRelatedDataOfLastObject].  Line 513 computes
    [objectNum() - 1] in [unsigned int]. *)
Definition appendAllParticleRelatedDataOfLastObject (s : InvertibleMPMSolid)
  : InvertibleMPMSolid :=
  let s := map_base CPDIMPMSolid_appendAllParticleRelatedDataOfLastObject s in
  let last_object_idx := unsignedMinusOne (objectNum (base s)) in
  let particle_num_of_last_object := particleNumOfObject (base s) last_object_idx in
  let one_particle_corner_weight := replicate corner_num (0 : Scalar) in
  let one_particle_corner_gradient := replicate corner_num (vzero : Vector Dim) in
  let all_particle_corner_weight :=
    replicate particle_num_of_last_object one_particle_corner_weight in
  let all_particle_corner_gradient :=
    replicate particle_num_of_last_object one_particle_corner_gradient in
  let s := map_corner_weight (fun w => w ++ [all_particle_corner_weight]) s in
  map_corner_gradient (fun g => g ++ [all_particle_corner_gradient]) s.

(** [appendLastParticleRelatedDataOfObject] *)
Definition appendLastParticleRelatedDataOfObject (object_idx : nat) (s : InvertibleMPMSolid)
  : InvertibleMPMSolid :=
  let s := map_base (CPDIMPMSolid_appendLastParticleRelatedDataOfObject object_idx) s in
  let one_particle_corner_weight := replicate corner_num (0 : Scalar) in
  let one_particle_corner_gradient := replicate corner_num (vzero : Vector Dim) in
  let s := map_corner_weight
             (alter (fun w => w ++ [one_particle_corner_weight]) object_idx) s in
  map_corner_gradient (alter (fun g => g ++ [one_particle_corner_gradient]) object_idx) s.

(** [deleteAllParticleRelatedDataOfObject] *)
Definition deleteAllParticleRelatedDataOfObject (object_idx : nat) (s : InvertibleMPMSolid)
  : InvertibleMPMSolid :=
  let s := map_base (CPDIMPMSolid_deleteAllParticleRelatedDataOfObject object_idx) s in
  let s := map_corner_weight (delete object_idx) s in
  map_corner_gradient (delete object_idx) s.

(** [deleteOneParticleRelatedDataOfObject] *)
Definition deleteOneParticleRelatedDataOfObject (object_idx particle_idx : nat)
  (s : InvertibleMPMSolid) : InvertibleMPMSolid :=
  let s := map_base
             (CPDIMPMSolid_deleteOneParticleRelatedDataOfObject object_idx particle_idx) s in
  let s := map_corner_weight (alter (delete particle_idx) object_idx) s in
  map_corner_gradient (alter (delete particle_idx) object_idx) s.

(** ** Construction of the particle-domain meshes *)

(** Lines 591-607: corner positions welded by exact equality; the result is
    the vertex list and the connectivity of the elements. *)
Definition weldDomainCorners (particle_corners : list (list (Vector Dim)))
  (particle_num : nat) : list (Vector Dim) * list (list nat) :=
  loop particle_num
    (fun particle_idx (acc : list (Vector Dim) * list (list nat)) =>
       let '(corner_positions, domains) :=
         loop corner_num
           (fun corner_idx (acc : list (Vector Dim) * list nat) =>
              let pos := at2 vzero particle_corners particle_idx corner_idx in
              match list_find (fun q => q = pos) acc.1 with
              | None => (acc.1 ++ [pos], acc.2 ++ [length acc.1])
              | Some (idx, _) => (acc.1, acc.2 ++ [idx])
              end)
           (acc.1, []) in
       (corner_positions, acc.2 ++ [domains]))
    ([], []).

(** [constructParticleDomainMesh] ([clearParticleDomainMesh] frees the old
    meshes, which are all replaced). *)
Definition constructParticleDomainMesh (s : InvertibleMPMSolid) : InvertibleMPMSolid :=
  let obj_num := objectNum (base s) in
  let s := map_mesh (resize obj_num noMesh) s in
  let s := map_enriched (resize obj_num []) s in
  let s := map_corner_mass (resize obj_num []) s in
  let s := map_corner_velocity (resize obj_num []) s in
  let s := map_corner_velocity_before (resize obj_num []) s in
  loop (objectNum (base s))
    (fun obj_idx s =>
       let particle_num := particleNumOfObject (base s) obj_idx in
       let '(corner_positions, domains) :=
         weldDomainCorners (row (particle_domain_corners_ (base s)) obj_idx) particle_num in
       let vert_num := length corner_positions in
       let s := map_mesh (<[obj_idx := mkMesh corner_positions domains]>) s in
       let s := map_enriched (alter (resize vert_num false) obj_idx) s in
       let s := map_corner_mass (alter (resize vert_num 0) obj_idx) s in
       let s := map_corner_velocity (alter (resize vert_num vzero) obj_idx) s in
       map_corner_velocity_before (alter (resize vert_num vzero) obj_idx) s)
    s.

(** [initSimulationData], after the base-class initialisation. *)
Definition initSimulationData (s : InvertibleMPMSolid) : InvertibleMPMSolid :=
  constructParticleDomainMesh s.

End Solver.

Arguments SolidParticle : clear implicits.
Arguments NodeIndexWeightGradientPair : clear implicits.
Arguments VolumetricMesh : clear implicits.
Arguments CPDIMPMSolid : clear implicits.
Arguments InvertibleMPMSolid : clear implicits.
Arguments corner_num : clear implicits.

(** ** Index alignment of per-particle storage

    [l] and [l'] are per-object lists of per-particle records, before and
    after a life-cycle operation. *)

(** Two nested arrays have the same shape: as many rows, and rows of the
    same length. *)
Definition lockstep {A B} (l : list (list A)) (m : list (list B)) : Prop :=
  length m = length l /\
  forall o, (o < length l)%nat -> length (row m o) = length (row l o).

(** A record [r] was appended for a new last particle of object [obj]:
    every older record keeps its index. *)
Definition recordAppended {A} (l l' : list (list A)) (obj : nat) (r : A) : Prop :=
  length l' = length l /\
  (forall o, o <> obj -> l' !! o = l !! o) /\
  (forall i, (i < length (row l obj))%nat -> row l' obj !! i = row l obj !! i) /\
  ((obj < length l)%nat ->
     length (row l' obj) = S (length (row l obj)) /\
     row l' obj !! length (row l obj) = Some r).

(** The record of particle [p] of object [obj] was erased: the records
    before [p] keep their index, the later ones move down by one. *)
Definition recordErased {A} (l l' : list (list A)) (obj p : nat) : Prop :=
  length l' = length l /\
  (forall o, o <> obj -> l' !! o = l !! o) /\
  (forall i, row l' obj !! i = row l obj !! (if decide (i < p)%nat then i else S i)).

(** The records [rs] of a new last object were appended. *)
Definition objectAppended {A} (l l' : list (list A)) (rs : list A) : Prop :=
  length l' = S (length l) /\
  (forall o, (o < length l)%nat -> l' !! o = l !! o) /\
  l' !! length l = Some rs.

(** The records of object [obj] were erased: the objects before [obj] keep
    their index, the later ones move down by one. *)
Definition objectErased {A} (l l' : list (list A)) (obj : nat) : Prop :=
  forall o, l' !! o = l !! (if decide (o < obj)%nat then o else S o).

(** [f 0 + ... + f (n-1)] *)
Definition sumTo (n : nat) (f : nat -> Scalar) : Scalar :=
  loop n (fun i acc => acc + f i) 0.

(** ** Vocabulary of the statements *)

Section Vocabulary.
Context {Dim : nat}.
Implicit Types s t : InvertibleMPMSolid Dim.

(** The solver state with the particle array erased: what a phase that only
    writes particles leaves unchanged. *)
Definition erase_particles s : InvertibleMPMSolid Dim :=
  map_base (map_particles (fun _ => [])) s.

(** The deformation gradient that the constitutive update computes for a
    particle, from the state at the start of the update. *)
Definition newDeformationGradient (dt : Scalar) s (obj p : nat) : SquareMatrix Dim :=
  integrateDeformationGradient Dim dt (particleVelocityGradient s obj p)
    (deformationGradient (particle (base s) obj p)).

(** [(obj, p)] comes before [(o, q)] in the order of the particle loops. *)
Definition before (o q obj p : nat) : Prop := (obj < o \/ (obj = o /\ p < q))%nat.

(** The loop invariant of [updateParticleConstitutiveModelState]. *)
Definition updated (dt : Scalar) (o q : nat) s0 s : Prop :=
  erase_particles s = erase_particles s0 /\
  objectNum (base s) = objectNum (base s0) /\
  (forall obj, particleNumOfObject (base s) obj = particleNumOfObject (base s0) obj) /\
  forall obj p, (obj < objectNum (base s0))%nat -> (p < particleNumOfObject (base s0) obj)%nat ->
    (before o q obj p ->
       deformationGradient (particle (base s) obj p) = newDeformationGradient dt s0 obj p /\
       volume (particle (base s) obj p) =
         determinant Dim (newDeformationGradient dt s0 obj p)
         * at2 0 (particle_initial_volume_ (base s0)) obj p /\
       0 < determinant Dim (newDeformationGradient dt s0 obj p)) /\
    (~ before o q obj p -> particle (base s) obj p = particle (base s0) obj p).

(** The domain of particle [p] has the mesh vertex [g] as a corner. *)
Definition domainContains (m : VolumetricMesh Dim) (p g : nat) : Prop :=
  exists c, (c < eleVertNum m p)%nat /\ eleVertIndex m p c = g.

(** What the phases that only write per-corner data leave unchanged. *)
Definition cornerFrame s t : Prop :=
  base t = base s /\
  particle_domain_mesh_ t = particle_domain_mesh_ s /\
  particle_corner_weight_ t = particle_corner_weight_ s /\
  particle_corner_gradient_ t = particle_corner_gradient_ s.

(** The per-corner arrays keep their sizes. *)
Definition cornerShape s t : Prop :=
  forall obj,
    length (row (is_enriched_domain_corner_ t) obj)
      = length (row (is_enriched_domain_corner_ s) obj) /\
    length (row (domain_corner_mass_ t) obj) = length (row (domain_corner_mass_ s) obj) /\
    length (row (domain_corner_velocity_ t) obj)
      = length (row (domain_corner_velocity_ s) obj) /\
    length (row (domain_corner_velocity_before_ t) obj)
      = length (row (domain_corner_velocity_before_ s) obj).

(** The data that decide the particle type in every phase: the domain
    meshes and the enrichment flags. *)
Definition classification s : list (VolumetricMesh Dim) * list (list bool) :=
  (particle_domain_mesh_ s, is_enriched_domain_corner_ s).

(** The domain mesh of an object as [constructParticleDomainMesh] builds it:
    one flag per vertex, [corner_num] in-range corners per particle, and
    every vertex a corner of some particle. *)
Definition wellFormedDomainMesh s (obj : nat) : Prop :=
  length (row (is_enriched_domain_corner_ s) obj) = vertNum (mesh s obj) /\
  (forall p, (p < particleNumOfObject (base s) obj)%nat ->
     eleVertNum (mesh s obj) p = corner_num Dim /\
     forall c, (c < corner_num Dim)%nat ->
       (eleVertIndex (mesh s obj) p c < vertNum (mesh s obj))%nat) /\
  (forall g, (g < vertNum (mesh s obj))%nat ->
     exists p, (p < particleNumOfObject (base s) obj)%nat /\
               domainContains (mesh s obj) p g).

(** The enriched-corner accumulation of the velocity update as the spec
    words it: the weight is the one of the particle being updated,
    [particle_corner_weight_[obj_idx][particle_idx][corner_idx]]. *)
Definition claimedCornerVelocityDelta s (obj_idx particle_idx : nat)
  (new_vel : Vector Dim) : Vector Dim :=
  loop (corner_num Dim)
    (fun corner_idx new_vel =>
       let global_corner_idx := eleVertIndex (mesh s obj_idx) particle_idx corner_idx in
       if isEnriched s obj_idx global_corner_idx then
         let weight := at3 0 (particle_corner_weight_ s) obj_idx particle_idx corner_idx in
         vadd new_vel
           (vscale weight
              (vsub (cornerVelocity s obj_idx global_corner_idx)
                    (cornerVelocityBefore s obj_idx global_corner_idx)))
       else new_vel)
    new_vel.

(** The domain meshes and the per-corner arrays. *)
Definition domainMeshData s :=
  (particle_domain_mesh_ s, is_enriched_domain_corner_ s, domain_corner_mass_ s,
   domain_corner_velocity_ s, domain_corner_velocity_before_ s).

(** The storage that the position update of object [obj] writes exists:
    the object has a mesh, and every corner of every particle has a slot in
    the per-particle array and an in-range vertex in the mesh. *)
Definition wellFormedDomainStorage s (obj : nat) : Prop :=
  (obj < length (particle_domain_mesh_ s))%nat /\
  forall p c, (p < particleNumOfObject (base s) obj)%nat -> (c < corner_num Dim)%nat ->
    (eleVertIndex (mesh s obj) p c < vertNum (mesh s obj))%nat /\
    (c < length (row (row (particle_domain_corners_ (base s)) obj) p))%nat.

(** Two local corners that are the same mesh vertex. *)
Definition sameVertex s (obj p c p' c' : nat) : Prop :=
  (p < particleNumOfObject (base s) obj)%nat /\ (c < corner_num Dim)%nat /\
  (p' < particleNumOfObject (base s) obj)%nat /\ (c' < corner_num Dim)%nat /\
  eleVertIndex (mesh s obj) p c = eleVertIndex (mesh s obj) p' c'.

(** The particles that share a vertex store the same position for it. *)
Definition storedCornersAgree s (obj : nat) : Prop :=
  forall p c p' c', sameVertex s obj p c p' c' ->
    at3 vzero (particle_domain_corners_ (base s)) obj p c =
    at3 vzero (particle_domain_corners_ (base s)) obj p' c'.

(** The particles that share an ordinary vertex have the same grid
    influence list for it. *)
Definition ordinaryInfluenceAgrees s (obj : nat) : Prop :=
  forall p c p' c', sameVertex s obj p c p' c' ->
    isEnriched s obj (eleVertIndex (mesh s obj) p c) = false ->
    at3 0%nat (corner_grid_pair_num_ (base s)) obj p c =
      at3 0%nat (corner_grid_pair_num_ (base s)) obj p' c' /\
    row (row (row (corner_grid_weight_and_gradient_ (base s)) obj) p) c =
      row (row (row (corner_grid_weight_and_gradient_ (base s)) obj) p') c'.

(** Domain-mesh consistency at one corner of one particle. *)
Definition cornerConsistent s (obj p c : nat) : Prop :=
  at3 vzero (particle_domain_corners_ (base s)) obj p c =
  vertPos (mesh s obj) (eleVertIndex (mesh s obj) p c).

(** What the position update leaves unchanged. *)
Definition positionFrame s t : Prop :=
  map_particle_domain_corners (fun _ => []) (base t)
    = map_particle_domain_corners (fun _ => []) (base s) /\
  is_enriched_domain_corner_ t = is_enriched_domain_corner_ s /\
  domain_corner_velocity_ t = domain_corner_velocity_ s /\
  length (particle_domain_mesh_ t) = length (particle_domain_mesh_ s) /\
  (forall obj, elements (mesh t obj) = elements (mesh s obj)) /\
  (forall obj, vertNum (mesh t obj) = vertNum (mesh s obj)) /\
  (forall obj p, length (row (row (particle_domain_corners_ (base t)) obj) p)
                 = length (row (row (particle_domain_corners_ (base s)) obj) p)).

(** The invariant of [updateParticleDomains] for the object [obj]:
    [D p c] are the corners of [obj] already advanced. *)
Definition advanced (dt : Scalar) (obj : nat) (D : nat -> nat -> Prop) s t : Prop :=
  positionFrame s t /\
  (forall p c, D p c ->
     at3 vzero (particle_domain_corners_ (base t)) obj p c
       = newCornerPosition dt s obj p c /\
     vertPos (mesh t obj) (eleVertIndex (mesh s obj) p c) = newCornerPosition dt s obj p c) /\
  (forall p c, ~ D p c ->
     at3 vzero (particle_domain_corners_ (base t)) obj p c
       = at3 vzero (particle_domain_corners_ (base s)) obj p c).

(** One step of the corner loop of [updateParticleDomains] (lines 395-415). *)
Definition advanceCorner (dt : Scalar) (o q k : nat) t : InvertibleMPMSolid Dim :=
  map_mesh
    (alter (setVertPos (eleVertIndex (mesh t o) q k) (newCornerPosition dt t o q k)) o)
    (map_base
       (map_particle_domain_corners
          (alter (alter (<[k := newCornerPosition dt t o q k]>) q) o)) t).

(** The four per-corner slots at [(obj, g)] hold their reset values. *)
Definition cleared s (obj g : nat) : Prop :=
  isEnriched s obj g = false /\ cornerMass s obj g = 0 /\
  cornerVelocity s obj g = vzero /\ cornerVelocityBefore s obj g = vzero.

Definition resetCorner (obj_idx domain_corner_idx : nat) s : InvertibleMPMSolid Dim :=
  map_corner_velocity_before (alter (<[domain_corner_idx := vzero]>) obj_idx)
    (map_corner_velocity (alter (<[domain_corner_idx := vzero]>) obj_idx)
       (map_corner_mass (alter (<[domain_corner_idx := 0]>) obj_idx)
          (map_enriched (alter (<[domain_corner_idx := false]>) obj_idx) s))).

(** The invariant of [updateParticleDomainEnrichState]: [D obj p c] are the
    corners visited so far. *)
Definition enriching (crit : nat -> nat -> bool) (D : nat -> nat -> nat -> Prop) s t : Prop :=
  cornerFrame s t /\ cornerShape s t /\
  domain_corner_mass_ t = domain_corner_mass_ s /\
  domain_corner_velocity_ t = domain_corner_velocity_ s /\
  domain_corner_velocity_before_ t = domain_corner_velocity_before_ s /\
  forall obj g,
    isEnriched t obj g = true <->
    isEnriched s obj g = true \/
    ((g < length (row (is_enriched_domain_corner_ s) obj))%nat /\
     exists p c, D obj p c /\ crit obj p = true /\ eleVertIndex (mesh s obj) p c = g).

(** What [weldDomainCorners] guarantees about the vertex list [cp] and the
    connectivity [dom] built for the first [n] particles. *)
Definition welded (pc : list (list (Vector Dim))) (n : nat)
  (acc : list (Vector Dim) * list (list nat)) : Prop :=
  length acc.2 = n /\
  (forall p el, acc.2 !! p = Some el -> length el = corner_num Dim) /\
  (forall p el c g, acc.2 !! p = Some el -> el !! c = Some g ->
     acc.1 !! g = Some (at2 vzero pc p c)) /\
  (forall g, (g < length acc.1)%nat ->
     exists p el c, acc.2 !! p = Some el /\ el !! c = Some g).

(** The mesh that [constructParticleDomainMesh] builds from the corners of an
    object and the invariant of its object loop. *)
Definition meshOf (pc : list (list (Vector Dim))) (n : nat) : VolumetricMesh Dim :=
  mkMesh (weldDomainCorners pc n).1 (weldDomainCorners pc n).2.

Definition built s (o : nat) t : Prop :=
  base t = base s /\
  particle_corner_weight_ t = particle_corner_weight_ s /\
  particle_corner_gradient_ t = particle_corner_gradient_ s /\
  length (particle_domain_mesh_ t) = objectNum (base s) /\
  length (is_enriched_domain_corner_ t) = objectNum (base s) /\
  length (domain_corner_mass_ t) = objectNum (base s) /\
  length (domain_corner_velocity_ t) = objectNum (base s) /\
  length (domain_corner_velocity_before_ t) = objectNum (base s) /\
  forall obj, (obj < o)%nat ->
    mesh t obj = meshOf (row (particle_domain_corners_ (base s)) obj)
                   (particleNumOfObject (base s) obj) /\
    length (row (is_enriched_domain_corner_ t) obj) = vertNum (mesh t obj) /\
    length (row (domain_corner_mass_ t) obj) = vertNum (mesh t obj) /\
    length (row (domain_corner_velocity_ t) obj) = vertNum (mesh t obj) /\
    length (row (domain_corner_velocity_before_ t) obj) = vertNum (mesh t obj).

(** The outcome of the normalisation pass of lines 157-162 at the corner
    [g] of [obj]: [s] is the state before the pass, [t] the state after. *)
Definition normalized (epsilon : Scalar) s t (obj g : nat) : Prop :=
  (epsilon < cornerMass s obj g ->
     cornerVelocity t obj g = vdiv (cornerVelocity s obj g) (cornerMass s obj g) /\
     cornerVelocityBefore t obj g = cornerVelocity t obj g) /\
  (cornerMass s obj g <= epsilon ->
     cornerVelocity t obj g = cornerVelocity s obj g /\
     cornerVelocityBefore t obj g = cornerVelocityBefore s obj g).

(** The per-corner velocity arrays of [obj] have a slot for [g]. *)
Definition cornerSlot s (obj g : nat) : Prop :=
  (g < length (row (domain_corner_velocity_ s) obj))%nat /\
  (g < length (row (domain_corner_velocity_before_ s) obj))%nat.

(** One step of the normalisation pass. *)
Definition normalizeCorner (epsilon : Scalar) (obj_idx corner_idx : nat) s
  : InvertibleMPMSolid Dim :=
  if decide (epsilon < cornerMass s obj_idx corner_idx) then
    let s := map_corner_velocity
               (alter (alter (fun v => vdiv v (cornerMass s obj_idx corner_idx)) corner_idx)
                  obj_idx) s in
    map_corner_velocity_before
      (alter (<[corner_idx := cornerVelocity s obj_idx corner_idx]>) obj_idx) s
  else s.

(** What the normalisation pass leaves unchanged. *)
Definition normalizeFrame s t : Prop :=
  cornerFrame s t /\ cornerShape s t /\
  is_enriched_domain_corner_ t = is_enriched_domain_corner_ s /\
  domain_corner_mass_ t = domain_corner_mass_ s.

(** The base-class members with the grid masses and velocities erased, and
    what the scatter of [rasterize] leaves unchanged. *)
Definition eraseGrid (b : CPDIMPMSolid Dim) : CPDIMPMSolid Dim :=
  map_grid_velocity (fun _ => []) (map_grid_mass (fun _ => []) b).

Definition rasterFrame s t : Prop :=
  eraseGrid (base t) = eraseGrid (base s) /\
  length (grid_mass_ (base t)) = length (grid_mass_ (base s)) /\
  length (grid_velocity_ (base t)) = length (grid_velocity_ (base s)) /\
  particle_domain_mesh_ t = particle_domain_mesh_ s /\
  is_enriched_domain_corner_ t = is_enriched_domain_corner_ s /\
  particle_corner_weight_ t = particle_corner_weight_ s /\
  particle_corner_gradient_ t = particle_corner_gradient_ s /\
  cornerShape s t.

(** The corner data that the scatter of a particle of object [o] keeps:
    the before-update velocities, and the mass and velocity of the corners
    of the other objects and of the ordinary corners. *)
Definition cornerScatter (o : nat) s t : Prop :=
  rasterFrame s t /\
  domain_corner_velocity_before_ t = domain_corner_velocity_before_ s /\
  forall obj g, obj <> o \/ isEnriched s obj g = false ->
    cornerMass t obj g = cornerMass s obj g /\
    cornerVelocity t obj g = cornerVelocity s obj g.

(** The outcome of [rasterize] at a corner: the before-update velocity is
    the velocity where the mass exceeds epsilon and zero elsewhere, and an
    ordinary corner holds no mass and no velocity. *)
Definition cornerRasterized (epsilon : Scalar) t (obj g : nat) : Prop :=
  (epsilon < cornerMass t obj g ->
     cornerVelocityBefore t obj g = cornerVelocity t obj g) /\
  (cornerMass t obj g <= epsilon -> cornerVelocityBefore t obj g = vzero) /\
  (isEnriched t obj g = false ->
     cornerMass t obj g = 0 /\ cornerVelocity t obj g = vzero /\
     cornerVelocityBefore t obj g = vzero).

(** The corner before its object is normalised. *)
Definition cornerPending t (obj g : nat) : Prop :=
  cornerVelocityBefore t obj g = vzero /\
  (isEnriched t obj g = false ->
     cornerMass t obj g = 0 /\ cornerVelocity t obj g = vzero).

(** The per-corner arrays of [obj] have one slot per mesh vertex. *)
Definition cornerArraysSized s (obj : nat) : Prop :=
  length (row (is_enriched_domain_corner_ s) obj) = vertNum (mesh s obj) /\
  length (row (domain_corner_mass_ s) obj) = vertNum (mesh s obj) /\
  length (row (domain_corner_velocity_ s) obj) = vertNum (mesh s obj) /\
  length (row (domain_corner_velocity_before_ s) obj) = vertNum (mesh s obj).

(** The mass that [obj] holds on the grid nodes and on its domain corners,
    and the sum of its particle masses. *)
Definition gridMassOf (b : CPDIMPMSolid Dim) (obj : nat) : Scalar :=
  sumTo (length (grid_mass_ b)) (gridMass b obj).
Definition cornerMassOf s (obj : nat) : Scalar :=
  sumTo (length (row (domain_corner_mass_ s) obj)) (cornerMass s obj).
Definition totalMass s (obj : nat) : Scalar :=
  gridMassOf (base s) obj + cornerMassOf s obj.
Definition particleMassSum (b : CPDIMPMSolid Dim) (obj : nat) : Scalar :=
  sumTo (particleNumOfObject b obj) (fun p => mass (particle b obj p)).

(** The weights that the mass rasterization of a particle uses: those of
    its grid influence list unless it is fully enriched, and those of its
    enriched corners. *)
Definition gridWeight (b : CPDIMPMSolid Dim) (obj p i : nat) : Scalar :=
  weight_value_ (at3 noPair (particle_grid_weight_and_gradient_ b) obj p i).
Definition gridWeightSum (b : CPDIMPMSolid Dim) (obj p : nat) : Scalar :=
  sumTo (at2 0%nat (particle_grid_pair_num_ b) obj p) (gridWeight b obj p).
Definition cornerWeight s (obj p c : nat) : Scalar :=
  if isEnriched s obj (eleVertIndex (mesh s obj) p c)
  then at3 0 (particle_corner_weight_ s) obj p c else 0.
Definition cornerWeightSum s (obj p : nat) : Scalar :=
  sumTo (corner_num Dim) (cornerWeight s obj p).
Definition usedWeight s (obj p : nat) : Scalar :=
  (if decide (enrichedCornerNum s obj p < corner_num Dim)%nat
   then gridWeightSum (base s) obj p else 0)
  + (if decide (0 < enrichedCornerNum s obj p)%nat then cornerWeightSum s obj p else 0).

(** Partition of unity (section 8.1 of the spec) for the particles of [obj]. *)
Definition partitionOfUnity s (obj : nat) : Prop :=
  forall p, (p < particleNumOfObject (base s) obj)%nat -> usedWeight s obj p = 1.

(** The grid influence lists of [obj] name nodes of the grid. *)
Definition gridTargetsInRange s (obj : nat) : Prop :=
  forall p i, (p < particleNumOfObject (base s) obj)%nat ->
    (i < at2 0%nat (particle_grid_pair_num_ (base s)) obj p)%nat ->
    (node_idx_ (at3 noPair (particle_grid_weight_and_gradient_ (base s)) obj p i)
       < length (grid_mass_ (base s)))%nat.

(** Every grid weight that the scatter reads passes
    [PHYSIKA_ASSERT(weight > epsilon)]. *)
Definition gridWeightsAsserted (epsilon : Scalar) s : Prop :=
  forall obj p i, (obj < objectNum (base s))%nat ->
    (p < particleNumOfObject (base s) obj)%nat ->
    (enrichedCornerNum s obj p < corner_num Dim)%nat ->
    (i < at2 0%nat (particle_grid_pair_num_ (base s)) obj p)%nat ->
    epsilon < gridWeight (base s) obj p i.

(** Every particle has all the corners of its domain enriched. *)
Definition fullyEnriched s : Prop :=
  forall obj p, (obj < objectNum (base s))%nat ->
    (p < particleNumOfObject (base s) obj)%nat ->
    enrichedCornerNum s obj p = corner_num Dim.

(** Lines 283-291 on their own: the velocity gradient that the enriched
    corners of the domain contribute, starting from the zero matrix (what
    [particleVelocityGradient] computes when the branch of lines 273-282 is
    skipped). *)
Definition cornerVelocityGradient s (obj_idx particle_idx : nat) : SquareMatrix Dim :=
  loop (corner_num Dim)
    (fun corner_idx particle_vel_grad =>
       let global_corner_idx := eleVertIndex (mesh s obj_idx) particle_idx corner_idx in
       if isEnriched s obj_idx global_corner_idx then
         madd particle_vel_grad
           (outerProduct (cornerVelocity s obj_idx global_corner_idx)
              (at3 vzero (particle_corner_gradient_ s) obj_idx particle_idx corner_idx))
       else particle_vel_grad)
    mzero.

(** Lines 357-369 on their own: the velocity update of a particle from the
    enriched corners of its domain only (what [updateOneParticleVelocity]
    does to a particle that is not a Dirichlet particle when the branch of
    lines 339-355 is skipped). *)
Definition cornerVelocityUpdate s (obj_idx particle_idx : nat) : InvertibleMPMSolid Dim :=
  let new_vel :=
    cornerVelocityDelta s obj_idx particle_idx
      (velocity (particle (base s) obj_idx particle_idx)) in
  map_base (map_particles (alter (alter (setVelocity new_vel) particle_idx) obj_idx)) s.

(** The corner-weight and corner-gradient storage is aligned with the
    particle arrays: one row per object and one record per particle. *)
Definition storageAligned s : Prop :=
  lockstep (particles_ (base s)) (particle_corner_weight_ s) /\
  lockstep (particles_ (base s)) (particle_corner_gradient_ s).

(** Every vector access of the phases of a step is in range: the arrays on
    the grid have one slot per node, every object has its domain mesh with
    one element per particle, in-range corners and per-corner arrays of the
    size of the vertex list, the influence lists name nodes of the grid and
    are as long as their pair count says, and every particle has its
    Dirichlet flag, its initial volume and [corner_num] corner weights and
    gradients. *)
Definition storageInRange s : Prop :=
  length (grid_velocity_ (base s)) = length (grid_mass_ (base s)) /\
  length (grid_velocity_before_ (base s)) = length (grid_mass_ (base s)) /\
  length (is_dirichlet_grid_node_ (base s)) = length (grid_mass_ (base s)) /\
  forall obj, (obj < objectNum (base s))%nat ->
    (obj < length (particle_domain_mesh_ s))%nat /\
    eleNum (mesh s obj) = particleNumOfObject (base s) obj /\
    wellFormedDomainMesh s obj /\
    cornerArraysSized s obj /\
    gridTargetsInRange s obj /\
    forall p, (p < particleNumOfObject (base s) obj)%nat ->
      (p < length (row (is_dirichlet_particle_ (base s)) obj))%nat /\
      (p < length (row (particle_initial_volume_ (base s)) obj))%nat /\
      (p < length (row (particle_grid_pair_num_ (base s)) obj))%nat /\
      (at2 0%nat (particle_grid_pair_num_ (base s)) obj p
         <= length (row (row (particle_grid_weight_and_gradient_ (base s)) obj) p))%nat /\
      (corner_num Dim <= length (row (row (particle_corner_weight_ s) obj) p))%nat /\
      (corner_num Dim <= length (row (row (particle_corner_gradient_ s) obj) p))%nat.

(** The read [particle_corner_weight_[obj][obj][corner]] of line 364 is in
    range for every object that has particles. *)
Definition weightReadInRange s : Prop :=
  forall obj, (obj < objectNum (base s))%nat ->
    (0 < particleNumOfObject (base s) obj)%nat ->
    (corner_num Dim <= length (row (row (particle_corner_weight_ s) obj) obj))%nat.

End Vocabulary.

(** ** Vocabulary of the grid passes of [rasterize] *)

Section GridVocabulary.
Context {Dim : nat}.
Implicit Types b : CPDIMPMSolid Dim.

(** The per-object maps stored at a grid node. *)
Definition nodeMass b (node : nat) : gmap nat Scalar := default ∅ (grid_mass_ b !! node).
Definition nodeVelocity b (node : nat) : gmap nat (Vector Dim) :=
  default ∅ (grid_velocity_ b !! node).
Definition nodeVelocityBefore b (node : nat) : gmap nat (Vector Dim) :=
  default ∅ (grid_velocity_before_ b !! node).
Definition gridVelocityBefore b (obj node : nat) : Vector Dim :=
  default vzero (nodeVelocityBefore b node !! obj).

(** The base-class members with the three per-node maps erased. *)
Definition eraseNodes b : CPDIMPMSolid Dim :=
  map_grid_velocity_before (fun _ => []) (eraseGrid b).

(** The three grid arrays and the Dirichlet table have the size of the grid. *)
Definition gridSized b : Prop :=
  length (grid_velocity_ b) = length (grid_mass_ b) /\
  length (grid_velocity_before_ b) = length (grid_mass_ b) /\
  length (is_dirichlet_grid_node_ b) = length (grid_mass_ b).

(** The objects whose mass at [node] exceeds epsilon, in increasing order,
    and the table of lines 165-179 built from them. *)
Definition activeObjects (epsilon : Scalar) b (node : nat) : list nat :=
  filter (fun o => epsilon < gridMass b o node) (seq 0 (objectNum b)).
Definition activeList (epsilon : Scalar) b : list (nat * nat) :=
  flat_map (fun node => pair node <$> activeObjects epsilon b node)
    (seq 0 (length (grid_mass_ b))).

(** Sums over a list of objects. *)
Definition sumList (f : nat -> Scalar) (l : list nat) : Scalar :=
  foldl (fun acc o => acc + f o) 0 l.
Definition vsumList (f : nat -> Vector Dim) (l : list nat) : Vector Dim :=
  foldl (fun acc o => vadd acc (f o)) vzero l.

(** The objects that [active_grid_node_] lists for [node], and their total
    mass and momentum there. *)
Definition occupying b (node : nat) : list nat := equal_range node (active_grid_node_ b).
Definition massAtNode b (node : nat) : Scalar :=
  sumList (fun o => gridMass b o node) (occupying b node).
Definition momentumAtNode b (node : nat) : Vector Dim :=
  vsumList (fun o => vscale (gridMass b o node) (gridVelocity b o node)) (occupying b node).

(** The objects that hold a mass entry, or a velocity entry, at [node] when
    the merge writes the unified values: the occupying objects and those
    with an entry already. *)
Definition holdsMass b (node obj : nat) : Prop :=
  obj ∈ occupying b node \/ is_Some (nodeMass b node !! obj).
Definition holdsVelocity b (node obj : nat) : Prop :=
  obj ∈ occupying b node \/ is_Some (nodeVelocity b node !! obj).

(** The velocity that the merge writes at [node]: that of the lowest-indexed
    holder of a velocity entry for which the node is Dirichlet, if there is
    one, and total momentum over total mass otherwise. *)
Definition dirichletHolder b (node k : nat) : Prop :=
  holdsVelocity b node k /\ isDirichletGridNode b node k = true.
Definition mergedVelocity b (node : nat) (V : Vector Dim) : Prop :=
  ((forall k, ~ dirichletHolder b node k) /\
   V = vdiv (momentumAtNode b node) (massAtNode b node)) \/
  (exists k, dirichletHolder b node k /\
             (forall k', dirichletHolder b node k' -> (k <= k')%nat) /\
             V = gridVelocity b k node).

(** [b'] holds the unified values at [node], computed from [b]. *)
Definition unified b b' (node : nat) : Prop :=
  exists V, mergedVelocity b node V /\
    (forall o, holdsMass b node o -> gridMass b' o node = massAtNode b node) /\
    (forall o, ~ holdsMass b node o -> nodeMass b' node !! o = None) /\
    (forall o, holdsVelocity b node o ->
       gridVelocity b' o node = V /\ gridVelocityBefore b' o node = V) /\
    (forall o, ~ holdsVelocity b node o ->
       nodeVelocity b' node !! o = None /\
       nodeVelocityBefore b' node !! o = nodeVelocityBefore b node !! o).

(** What the division pass of lines 181-188 does to the grid, entry by
    entry of the table [l]. *)
Definition gridDivided (l : list (nat * nat)) b b' : Prop :=
  eraseNodes b' = eraseNodes b /\
  length (grid_mass_ b') = length (grid_mass_ b) /\
  length (grid_velocity_ b') = length (grid_velocity_ b) /\
  length (grid_velocity_before_ b') = length (grid_velocity_before_ b) /\
  (forall o n, gridMass b' o n = gridMass b o n) /\
  (forall o n, (n, o) ∈ l -> (n < length (grid_velocity_ b))%nat ->
     isDirichletGridNode b n o = false ->
     gridVelocity b' o n = vdiv (gridVelocity b o n) (gridMass b o n)) /\
  (forall o n, (n, o) ∉ l \/ (length (grid_velocity_ b) <= n)%nat \/
               isDirichletGridNode b n o = true ->
     gridVelocity b' o n = gridVelocity b o n) /\
  (forall o n, (n, o) ∈ l -> (n < length (grid_velocity_before_ b))%nat ->
     gridVelocityBefore b' o n = gridVelocity b' o n) /\
  (forall o n, (n, o) ∉ l \/ (length (grid_velocity_before_ b) <= n)%nat ->
     gridVelocityBefore b' o n = gridVelocityBefore b o n).

(** [b'] has the per-node maps of [b] at [node]. *)
Definition sameNode b b' (node : nat) : Prop :=
  nodeMass b' node = nodeMass b node /\
  nodeVelocity b' node = nodeVelocity b node /\
  nodeVelocityBefore b' node = nodeVelocityBefore b node.

(** Every grid node that the velocity update of a non-Dirichlet, not fully
    enriched particle reads with a mass above epsilon has a velocity entry
    and a before-update velocity entry for the object. *)
Definition velocityEntriesPresent (epsilon : Scalar) (s : InvertibleMPMSolid Dim) : Prop :=
  forall obj p i, (obj < objectNum (base s))%nat ->
    (p < particleNumOfObject (base s) obj)%nat ->
    at2 false (is_dirichlet_particle_ (base s)) obj p = false ->
    (enrichedCornerNum s obj p < corner_num Dim)%nat ->
    (i < at2 0%nat (particle_grid_pair_num_ (base s)) obj p)%nat ->
    let node := node_idx_ (at3 noPair (particle_grid_weight_and_gradient_ (base s)) obj p i) in
    epsilon < gridMass (base s) obj node ->
    is_Some (nodeVelocity (base s) node !! obj) /\
    is_Some (nodeVelocityBefore (base s) node !! obj).

(** What the grid part of the solve keeps. *)
Definition gridSolveFrame b b' : Prop :=
  eraseGrid b' = eraseGrid b /\
  length (grid_mass_ b') = length (grid_mass_ b) /\
  length (grid_velocity_ b') = length (grid_velocity_ b) /\
  (forall o n, gridMass b' o n = gridMass b o n) /\
  (forall n o, isDirichletGridNode b n o = true ->
     gridVelocity b' o n = gridVelocity b o n /\
     (contact_method_ b = false -> forall o', gridVelocity b' o' n = gridVelocity b o' n)).

(** The solver with the grid masses and velocities and the corner
    velocities erased: what the explicit solve leaves unchanged. *)
Definition eraseVelocities (s : InvertibleMPMSolid Dim) : InvertibleMPMSolid Dim :=
  map_corner_velocity (fun _ => []) (map_base eraseGrid s).

(** What the corner part of the solve keeps: everything but the corner
    velocities, their number, and the velocities of the ordinary corners. *)
Definition cornerSolveFrame (s t : InvertibleMPMSolid Dim) : Prop :=
  map_corner_velocity (fun _ => []) t = map_corner_velocity (fun _ => []) s /\
  (forall obj, length (row (domain_corner_velocity_ t) obj)
               = length (row (domain_corner_velocity_ s) obj)) /\
  (forall obj g, isEnriched s obj g = false -> cornerVelocity t obj g = cornerVelocity s obj g).

(** The velocity entries and the before-update velocity entries of [b] are
    entries of [b']. *)
Definition entriesKept b b' : Prop :=
  (forall n o, is_Some (nodeVelocity b n !! o) -> is_Some (nodeVelocity b' n !! o)) /\
  (forall n o, is_Some (nodeVelocityBefore b n !! o) ->
     is_Some (nodeVelocityBefore b' n !! o)).

(** Every Dirichlet node of an object holds a velocity entry for it, the
    prescribed velocity. *)
Definition dirichletVelocitiesSet b : Prop :=
  forall n o, isDirichletGridNode b n o = true -> is_Some (nodeVelocity b n !! o).

(** The members of the base class that the grid passes only read. *)
Definition particleInputs b :=
  (particles_ b, is_dirichlet_particle_ b, particle_grid_pair_num_ b,
   particle_grid_weight_and_gradient_ b, is_dirichlet_grid_node_ b, contact_method_ b).

End GridVocabulary.

(** ** Concrete states used by the examples *)

Definition vec2 (x y : Z) : Vector 2 := (Q2Qc (inject_Z x), (Q2Qc (inject_Z y), tt)).
Definition qc (n : Z) (d : positive) : Scalar := Q2Qc (n # d).

(** [float] machine epsilon, 2^-23. *)
Definition eps_float : Scalar := qc 1 8388608.

(** The unit square as the domain of a particle. *)
Definition unit_square : list (Vector 2) := [vec2 0 0; vec2 1 0; vec2 0 1; vec2 1 1].

(** One object with one particle of mass [m] and velocity [v], its domain
    the unit square; a grid of two nodes. *)
Definition one_particle_base (m : Scalar) (v : Vector 2) : CPDIMPMSolid 2 :=
  mkBase [[mkSolidParticle m 1 v (identityMatrix 2) mzero]] [[false]] [[1]]
    [[[]]] [[0%nat]] [∅; ∅] [∅; ∅] [∅; ∅] [∅; ∅] [] false 1
    [[unit_square]] [[[[]; []; []; []]]] [[[0; 0; 0; 0]%nat]].

(** The same solver with all four corners enriched, corner 0 moving with
    velocity (-2, 0), and corner-0 weight gradient (1, 0): the reconstructed
    velocity gradient is diag(-2, 0). *)
Definition compressed_state : InvertibleMPMSolid 2 :=
  mkSolid (one_particle_base 1 (vec2 0 0))
    [mkMesh unit_square [[0; 1; 2; 3]%nat]]
    [[true; true; true; true]]
    [[quarter; quarter; quarter; quarter]]
    [[vec2 (-2) 0; vec2 0 0; vec2 0 0; vec2 0 0]]
    [[vec2 0 0; vec2 0 0; vec2 0 0; vec2 0 0]]
    [[[quarter; quarter; quarter; quarter]]]
    [[[vec2 1 0; vec2 0 0; vec2 0 0; vec2 0 0]]].

(** The same solver at rest: the velocity gradient is zero. *)
Definition rest_state : InvertibleMPMSolid 2 :=
  mkSolid (one_particle_base 1 (vec2 0 0))
    [mkMesh unit_square [[0; 1; 2; 3]%nat]]
    [[true; true; true; true]]
    [[quarter; quarter; quarter; quarter]]
    [[vec2 0 0; vec2 0 0; vec2 0 0; vec2 0 0]]
    [[vec2 0 0; vec2 0 0; vec2 0 0; vec2 0 0]]
    [[[quarter; quarter; quarter; quarter]]]
    [[[vec2 1 0; vec2 0 0; vec2 0 0; vec2 0 0]]].

(** One object with two particles whose domains, the unit square and its
    translate by (1, 0), share the corners (1, 0) and (1, 1). *)
Definition shifted_square : list (Vector 2) := [vec2 1 0; vec2 2 0; vec2 1 1; vec2 2 1].

Definition two_particle_base : CPDIMPMSolid 2 :=
  mkBase [[mkSolidParticle 1 1 (vec2 0 0) (identityMatrix 2) mzero;
           mkSolidParticle 1 1 (vec2 0 0) (identityMatrix 2) mzero]]
    [[false; false]] [[1; 1]]
    [[[]; []]] [[0; 0]%nat] [∅; ∅] [∅; ∅] [∅; ∅] [∅; ∅] [] false 1
    [[unit_square; shifted_square]]
    [[[[]; []; []; []]; [[]; []; []; []]]] [[[0; 0; 0; 0]; [0; 0; 0; 0]]%nat].

(** The solver as [initSimulationData] leaves it: the mesh has the six
    welded vertices and the elements [0;1;2;3] and [1;4;3;5]. *)
Definition two_particle_initial : InvertibleMPMSolid 2 :=
  constructParticleDomainMesh
    (mkSolid two_particle_base [] [] [] [] []
       [[[quarter; quarter; quarter; quarter]; [half; half; 0; 0]]]
       [[[vec2 0 0; vec2 0 0; vec2 0 0; vec2 0 0];
         [vec2 0 0; vec2 0 0; vec2 0 0; vec2 0 0]]]).

(** The same solver in the middle of a step: every corner enriched, and the
    shared corner (1, 0), vertex 1 of the mesh, has gained the velocity
    (1, 0) since rasterization. *)
Definition two_particle_state : InvertibleMPMSolid 2 :=
  map_corner_velocity (fun _ => [[vec2 0 0; vec2 1 0; vec2 0 0; vec2 0 0; vec2 0 0; vec2 0 0]])
    (map_corner_mass (fun _ => [[quarter; 1; quarter; 1; half; half]])
       (map_enriched (fun _ => [[true; true; true; true; true; true]])
          two_particle_initial)).

(** [rest_state] after the base class has added a second particle to object
    0 and before the solver's own data are appended. *)
Definition particle_added_state : InvertibleMPMSolid 2 :=
  map_base
    (map_particles
       (fun _ => [[mkSolidParticle 1 1 (vec2 0 0) (identityMatrix 2) mzero;
                   mkSolidParticle 1 1 (vec2 0 0) (identityMatrix 2) mzero]]))
    rest_state.

(** A stand-in for the external CPDI2 position update that leaves the
    particles as they are. *)
Definition keepParticles {Dim} (dt : Scalar) (b : CPDIMPMSolid Dim)
  : list (list (SolidParticle Dim)) := particles_ b.

(** The unit square with its corner (1, 0) moved to (1, 5). *)
Definition moved_square : list (Vector 2) := [vec2 0 0; vec2 1 5; vec2 0 1; vec2 1 1].

(** One particle of mass epsilon moving with velocity (1, 0), before the
    first step: the mesh is built, nothing is rasterized yet. *)
Definition tiny_mass_state : InvertibleMPMSolid 2 :=
  constructParticleDomainMesh
    (mkSolid (one_particle_base eps_float (vec2 1 0)) [] [] [] [] []
       [[[quarter; quarter; quarter; quarter]]]
       [[[vec2 0 0; vec2 0 0; vec2 0 0; vec2 0 0]]]).

(** A criterion that enriches no particle.  It is not the criterion of the
    source ([isEnrichCriteriaSatisfied]); it serves only to evaluate, on a
    concrete state, statements that are proved for every criterion. *)
Definition neverEnrich (obj_idx particle_idx : nat) : bool := false.

(** Three objects of one ordinary particle each on a grid of two nodes.
    Object 0 lies at node 1 and has node 0 as a Dirichlet node with the
    prescribed velocity (5, 0); objects 1 and 2, of velocity (1, 0) and
    (3, 0), lie at node 0. *)
Definition three_object_base : CPDIMPMSolid 2 :=
  mkBase [[mkSolidParticle 1 1 (vec2 0 0) (identityMatrix 2) mzero];
          [mkSolidParticle 1 1 (vec2 1 0) (identityMatrix 2) mzero];
          [mkSolidParticle 1 1 (vec2 3 0) (identityMatrix 2) mzero]]
    [[false]; [false]; [false]] [[1]; [1]; [1]]
    [[[mkPair 1 1 vzero]]; [[mkPair 0 1 vzero]]; [[mkPair 0 1 vzero]]]
    [[1]; [1]; [1]]%nat
    [∅; ∅] [{[0%nat := vec2 5 0]}; ∅] [∅; ∅] [{[0%nat]}; ∅] [] false 1
    [[unit_square]; [unit_square]; [unit_square]]
    [[[[]; []; []; []]]; [[[]; []; []; []]]; [[[]; []; []; []]]]
    [[[0; 0; 0; 0]]; [[0; 0; 0; 0]]; [[0; 0; 0; 0]]]%nat.

Definition three_object_state : InvertibleMPMSolid 2 :=
  constructParticleDomainMesh
    (mkSolid three_object_base [] [] [] [] []
       [[[0; 0; 0; 0]]; [[0; 0; 0; 0]]; [[0; 0; 0; 0]]]
       [[[vec2 0 0; vec2 0 0; vec2 0 0; vec2 0 0]];
        [[vec2 0 0; vec2 0 0; vec2 0 0; vec2 0 0]];
        [[vec2 0 0; vec2 0 0; vec2 0 0; vec2 0 0]]]).

Ltac destruct_mat2 A :=
  let a := fresh "a" in let b := fresh "b" in let c := fresh "c" in let d := fresh "d" in
  destruct A as [[a [b []]] [[c [d []]] []]].
Ltac destruct_mat3 A :=
  destruct A as [[? [? [? []]]] [[? [? [? []]]] [[? [? [? []]]] []]]].

Ltac mat_ring :=
  cbn; repeat match goal with
              | |- (_, _) = (_, _) => f_equal
              | |- @eq Qc _ _ => ring
              end.

Lemma det_mmul (Dim : nat) (A B : SquareMatrix Dim) :
  Dim = 2%nat \/ Dim = 3%nat ->
  determinant Dim (mmul A B) = determinant Dim A * determinant Dim B.
Proof.
  intros [-> | ->].
  - destruct_mat2 A; destruct_mat2 B. cbn. ring.
  - destruct_mat3 A; destruct_mat3 B. cbn. ring.
Qed.

Lemma madd_mmul_identity (Dim : nat) (X F : SquareMatrix Dim) :
  Dim = 2%nat \/ Dim = 3%nat ->
  madd F (mmul X F) = mmul (madd (identityMatrix Dim) X) F.
Proof.
  intros [-> | ->].
  - destruct_mat2 X; destruct_mat2 F. mat_ring.
  - destruct_mat3 X; destruct_mat3 F. mat_ring.
Qed.

Lemma half_inv : half = / (1 + 1).
Proof. apply Qc_is_canon. reflexivity. Qed.
Lemma quarter_inv : quarter = / ((1 + 1) * (1 + 1)).
Proof. apply Qc_is_canon. reflexivity. Qed.
Lemma two_neq_0 : (1 + 1 : Qc) <> 0.
Proof. discriminate. Qed.

Ltac mat_field :=
  cbn; repeat match goal with
              | |- (_, _) = (_, _) => f_equal
              | |- @eq Qc _ _ => field; repeat split; discriminate
              end.

Lemma remedy_square (Dim : nat) (dt : Scalar) (L : SquareMatrix Dim) :
  Dim = 2%nat \/ Dim = 3%nat ->
  madd (identityMatrix Dim)
    (madd (mscale dt L) (mmul (mscale (quarter * dt * dt) L) L)) =
  mmul (madd (identityMatrix Dim) (mscale half (mscale dt L)))
       (madd (identityMatrix Dim) (mscale half (mscale dt L))).
Proof.
  rewrite half_inv, quarter_inv.
  intros [-> | ->].
  - destruct_mat2 L. mat_field.
  - destruct_mat3 L. mat_field.
Qed.

(** * Properties *)

(** ** Loops *)

Lemma loop_S {S : Type} (n : nat) (body : nat -> S -> S) (s : S) :
  loop (Datatypes.S n) body s = body n (loop n body s).
Proof. unfold loop. rewrite seq_S, foldl_app. reflexivity. Qed.

Lemma loop_ind {S : Type} (P : nat -> S -> Prop) (n : nat) (body : nat -> S -> S) (s : S) :
  P 0%nat s ->
  (forall i t, (i < n)%nat -> P i t -> P (Datatypes.S i) (body i t)) ->
  P n (loop n body s).
Proof.
  intros H0 Hstep. induction n as [|n IH]; [exact H0|].
  rewrite loop_S. apply Hstep; [lia|]. apply IH. intros i t Hi. apply Hstep. lia.
Qed.

Lemma loop_frame {S T : Type} (proj : S -> T) (n : nat) (body : nat -> S -> S) (s : S) :
  (forall i t, proj (body i t) = proj t) -> proj (loop n body s) = proj s.
Proof.
  intros H. apply (loop_ind (fun _ t => proj t = proj s)); [reflexivity|].
  intros i t _ Ht. rewrite H. exact Ht.
Qed.

Lemma for_each_app {S : Type} (body : nat -> S -> option S) (l1 l2 : list nat) (s : S) :
  for_each body (l1 ++ l2) s =
  match for_each body l1 s with Some t => for_each body l2 t | None => None end.
Proof.
  revert s. induction l1 as [|i l1 IH]; intros s; simpl; [reflexivity|].
  destruct (body i s); [apply IH | reflexivity].
Qed.

Lemma loopM_S {S : Type} (n : nat) (body : nat -> S -> option S) (s : S) :
  loopM (Datatypes.S n) body s =
  match loopM n body s with Some t => body n t | None => None end.
Proof.
  unfold loopM. rewrite seq_S, for_each_app. simpl.
  destruct (for_each body (seq 0 n) s) as [t|]; [|reflexivity].
  destruct (body n t); reflexivity.
Qed.

Lemma loopM_ind {S : Type} (P : nat -> S -> Prop) (n : nat)
  (body : nat -> S -> option S) (s s' : S) :
  P 0%nat s ->
  (forall i t t', (i < n)%nat -> P i t -> body i t = Some t' -> P (Datatypes.S i) t') ->
  loopM n body s = Some s' -> P n s'.
Proof.
  intros H0 Hstep. revert s'. induction n as [|n IH]; intros s' Hrun.
  - injection Hrun as <-. exact H0.
  - rewrite loopM_S in Hrun. destruct (loopM n body s) as [t|] eqn:Ht; [|discriminate].
    apply (Hstep n t); [lia| |exact Hrun].
    apply IH; [|reflexivity]. intros i u u' Hi. apply Hstep. lia.
Qed.

Lemma loopM_total {S : Type} (P : nat -> S -> Prop) (n : nat)
  (body : nat -> S -> option S) (s : S) :
  P 0%nat s ->
  (forall i t, (i < n)%nat -> P i t -> exists t', body i t = Some t' /\ P (Datatypes.S i) t') ->
  exists s', loopM n body s = Some s' /\ P n s'.
Proof.
  intros H0 Hstep. induction n as [|n IH].
  - exists s. split; [reflexivity | exact H0].
  - destruct IH as (t & Ht & HP); [intros i u Hi; apply Hstep; lia|].
    destruct (Hstep n t) as (t' & Hb & HP'); [lia | exact HP |].
    exists t'. split; [|exact HP']. rewrite loopM_S, Ht. exact Hb.
Qed.

(** ** Nested vectors *)

Lemma row_alter_eq {A} (f : list A -> list A) (l : list (list A)) (i : nat) :
  (i < length l)%nat -> row (alter f i l) i = f (row l i).
Proof.
  intros Hi. unfold row. rewrite list_lookup_alter_eq.
  destruct (lookup_lt_is_Some_2 l i Hi) as [x Hx]. rewrite Hx. reflexivity.
Qed.

Lemma row_alter_ne {A} (f : list A -> list A) (l : list (list A)) (i j : nat) :
  i <> j -> row (alter f i l) j = row l j.
Proof. intros Hij. unfold row. rewrite list_lookup_alter_ne by exact Hij. reflexivity. Qed.

Lemma row_length_alter {A} (f : A -> A) (l : list (list A)) (i j k : nat) :
  length (row (alter (alter f j) i l) k) = length (row l k).
Proof.
  destruct (decide (i = k)) as [->|Hne]; [|rewrite row_alter_ne by exact Hne; reflexivity].
  unfold row. rewrite list_lookup_alter_eq. destruct (l !! k); simpl; [apply length_alter|reflexivity].
Qed.

Lemma at2_alter_eq {A} (d : A) (f : A -> A) (l : list (list A)) (i j : nat) :
  (i < length l)%nat -> (j < length (row l i))%nat ->
  at2 d (alter (alter f j) i l) i j = f (at2 d l i j).
Proof.
  intros Hi Hj. unfold at2. rewrite row_alter_eq by exact Hi.
  rewrite list_lookup_alter_eq.
  destruct (lookup_lt_is_Some_2 _ _ Hj) as [x Hx]. rewrite Hx. reflexivity.
Qed.

Lemma at2_alter_ne {A} (d : A) (f : A -> A) (l : list (list A)) (i j i' j' : nat) :
  (i, j) <> (i', j') ->
  at2 d (alter (alter f j) i l) i' j' = at2 d l i' j'.
Proof.
  intros Hne. unfold at2.
  destruct (decide (i = i')) as [->|Hi]; [|rewrite row_alter_ne by exact Hi; reflexivity].
  unfold row. rewrite list_lookup_alter_eq.
  destruct (l !! i') as [r|]; simpl; [|reflexivity].
  rewrite list_lookup_alter_ne; [reflexivity|congruence].
Qed.

Section ConstitutiveUpdate.
Context {Dim : nat}.
Implicit Types s t : InvertibleMPMSolid Dim.

Lemma velocityGradient_erase s obj p :
  particleVelocityGradient s obj p = particleVelocityGradient (erase_particles s) obj p.
Proof. reflexivity. Qed.

Lemma initial_volume_erase s obj p :
  at2 0 (particle_initial_volume_ (base s)) obj p =
  at2 0 (particle_initial_volume_ (base (erase_particles s))) obj p.
Proof. reflexivity. Qed.

Lemma updated_step dt o q s0 s s' :
  (o < objectNum (base s0))%nat -> (q < particleNumOfObject (base s0) o)%nat ->
  updated dt o q s0 s ->
  updateParticleConstitutiveModel dt o q s = Some s' ->
  updated dt o (S q) s0 s'.
Proof.
  intros Ho Hq (Her & Hn & Hlen & Hpart) Hstep.
  unfold updateParticleConstitutiveModel in Hstep.
  destruct (Hpart o q Ho Hq) as [_ Hsame].
  assert (Hnb : ~ before o q o q) by (unfold before; lia).
  rewrite (Hsame Hnb) in Hstep. clear Hnb.
  rewrite velocityGradient_erase, initial_volume_erase, Her in Hstep.
  rewrite <- velocityGradient_erase, <- initial_volume_erase in Hstep.
  fold (newDeformationGradient dt s0 o q) in Hstep.
  destruct (decide (0 < determinant Dim (newDeformationGradient dt s0 o q))) as [Hdet|];
    [|discriminate].
  injection Hstep as <-.
  assert (Ho' : (o < length (particles_ (base s)))%nat) by (unfold objectNum in Hn, Ho; lia).
  assert (Hq' : (q < length (row (particles_ (base s)) o))%nat).
  { specialize (Hlen o). unfold particleNumOfObject in Hlen. rewrite Hlen. exact Hq. }
  split; [exact Her|]. split.
  { unfold objectNum. simpl. rewrite length_alter. exact Hn. }
  split.
  { intros obj. unfold particleNumOfObject. simpl. rewrite row_length_alter. apply Hlen. }
  intros obj p Hobj Hp. unfold particle. simpl.
  destruct (decide ((o, q) = (obj, p))) as [Heq|Hne].
  - injection Heq as <- <-. rewrite at2_alter_eq by assumption. simpl.
    split; [intros _; auto|]. intros Hnb. exfalso. apply Hnb. unfold before. lia.
  - rewrite at2_alter_ne by exact Hne. destruct (Hpart obj p Hobj Hp) as [Hb Hnb]. split.
    + intros Hbef. apply Hb. unfold before in *.
      destruct Hbef as [?|[-> Hlt]]; [lia|]. right. split; [reflexivity|].
      assert (p <> q) by congruence. lia.
    + intros Hnbef. apply Hnb. unfold before in *. lia.
Qed.

Lemma updated_next_object dt o s0 s :
  updated dt o (particleNumOfObject (base s0) o) s0 s -> updated dt (S o) 0 s0 s.
Proof.
  intros (Her & Hn & Hlen & Hpart).
  split; [exact Her|]. split; [exact Hn|]. split; [exact Hlen|].
  intros obj p Hobj Hp. destruct (Hpart obj p Hobj Hp) as [Hb Hnb]. split.
  - intros Hbef. apply Hb. unfold before in *.
    destruct Hbef as [Hlt|[_ Hlt]]; [|lia].
    destruct (decide (obj = o)) as [->|]; [right; lia|left; lia].
  - intros Hnbef. apply Hnb. unfold before in *. lia.
Qed.

Lemma updated_init dt s0 : updated dt 0 0 s0 s0.
Proof.
  split; [reflexivity|]. split; [reflexivity|]. split; [reflexivity|].
  intros obj p _ _. split; [|reflexivity]. unfold before. lia.
Qed.

Lemma update_sound dt s0 s' :
  updateParticleConstitutiveModelState dt s0 = Some s' ->
  updated dt (objectNum (base s0)) 0 s0 s'.
Proof.
  unfold updateParticleConstitutiveModelState.
  apply (loopM_ind (fun o s => updated dt o 0 s0 s)); [apply updated_init|].
  intros o t t' Ho Hinv Hinner.
  apply updated_next_object.
  assert (Hlen : particleNumOfObject (base t) o = particleNumOfObject (base s0) o)
    by apply Hinv.
  rewrite Hlen in Hinner.
  revert Hinner. apply (loopM_ind (fun q s => updated dt o q s0 s)); [exact Hinv|].
  intros q u u' Hq Hu Hbody. eapply updated_step; eassumption.
Qed.

Lemma update_total dt s0 :
  (forall obj p, (obj < objectNum (base s0))%nat -> (p < particleNumOfObject (base s0) obj)%nat ->
     0 < determinant Dim (newDeformationGradient dt s0 obj p)) ->
  exists s', updateParticleConstitutiveModelState dt s0 = Some s'.
Proof.
  intros Hdet.
  destruct (loopM_total (fun o s => updated dt o 0 s0 s) (objectNum (base s0))
              (fun obj_idx s =>
                 loopM (particleNumOfObject (base s) obj_idx)
                   (updateParticleConstitutiveModel dt obj_idx) s) s0)
    as (s' & Hs' & _); [apply updated_init| |exists s'; exact Hs'].
  intros o t Ho Hinv.
  assert (Hlen : particleNumOfObject (base t) o = particleNumOfObject (base s0) o)
    by apply Hinv.
  rewrite Hlen.
  destruct (loopM_total (fun q s => updated dt o q s0 s) (particleNumOfObject (base s0) o)
              (updateParticleConstitutiveModel dt o) t) as (t' & Ht' & Hinv');
    [exact Hinv| |exists t'; split; [exact Ht'|apply updated_next_object; exact Hinv']].
  intros q u Hq Hu.
  assert (Hex : exists u', updateParticleConstitutiveModel dt o q u = Some u').
  { destruct Hu as (Her & Hn & Hl & Hpart).
    unfold updateParticleConstitutiveModel.
    destruct (Hpart o q Ho Hq) as [_ Hsame].
    assert (Hnb : ~ before o q o q) by (unfold before; lia).
    rewrite (Hsame Hnb). clear Hnb.
    rewrite velocityGradient_erase, initial_volume_erase, Her.
    rewrite <- velocityGradient_erase, <- initial_volume_erase.
    fold (newDeformationGradient dt s0 o q).
    destruct (decide (0 < determinant Dim (newDeformationGradient dt s0 o q))) as [|Hn'];
      [eexists; reflexivity|]. exfalso. apply Hn'. apply Hdet; assumption. }
  destruct Hex as (u' & Hu'). exists u'. split; [exact Hu'|].
  eapply updated_step; eassumption.
Qed.


Lemma remedy_as_claimed (dt : Scalar) (L : SquareMatrix Dim) :
  Dim = 2%nat \/ Dim = 3%nat ->
  mmul (mscale (quarter * dt * dt) L) L =
  mscale quarter (mmul (mscale dt L) (mscale dt L)).
Proof.
  generalize quarter. intros k. revert L.
  assert (H : forall D (L : SquareMatrix D), D = 2%nat \/ D = 3%nat ->
            mmul (mscale (k * dt * dt) L) L = mscale k (mmul (mscale dt L) (mscale dt L))).
  { intros D L [-> | ->].
    - destruct_mat2 L. mat_ring.
    - destruct_mat3 L. mat_ring. }
  intros L HD. apply H, HD.
Qed.

(** C1: for every particle, with A = dt times the reconstructed velocity
    gradient, the constitutive update replaces the deformation gradient F by
    F + A*F when det(I + A) > 0 and by F + (A + 0.25*A^2)*F otherwise. *)
Theorem C1_deformation_gradient_update (dt : Scalar) s s' (obj p : nat) :
  Dim = 2%nat \/ Dim = 3%nat ->
  updateParticleConstitutiveModelState dt s = Some s' ->
  (obj < objectNum (base s))%nat -> (p < particleNumOfObject (base s) obj)%nat ->
  let A := mscale dt (particleVelocityGradient s obj p) in
  let F := deformationGradient (particle (base s) obj p) in
  deformationGradient (particle (base s') obj p) =
    if decide (0 < determinant Dim (madd (identityMatrix Dim) A))
    then madd F (mmul A F)
    else madd F (mmul (madd A (mscale quarter (mmul A A))) F).
Proof.
  intros HDim Hrun Hobj Hp A F.
  destruct (update_sound dt s s' Hrun) as (_ & _ & _ & Hpart).
  destruct (Hpart obj p Hobj Hp) as [Hdone _].
  destruct Hdone as (HF & _ & _); [unfold before; lia|].
  rewrite HF. unfold newDeformationGradient, integrateDeformationGradient.
  fold A F. destruct (decide (0 < determinant Dim (madd (identityMatrix Dim) A)));
    [reflexivity|].
  unfold A. rewrite (remedy_as_claimed dt _ HDim). reflexivity.
Qed.

Lemma Qc_square_nonneg (x : Qc) : 0 <= x * x.
Proof.
  destruct (Qclt_le_dec x 0) as [Hneg|Hpos]; [|apply Qcmult_nonneg_nonneg; exact Hpos].
  replace (x * x) with ((- x) * (- x)) by ring.
  assert (0 <= - x).
  { replace 0 with (- 0) by ring. apply Qcopp_le_compat, Qclt_le_weak, Hneg. }
  apply Qcmult_nonneg_nonneg; assumption.
Qed.

Lemma Qc_square_pos (x : Qc) : x <> 0 -> 0 < x * x.
Proof.
  intros Hx. destruct (Qcle_lt_or_eq _ _ (Qc_square_nonneg x)) as [H|H]; [exact H|].
  symmetry in H. destruct (Qcmult_integral _ _ H); contradiction.
Qed.

Lemma det_normal_branch (dt : Scalar) (L F : SquareMatrix Dim) :
  Dim = 2%nat \/ Dim = 3%nat ->
  determinant Dim (madd F (mmul (mscale dt L) F)) =
  determinant Dim (madd (identityMatrix Dim) (mscale dt L)) * determinant Dim F.
Proof.
  intros HDim. rewrite (madd_mmul_identity Dim _ F HDim). apply det_mmul, HDim.
Qed.

Lemma det_remedy_branch (dt : Scalar) (L F : SquareMatrix Dim) :
  Dim = 2%nat \/ Dim = 3%nat ->
  let H := madd (identityMatrix Dim) (mscale half (mscale dt L)) in
  determinant Dim
    (madd F (mmul (madd (mscale dt L) (mmul (mscale (quarter * dt * dt) L) L)) F)) =
  determinant Dim H * determinant Dim H * determinant Dim F.
Proof.
  intros HDim H. rewrite (madd_mmul_identity Dim _ F HDim).
  rewrite (remedy_square Dim dt L HDim). fold H.
  rewrite !(det_mmul Dim) by exact HDim. reflexivity.
Qed.

(** C2 (amended): the update either aborts on the assertion of line 299 or
    leaves every particle with det(F) > 0, and it completes exactly when
    the deformation gradient that it computes has a positive determinant for
    every particle.  The remedy branch does not make the determinant
    positive.  In exact arithmetic, for a particle with det(F) > 0
    beforehand, the normal branch gives det(F') = det(I + A) * det(F) > 0
    and the remedy branch gives det(F') = det(I + A/2)^2 * det(F) >= 0,
    which is 0 when det(I + A/2) = 0. *)
Theorem C2_determinant_after_update (dt : Scalar) s :
  Dim = 2%nat \/ Dim = 3%nat ->
  let A obj p := mscale dt (particleVelocityGradient s obj p) in
  let F obj p := deformationGradient (particle (base s) obj p) in
  let F' obj p := newDeformationGradient dt s obj p in
  let I := identityMatrix Dim in
  (forall s' obj p, updateParticleConstitutiveModelState dt s = Some s' ->
     (obj < objectNum (base s))%nat -> (p < particleNumOfObject (base s) obj)%nat ->
     deformationGradient (particle (base s') obj p) = F' obj p /\
     0 < determinant Dim (deformationGradient (particle (base s') obj p))) /\
  ((exists s', updateParticleConstitutiveModelState dt s = Some s') <->
   (forall obj p, (obj < objectNum (base s))%nat -> (p < particleNumOfObject (base s) obj)%nat ->
      0 < determinant Dim (F' obj p))) /\
  (forall obj p, 0 < determinant Dim (F obj p) ->
     (0 < determinant Dim (madd I (A obj p)) ->
        determinant Dim (F' obj p) =
          determinant Dim (madd I (A obj p)) * determinant Dim (F obj p) /\
        0 < determinant Dim (F' obj p)) /\
     (~ 0 < determinant Dim (madd I (A obj p)) ->
        determinant Dim (F' obj p) =
          determinant Dim (madd I (mscale half (A obj p)))
          * determinant Dim (madd I (mscale half (A obj p))) * determinant Dim (F obj p) /\
        0 <= determinant Dim (F' obj p) /\
        (0 < determinant Dim (F' obj p) <->
         determinant Dim (madd I (mscale half (A obj p))) <> 0))).
Proof.
  intros HDim A F F' I.
  split; [|split].
  - intros s' obj p Hrun Hobj Hp.
    destruct (update_sound dt s s' Hrun) as (_ & _ & _ & Hpart).
    destruct (Hpart obj p Hobj Hp) as [Hdone _].
    destruct Hdone as (HF' & _ & Hdet); [unfold before; lia|].
    rewrite HF'. split; [reflexivity | exact Hdet].
  - split.
    + intros [s' Hrun] obj p Hobj Hp.
      destruct (update_sound dt s s' Hrun) as (_ & _ & _ & Hpart).
      destruct (Hpart obj p Hobj Hp) as [Hdone _].
      destruct Hdone as (HF' & _ & Hdet); [unfold before; lia|].
      exact Hdet.
    + intros Hok. apply update_total. exact Hok.
  - intros obj p HF. split; intros Hdet.
    + assert (Hval : determinant Dim (F' obj p) =
                     determinant Dim (madd I (A obj p)) * determinant Dim (F obj p)).
      { unfold F', newDeformationGradient, integrateDeformationGradient.
        destruct (decide _) as [_|Hc]; [|exfalso; apply Hc; exact Hdet].
        exact (det_normal_branch dt _ _ HDim). }
      rewrite Hval. split; [reflexivity|].
      apply Qcmult_pos_pos; assumption.
    + assert (Hval : determinant Dim (F' obj p) =
                     determinant Dim (madd I (mscale half (A obj p)))
                     * determinant Dim (madd I (mscale half (A obj p)))
                     * determinant Dim (F obj p)).
      { unfold F', newDeformationGradient, integrateDeformationGradient.
        destruct (decide _) as [Hc|_]; [exfalso; apply Hdet; exact Hc|].
        exact (det_remedy_branch dt _ _ HDim). }
      rewrite Hval. split; [reflexivity|]. split.
      * apply Qcmult_nonneg_nonneg; [apply Qc_square_nonneg | apply Qclt_le_weak, HF].
      * split.
        -- intros Hpos Hzero. rewrite Hzero, !Qcmult_0_l in Hpos.
           exact (Qclt_not_eq _ _ Hpos eq_refl).
        -- intros Hnz. apply Qcmult_pos_pos; [apply Qc_square_pos, Hnz | exact HF].
Qed.

End ConstitutiveUpdate.

(** Concrete check of C1 on [rest_state]: the update runs and the formula
    applies to its particle. *)
Lemma C1_witness :
  exists s', updateParticleConstitutiveModelState (Dim := 2) 1 rest_state = Some s' /\
    deformationGradient (particle (base s') 0 0) =
      if decide (0 < determinant 2
                       (madd (identityMatrix 2)
                          (mscale 1 (particleVelocityGradient rest_state 0 0))))
      then madd (deformationGradient (particle (base rest_state) 0 0))
             (mmul (mscale 1 (particleVelocityGradient rest_state 0 0))
                (deformationGradient (particle (base rest_state) 0 0)))
      else madd (deformationGradient (particle (base rest_state) 0 0))
             (mmul (madd (mscale 1 (particleVelocityGradient rest_state 0 0))
                      (mscale quarter
                         (mmul (mscale 1 (particleVelocityGradient rest_state 0 0))
                            (mscale 1 (particleVelocityGradient rest_state 0 0)))))
                (deformationGradient (particle (base rest_state) 0 0))).
Proof.
  destruct (updateParticleConstitutiveModelState (Dim := 2) 1 rest_state) as [s'|] eqn:Hrun;
    [|exfalso; revert Hrun; vm_compute; discriminate].
  exists s'. split; [reflexivity|].
  apply (C1_deformation_gradient_update 1 rest_state s' 0 0);
    [left; reflexivity | exact Hrun | vm_compute; lia | vm_compute; lia].
Defined.

Lemma compressed_state_range (obj p : nat) :
  (obj < objectNum (base compressed_state))%nat ->
  (p < particleNumOfObject (base compressed_state) obj)%nat -> obj = 0%nat /\ p = 0%nat.
Proof.
  intros Hobj Hp. change (objectNum (base compressed_state)) with 1%nat in Hobj.
  assert (obj = 0%nat) as -> by lia.
  change (particleNumOfObject (base compressed_state) 0) with 1%nat in Hp. lia.
Qed.

Lemma compressed_state_half_step (obj p : nat) :
  (obj < objectNum (base compressed_state))%nat ->
  (p < particleNumOfObject (base compressed_state) obj)%nat ->
  0 < determinant 2 (newDeformationGradient half compressed_state obj p).
Proof.
  intros Hobj Hp. destruct (compressed_state_range obj p Hobj Hp) as [-> ->]. compute_done.
Qed.

(** Concrete check of C2 on [compressed_state] with dt = 1/2: the particle
    has A = diag(-1, 0), so det(I + A) = 0 and the remedy branch is taken;
    the new deformation gradient is diag(1/4, 1), with determinant
    1/4 = det(I + A/2)^2 * det(F), and the update completes. *)
Lemma C2_witness :
  ~ 0 < determinant 2
          (madd (identityMatrix 2)
             (mscale half (particleVelocityGradient compressed_state 0 0))) /\
  determinant 2 (newDeformationGradient half compressed_state 0 0) = qc 1 4 /\
  exists s', updateParticleConstitutiveModelState (Dim := 2) half compressed_state = Some s' /\
    0 < determinant 2 (deformationGradient (particle (base s') 0 0)).
Proof.
  split; [compute_done|]. split; [compute_done|].
  pose proof (C2_determinant_after_update half compressed_state (or_introl eq_refl))
    as (Hpos & Hruns & _).
  destruct (proj2 Hruns compressed_state_half_step) as [s' Hs'].
  exists s'. split; [exact Hs'|].
  apply (Hpos s' 0%nat 0%nat Hs'); vm_compute; lia.
Defined.

(** C2 fails as stated: on [compressed_state] with dt = 1 the particle has
    det(F) = 1 > 0 and A = diag(-2, 0), so det(I + A) = -1 and the remedy
    branch is taken; the new deformation gradient is diag(0, 1), with
    determinant 0, and the assertion aborts the update. *)
Lemma C2_counterexample :
  0 < determinant 2 (deformationGradient (particle (base compressed_state) 0 0)) /\
  ~ 0 < determinant 2
          (madd (identityMatrix 2)
             (mscale 1 (particleVelocityGradient compressed_state 0 0))) /\
  determinant 2 (newDeformationGradient 1 compressed_state 0 0) = 0 /\
  updateParticleConstitutiveModelState (Dim := 2) 1 compressed_state = None.
Proof.
  split; [compute_done|]. split; [compute_done|]. split; [compute_done|].
  vm_compute. reflexivity.
Qed.

(** ** Enrichment classification *)

Lemma at2_insert {A} (d v : A) (l : list (list A)) (i j i' j' : nat) :
  at2 d (alter (<[j := v]>) i l) i' j' =
  if decide (i = i' /\ j = j' /\ (j < length (row l i))%nat) then v else at2 d l i' j'.
Proof.
  unfold at2, row. rewrite list_lookup_alter.
  destruct (decide (i = i')) as [<-|Hi].
  - destruct (l !! i) as [r|] eqn:Hr; simpl.
    + rewrite list_lookup_insert.
      destruct (decide (j = j' /\ (j < length r)%nat)) as [[<- Hlt]|Hn];
        destruct (decide (i = i /\ _)) as [Hy|Hy]; try reflexivity;
        try (exfalso; tauto).
    + destruct (decide _) as [(_ & _ & Hlt)|_]; [simpl in Hlt; lia|reflexivity].
  - destruct (decide _) as [(Heq & _)|_]; [contradiction|reflexivity].
Qed.

Lemma at2_insert_default {A} (d : A) (l : list (list A)) (i j i' j' : nat) :
  at2 d l i' j' = d -> at2 d (alter (<[j := d]>) i l) i' j' = d.
Proof. intros H. rewrite at2_insert. destruct (decide _); [reflexivity | exact H]. Qed.

Lemma at2_insert_same_default {A} (d : A) (l : list (list A)) (i j : nat) :
  at2 d (alter (<[j := d]>) i l) i j = d.
Proof.
  rewrite at2_insert. destruct (decide _) as [|Hn]; [reflexivity|].
  unfold at2. destruct (row l i !! j) as [x|] eqn:Hx; [|reflexivity].
  exfalso. apply Hn. repeat split; try reflexivity. eapply lookup_lt_Some, Hx.
Qed.

Lemma row_length_insert {A} (v : A) (l : list (list A)) (i j k : nat) :
  length (row (alter (<[j := v]>) i l) k) = length (row l k).
Proof.
  unfold row. rewrite list_lookup_alter.
  destruct (decide (i = k)) as [<-|]; [|reflexivity].
  destruct (l !! i); simpl; [apply length_insert | reflexivity].
Qed.

Section Enrichment.
Context {Dim : nat}.
Implicit Types s t : InvertibleMPMSolid Dim.

Lemma cornerFrame_refl s : cornerFrame s s.
Proof. repeat split. Qed.

Lemma cornerShape_refl s : cornerShape s s.
Proof. intros obj. repeat split. Qed.

Lemma cornerFrame_trans s t u : cornerFrame s t -> cornerFrame t u -> cornerFrame s u.
Proof.
  intros (H1 & H2 & H3 & H4) (H1' & H2' & H3' & H4').
  repeat split; congruence.
Qed.

Lemma cornerShape_trans s t u : cornerShape s t -> cornerShape t u -> cornerShape s u.
Proof.
  intros H H' obj. destruct (H obj) as (H1 & H2 & H3 & H4).
  destruct (H' obj) as (H1' & H2' & H3' & H4'). repeat split; congruence.
Qed.

Lemma mesh_frame s t obj : cornerFrame s t -> mesh t obj = mesh s obj.
Proof. intros (_ & H & _). unfold mesh. rewrite H. reflexivity. Qed.

Lemma resetCorner_frame o j s : cornerFrame s (resetCorner o j s).
Proof. repeat split. Qed.

Lemma resetCorner_shape o j s : cornerShape s (resetCorner o j s).
Proof. intros obj. simpl. rewrite !row_length_insert. repeat split. Qed.

Lemma resetCorner_cleared o j s : cleared (resetCorner o j s) o j.
Proof.
  unfold cleared, isEnriched, cornerMass, cornerVelocity, cornerVelocityBefore. simpl.
  rewrite !at2_insert_same_default. repeat split.
Qed.

Lemma resetCorner_keeps o j s obj g : cleared s obj g -> cleared (resetCorner o j s) obj g.
Proof.
  unfold cleared, isEnriched, cornerMass, cornerVelocity, cornerVelocityBefore. simpl.
  intros (H1 & H2 & H3 & H4). repeat split; apply at2_insert_default; assumption.
Qed.

Lemma reset_spec s :
  let s1 := resetParticleDomainData s in
  cornerFrame s s1 /\ cornerShape s s1 /\
  forall obj g, (obj < objectNum (base s))%nat -> (g < vertNum (mesh s obj))%nat ->
    cleared s1 obj g.
Proof.
  unfold resetParticleDomainData.
  apply (loop_ind (fun o t =>
           cornerFrame s t /\ cornerShape s t /\
           forall obj g, (obj < o)%nat -> (g < vertNum (mesh s obj))%nat -> cleared t obj g)).
  { split; [apply cornerFrame_refl|]. split; [apply cornerShape_refl|]. intros; lia. }
  intros o t Ho (Hfr & Hsh & Hcl).
  rewrite (mesh_frame s t o Hfr).
  set (inner := loop _ _ t).
  assert (Hinner :
           cornerFrame s inner /\ cornerShape s inner /\
           forall obj g, ((obj < o)%nat /\ (g < vertNum (mesh s obj))%nat) \/
                         (obj = o /\ (g < vertNum (mesh s o))%nat) -> cleared inner obj g).
  { unfold inner.
    apply (loop_ind (fun j u =>
           cornerFrame s u /\ cornerShape s u /\
           forall obj g, ((obj < o)%nat /\ (g < vertNum (mesh s obj))%nat) \/
                         (obj = o /\ (g < j)%nat) -> cleared u obj g)).
    - split; [exact Hfr|]. split; [exact Hsh|]. intros obj g [[? ?]|[_ ?]]; [auto|lia].
    - intros j u Hj (Hfr' & Hsh' & Hcl'). split; [|split].
      + eapply cornerFrame_trans; [exact Hfr'|apply resetCorner_frame].
      + eapply cornerShape_trans; [exact Hsh'|apply resetCorner_shape].
      + intros obj g Hcase. fold (resetCorner o j u).
        destruct (decide (obj = o /\ g = j)) as [[-> ->]|Hne]; [apply resetCorner_cleared|].
        apply resetCorner_keeps, Hcl'. destruct Hcase as [?|[-> ?]]; [left; assumption|].
        right. split; [reflexivity|]. assert (g <> j) by tauto. lia. }
  destruct Hinner as (Hfr' & Hsh' & Hcl'). split; [exact Hfr'|]. split; [exact Hsh'|].
  intros obj g Hobj Hg. apply Hcl'.
  destruct (decide (obj = o)) as [->|]; [right; split; [reflexivity|exact Hg]|left; lia].
Qed.


Lemma enriching_equiv crit (D D' : nat -> nat -> nat -> Prop) s t :
  (forall obj p c, crit obj p = true -> (D obj p c <-> D' obj p c)) ->
  enriching crit D s t -> enriching crit D' s t.
Proof.
  intros HD (H1 & H2 & H3 & H4 & H5 & H6). repeat (split; [assumption|]).
  intros obj g. rewrite H6. split; (intros [?|(Hg & p & c & Hd & Hc & He)]; [left; assumption|]);
    right; (split; [exact Hg|]); exists p, c; (split; [apply (HD obj p c Hc), Hd|auto]).
Qed.

Lemma enriching_step crit (D : nat -> nat -> nat -> Prop) s t o q k :
  crit o q = true ->
  enriching crit D s t ->
  enriching crit (fun obj p c => D obj p c \/ (obj = o /\ p = q /\ c = k)) s
    (map_enriched (alter (<[eleVertIndex (mesh t o) q k := true]>) o) t).
Proof.
  intros Hc (H1 & H2 & H3 & H4 & H5 & H6).
  split; [exact H1|]. split.
  { intros obj. destruct (H2 obj) as (? & ? & ? & ?). simpl. rewrite row_length_insert. auto. }
  repeat (split; [assumption|]).
  intros obj g. unfold isEnriched at 1. simpl. rewrite at2_insert.
  rewrite (mesh_frame s t o H1).
  destruct (H2 o) as (Hlen & _). rewrite Hlen.
  destruct (decide _) as [(<- & <- & Hlt)|Hn].
  - split; [intros _|reflexivity]. right. split; [exact Hlt|].
    exists q, k. split; [right; auto|auto].
  - fold (isEnriched t obj g). rewrite H6.
    split; (intros [?|(Hg & p & c & Hd & Hcp & He)]; [left; assumption|]); right;
      (split; [exact Hg|]).
    + exists p, c. auto.
    + destruct Hd as [Hd|(-> & -> & ->)]; [exists p, c; auto|].
      exfalso. apply Hn. rewrite He. auto.
Qed.

Lemma enrich_spec crit s :
  enriching crit
    (fun obj p c => (obj < objectNum (base s))%nat /\
                    (p < particleNumOfObject (base s) obj)%nat /\
                    (c < eleVertNum (mesh s obj) p)%nat)
    s (updateParticleDomainEnrichState crit s).
Proof.
  unfold updateParticleDomainEnrichState.
  set (visited o q k obj p c :=
         ((obj < o)%nat /\ (p < particleNumOfObject (base s) obj)%nat /\
          (c < eleVertNum (mesh s obj) p)%nat) \/
         (obj = o /\ (p < q)%nat /\ (c < eleVertNum (mesh s obj) p)%nat) \/
         (obj = o /\ p = q /\ (c < k)%nat)).
  assert (Hfin : enriching crit (visited (objectNum (base s)) 0%nat 0%nat) s
                   (loop (objectNum (base s))
                      (fun obj_idx s0 =>
                         loop (particleNumOfObject (base s0) obj_idx)
                           (fun particle_idx s1 =>
                              if crit obj_idx particle_idx
                              then loop (eleVertNum (mesh s1 obj_idx) particle_idx)
                                     (fun corner_idx s2 =>
                                        map_enriched
                                          (alter (<[eleVertIndex (mesh s2 obj_idx) particle_idx corner_idx := true]>)
                                             obj_idx) s2) s1
                              else s1) s0) s)).
  { apply (loop_ind (fun o t => enriching crit (visited o 0%nat 0%nat) s t)).
    { repeat split; try reflexivity; intros; unfold visited in *.
      - left. assumption.
      - destruct H as [?|(_ & p & c & Hv & _)]; [assumption|]. lia. }
    intros o t Ho Hinv.
    assert (Hb : base t = base s) by apply Hinv. rewrite Hb.
    apply (enriching_equiv crit (visited o (particleNumOfObject (base s) o) 0%nat)).
    { intros obj p c _; unfold visited.
      destruct (decide (obj = o)) as [->|]; intuition lia. }
    apply (loop_ind (fun q u => enriching crit (visited o q 0%nat) s u)); [exact Hinv|].
    intros q u Hq Hinv'.
    destruct (crit o q) eqn:Hcrit.
    - assert (Hm : mesh u o = mesh s o) by (apply mesh_frame, Hinv'). rewrite Hm.
      apply (enriching_equiv crit (visited o q (eleVertNum (mesh s o) q))).
      { intros obj p c _; unfold visited.
        destruct (decide (obj = o)) as [->|]; [|intuition lia].
        destruct (decide (p = q)) as [->|]; intuition lia. }
      apply (loop_ind (fun k v => enriching crit (visited o q k) s v)); [exact Hinv'|].
      intros k v Hk Hv.
      assert (Hm' : mesh v o = mesh s o) by (apply mesh_frame, Hv). rewrite Hm'.
      apply (enriching_equiv crit
               (fun obj p c => visited o q k obj p c \/ (obj = o /\ p = q /\ c = k))).
      { intros obj p c _; unfold visited.
        destruct (decide (obj = o)) as [->|]; [|intuition lia].
        destruct (decide (p = q)) as [->|]; intuition lia. }
      rewrite <- Hm'. apply enriching_step; assumption.
    - apply (enriching_equiv crit (visited o q 0%nat)); [|exact Hinv'].
      intros obj p c Hc. unfold visited.
      destruct (decide (obj = o)) as [->|]; [|intuition lia].
      destruct (decide (p = q)) as [->|]; [congruence|intuition lia]. }
  revert Hfin. apply enriching_equiv. intros obj p c _. unfold visited. intuition lia.
Qed.


(** C4: the enrichment flags are all reset to ordinary before the
    classification, and after [updateParticleDomainEnrichState] a domain
    corner is enriched exactly when some particle whose domain contains it
    satisfies the criterion; the flag belongs to the corner, so every
    particle sharing the corner reads the same value. *)
Theorem C4_enrichment_per_corner (crit : nat -> nat -> bool) s (obj g : nat) :
  (obj < objectNum (base s))%nat ->
  (g < vertNum (mesh s obj))%nat ->
  length (row (is_enriched_domain_corner_ s) obj) = vertNum (mesh s obj) ->
  let s1 := resetParticleDomainData s in
  let s2 := updateParticleDomainEnrichState crit s1 in
  (forall g', (g' < vertNum (mesh s obj))%nat -> isEnriched s1 obj g' = false) /\
  (isEnriched s2 obj g = true <->
   exists p, (p < particleNumOfObject (base s) obj)%nat /\ crit obj p = true /\
             domainContains (mesh s obj) p g) /\
  (forall p c p' c',
     eleVertIndex (mesh s2 obj) p c = g -> eleVertIndex (mesh s2 obj) p' c' = g ->
     isEnriched s2 obj (eleVertIndex (mesh s2 obj) p c) =
     isEnriched s2 obj (eleVertIndex (mesh s2 obj) p' c')).
Proof.
  intros Hobj Hg Hlen s1 s2.
  destruct (reset_spec s) as (Hfr & Hsh & Hcl). fold s1 in Hfr, Hsh, Hcl.
  destruct (enrich_spec crit s1) as (Hfr' & _ & _ & _ & _ & Hiff). fold s2 in Hfr', Hiff.
  assert (Hb : base s1 = base s) by apply Hfr.
  assert (Hm : mesh s1 obj = mesh s obj) by (apply mesh_frame, Hfr).
  split; [intros g' Hg'; apply (Hcl obj g' Hobj Hg')|]. split.
  - rewrite Hiff, Hb, Hm. destruct (Hcl obj g Hobj Hg) as (Hfalse & _).
    destruct (Hsh obj) as (Hl & _). rewrite Hl, Hlen. split.
    + intros [Habs|(_ & p & c & (_ & Hp & Hc) & Hcrit & He)]; [congruence|].
      exists p. split; [exact Hp|]. split; [exact Hcrit|]. exists c. auto.
    + intros (p & Hp & Hcrit & c & Hc & He). right. split; [exact Hg|].
      exists p, c. auto.
  - intros p c p' c' -> ->. reflexivity.
Qed.

End Enrichment.

(** ** What the phases leave unchanged *)

Lemma for_each_frame {S T : Type} (proj : S -> T) (body : nat -> S -> option S)
  (l : list nat) (s s' : S) :
  (forall i t t', body i t = Some t' -> proj t' = proj t) ->
  for_each body l s = Some s' -> proj s' = proj s.
Proof.
  intros H. revert s. induction l as [|i l IH]; intros s Hrun; simpl in Hrun.
  - injection Hrun as <-. reflexivity.
  - destruct (body i s) as [t|] eqn:Hb; [|discriminate].
    rewrite (IH t Hrun). apply (H i s t Hb).
Qed.

Lemma loopM_frame {S T : Type} (proj : S -> T) (n : nat) (body : nat -> S -> option S)
  (s s' : S) :
  (forall i t t', body i t = Some t' -> proj t' = proj t) ->
  loopM n body s = Some s' -> proj s' = proj s.
Proof. apply for_each_frame. Qed.

Lemma foldl_frame {S T E : Type} (proj : S -> T) (f : S -> E -> S) (l : list E) (s : S) :
  (forall t e, proj (f t e) = proj t) -> proj (foldl f s l) = proj s.
Proof.
  intros H. revert s. induction l as [|e l IH]; intros s; simpl; [reflexivity|].
  rewrite IH. apply H.
Qed.

Section Frames.
Context {Dim : nat}.
Variable epsilon : Scalar.
Implicit Types s t : InvertibleMPMSolid Dim.

Lemma enrichedCornerNum_classification s t obj p :
  classification t = classification s ->
  enrichedCornerNum t obj p = enrichedCornerNum s obj p.
Proof.
  unfold classification. intros [= Hm Hf].
  unfold enrichedCornerNum, mesh, isEnriched. rewrite Hm, Hf. reflexivity.
Qed.

Lemma rasterizeParticleToCorners_classification obj p s :
  classification (rasterizeParticleToCorners obj p s) = classification s.
Proof.
  unfold rasterizeParticleToCorners. apply loop_frame. intros c t.
  destruct (isEnriched t obj _); reflexivity.
Qed.

Lemma rasterizeParticle_classification obj p s s' :
  rasterizeParticle epsilon obj p s = Some s' -> classification s' = classification s.
Proof.
  unfold rasterizeParticle. intros H.
  destruct (decide (enrichedCornerNum s obj p < corner_num Dim)%nat).
  - destruct (rasterizeParticleToGrid epsilon obj p (base s)) as [b|]; [|discriminate].
    simpl in H. destruct (decide _); injection H as <-;
      rewrite ?rasterizeParticleToCorners_classification; reflexivity.
  - destruct (decide _); injection H as <-;
      rewrite ?rasterizeParticleToCorners_classification; reflexivity.
Qed.

Lemma computeDomainCornerVelocity_classification obj s :
  classification (computeDomainCornerVelocity epsilon obj s) = classification s.
Proof.
  unfold computeDomainCornerVelocity. apply loop_frame. intros c t.
  destruct (decide _); reflexivity.
Qed.

Lemma rasterizeObjects_classification s s' :
  rasterizeObjects epsilon s = Some s' -> classification s' = classification s.
Proof.
  unfold rasterizeObjects. apply loopM_frame. intros obj t t' H.
  destruct (loopM _ _ t) as [u|] eqn:Hu; [|discriminate]. injection H as <-.
  rewrite computeDomainCornerVelocity_classification.
  revert Hu. apply loopM_frame. intros p v v'. apply rasterizeParticle_classification.
Qed.

Lemma rasterize_classification crit s s' :
  rasterize epsilon crit s = Some s' ->
  classification s' =
  classification
    (updateParticleDomainEnrichState crit
       (resetParticleDomainData (map_base resetGridData s))).
Proof.
  unfold rasterize, rasterizeBeforeMerge. intros H.
  destruct (rasterizeObjects _ _) as [u|] eqn:Hu; [|discriminate]. injection H as <-.
  apply rasterizeObjects_classification in Hu. unfold classification in *. simpl. rewrite Hu.
  reflexivity.
Qed.

Lemma updateParticleConstitutiveModelState_classification dt s s' :
  updateParticleConstitutiveModelState dt s = Some s' -> classification s' = classification s.
Proof.
  intros H. destruct (update_sound dt s s' H) as (Her & _).
  change (classification (erase_particles s') = classification (erase_particles s)).
  rewrite Her. reflexivity.
Qed.

Lemma solveParticleOnCorners_classification dt obj p s :
  classification (solveParticleOnCorners epsilon dt obj p s) = classification s.
Proof.
  unfold solveParticleOnCorners. apply loop_frame. intros c t.
  destruct (isEnriched t obj _); [|reflexivity]. destruct (decide _); reflexivity.
Qed.

Lemma applyGravityOnEnrichedDomainCorner_classification dt s :
  classification (applyGravityOnEnrichedDomainCorner dt s) = classification s.
Proof.
  unfold applyGravityOnEnrichedDomainCorner. apply loop_frame. intros obj t.
  apply loop_frame. intros c u. destruct (isEnriched u obj c); reflexivity.
Qed.

Lemma solveOnGridForwardEuler_classification dt s :
  classification (solveOnGridForwardEuler epsilon dt s) = classification s.
Proof.
  unfold solveOnGridForwardEuler.
  rewrite applyGravityOnEnrichedDomainCorner_classification.
  apply loop_frame. intros obj t. apply loop_frame. intros p u.
  destruct (decide (0 < _)%nat); rewrite ?solveParticleOnCorners_classification;
    destruct (decide (_ < corner_num Dim)%nat); reflexivity.
Qed.

Lemma updateParticleVelocity_classification s s' :
  updateParticleVelocity epsilon s = Some s' -> classification s' = classification s.
Proof.
  unfold updateParticleVelocity. apply loopM_frame. intros obj t t'.
  apply loopM_frame. intros p u u'. unfold updateOneParticleVelocity.
  destruct (at2 false _ obj p); [intros [= <-]; reflexivity|].
  destruct (decide (_ < corner_num Dim)%nat).
  - destruct (gridVelocityDelta _ _ _ _ _); [|discriminate]. intros [= <-]. reflexivity.
  - intros [= <-]. reflexivity.
Qed.

End Frames.

Section BuiltinCriterion.
Context {Dim : nat}.
Variable epsilon : Scalar.
Implicit Types s t : InvertibleMPMSolid Dim.

Lemma count_all (n : nat) (flag : nat -> bool) :
  (forall c, (c < n)%nat -> flag c = true) ->
  loop n (fun c k => if flag c then S k else k) 0%nat = n.
Proof.
  intros H. apply (loop_ind (fun c k => k = c)); [reflexivity|].
  intros c k Hc ->. rewrite (H c Hc). reflexivity.
Qed.

Lemma wellFormedDomainMesh_frame s t obj :
  cornerFrame s t -> cornerShape s t ->
  wellFormedDomainMesh s obj -> wellFormedDomainMesh t obj.
Proof.
  intros Hfr Hsh (H1 & H2 & H3). unfold wellFormedDomainMesh.
  rewrite (mesh_frame s t obj Hfr). destruct Hfr as (Hb & _). rewrite Hb.
  destruct (Hsh obj) as (Hl & _). rewrite Hl. auto.
Qed.

Lemma builtin_enriches_all s obj :
  (obj < objectNum (base s))%nat -> wellFormedDomainMesh s obj ->
  let s2 := updateParticleDomainEnrichState isEnrichCriteriaSatisfied s in
  (forall g, (g < vertNum (mesh s obj))%nat -> isEnriched s2 obj g = true) /\
  (forall t p, classification t = classification s2 ->
     (p < particleNumOfObject (base s) obj)%nat ->
     enrichedCornerNum t obj p = corner_num Dim).
Proof.
  intros Hobj (Hlen & Hele & Hcov) s2.
  destruct (enrich_spec isEnrichCriteriaSatisfied s) as (Hfr & _ & _ & _ & _ & Hiff).
  fold s2 in Hfr, Hiff.
  assert (Hall : forall g, (g < vertNum (mesh s obj))%nat -> isEnriched s2 obj g = true).
  { intros g Hg. apply Hiff. right. rewrite Hlen. split; [exact Hg|].
    destruct (Hcov g Hg) as (p & Hp & c & Hc & He). exists p, c. auto. }
  split; [exact Hall|].
  intros t p Hcl Hp. rewrite (enrichedCornerNum_classification s2 t obj p Hcl).
  unfold enrichedCornerNum. rewrite (mesh_frame s s2 obj Hfr).
  apply (count_all (corner_num Dim) (fun c => isEnriched s2 obj (eleVertIndex (mesh s obj) p c))).
  intros c Hc. apply Hall. apply (Hele p Hp), Hc.
Qed.

End BuiltinCriterion.

(** ** Velocity update *)

(** C5 (code defect): on [two_particle_state] the second particle of object
    0 is updated with the corner weights of particle 0 (the record at index
    [obj_idx]): its new velocity is (1/4, 0), whereas its own weights, as
    the claim has it, give (1/2, 0). *)
Lemma C5_velocity_update_reads_weight_at_object_index :
  particle_domain_mesh_ two_particle_state =
    [mkMesh [vec2 0 0; vec2 1 0; vec2 0 1; vec2 1 1; vec2 2 0; vec2 2 1]
            [[0; 1; 2; 3]; [1; 4; 3; 5]]%nat] /\
  at2 false (is_dirichlet_particle_ (base two_particle_state)) 0 1 = false /\
  option_map (fun s' => velocity (particle (base s') 0 1))
    (updateParticleVelocity eps_float two_particle_state) = Some (qc 1 4, (0, tt)) /\
  claimedCornerVelocityDelta two_particle_state 0 1
    (velocity (particle (base two_particle_state) 0 1)) = (qc 1 2, (0, tt)).
Proof. repeat split; compute_done. Qed.

(** ** Construction of the particle-domain meshes *)

Section MeshConstruction.
Context {Dim : nat}.
Implicit Types s t : InvertibleMPMSolid Dim.

Lemma weld_particle (pc : list (list (Vector Dim))) (p : nat) (cp0 : list (Vector Dim)) :
  let acc :=
    loop (corner_num Dim)
      (fun corner_idx (acc : list (Vector Dim) * list nat) =>
         let pos := at2 vzero pc p corner_idx in
         match list_find (fun q => q = pos) acc.1 with
         | None => (acc.1 ++ [pos], acc.2 ++ [length acc.1])
         | Some (idx, _) => (acc.1, acc.2 ++ [idx])
         end)
      (cp0, []) in
  (exists ext, acc.1 = cp0 ++ ext) /\
  length acc.2 = corner_num Dim /\
  (forall c g, acc.2 !! c = Some g -> acc.1 !! g = Some (at2 vzero pc p c)) /\
  (forall g, (g < length acc.1)%nat ->
     (g < length cp0)%nat \/ exists c, acc.2 !! c = Some g).
Proof.
  apply (loop_ind (fun k (acc : list (Vector Dim) * list nat) =>
           (exists ext, acc.1 = cp0 ++ ext) /\
           length acc.2 = k /\
           (forall c g, acc.2 !! c = Some g -> acc.1 !! g = Some (at2 vzero pc p c)) /\
           (forall g, (g < length acc.1)%nat ->
              (g < length cp0)%nat \/ exists c, acc.2 !! c = Some g))).
  { simpl. split; [exists []; rewrite app_nil_r; reflexivity|].
    split; [reflexivity|]. split; [intros c g Hc; discriminate|]. intros g Hg. left. exact Hg. }
  intros k [cp el] Hk ([ext Hext] & Hlen & Hpos & Hcov). simpl in *.
  destruct (list_find _ cp) as [[idx x]|] eqn:Hfind; simpl.
  - apply list_find_Some in Hfind. destruct Hfind as (Hidx & -> & _).
    split; [exists ext; exact Hext|]. split; [rewrite length_app; simpl; lia|]. split.
    + intros c g Hc. apply lookup_snoc_Some in Hc.
      destruct Hc as [[_ Hc]|[-> <-]]; [apply (Hpos c g Hc)|].
      rewrite Hlen. exact Hidx.
    + intros g Hg. destruct (Hcov g Hg) as [?|[c Hc]]; [left; assumption|].
      right. exists c. apply lookup_app_l_Some, Hc.
  - split; [exists (ext ++ [at2 vzero pc p k]); rewrite Hext, app_assoc; reflexivity|].
    split; [rewrite length_app; simpl; lia|]. split.
    + intros c g Hc. apply lookup_snoc_Some in Hc.
      destruct Hc as [[_ Hc]|[-> <-]]; [apply lookup_app_l_Some, (Hpos c g Hc)|].
      rewrite Hlen. apply list_lookup_middle. reflexivity.
    + intros g Hg. rewrite length_app in Hg. simpl in Hg.
      destruct (decide (g < length cp)%nat) as [Hlt|Hge].
      * destruct (Hcov g Hlt) as [?|[c Hc]]; [left; assumption|].
        right. exists c. apply lookup_app_l_Some, Hc.
      * right. exists (length el). assert (g = length cp) as -> by lia.
        apply list_lookup_middle. reflexivity.
Qed.

Lemma weld_spec (pc : list (list (Vector Dim))) (n : nat) :
  welded pc n (weldDomainCorners pc n).
Proof.
  unfold weldDomainCorners.
  apply (loop_ind (fun k acc => welded pc k acc)).
  { repeat split; simpl; try discriminate. intros g Hg. lia. }
  intros k [cp dom] Hk (Hlen & Hel & Hpos & Hcov). simpl in *.
  pose proof (weld_particle pc k cp) as Hw. cbv zeta in Hw.
  destruct (loop (corner_num Dim) _ (cp, [])) as [cp' el'] eqn:Hinner. simpl in Hw.
  destruct Hw as ([ext Hext] & Hlen' & Hpos' & Hcov'). unfold welded. simpl.
  split; [rewrite length_app; simpl; lia|]. split; [|split].
  - intros p el Hp. apply lookup_snoc_Some in Hp.
    destruct Hp as [[_ Hp]|[_ <-]]; [apply (Hel p el Hp)|exact Hlen'].
  - intros p el c g Hp Hc. apply lookup_snoc_Some in Hp.
    destruct Hp as [[_ Hp]|[-> <-]].
    + rewrite Hext. apply lookup_app_l_Some, (Hpos p el c g Hp Hc).
    + rewrite Hlen. apply (Hpos' c g Hc).
  - intros g Hg. destruct (Hcov' g Hg) as [Hlt|[c Hc]].
    + destruct (Hcov g Hlt) as (p & el & c & Hp & Hc).
      exists p, el, c. split; [apply lookup_app_l_Some, Hp|exact Hc].
    + exists (length dom), el', c. split; [apply list_lookup_middle; reflexivity|exact Hc].
Qed.


Lemma row_resize_eq {A} (n : nat) (d : A) (l : list (list A)) (i : nat) :
  (i < length l)%nat -> length (row (alter (resize n d) i l) i) = n.
Proof. intros Hi. rewrite row_alter_eq by exact Hi. apply length_resize. Qed.

Lemma construct_spec s :
  built s (objectNum (base s)) (constructParticleDomainMesh s).
Proof.
  unfold constructParticleDomainMesh.
  set (s0 := map_corner_velocity_before _ _).
  assert (H0 : built s 0 s0).
  { unfold built, s0. simpl. rewrite !length_resize.
    repeat (split; [reflexivity|]). intros obj Hobj. lia. }
  assert (Hn : objectNum (base s0) = objectNum (base s)) by reflexivity.
  rewrite Hn. clearbody s0.
  apply (loop_ind (fun o t => built s o t)); [exact H0|].
  intros o t Ho (Hb & Hw & Hg & L1 & L2 & L3 & L4 & L5 & Hobjs).
  rewrite Hb.
  destruct (weldDomainCorners _ _) as [cp dom] eqn:Hweld.
  unfold built. simpl. rewrite length_insert, !length_alter.
  repeat (split; [assumption|]).
  intros obj Hobj. unfold mesh. simpl.
  destruct (decide (obj = o)) as [->|Hne].
  - rewrite list_lookup_insert_eq by lia. simpl. unfold vertNum. simpl.
    rewrite !row_resize_eq by lia. unfold meshOf. rewrite Hweld. repeat split.
  - rewrite list_lookup_insert_ne by congruence.
    rewrite !row_alter_ne by congruence. apply Hobjs. lia.
Qed.

Lemma construct_well_formed s obj :
  (obj < objectNum (base s))%nat ->
  let t := constructParticleDomainMesh s in
  base t = base s /\
  particle_corner_weight_ t = particle_corner_weight_ s /\
  particle_corner_gradient_ t = particle_corner_gradient_ s /\
  eleNum (mesh t obj) = particleNumOfObject (base s) obj /\
  wellFormedDomainMesh t obj /\
  length (row (domain_corner_mass_ t) obj) = vertNum (mesh t obj) /\
  length (row (domain_corner_velocity_ t) obj) = vertNum (mesh t obj) /\
  length (row (domain_corner_velocity_before_ t) obj) = vertNum (mesh t obj) /\
  (forall p c, (p < particleNumOfObject (base s) obj)%nat -> (c < corner_num Dim)%nat ->
     vertPos (mesh t obj) (eleVertIndex (mesh t obj) p c) =
     at3 vzero (particle_domain_corners_ (base s)) obj p c).
Proof.
  intros Hobj t.
  destruct (construct_spec s) as (Hb & Hw & Hg & _ & _ & _ & _ & _ & Hobjs). fold t in Hb, Hw, Hg, Hobjs.
  destruct (Hobjs obj Hobj) as (Hm & Hl1 & Hl2 & Hl3 & Hl4).
  pose proof (weld_spec (row (particle_domain_corners_ (base s)) obj)
                (particleNumOfObject (base s) obj)) as (Hlen & Hel & Hpos & Hcov).
  set (pc := row (particle_domain_corners_ (base s)) obj) in *.
  set (n := particleNumOfObject (base s) obj) in *.
  assert (Hidx : forall p c, (p < n)%nat -> (c < corner_num Dim)%nat ->
            eleVertNum (mesh t obj) p = corner_num Dim /\
            (weldDomainCorners pc n).1 !! eleVertIndex (mesh t obj) p c
              = Some (at2 vzero pc p c)).
  { intros p c Hp Hc. rewrite Hm. unfold eleVertNum, eleVertIndex, meshOf, at2, row. simpl.
    assert (Hp' : (p < length (weldDomainCorners pc n).2)%nat) by lia.
    destruct (lookup_lt_is_Some_2 _ _ Hp') as [el Hel']. rewrite Hel'. simpl.
    pose proof (Hel p el Hel') as Hlel. split; [exact Hlel|].
    assert (Hc' : (c < length el)%nat) by lia.
    destruct (lookup_lt_is_Some_2 _ _ Hc') as [g Hg']. rewrite Hg'. simpl.
    apply (Hpos p el c g Hel' Hg'). }
  split; [exact Hb|]. split; [exact Hw|]. split; [exact Hg|].
  split; [rewrite Hm; exact Hlen|]. split.
  { unfold wellFormedDomainMesh. rewrite Hb. fold n. split; [exact Hl1|]. split.
    - intros p Hp. split.
      + destruct (decide (0 < corner_num Dim)%nat) as [Hpos0|Hz].
        * apply (Hidx p 0%nat Hp Hpos0).
        * rewrite Hm. unfold eleVertNum, meshOf, row. simpl.
          assert (Hp' : (p < length (weldDomainCorners pc n).2)%nat) by lia.
          destruct (lookup_lt_is_Some_2 _ _ Hp') as [el Hel']. rewrite Hel'. simpl.
          apply (Hel p el Hel').
      + intros c Hc. destruct (Hidx p c Hp Hc) as [_ Hlk].
        apply lookup_lt_Some in Hlk. unfold vertNum.
        replace (vertices (mesh t obj)) with (weldDomainCorners pc n).1
          by (rewrite Hm; reflexivity).
        exact Hlk.
    - intros g Hg'. rewrite Hm in Hg'. unfold vertNum, meshOf in Hg'. simpl in Hg'.
      destruct (Hcov g Hg') as (p & el & c & Hp & Hc).
      assert (Hpn : (p < n)%nat) by (rewrite <- Hlen; eapply lookup_lt_Some, Hp).
      exists p. split; [exact Hpn|]. exists c. rewrite Hm.
      unfold eleVertNum, eleVertIndex, meshOf, at2, row. simpl. rewrite Hp. simpl.
      rewrite Hc. simpl. split; [eapply lookup_lt_Some, Hc|reflexivity]. }
  split; [exact Hl2|]. split; [exact Hl3|]. split; [exact Hl4|].
  intros p c Hp Hc. destruct (Hidx p c Hp Hc) as [_ Hlk].
  unfold vertPos.
  replace (vertices (mesh t obj)) with (weldDomainCorners pc n).1
    by (rewrite Hm; reflexivity).
  rewrite Hlk. reflexivity.
Qed.

End MeshConstruction.

(** ** Particle and object life cycle *)

Lemma alter_snoc_appended {A} (l : list (list A)) (obj : nat) (r : A) :
  recordAppended l (alter (fun w => w ++ [r]) obj l) obj r.
Proof.
  split; [apply length_alter|]. split; [|split].
  - intros o Ho. apply list_lookup_alter_ne. congruence.
  - intros i Hi. unfold row in *. rewrite list_lookup_alter_eq.
    destruct (l !! obj) as [w|]; simpl in *; [|reflexivity]. apply lookup_app_l. exact Hi.
  - intros Hobj. rewrite row_alter_eq by exact Hobj. split.
    + rewrite length_app. simpl. lia.
    + apply list_lookup_middle. reflexivity.
Qed.

Lemma alter_delete_erased {A} (l : list (list A)) (obj p : nat) :
  recordErased l (alter (delete p) obj l) obj p.
Proof.
  split; [apply length_alter|]. split.
  - intros o Ho. apply list_lookup_alter_ne. congruence.
  - intros i. unfold row. rewrite list_lookup_alter_eq.
    destruct (l !! obj) as [w|]; simpl.
    + destruct (decide (i < p)%nat);
        [apply list_lookup_delete_lt; assumption | apply list_lookup_delete_ge; lia].
    + destruct (decide (i < p)%nat); reflexivity.
Qed.

Lemma snoc_object_appended {A} (l : list (list A)) (rs : list A) :
  objectAppended l (l ++ [rs]) rs.
Proof.
  split; [rewrite length_app; simpl; lia|]. split.
  - intros o Ho. apply lookup_app_l. exact Ho.
  - apply list_lookup_middle. reflexivity.
Qed.

Lemma delete_object_erased {A} (l : list (list A)) (obj : nat) :
  objectErased l (delete obj l) obj.
Proof.
  intros o. destruct (decide (o < obj)%nat);
    [apply list_lookup_delete_lt; assumption | apply list_lookup_delete_ge; lia].
Qed.

Lemma unsignedMinusOne_pred (n : nat) :
  (0 < Z.of_nat n < 2 ^ 32)%Z -> unsignedMinusOne n = (n - 1)%nat.
Proof.
  intros Hn. unfold unsignedMinusOne. rewrite Z.mod_small by lia. lia.
Qed.

Lemma erased_length {A} (l l' : list A) (p : nat) :
  (forall i, l' !! i = l !! (if decide (i < p)%nat then i else S i)) ->
  (p < length l)%nat -> length l' = (length l - 1)%nat.
Proof.
  intros He Hp.
  assert (Hle : (length l' <= length l - 1)%nat).
  { apply lookup_ge_None. rewrite He.
    destruct (decide (length l - 1 < p)%nat); [lia|].
    apply lookup_ge_None. lia. }
  destruct (decide (length l - 1 = 0)%nat) as [H0|H0]; [lia|].
  assert (Hlt : (length l - 2 < length l')%nat).
  { apply lookup_lt_is_Some. rewrite He.
    apply lookup_lt_is_Some. destruct (decide (length l - 2 < p)%nat); lia. }
  lia.
Qed.

Lemma lockstep_object_appended {A B} (l l' : list (list A)) (m m' : list (list B))
  (ps : list A) (rs : list B) :
  objectAppended l l' ps -> objectAppended m m' rs -> length rs = length ps ->
  lockstep l m -> lockstep l' m'.
Proof.
  intros (Hl & Hlo & Hll) (Hm & Hmo & Hml) Hr (Hlen & Hrow). split; [lia|].
  intros o Ho. unfold row in *.
  destruct (decide (o < length l)%nat) as [Hlt|Hge].
  - rewrite Hlo by exact Hlt. rewrite Hmo by lia. apply Hrow, Hlt.
  - assert (o = length l) as -> by lia. rewrite Hll. rewrite <- Hlen, Hml. exact Hr.
Qed.

Lemma lockstep_record_appended {A B} (l l' : list (list A)) (m m' : list (list B))
  (obj : nat) (r : A) (q : B) :
  (obj < length l)%nat ->
  recordAppended l l' obj r -> recordAppended m m' obj q ->
  lockstep l m -> lockstep l' m'.
Proof.
  intros Hobj (Hl & Hlo & _ & Hll) (Hm & Hmo & _ & Hml) (Hlen & Hrow). split; [lia|].
  intros o Ho. destruct (decide (o = obj)) as [->|Hne].
  - rewrite (proj1 (Hll Hobj)), (proj1 (Hml ltac:(lia))). f_equal. apply Hrow, Hobj.
  - unfold row in *. rewrite Hlo, Hmo by exact Hne. apply Hrow. lia.
Qed.

Lemma lockstep_object_erased {A B} (l l' : list (list A)) (m m' : list (list B))
  (obj : nat) :
  (obj < length l)%nat ->
  objectErased l l' obj -> objectErased m m' obj ->
  lockstep l m -> lockstep l' m'.
Proof.
  intros Hobj Hl Hm (Hlen & Hrow).
  pose proof (erased_length l l' obj Hl Hobj) as Hl'.
  pose proof (erased_length m m' obj Hm ltac:(lia)) as Hm'.
  split; [lia|].
  intros o Ho. unfold row in *. rewrite Hl, Hm.
  apply Hrow. destruct (decide (o < obj)%nat); lia.
Qed.

Lemma lockstep_record_erased {A B} (l l' : list (list A)) (m m' : list (list B))
  (obj p : nat) :
  (obj < length l)%nat -> (p < length (row l obj))%nat ->
  recordErased l l' obj p -> recordErased m m' obj p ->
  lockstep l m -> lockstep l' m'.
Proof.
  intros Hobj Hp (Hl & Hlo & Hle) (Hm & Hmo & Hme) (Hlen & Hrow). split; [lia|].
  intros o Ho. destruct (decide (o = obj)) as [->|Hne].
  - rewrite (erased_length _ _ p Hle Hp).
    rewrite (erased_length _ _ p Hme) by (rewrite Hrow by exact Hobj; exact Hp).
    f_equal. apply Hrow, Hobj.
  - unfold row in *. rewrite Hlo, Hmo by exact Hne. apply Hrow. lia.
Qed.

Section LifeCycle.
Context {Dim : nat}.
Implicit Types s t : InvertibleMPMSolid Dim.
Variable hookAppendAll : CPDIMPMSolid Dim -> CPDIMPMSolid Dim.
Variable hookAppendLast : nat -> CPDIMPMSolid Dim -> CPDIMPMSolid Dim.
Variable hookDeleteAll : nat -> CPDIMPMSolid Dim -> CPDIMPMSolid Dim.
Variable hookDeleteOne : nat -> nat -> CPDIMPMSolid Dim -> CPDIMPMSolid Dim.

(** C9 (amended): the four life-cycle functions change the corner-weight
    and corner-gradient storage by the edit that their name says (the zero
    records of a new last object or of a new last particle appended, the
    records of the deleted object or particle erased with the later ones
    moving down) and leave the domain meshes and the per-corner arrays as
    they are.  When the base-class call makes the same edit to the particle
    array (for the new last object: with a count of objects that is not 0
    and fits [unsigned int], as line 513 subtracts 1 from it), storage that
    had one row per object and one record per particle has so again, so
    that particle index i maps to the i-th record.  The meshes and the
    per-corner arrays are rebuilt by [constructParticleDomainMesh] only,
    which gives every object one element per particle and per-corner arrays
    of the size of the vertex list. *)
Theorem C9_life_cycle_storage s (obj p : nat) :
  (let t := appendAllParticleRelatedDataOfLastObject hookAppendAll s in
   let n := particleNumOfObject (base t) (objectNum (base t) - 1) in
   (0 < Z.of_nat (objectNum (hookAppendAll (base s))) < 2 ^ 32)%Z ->
   base t = hookAppendAll (base s) /\ domainMeshData t = domainMeshData s /\
   objectAppended (particle_corner_weight_ s) (particle_corner_weight_ t)
     (replicate n (replicate (corner_num Dim) 0)) /\
   objectAppended (particle_corner_gradient_ s) (particle_corner_gradient_ t)
     (replicate n (replicate (corner_num Dim) vzero)) /\
   (forall ps, objectAppended (particles_ (base s)) (particles_ (base t)) ps ->
      storageAligned s -> storageAligned t)) /\
  (let t := appendLastParticleRelatedDataOfObject hookAppendLast obj s in
   base t = hookAppendLast obj (base s) /\ domainMeshData t = domainMeshData s /\
   recordAppended (particle_corner_weight_ s) (particle_corner_weight_ t) obj
     (replicate (corner_num Dim) 0) /\
   recordAppended (particle_corner_gradient_ s) (particle_corner_gradient_ t) obj
     (replicate (corner_num Dim) vzero) /\
   (forall r, (obj < objectNum (base s))%nat ->
      recordAppended (particles_ (base s)) (particles_ (base t)) obj r ->
      storageAligned s -> storageAligned t)) /\
  (let t := deleteAllParticleRelatedDataOfObject hookDeleteAll obj s in
   base t = hookDeleteAll obj (base s) /\ domainMeshData t = domainMeshData s /\
   objectErased (particle_corner_weight_ s) (particle_corner_weight_ t) obj /\
   objectErased (particle_corner_gradient_ s) (particle_corner_gradient_ t) obj /\
   ((obj < objectNum (base s))%nat ->
    objectErased (particles_ (base s)) (particles_ (base t)) obj ->
    storageAligned s -> storageAligned t)) /\
  (let t := deleteOneParticleRelatedDataOfObject hookDeleteOne obj p s in
   base t = hookDeleteOne obj p (base s) /\ domainMeshData t = domainMeshData s /\
   recordErased (particle_corner_weight_ s) (particle_corner_weight_ t) obj p /\
   recordErased (particle_corner_gradient_ s) (particle_corner_gradient_ t) obj p /\
   ((obj < objectNum (base s))%nat -> (p < particleNumOfObject (base s) obj)%nat ->
    recordErased (particles_ (base s)) (particles_ (base t)) obj p ->
    storageAligned s -> storageAligned t)) /\
  (let t := constructParticleDomainMesh s in
   base t = base s /\
   particle_corner_weight_ t = particle_corner_weight_ s /\
   particle_corner_gradient_ t = particle_corner_gradient_ s /\
   ((obj < objectNum (base s))%nat ->
    eleNum (mesh t obj) = particleNumOfObject (base s) obj /\
    wellFormedDomainMesh t obj /\
    length (row (domain_corner_mass_ t) obj) = vertNum (mesh t obj) /\
    length (row (domain_corner_velocity_ t) obj) = vertNum (mesh t obj) /\
    length (row (domain_corner_velocity_before_ t) obj) = vertNum (mesh t obj))).
Proof.
  split; [|split; [|split; [|split]]].
  - cbv zeta. intros Hn.
    unfold appendAllParticleRelatedDataOfLastObject. cbn [base map_base
      map_corner_weight map_corner_gradient particle_corner_weight_
      particle_corner_gradient_ domainMeshData particle_domain_mesh_
      is_enriched_domain_corner_ domain_corner_mass_ domain_corner_velocity_
      domain_corner_velocity_before_].
    rewrite (unsignedMinusOne_pred _ Hn).
    split; [reflexivity|]. split; [reflexivity|].
    split; [apply snoc_object_appended|]. split; [apply snoc_object_appended|].
    intros ps Hps [Hw Hg].
    assert (Hn' : particleNumOfObject (hookAppendAll (base s))
                    (objectNum (hookAppendAll (base s)) - 1) = length ps).
    { destruct Hps as (Hlen & _ & Hlast). simpl in Hlen, Hlast.
      unfold particleNumOfObject, objectNum, row. rewrite Hlen.
      replace (S (length (particles_ (base s))) - 1)%nat
        with (length (particles_ (base s))) by lia.
      rewrite Hlast. reflexivity. }
    split.
    + apply (lockstep_object_appended _ _ _ _ _ _ Hps (snoc_object_appended _ _));
        [rewrite length_replicate; exact Hn'|exact Hw].
    + apply (lockstep_object_appended _ _ _ _ _ _ Hps (snoc_object_appended _ _));
        [rewrite length_replicate; exact Hn'|exact Hg].
  - simpl. repeat (split; [reflexivity|]).
    split; [apply alter_snoc_appended|]. split; [apply alter_snoc_appended|].
    intros r Hobj Hr [Hw Hg]. split.
    + exact (lockstep_record_appended _ _ _ _ _ _ _ Hobj Hr (alter_snoc_appended _ _ _) Hw).
    + exact (lockstep_record_appended _ _ _ _ _ _ _ Hobj Hr (alter_snoc_appended _ _ _) Hg).
  - simpl. repeat (split; [reflexivity|]).
    split; [apply delete_object_erased|]. split; [apply delete_object_erased|].
    intros Hobj He [Hw Hg]. split.
    + exact (lockstep_object_erased _ _ _ _ _ Hobj He (delete_object_erased _ _) Hw).
    + exact (lockstep_object_erased _ _ _ _ _ Hobj He (delete_object_erased _ _) Hg).
  - simpl. repeat (split; [reflexivity|]).
    split; [apply alter_delete_erased|]. split; [apply alter_delete_erased|].
    intros Hobj Hp He [Hw Hg]. split.
    + exact (lockstep_record_erased _ _ _ _ _ _ Hobj Hp He (alter_delete_erased _ _ _) Hw).
    + exact (lockstep_record_erased _ _ _ _ _ _ Hobj Hp He (alter_delete_erased _ _ _) Hg).
  - destruct (construct_spec s) as (Hb & Hw & Hg & _).
    cbv zeta. split; [exact Hb|]. split; [exact Hw|]. split; [exact Hg|].
    intros Hobj. destruct (construct_well_formed s obj Hobj) as
      (_ & _ & _ & H1 & H2 & H3 & H4 & H5 & _). auto.
Qed.

End LifeCycle.

(** C9 fails as stated: after the base class has added a second particle to
    object 0, [appendLastParticleRelatedDataOfObject] gives the
    corner-weight storage its second record, but the domain mesh of the
    object still has the single element of the old particle set and the
    per-corner arrays are untouched. *)
Lemma C9_counterexample :
  let s := particle_added_state in
  let t := appendLastParticleRelatedDataOfObject (fun _ b => b) 0 s in
  particleNumOfObject (base t) 0 = 2%nat /\
  length (row (particle_corner_weight_ t) 0) = 2%nat /\
  eleNum (mesh t 0) = 1%nat /\
  domainMeshData t = domainMeshData s.
Proof. repeat split. Qed.

(** ** Position update *)

Lemma row_alter {A} (f : list A -> list A) (l : list (list A)) (i j : nat) :
  row (alter f i l) j = if decide (i = j /\ (i < length l)%nat) then f (row l i) else row l j.
Proof.
  destruct (decide (i = j /\ (i < length l)%nat)) as [[<- Hi]|Hn].
  - apply row_alter_eq, Hi.
  - destruct (decide (i = j)) as [<-|Hne]; [|apply row_alter_ne, Hne].
    unfold row. rewrite list_lookup_alter_eq.
    rewrite (lookup_ge_None_2 l i) by lia. reflexivity.
Qed.

Lemma at3_insert {A} (d v : A) (l : list (list (list A))) (o q k i j n : nat) :
  at3 d (alter (alter (<[k := v]>) q) o l) i j n =
  if decide (o = i /\ q = j /\ k = n /\ (k < length (row (row l o) q))%nat)
  then v else at3 d l i j n.
Proof.
  unfold at3. rewrite row_alter.
  destruct (decide (o = i /\ (o < length l)%nat)) as [[<- Ho]|Hn].
  - rewrite at2_insert.
    destruct (decide (q = j /\ k = n /\ (k < length (row (row l o) q))%nat)) as [Hy|Hy];
      destruct (decide (o = o /\ _)) as [Hz|Hz]; try reflexivity; exfalso; tauto.
  - destruct (decide (o = i /\ _)) as [(<- & <- & <- & Hlt)|_]; [|reflexivity].
    exfalso. apply Hn. split; [reflexivity|].
    destruct (decide (o < length l)%nat) as [|Hge]; [assumption|].
    unfold row in Hlt. rewrite (lookup_ge_None_2 l o) in Hlt by lia. simpl in Hlt. lia.
Qed.

Lemma row3_length_insert {A} (v : A) (l : list (list (list A))) (o q k i j : nat) :
  length (row (row (alter (alter (<[k := v]>) q) o l) i) j) = length (row (row l i) j).
Proof.
  rewrite row_alter. destruct (decide _) as [[<- _]|_]; [|reflexivity].
  apply row_length_insert.
Qed.

Lemma foldl_length_insert {A} (old : list A) (es : list (nat * A)) :
  length (foldl (fun cs (e : nat * A) => <[e.1 := e.2]> cs) old es) = length old.
Proof.
  revert old. induction es as [|e es IH]; intros old; simpl; [reflexivity|].
  rewrite IH. apply length_insert.
Qed.

Lemma at3_alter {A} (d : A) (f : list A -> list A) (l : list (list (list A)))
  (o q i j n : nat) :
  at3 d (alter (alter f q) o l) i j n =
  if decide (o = i /\ q = j /\ (o < length l)%nat /\ (q < length (row l o))%nat)
  then default d (f (row (row l o) q) !! n) else at3 d l i j n.
Proof.
  unfold at3, at2. rewrite row_alter.
  destruct (decide (o = i /\ (o < length l)%nat)) as [[<- Ho]|Hn].
  - rewrite row_alter.
    destruct (decide (q = j /\ (q < length (row l o))%nat)) as [[<- Hq]|Hn'];
      destruct (decide (o = o /\ _)) as [Hy|Hy]; try reflexivity; exfalso; tauto.
  - destruct (decide (o = i /\ _)) as [Hy|_]; [exfalso; tauto|reflexivity].
Qed.

Section PositionUpdate.
Context {Dim : nat}.
Implicit Types s t : InvertibleMPMSolid Dim.

Lemma mesh_alter (f : VolumetricMesh Dim -> VolumetricMesh Dim) t (o obj : nat) :
  mesh (map_mesh (alter f o) t) obj =
  if decide (o = obj /\ (o < length (particle_domain_mesh_ t))%nat)
  then f (mesh t o) else mesh t obj.
Proof.
  unfold mesh. simpl. rewrite list_lookup_alter.
  destruct (decide (o = obj)) as [<-|Hne].
  - destruct (particle_domain_mesh_ t !! o) as [m|] eqn:Hm; simpl.
    + destruct (decide _) as [|Hn]; [reflexivity|].
      exfalso. apply Hn. split; [reflexivity|]. eapply lookup_lt_Some, Hm.
    + destruct (decide _) as [[_ Hlt]|]; [|reflexivity].
      apply lookup_ge_None_1 in Hm. lia.
  - destruct (decide _) as [[? _]|]; [contradiction|reflexivity].
Qed.

Lemma vertPos_setVertPos (m : VolumetricMesh Dim) (g g' : nat) (v : Vector Dim) :
  vertPos (setVertPos g v m) g' =
  if decide (g = g' /\ (g < vertNum m)%nat) then v else vertPos m g'.
Proof.
  unfold vertPos, setVertPos, vertNum. simpl. rewrite list_lookup_insert.
  destruct (decide _); reflexivity.
Qed.

Lemma positionFrame_refl s : positionFrame s s.
Proof. repeat split. Qed.

Lemma newCornerPosition_frame dt s t obj p c :
  positionFrame s t ->
  at3 vzero (particle_domain_corners_ (base t)) obj p c
    = at3 vzero (particle_domain_corners_ (base s)) obj p c ->
  newCornerPosition dt t obj p c = newCornerPosition dt s obj p c.
Proof.
  intros (Hb & Hf & Hv & _ & Hel & _) Hpos.
  assert (H1 := f_equal corner_grid_pair_num_ Hb).
  assert (H2 := f_equal corner_grid_weight_and_gradient_ Hb).
  assert (H3 := f_equal grid_velocity_ Hb). simpl in H1, H2, H3.
  unfold newCornerPosition, isEnriched, cornerVelocity, gridVelocity, eleVertIndex.
  rewrite Hpos, Hf, Hv, H1, H2, H3, (Hel obj). reflexivity.
Qed.

Lemma shared_new_position dt s obj p c p' c' :
  sameVertex s obj p c p' c' -> storedCornersAgree s obj -> ordinaryInfluenceAgrees s obj ->
  newCornerPosition dt s obj p c = newCornerPosition dt s obj p' c'.
Proof.
  intros Hsame Hst Hord. pose proof (Hst p c p' c' Hsame) as Hpos.
  pose proof (Hord p c p' c' Hsame) as Hinf.
  destruct Hsame as (_ & _ & _ & _ & Hg).
  unfold newCornerPosition. rewrite <- Hg, <- Hpos.
  destruct (isEnriched s obj _); [reflexivity|].
  destruct (Hinf eq_refl) as [Hnum Hrow]. rewrite <- Hnum.
  unfold at4, at3, at2. rewrite <- Hrow. reflexivity.
Qed.

Lemma advanceCorner_frame dt o q k s t :
  positionFrame s t -> positionFrame s (advanceCorner dt o q k t).
Proof.
  intros (Hb & Hf & Hv & Hlen & Hel & Hvn & Hcl).
  split; [exact Hb|]. split; [exact Hf|]. split; [exact Hv|].
  split; [simpl; rewrite length_alter; exact Hlen|].
  split; [|split].
  - intros obj. unfold advanceCorner. rewrite mesh_alter.
    destruct (decide _) as [[<- _]|_]; apply Hel.
  - intros obj. unfold advanceCorner. rewrite mesh_alter.
    destruct (decide _) as [[<- _]|_]; [|apply Hvn].
    unfold vertNum, setVertPos. simpl. rewrite length_insert. apply Hvn.
  - intros obj p. simpl. rewrite row3_length_insert. apply Hcl.
Qed.

Lemma advanced_equiv dt obj (D D' : nat -> nat -> Prop) s t :
  (forall p c, D p c <-> D' p c) -> advanced dt obj D s t -> advanced dt obj D' s t.
Proof.
  intros HD (Hfr & Hdone & Hnot). split; [exact Hfr|]. split.
  - intros p c Hd. apply Hdone, HD, Hd.
  - intros p c Hd. apply Hnot. intros Hd'. apply Hd, HD, Hd'.
Qed.

Lemma advanced_other_object dt obj D s t o q k :
  o <> obj -> advanced dt obj D s t -> advanced dt obj D s (advanceCorner dt o q k t).
Proof.
  intros Hne (Hfr & Hdone & Hnot).
  split; [apply advanceCorner_frame, Hfr|].
  assert (Hc : forall p c,
            at3 vzero (particle_domain_corners_ (base (advanceCorner dt o q k t))) obj p c
            = at3 vzero (particle_domain_corners_ (base t)) obj p c).
  { intros p c. simpl. rewrite at3_insert.
    destruct (decide _) as [(? & _)|_]; [contradiction|reflexivity]. }
  assert (Hm : mesh (advanceCorner dt o q k t) obj = mesh t obj).
  { unfold advanceCorner. rewrite mesh_alter.
    destruct (decide _) as [(? & _)|_]; [contradiction|reflexivity]. }
  split.
  - intros p c Hd. rewrite Hc, Hm. apply Hdone, Hd.
  - intros p c Hd. rewrite Hc. apply Hnot, Hd.
Qed.

Lemma advanced_step dt obj (D : nat -> nat -> Prop) s t q k :
  wellFormedDomainStorage s obj ->
  storedCornersAgree s obj -> ordinaryInfluenceAgrees s obj ->
  (forall p c, D p c ->
     (p < particleNumOfObject (base s) obj)%nat /\ (c < corner_num Dim)%nat) ->
  (q < particleNumOfObject (base s) obj)%nat -> (k < corner_num Dim)%nat ->
  ~ D q k ->
  advanced dt obj D s t ->
  advanced dt obj (fun p c => D p c \/ (p = q /\ c = k)) s (advanceCorner dt obj q k t).
Proof.
  intros (Hobj & Hwf) Hst Hord Hrange Hq Hk Hnd (Hfr & Hdone & Hnot).
  destruct (Hwf q k Hq Hk) as [Hg Hslot].
  pose proof Hfr as (_ & _ & _ & Hlen & Hel & Hvn & Hcl).
  assert (Hnew : newCornerPosition dt t obj q k = newCornerPosition dt s obj q k).
  { apply newCornerPosition_frame; [exact Hfr|]. apply Hnot, Hnd. }
  assert (Hevi : forall p c, eleVertIndex (mesh t obj) p c = eleVertIndex (mesh s obj) p c).
  { intros p c. unfold eleVertIndex. rewrite (Hel obj). reflexivity. }
  split; [apply advanceCorner_frame, Hfr|].
  assert (Hc : forall p c,
            at3 vzero (particle_domain_corners_ (base (advanceCorner dt obj q k t))) obj p c
            = if decide (p = q /\ c = k) then newCornerPosition dt s obj q k
              else at3 vzero (particle_domain_corners_ (base t)) obj p c).
  { intros p c. simpl. rewrite at3_insert, Hnew, (Hcl obj q).
    destruct (decide (p = q /\ c = k)) as [[-> ->]|Hn];
      destruct (decide (obj = obj /\ _)) as [Hy|Hy]; try reflexivity; exfalso;
      [apply Hy; auto | destruct Hy as (_ & <- & <- & _); apply Hn; auto]. }
  assert (Hv : forall g,
            vertPos (mesh (advanceCorner dt obj q k t) obj) g
            = if decide (g = eleVertIndex (mesh s obj) q k)
              then newCornerPosition dt s obj q k else vertPos (mesh t obj) g).
  { intros g.
    assert (Hmesh : mesh (advanceCorner dt obj q k t) obj =
                    setVertPos (eleVertIndex (mesh t obj) q k)
                      (newCornerPosition dt t obj q k) (mesh t obj)).
    { unfold advanceCorner. rewrite mesh_alter.
      destruct (decide (obj = obj /\ _)) as [_|Hn]; [reflexivity|].
      exfalso. apply Hn. split; [reflexivity|]. simpl. lia. }
    rewrite Hmesh, vertPos_setVertPos, Hevi, Hnew, (Hvn obj).
    destruct (decide (g = eleVertIndex (mesh s obj) q k)) as [->|Hn];
      destruct (decide (_ /\ _)) as [Hy|Hy]; try reflexivity; exfalso;
      [apply Hy; auto | destruct Hy as [<- _]; apply Hn; reflexivity]. }
  split.
  - intros p c Hd. rewrite Hc, Hv.
    assert (Hin : (p < particleNumOfObject (base s) obj)%nat /\ (c < corner_num Dim)%nat).
    { destruct Hd as [Hd|[-> ->]]; [apply Hrange, Hd|auto]. }
    split.
    + destruct (decide (p = q /\ c = k)) as [[-> ->]|Hn]; [reflexivity|].
      destruct Hd as [Hd|?]; [apply Hdone, Hd|contradiction].
    + destruct (decide (eleVertIndex (mesh s obj) p c = eleVertIndex (mesh s obj) q k))
        as [Hsame|Hdiff].
      * symmetry. apply shared_new_position; [|assumption|assumption].
        unfold sameVertex. tauto.
      * destruct Hd as [Hd|[-> ->]]; [apply Hdone, Hd|contradiction].
  - intros p c Hd. rewrite Hc.
    destruct (decide (p = q /\ c = k)) as [Heq|_]; [exfalso; apply Hd; right; exact Heq|].
    apply Hnot. intros Hd'. apply Hd. left. exact Hd'.
Qed.


Lemma updateParticleDomains_spec dt s obj :
  (obj < objectNum (base s))%nat ->
  wellFormedDomainStorage s obj ->
  storedCornersAgree s obj -> ordinaryInfluenceAgrees s obj ->
  advanced dt obj
    (fun p c => (p < particleNumOfObject (base s) obj)%nat /\ (c < corner_num Dim)%nat)
    s (updateParticleDomains dt s).
Proof.
  intros Hobj Hwf Hst Hord.
  set (pn := particleNumOfObject (base s) obj).
  set (V o q k p c :=
         ((obj < o)%nat /\ (p < pn)%nat /\ (c < corner_num Dim)%nat) \/
         (obj = o /\ (((p < q)%nat /\ (c < corner_num Dim)%nat) \/ (p = q /\ (c < k)%nat)))).
  assert (Hfin : advanced dt obj (V (objectNum (base s)) 0%nat 0%nat) s
                   (updateParticleDomains dt s)).
  { unfold updateParticleDomains.
    apply (loop_ind (fun o t => advanced dt obj (V o 0%nat 0%nat) s t)).
    { split; [apply positionFrame_refl|]. split; [|reflexivity].
      intros p c Hv. exfalso. unfold V in Hv. intuition lia. }
    intros o t Ho Hinv.
    assert (Hpn : particleNumOfObject (base t) o = particleNumOfObject (base s) o).
    { destruct Hinv as ((Hb & _) & _). apply (f_equal particles_) in Hb. simpl in Hb.
      unfold particleNumOfObject. rewrite Hb. reflexivity. }
    rewrite Hpn.
    apply (advanced_equiv dt obj (V o (particleNumOfObject (base s) o) 0%nat)).
    { intros p c. unfold V, pn. destruct (decide (obj = o)) as [->|]; intuition lia. }
    apply (loop_ind (fun q u => advanced dt obj (V o q 0%nat) s u)); [exact Hinv|].
    intros q u Hq Hu.
    apply (advanced_equiv dt obj (V o q (corner_num Dim))).
    { intros p c. unfold V. destruct (decide (p = q)) as [->|]; intuition lia. }
    apply (loop_ind (fun k v => advanced dt obj (V o q k) s v)); [exact Hu|].
    intros k v Hk Hv. fold (advanceCorner dt o q k v).
    destruct (decide (o = obj)) as [->|Hne].
    - apply (advanced_equiv dt obj (fun p c => V obj q k p c \/ (p = q /\ c = k))).
      { intros p c. unfold V. intuition lia. }
      apply advanced_step; try assumption.
      + intros p c Hd. unfold V, pn in Hd. fold pn in Hq. unfold pn. intuition lia.
      + unfold V. intuition lia.
    - apply (advanced_equiv dt obj (V o q k)).
      { intros p c. unfold V. intuition (try lia; congruence). }
      apply advanced_other_object; [exact Hne | exact Hv]. }
  revert Hfin. apply advanced_equiv. intros p c. unfold V, pn. intuition lia.
Qed.

Lemma foldl_insert_lookup {A} (old newc : list A) (i : nat) :
  foldl (fun cs (e : nat * A) => <[e.1 := e.2]> cs) old (imap pair newc) !! i =
  if decide ((i < length newc)%nat /\ (i < length old)%nat) then newc !! i else old !! i.
Proof.
  induction newc as [|x newc IH] using rev_ind.
  - simpl. destruct (decide ((i < 0)%nat /\ (i < length old)%nat)) as [[Hlt _]|_];
      [lia|reflexivity].
  - rewrite imap_app, foldl_app. simpl. rewrite Nat.add_0_r. rewrite length_app. simpl.
    rewrite list_lookup_insert. rewrite foldl_length_insert.
    destruct (decide (length newc = i /\ (length newc < length old)%nat)) as [[<- Hlt]|Hn].
    + destruct (decide ((length newc < length newc + 1)%nat /\
                        (length newc < length old)%nat)) as [_|Hn'];
        [|exfalso; apply Hn'; lia].
      rewrite list_lookup_middle; reflexivity.
    + rewrite IH. destruct (decide ((i < length newc)%nat /\ (i < length old)%nat))
        as [[H1 H2]|Hn1].
      * destruct (decide ((i < length newc + 1)%nat /\ (i < length old)%nat)) as [_|Hn'];
          [|exfalso; apply Hn'; lia].
        rewrite lookup_app_l by exact H1. reflexivity.
      * destruct (decide ((i < length newc + 1)%nat /\ (i < length old)%nat))
          as [[H1 H2]|_]; [|reflexivity].
        exfalso. apply Hn. split; lia.
Qed.


Lemma setMesh_fold (obj p : nat) (newc l : list (Vector Dim)) s1 :
  (obj < length (particle_domain_mesh_ s1))%nat ->
  (forall i, (i < length newc)%nat ->
     (eleVertIndex (mesh s1 obj) p i < vertNum (mesh s1 obj))%nat) ->
  (forall c c', (c < length newc)%nat -> (c' < length newc)%nat ->
     eleVertIndex (mesh s1 obj) p c = eleVertIndex (mesh s1 obj) p c' ->
     newc !! c = newc !! c') ->
  (forall i x, l !! i = Some x -> newc !! i = Some x) ->
  let t := foldl (fun s (e : nat * Vector Dim) =>
                    map_mesh (alter (setEleVertPos p e.1 e.2) obj) s) s1 (imap pair l) in
  base t = base s1 /\
  length (particle_domain_mesh_ t) = length (particle_domain_mesh_ s1) /\
  elements (mesh t obj) = elements (mesh s1 obj) /\
  vertNum (mesh t obj) = vertNum (mesh s1 obj) /\
  (forall i, (i < length l)%nat ->
     vertPos (mesh t obj) (eleVertIndex (mesh s1 obj) p i) = default vzero (newc !! i)) /\
  (forall g, (forall i, (i < length l)%nat -> eleVertIndex (mesh s1 obj) p i <> g) ->
     vertPos (mesh t obj) g = vertPos (mesh s1 obj) g).
Proof.
  intros Hobj Hrange Hagree. induction l as [|x l IH] using rev_ind; intros Hpre.
  - simpl. repeat split; try reflexivity. intros i Hi. simpl in Hi. lia.
  - assert (Hpre' : forall i y, l !! i = Some y -> newc !! i = Some y).
    { intros i y Hy. apply Hpre, lookup_app_l_Some, Hy. }
    specialize (IH Hpre'). cbv zeta in IH.
    rewrite imap_app, foldl_app. simpl. rewrite Nat.add_0_r.
    set (t := foldl _ s1 (imap pair l)) in *.
    destruct IH as (Hb & Hlen & Hel & Hvn & Hset & Hkeep).
    assert (Hx : newc !! length l = Some x).
    { apply Hpre, list_lookup_middle. reflexivity. }
    assert (Hn : (length l < length newc)%nat) by (eapply lookup_lt_Some, Hx).
    assert (Hevi : eleVertIndex (mesh t obj) p (length l)
                   = eleVertIndex (mesh s1 obj) p (length l)).
    { unfold eleVertIndex. rewrite Hel. reflexivity. }
    assert (Hm : mesh (map_mesh (alter (setEleVertPos p (length l) x) obj) t) obj
                 = setVertPos (eleVertIndex (mesh s1 obj) p (length l)) x (mesh t obj)).
    { rewrite mesh_alter. destruct (decide (obj = obj /\ _)) as [_|Hno];
        [|exfalso; apply Hno; split; [reflexivity|lia]].
      unfold setEleVertPos. rewrite Hevi. reflexivity. }
    rewrite Hm. split; [exact Hb|]. split; [simpl; rewrite length_alter; exact Hlen|].
    split; [exact Hel|]. split.
    { unfold vertNum, setVertPos. simpl. rewrite length_insert. exact Hvn. }
    split.
    + intros i Hi. rewrite length_app in Hi. simpl in Hi.
      rewrite vertPos_setVertPos, Hvn.
      destruct (decide (eleVertIndex (mesh s1 obj) p (length l)
                        = eleVertIndex (mesh s1 obj) p i /\ _)) as [[Heq _]|Hne].
      * rewrite <- (Hagree (length l) i Hn ltac:(lia) Heq), Hx. reflexivity.
      * assert (Hil : (i < length l)%nat).
        { destruct (decide (i = length l)) as [->|]; [|lia].
          exfalso. apply Hne. split; [reflexivity|apply Hrange, Hn]. }
        apply Hset, Hil.
    + intros g Hg. rewrite vertPos_setVertPos.
      destruct (decide (eleVertIndex (mesh s1 obj) p (length l) = g /\ _)) as [[Heq _]|_].
      * exfalso. apply (Hg (length l)); [rewrite length_app; simpl; lia|exact Heq].
      * apply Hkeep. intros i Hi. apply Hg. rewrite length_app. simpl. lia.
Qed.

(** C8 (amended): if the particles that share a mesh vertex store the same
    position for it (as after [constructParticleDomainMesh]) and agree on
    the grid influence of the ordinary shared vertices, then after
    [updateParticlePosition] every per-particle corner position equals the
    position of its mesh vertex, and the shared positions still agree.
    [setCurrentParticleDomain] makes the corners of the particle it sets
    equal to their mesh vertices and keeps the equality for the corners of
    the other particles that are not vertices of that particle. *)
Theorem C8_domain_mesh_consistency
  (cpdi2 : Scalar -> CPDIMPMSolid Dim -> list (list (SolidParticle Dim)))
  (dt : Scalar) s (obj : nat) :
  (obj < objectNum (base s))%nat ->
  wellFormedDomainStorage s obj ->
  (storedCornersAgree s obj -> ordinaryInfluenceAgrees s obj ->
   let s' := updateParticlePosition cpdi2 dt s in
   (forall p c, (p < particleNumOfObject (base s) obj)%nat -> (c < corner_num Dim)%nat ->
      cornerConsistent s' obj p c /\
      at3 vzero (particle_domain_corners_ (base s')) obj p c = newCornerPosition dt s obj p c) /\
   (forall p c p' c', sameVertex s obj p c p' c' ->
      at3 vzero (particle_domain_corners_ (base s')) obj p c =
      at3 vzero (particle_domain_corners_ (base s')) obj p' c')) /\
  (forall (p : nat) (particle_domain_corner : list (Vector Dim)),
     (p < particleNumOfObject (base s) obj)%nat ->
     (p < length (row (particle_domain_corners_ (base s)) obj))%nat ->
     length particle_domain_corner = corner_num Dim ->
     (forall c c', (c < corner_num Dim)%nat -> (c' < corner_num Dim)%nat ->
        eleVertIndex (mesh s obj) p c = eleVertIndex (mesh s obj) p c' ->
        particle_domain_corner !! c = particle_domain_corner !! c') ->
     let s' := setCurrentParticleDomain obj p particle_domain_corner s in
     (forall c, (c < corner_num Dim)%nat ->
        cornerConsistent s' obj p c /\
        at3 vzero (particle_domain_corners_ (base s')) obj p c
          = default vzero (particle_domain_corner !! c)) /\
     (forall p' c', p' <> p ->
        (forall c, (c < corner_num Dim)%nat ->
           eleVertIndex (mesh s obj) p c <> eleVertIndex (mesh s obj) p' c') ->
        cornerConsistent s obj p' c' -> cornerConsistent s' obj p' c')).
Proof.
  intros Hobj Hwf. split.
  - intros Hst Hord s'.
    destruct (updateParticleDomains_spec dt s obj Hobj Hwf Hst Hord) as (Hfr & Hdone & _).
    destruct Hfr as (Hb & _ & _ & _ & Hel & _).
    assert (Hevi : forall p c, eleVertIndex (mesh s' obj) p c = eleVertIndex (mesh s obj) p c).
    { intros p c. unfold eleVertIndex.
      change (mesh s' obj) with (mesh (updateParticleDomains dt s) obj).
      rewrite Hel. reflexivity. }
    assert (Hnew : forall p c, (p < particleNumOfObject (base s) obj)%nat ->
              (c < corner_num Dim)%nat ->
              at3 vzero (particle_domain_corners_ (base s')) obj p c
                = newCornerPosition dt s obj p c).
    { intros p c Hp Hc. apply (Hdone p c). auto. }
    split.
    + intros p c Hp Hc. split; [|apply Hnew; assumption].
      unfold cornerConsistent. rewrite Hevi, (Hnew p c Hp Hc). symmetry.
      apply (Hdone p c). auto.
    + intros p c p' c' Hsame. pose proof Hsame as (Hp & Hc & Hp' & Hc' & _).
      rewrite (Hnew p c Hp Hc), (Hnew p' c' Hp' Hc').
      apply shared_new_position; assumption.
  - intros p newc Hp Hp' Hlen Hagree.
    destruct Hwf as (Hmobj & Hwf).
    unfold setCurrentParticleDomain. cbv zeta.
    set (s1 := map_base (CPDIMPMSolid_setCurrentParticleDomain obj p newc) s).
    assert (Hfold := setMesh_fold obj p newc newc s1). cbv zeta in Hfold.
    destruct Hfold as (Hb & _ & Hel & _ & Hset & Hkeep).
    { exact Hmobj. }
    { intros i Hi. apply (Hwf p i Hp). lia. }
    { intros c c' Hc Hc'. apply Hagree; lia. }
    { auto. }
    change (mesh s1 obj) with (mesh s obj) in *.
    set (s' := foldl _ s1 _) in *.
    assert (Hevi : forall q c, eleVertIndex (mesh s' obj) q c = eleVertIndex (mesh s obj) q c).
    { intros q c. unfold eleVertIndex. rewrite Hel. reflexivity. }
    assert (Hcorner : forall q c,
              at3 vzero (particle_domain_corners_ (base s')) obj q c =
              if decide (q = p /\ (c < corner_num Dim)%nat)
              then default vzero (newc !! c)
              else at3 vzero (particle_domain_corners_ (base s)) obj q c).
    { intros q c. rewrite Hb. simpl. rewrite at3_alter.
      assert (Hol : (obj < length (particle_domain_corners_ (base s)))%nat).
      { destruct (decide (obj < length (particle_domain_corners_ (base s)))%nat);
          [assumption|].
        unfold row in Hp'. rewrite (lookup_ge_None_2 _ obj) in Hp' by lia.
        simpl in Hp'. lia. }
      destruct (decide (obj = obj /\ p = q /\ _)) as [(_ & <- & _)|Hn].
      - rewrite foldl_insert_lookup, Hlen.
        destruct (decide (p = p /\ (c < corner_num Dim)%nat)) as [[_ Hc]|Hn'].
        + destruct (Hwf p c Hp Hc) as [_ Hslot].
          destruct (decide ((c < corner_num Dim)%nat /\ _)) as [_|Hno];
            [reflexivity|exfalso; apply Hno; auto].
        + destruct (decide ((c < corner_num Dim)%nat /\ _)) as [[Hc _]|_];
            [exfalso; apply Hn'; auto|reflexivity].
      - destruct (decide (q = p /\ _)) as [[-> _]|_]; [|reflexivity].
        exfalso. apply Hn. auto. }
    split.
    + intros c Hc. unfold cornerConsistent. rewrite Hevi, Hcorner.
      destruct (decide (p = p /\ (c < corner_num Dim)%nat)) as [_|Hn];
        [|exfalso; apply Hn; auto].
      split; [|reflexivity]. symmetry. apply Hset. lia.
    + intros q c' Hq Hdisj Hcons. unfold cornerConsistent in *. rewrite Hevi, Hcorner.
      destruct (decide (q = p /\ _)) as [[? _]|_]; [contradiction|].
      rewrite Hcons. symmetry. apply Hkeep. intros i Hi. apply Hdisj. lia.
Qed.

End PositionUpdate.

Lemma two_particle_range (P : nat -> nat -> Prop) :
  P 0%nat 0%nat -> P 0%nat 1%nat -> P 0%nat 2%nat -> P 0%nat 3%nat ->
  P 1%nat 0%nat -> P 1%nat 1%nat -> P 1%nat 2%nat -> P 1%nat 3%nat ->
  forall p c, (p < 2)%nat -> (c < 4)%nat -> P p c.
Proof.
  intros. destruct p as [|[|p]]; [| |lia];
    (destruct c as [|[|[|[|c]]]]; [assumption|assumption|assumption|assumption|lia]).
Qed.

Lemma two_particle_num : particleNumOfObject (base two_particle_state) 0 = 2%nat.
Proof. vm_compute; reflexivity. Qed.

Lemma two_particle_objects : (0 < objectNum (base two_particle_state))%nat.
Proof. vm_compute; lia. Qed.

Lemma two_particle_wellFormed : wellFormedDomainStorage two_particle_state 0.
Proof.
  split; [vm_compute; lia|]. rewrite two_particle_num.
  change (corner_num 2) with 4%nat.
  intros p c Hp Hc.
  destruct p as [|[|p]]; [| |lia];
    (destruct c as [|[|[|[|c]]]]; [| | | |lia]); split; vm_compute; lia.
Qed.

Lemma two_particle_stored : storedCornersAgree two_particle_state 0.
Proof.
  intros p c p' c' (Hp & Hc & Hp' & Hc' & He).
  rewrite two_particle_num in Hp, Hp'.
  change (corner_num 2) with 4%nat in Hc, Hc'.
  destruct p as [|[|p]]; [| |exfalso; lia];
    (destruct c as [|[|[|[|c]]]]; [| | | |exfalso; lia]);
    (destruct p' as [|[|p']]; [| |exfalso; lia]);
    (destruct c' as [|[|[|[|c']]]]; [| | | |exfalso; lia]);
    first [vm_compute; reflexivity | exfalso; revert He; vm_compute; lia].
Qed.

Lemma two_particle_ordinary : ordinaryInfluenceAgrees two_particle_state 0.
Proof.
  intros p c p' c' (Hp & Hc & _) Hen. exfalso.
  rewrite two_particle_num in Hp. change (corner_num 2) with 4%nat in Hc.
  destruct p as [|[|p]]; [| |lia];
    (destruct c as [|[|[|[|c]]]]; [| | | |lia]); revert Hen; vm_compute; discriminate.
Qed.

Lemma two_particle_second : (1 < particleNumOfObject (base two_particle_state) 0)%nat.
Proof. rewrite two_particle_num; lia. Qed.

Lemma corner_num_2_pos : (0 < corner_num 2)%nat.
Proof. change (corner_num 2) with 4%nat; lia. Qed.

(** Concrete check of C8 on [two_particle_state]: after the position update
    the corner that both particles share is stored consistently. *)
Lemma C8_witness :
  cornerConsistent (updateParticlePosition keepParticles 1 two_particle_state) 0 1 0.
Proof.
  pose proof (C8_domain_mesh_consistency keepParticles 1 two_particle_state 0
                two_particle_objects two_particle_wellFormed) as [Hupd _].
  pose proof (Hupd two_particle_stored two_particle_ordinary) as H.
  cbv zeta in H. destruct H as [Hcons _].
  exact (proj1 (Hcons 1%nat 0%nat two_particle_second corner_num_2_pos)).
Defined.

(** C8 fails as stated: on [two_particle_initial] every per-particle corner
    equals its mesh vertex; after [setCurrentParticleDomain] moves the
    corner (1, 0) of particle 0 to (1, 5), the shared mesh vertex 1 is at
    (1, 5) while particle 1 still stores (1, 0) for it. *)
Lemma C8_counterexample :
  (forall p c, (p < 2)%nat -> (c < 4)%nat -> cornerConsistent two_particle_initial 0 p c) /\
  let s' := setCurrentParticleDomain 0 0 moved_square two_particle_initial in
  at3 vzero (particle_domain_corners_ (base s')) 0 1 0 = vec2 1 0 /\
  vertPos (mesh s' 0) (eleVertIndex (mesh s' 0) 1 0) = vec2 1 5 /\
  ~ cornerConsistent s' 0 1 0.
Proof.
  split; [apply two_particle_range; vm_compute; reflexivity|].
  split; [vm_compute; reflexivity|]. split; [vm_compute; reflexivity|].
  unfold cornerConsistent. compute_done.
Qed.

(** Concrete check of C4 on [two_particle_initial], at the shared vertex 1. *)
Lemma C4_witness :
  isEnriched
    (updateParticleDomainEnrichState isEnrichCriteriaSatisfied
       (resetParticleDomainData two_particle_initial)) 0 1 = true <->
  exists p, (p < particleNumOfObject (base two_particle_initial) 0)%nat /\
            isEnrichCriteriaSatisfied 0 p = true /\
            domainContains (mesh two_particle_initial 0) p 1.
Proof.
  apply (C4_enrichment_per_corner isEnrichCriteriaSatisfied two_particle_initial 0 1);
    [vm_compute; lia | vm_compute; lia | reflexivity].
Defined.

Lemma two_particle_initial_wellFormed : wellFormedDomainMesh two_particle_initial 0.
Proof.
  unfold two_particle_initial.
  match goal with
  | |- wellFormedDomainMesh (constructParticleDomainMesh ?x) _ =>
      destruct (construct_well_formed x 0) as (_ & _ & _ & _ & H & _);
        [vm_compute; lia | exact H]
  end.
Qed.

Lemma two_particle_initial_objects : (0 < objectNum (base two_particle_initial))%nat.
Proof. vm_compute; lia. Qed.

Lemma two_particle_initial_vertex : (1 < vertNum (mesh two_particle_initial 0))%nat.
Proof. vm_compute; lia. Qed.

Lemma at2_alter {A} (d : A) (f : A -> A) (l : list (list A)) (i j i' j' : nat) :
  at2 d (alter (alter f j) i l) i' j' =
  if decide (i = i' /\ j = j' /\ (j < length (row l i))%nat)
  then f (at2 d l i j) else at2 d l i' j'.
Proof.
  unfold at2. rewrite row_alter.
  destruct (decide (i = i' /\ (i < length l)%nat)) as [[<- Hi]|Hn].
  - rewrite list_lookup_alter.
    destruct (decide (j = j')) as [<-|Hj].
    + destruct (row l i !! j) as [x|] eqn:Hx; simpl.
      * destruct (decide _) as [_|Hno]; [reflexivity|].
        exfalso. apply Hno. repeat split. eapply lookup_lt_Some, Hx.
      * destruct (decide _) as [(_ & _ & Hlt)|_]; [|reflexivity].
        apply lookup_ge_None_1 in Hx. lia.
    + destruct (decide _) as [(_ & ? & _)|_]; [contradiction|reflexivity].
  - destruct (decide (i = i' /\ _)) as [(<- & <- & Hlt)|_]; [|reflexivity].
    exfalso. apply Hn. split; [reflexivity|].
    destruct (decide (i < length l)%nat); [assumption|].
    unfold row in Hlt. rewrite (lookup_ge_None_2 l i) in Hlt by lia. simpl in Hlt. lia.
Qed.

Section CornerNormalisation.
Context {Dim : nat}.
Variable epsilon : Scalar.
Implicit Types s t : InvertibleMPMSolid Dim.

Lemma normalizeFrame_refl s : normalizeFrame s s.
Proof. split; [apply cornerFrame_refl|]. split; [apply cornerShape_refl|]. split; reflexivity. Qed.

Lemma normalizeCorner_frame obj k s t :
  normalizeFrame s t -> normalizeFrame s (normalizeCorner epsilon obj k t).
Proof.
  intros (Hfr & Hsh & Hfl & Hm). unfold normalizeCorner.
  destruct (decide _); [|split; [exact Hfr|split; [exact Hsh|split; assumption]]].
  split; [exact Hfr|]. split; [|split; assumption].
  intros o. destruct (Hsh o) as (H1 & H2 & H3 & H4). simpl.
  rewrite row_length_insert, row_length_alter. auto.
Qed.

Lemma normalizeCorner_other obj k t o g :
  (o, g) <> (obj, k) ->
  cornerVelocity (normalizeCorner epsilon obj k t) o g = cornerVelocity t o g /\
  cornerVelocityBefore (normalizeCorner epsilon obj k t) o g = cornerVelocityBefore t o g.
Proof.
  intros Hne. unfold normalizeCorner. destruct (decide _); [|split; reflexivity].
  unfold cornerVelocity, cornerVelocityBefore. simpl. rewrite at2_alter, at2_insert.
  split.
  - destruct (decide (obj = o /\ k = g /\ _)) as [(<- & <- & _)|_];
      [exfalso; apply Hne; reflexivity|reflexivity].
  - destruct (decide (obj = o /\ k = g /\ _)) as [(<- & <- & _)|_];
      [exfalso; apply Hne; reflexivity|reflexivity].
Qed.

Lemma normalizeCorner_at obj k t :
  cornerSlot t obj k -> normalized epsilon t (normalizeCorner epsilon obj k t) obj k.
Proof.
  intros [Hv Hb]. unfold normalized, normalizeCorner. split.
  - intros Hm. destruct (decide _) as [_|Hn]; [|contradiction].
    unfold cornerVelocity, cornerVelocityBefore. simpl.
    rewrite at2_insert, !at2_alter.
    repeat (destruct (decide _) as [_|Hno]; [|exfalso; apply Hno; auto]).
    split; reflexivity.
  - intros Hm. destruct (decide _) as [Hlt|_]; [|split; reflexivity].
    exfalso. exact (Qcle_not_lt _ _ Hm Hlt).
Qed.

Lemma computeDomainCornerVelocity_spec obj s :
  let t := computeDomainCornerVelocity epsilon obj s in
  normalizeFrame s t /\
  (forall g, (g < length (row (domain_corner_mass_ s) obj))%nat -> cornerSlot s obj g ->
     normalized epsilon s t obj g) /\
  (forall o g, o <> obj \/ (length (row (domain_corner_mass_ s) obj) <= g)%nat ->
     cornerVelocity t o g = cornerVelocity s o g /\
     cornerVelocityBefore t o g = cornerVelocityBefore s o g).
Proof.
  unfold computeDomainCornerVelocity.
  set (n := length (row (domain_corner_mass_ s) obj)).
  assert (H : normalizeFrame s (loop n (normalizeCorner epsilon obj) s) /\
              (forall g, (g < n)%nat -> cornerSlot s obj g ->
                 normalized epsilon s (loop n (normalizeCorner epsilon obj) s) obj g) /\
              (forall o g, o <> obj \/ (n <= g)%nat ->
                 cornerVelocity (loop n (normalizeCorner epsilon obj) s) o g
                   = cornerVelocity s o g /\
                 cornerVelocityBefore (loop n (normalizeCorner epsilon obj) s) o g
                   = cornerVelocityBefore s o g)).
  { apply (loop_ind (fun k t =>
             normalizeFrame s t /\
             (forall g, (g < k)%nat -> cornerSlot s obj g -> normalized epsilon s t obj g) /\
             (forall o g, o <> obj \/ (k <= g)%nat ->
                cornerVelocity t o g = cornerVelocity s o g /\
                cornerVelocityBefore t o g = cornerVelocityBefore s o g))).
    { split; [apply normalizeFrame_refl|]. split; [intros; lia|]. intros; split; reflexivity. }
    intros k t Hk (Hfr & Hdone & Hrest).
    split; [apply normalizeCorner_frame, Hfr|]. split.
    - intros g Hg Hslot. destruct (decide (g = k)) as [->|Hne].
      + destruct (Hrest obj k) as [Hv Hb]; [right; lia|].
        assert (Hm : cornerMass t obj k = cornerMass s obj k).
        { destruct Hfr as (_ & _ & _ & Hm). unfold cornerMass. rewrite Hm. reflexivity. }
        assert (Hslot' : cornerSlot t obj k).
        { destruct Hfr as (_ & Hsh & _). destruct (Hsh obj) as (_ & _ & H3 & H4).
          destruct Hslot. split; lia. }
        pose proof (normalizeCorner_at obj k t Hslot') as [Hbig Hsmall].
        rewrite Hm, Hv in Hbig. rewrite Hm, Hv, Hb in Hsmall. split; assumption.
      + destruct (normalizeCorner_other obj k t obj g) as [Hv Hb]; [congruence|].
        destruct (Hdone g ltac:(lia) Hslot) as [Hbig Hsmall].
        split; intros Hm; rewrite Hv, Hb; auto.
    - intros o g Hcase.
      destruct (normalizeCorner_other obj k t o g) as [Hv Hb].
      { destruct Hcase as [?|?]; [congruence|]. intros [= -> ->]. lia. }
      rewrite Hv, Hb. apply Hrest. destruct Hcase; [left; assumption|right; lia]. }
  exact H.
Qed.

End CornerNormalisation.

Section CornerScatter.
Context {Dim : nat}.
Variable epsilon : Scalar.
Implicit Types s t : InvertibleMPMSolid Dim.

Lemma rasterFrame_refl s : rasterFrame s s.
Proof. repeat split. Qed.

Lemma rasterFrame_trans s t u : rasterFrame s t -> rasterFrame t u -> rasterFrame s u.
Proof.
  intros (H1 & H2 & H3 & H4 & H5 & H6 & H7 & H8) (H1' & H2' & H3' & H4' & H5' & H6' & H7' & H8').
  repeat (split; [congruence|]). eapply cornerShape_trans; eassumption.
Qed.

Lemma rasterFrame_isEnriched s t obj g :
  rasterFrame s t -> isEnriched t obj g = isEnriched s obj g.
Proof. intros (_ & _ & _ & _ & H & _). unfold isEnriched. rewrite H. reflexivity. Qed.

Lemma rasterFrame_classification s t : rasterFrame s t -> classification t = classification s.
Proof. intros (_ & _ & _ & Hm & Hf & _). unfold classification. rewrite Hm, Hf. reflexivity. Qed.

Lemma cornerScatter_refl o s : cornerScatter o s s.
Proof. split; [apply rasterFrame_refl|]. split; [reflexivity|]. intros; split; reflexivity. Qed.

Lemma cornerScatter_trans o s t u :
  cornerScatter o s t -> cornerScatter o t u -> cornerScatter o s u.
Proof.
  intros (Hfr & Hb & Hk) (Hfr' & Hb' & Hk').
  split; [eapply rasterFrame_trans; eassumption|]. split; [congruence|].
  intros obj g Hcase. destruct (Hk obj g Hcase) as [H1 H2].
  destruct (Hk' obj g) as [H1' H2'].
  { destruct Hcase as [?|He]; [left; assumption|right].
    rewrite (rasterFrame_isEnriched s t obj g Hfr). exact He. }
  split; congruence.
Qed.

Lemma rasterizeParticleToCorners_scatter o p s :
  cornerScatter o s (rasterizeParticleToCorners o p s).
Proof.
  unfold rasterizeParticleToCorners.
  apply (loop_ind (fun _ t => cornerScatter o s t)); [apply cornerScatter_refl|].
  intros c t _ Hinv. eapply cornerScatter_trans; [exact Hinv|].
  destruct (isEnriched t o _) eqn:Hen; [|apply cornerScatter_refl].
  split.
  { do 7 (split; [reflexivity|]). intros obj. simpl. rewrite !row_length_alter.
    repeat split. }
  split; [reflexivity|].
  intros obj g Hcase. unfold cornerMass, cornerVelocity. simpl. rewrite !at2_alter.
  assert (Hno : ~ (o = obj /\ eleVertIndex (mesh t o) p c = g)).
  { intros [<- <-]. destruct Hcase as [?|He]; congruence. }
  split; (destruct (decide _) as [(H1 & H2 & _)|_]; [exfalso; apply Hno; auto|reflexivity]).
Qed.

Lemma rasterizeParticleToGrid_frame o p (b b' : CPDIMPMSolid Dim) :
  rasterizeParticleToGrid epsilon o p b = Some b' ->
  eraseGrid b' = eraseGrid b /\
  length (grid_mass_ b') = length (grid_mass_ b) /\
  length (grid_velocity_ b') = length (grid_velocity_ b).
Proof.
  unfold rasterizeParticleToGrid.
  apply (loopM_ind (fun _ u => eraseGrid u = eraseGrid b /\
                               length (grid_mass_ u) = length (grid_mass_ b) /\
                               length (grid_velocity_ u) = length (grid_velocity_ b))).
  { repeat split. }
  intros i u u' _ (H1 & H2 & H3) Hstep.
  destruct (decide _); [|discriminate].
  destruct (isDirichletGridNode _ _ _); injection Hstep as <-; simpl;
    rewrite ?length_alter; auto.
Qed.

Lemma rasterizeParticle_scatter o p s s' :
  rasterizeParticle epsilon o p s = Some s' -> cornerScatter o s s'.
Proof.
  unfold rasterizeParticle. intros H.
  assert (Hgrid : forall b', rasterizeParticleToGrid epsilon o p (base s) = Some b' ->
            cornerScatter o s (map_base (fun _ => b') s)).
  { intros b' Hb'. destruct (rasterizeParticleToGrid_frame o p _ _ Hb') as (H1 & H2 & H3).
    split; [|split; [reflexivity|intros; split; reflexivity]].
    split; [exact H1|]. split; [exact H2|]. split; [exact H3|].
    do 4 (split; [reflexivity|]). intros obj. repeat split. }
  destruct (decide (enrichedCornerNum s o p < corner_num Dim)%nat).
  - destruct (rasterizeParticleToGrid epsilon o p (base s)) as [b'|] eqn:Hb'; [|discriminate].
    simpl in H. specialize (Hgrid b' eq_refl).
    destruct (decide _); injection H as <-; [|exact Hgrid].
    eapply cornerScatter_trans; [exact Hgrid|apply rasterizeParticleToCorners_scatter].
  - destruct (decide _); injection H as <-;
      [apply rasterizeParticleToCorners_scatter|apply cornerScatter_refl].
Qed.

Lemma rasterizeParticles_scatter o n s s' :
  loopM n (rasterizeParticle epsilon o) s = Some s' -> cornerScatter o s s'.
Proof.
  apply (loopM_ind (fun _ t => cornerScatter o s t)); [apply cornerScatter_refl|].
  intros p t t' _ Hinv Hstep. eapply cornerScatter_trans; [exact Hinv|].
  eapply rasterizeParticle_scatter, Hstep.
Qed.

End CornerScatter.

Lemma tmap_tconst {A B} (f : A -> B) (n : nat) (a : A) :
  tmap f n (tconst n a) = tconst n (f a).
Proof. induction n as [|n IH]; simpl; [reflexivity|]. rewrite IH. reflexivity. Qed.

Lemma vdiv_vzero {Dim} (m : Scalar) : vdiv (vzero : Vector Dim) m = vzero.
Proof.
  unfold vdiv, vzero. rewrite tmap_tconst. f_equal. unfold Qcdiv. apply Qcmult_0_l.
Qed.

Section CornerRasterization.
Context {Dim : nat}.
Variable epsilon : Scalar.
Implicit Types s t : InvertibleMPMSolid Dim.

Lemma normalizeFrame_rasterFrame s t : normalizeFrame s t -> rasterFrame s t.
Proof.
  intros ((Hb & Hm & Hw & Hg) & Hsh & Hf & _).
  split; [rewrite Hb; reflexivity|]. split; [rewrite Hb; reflexivity|].
  split; [rewrite Hb; reflexivity|]. repeat (split; [assumption|]). exact Hsh.
Qed.

Lemma rasterizeObject_corners (obj o : nat) s2 t u :
  cornerArraysSized s2 obj ->
  rasterFrame s2 t ->
  loopM (particleNumOfObject (base t) o) (rasterizeParticle epsilon o) t = Some u ->
  let t' := computeDomainCornerVelocity epsilon o u in
  rasterFrame s2 t' /\
  (o <> obj -> forall g,
     cornerMass t' obj g = cornerMass t obj g /\
     cornerVelocity t' obj g = cornerVelocity t obj g /\
     cornerVelocityBefore t' obj g = cornerVelocityBefore t obj g) /\
  (o = obj -> forall g, (g < vertNum (mesh s2 obj))%nat ->
     cornerPending t obj g -> cornerRasterized epsilon t' obj g).
Proof.
  intros (Hl1 & Hl2 & Hl3 & Hl4) Hfr Hrun t'.
  destruct (rasterizeParticles_scatter epsilon o _ t u Hrun) as (Hfr1 & Hbef & Hkeep).
  destruct (computeDomainCornerVelocity_spec epsilon o u) as (Hnf & Hnorm & Hrest).
  fold t' in Hnf, Hnorm, Hrest.
  assert (Hfr2 : rasterFrame s2 t').
  { eapply rasterFrame_trans; [exact Hfr|]. eapply rasterFrame_trans; [exact Hfr1|].
    apply normalizeFrame_rasterFrame, Hnf. }
  assert (Hmass : forall o' g, cornerMass t' o' g = cornerMass u o' g).
  { intros o' g. destruct Hnf as (_ & _ & _ & Hm). unfold cornerMass. rewrite Hm. reflexivity. }
  assert (Hbef' : forall o' g, cornerVelocityBefore u o' g = cornerVelocityBefore t o' g).
  { intros o' g. unfold cornerVelocityBefore. rewrite Hbef. reflexivity. }
  split; [exact Hfr2|]. split.
  - intros Hne g. destruct (Hkeep obj g) as [Hm Hv]; [left; congruence|].
    destruct (Hrest obj g) as [Hv' Hb']; [left; congruence|].
    rewrite Hmass, Hm, Hv', Hv, Hb', Hbef'. repeat split.
  - intros Heq g Hg (Hbz & Hord). subst o.
    assert (Hsh : cornerShape s2 u) by (eapply rasterFrame_trans; [exact Hfr|exact Hfr1]).
    destruct (Hsh obj) as (_ & Hs2 & Hs3 & Hs4).
    assert (Hslot : cornerSlot u obj g) by (split; lia).
    destruct (Hnorm g ltac:(lia) Hslot) as [Hbig Hsmall].
    assert (Hen : isEnriched t' obj g = isEnriched t obj g).
    { transitivity (isEnriched s2 obj g);
        [apply rasterFrame_isEnriched, Hfr2 | symmetry; apply rasterFrame_isEnriched, Hfr]. }
    unfold cornerRasterized. rewrite Hmass, Hen. split; [|split].
    + intros Hm. apply (Hbig Hm).
    + intros Hm. destruct (Hsmall Hm) as [_ Hb]. rewrite Hb, Hbef'. exact Hbz.
    + intros Hfalse. destruct (Hord Hfalse) as [Hm0 Hv0].
      destruct (Hkeep obj g) as [Hm Hv]; [right; exact Hfalse|].
      rewrite Hm, Hm0. split; [reflexivity|].
      destruct (Qclt_le_dec epsilon (cornerMass u obj g)) as [Hlt|Hle].
      * destruct (Hbig Hlt) as [Hv1 Hb1]. rewrite Hb1, Hv1, Hv, Hv0, vdiv_vzero. auto.
      * destruct (Hsmall Hle) as [Hv1 Hb1]. rewrite Hv1, Hb1, Hv, Hv0, Hbef'. auto.
Qed.

Lemma rasterizeObjects_corners (obj : nat) s2 s' :
  (obj < objectNum (base s2))%nat ->
  cornerArraysSized s2 obj ->
  (forall g, (g < vertNum (mesh s2 obj))%nat -> cornerPending s2 obj g) ->
  rasterizeObjects epsilon s2 = Some s' ->
  rasterFrame s2 s' /\
  forall g, (g < vertNum (mesh s2 obj))%nat -> cornerRasterized epsilon s' obj g.
Proof.
  intros Hobj Hsized Hpend Hrun.
  assert (Hinv : rasterFrame s2 s' /\
                 ((obj < objectNum (base s2))%nat ->
                  forall g, (g < vertNum (mesh s2 obj))%nat -> cornerRasterized epsilon s' obj g) /\
                 ((objectNum (base s2) <= obj)%nat ->
                  forall g, (g < vertNum (mesh s2 obj))%nat -> cornerPending s' obj g)).
  { revert Hrun. unfold rasterizeObjects.
    apply (loopM_ind (fun o t =>
             rasterFrame s2 t /\
             ((obj < o)%nat ->
              forall g, (g < vertNum (mesh s2 obj))%nat -> cornerRasterized epsilon t obj g) /\
             ((o <= obj)%nat ->
              forall g, (g < vertNum (mesh s2 obj))%nat -> cornerPending t obj g))).
    { split; [apply rasterFrame_refl|]. split; [intros; lia|]. intros _. exact Hpend. }
    intros o t t' Ho (Hfr & Hdone & Hwait) Hstep.
    destruct (loopM _ _ t) as [u|] eqn:Hu; [|discriminate]. injection Hstep as <-.
    destruct (rasterizeObject_corners obj o s2 t u Hsized Hfr Hu) as (Hfr' & Hother & Hsame).
    split; [exact Hfr'|].
    assert (Hen : forall g, isEnriched (computeDomainCornerVelocity epsilon o u) obj g
                            = isEnriched t obj g).
    { intros g. transitivity (isEnriched s2 obj g);
        [apply rasterFrame_isEnriched, Hfr' | symmetry; apply rasterFrame_isEnriched, Hfr]. }
    split.
    - intros Hlt g Hg. destruct (decide (o = obj)) as [->|Hne].
      + apply (Hsame eq_refl g Hg). apply Hwait; [lia|exact Hg].
      + destruct (Hother Hne g) as (Hm & Hv & Hb).
        unfold cornerRasterized. rewrite Hm, Hv, Hb, Hen. apply Hdone; [lia|exact Hg].
    - intros Hle g Hg. assert (Hne : o <> obj) by lia.
      destruct (Hother Hne g) as (Hm & Hv & Hb).
      unfold cornerPending. rewrite Hm, Hv, Hb, Hen. apply Hwait; [lia|exact Hg]. }
  destruct Hinv as (Hfr & Hdone & _). split; [exact Hfr|]. apply Hdone, Hobj.
Qed.

End CornerRasterization.

Section CornerNormalisationClaim.
Context {Dim : nat}.
Variable epsilon : Scalar.
Implicit Types s t : InvertibleMPMSolid Dim.

Lemma classified_pending (crit : nat -> nat -> bool) s obj :
  (obj < objectNum (base s))%nat ->
  cornerArraysSized s obj ->
  let s2 := updateParticleDomainEnrichState crit
              (resetParticleDomainData (map_base resetGridData s)) in
  objectNum (base s2) = objectNum (base s) /\
  mesh s2 obj = mesh s obj /\
  cornerArraysSized s2 obj /\
  forall g, (g < vertNum (mesh s obj))%nat -> cornerPending s2 obj g.
Proof.
  intros Hobj (Hl1 & Hl2 & Hl3 & Hl4) s2.
  destruct (reset_spec (map_base resetGridData s)) as (Hfr & Hsh & Hcl).
  set (s1 := resetParticleDomainData (map_base resetGridData s)) in *.
  destruct (enrich_spec crit s1) as (Hfr' & Hsh' & Hm & Hv & Hb & _). fold s2 in Hfr', Hsh', Hm, Hv, Hb.
  assert (Hmesh1 : mesh s1 obj = mesh s obj) by apply (mesh_frame _ _ obj Hfr).
  assert (Hmesh2 : mesh s2 obj = mesh s obj).
  { rewrite (mesh_frame s1 s2 obj Hfr'). exact Hmesh1. }
  split.
  { destruct Hfr' as (Hb2 & _). destruct Hfr as (Hb1 & _). rewrite Hb2, Hb1. reflexivity. }
  split; [exact Hmesh2|]. split.
  { destruct (Hsh obj) as (A1 & A2 & A3 & A4). destruct (Hsh' obj) as (B1 & B2 & B3 & B4).
    unfold cornerArraysSized. rewrite Hmesh2, B1, B2, B3, B4, A1, A2, A3, A4. simpl.
    auto. }
  intros g Hg. destruct (Hcl obj g Hobj Hg) as (_ & Hcm & Hcv & Hcb).
  unfold cornerPending, cornerMass, cornerVelocity, cornerVelocityBefore in *.
  rewrite Hm, Hv, Hb. auto.
Qed.

(** C7 (amended): the pass of lines 157-162 divides a corner's momentum by
    its mass exactly when the mass exceeds epsilon and snapshots the result
    as the before-update velocity; at or below epsilon it performs no
    division and leaves both slots as they are.  After [rasterize] the
    before-update velocity of such a corner is zero and its velocity slot
    keeps the accumulated momentum, which is zero for a corner that no
    particle was scattered to (an ordinary corner). *)
Theorem C7_corner_velocity_normalisation (crit : nat -> nat -> bool) s (obj g : nat) :
  (forall t, (g < length (row (domain_corner_mass_ t) obj))%nat -> cornerSlot t obj g ->
     let t' := computeDomainCornerVelocity epsilon obj t in
     cornerMass t' obj g = cornerMass t obj g /\ normalized epsilon t t' obj g) /\
  ((obj < objectNum (base s))%nat -> cornerArraysSized s obj ->
   (g < vertNum (mesh s obj))%nat ->
   forall sr, rasterize epsilon crit s = Some sr -> cornerRasterized epsilon sr obj g).
Proof.
  split.
  - intros t Hg Hslot t'.
    destruct (computeDomainCornerVelocity_spec epsilon obj t) as (Hnf & Hnorm & _).
    fold t' in Hnf, Hnorm. split; [|apply Hnorm; assumption].
    destruct Hnf as (_ & _ & _ & Hm). unfold cornerMass. rewrite Hm. reflexivity.
  - intros Hobj Hsized Hg sr Hrun.
    destruct (classified_pending crit s obj Hobj Hsized) as (Hn & Hmesh & Hsized2 & Hpend).
    unfold rasterize, rasterizeBeforeMerge in Hrun.
    set (s2 := updateParticleDomainEnrichState crit _) in *.
    destruct (rasterizeObjects epsilon s2) as [s'|] eqn:Hs'; [|discriminate].
    injection Hrun as <-.
    destruct (rasterizeObjects_corners epsilon obj s2 s' ltac:(lia) Hsized2) as (_ & Hras);
      [rewrite Hmesh; exact Hpend | exact Hs' |].
    rewrite Hmesh in Hras. apply (Hras g Hg).
Qed.

End CornerNormalisationClaim.

(** Concrete check of C7 on [two_particle_initial]: [rasterize] returns and
    the shared vertex 1 of object 0 is as the theorem says. *)
Lemma C7_witness :
  exists sr, rasterize eps_float isEnrichCriteriaSatisfied two_particle_initial = Some sr /\
             cornerRasterized eps_float sr 0 1.
Proof.
  destruct (rasterize eps_float isEnrichCriteriaSatisfied two_particle_initial) as [sr|] eqn:Hr.
  - exists sr. split; [reflexivity|].
    refine (proj2 (C7_corner_velocity_normalisation eps_float isEnrichCriteriaSatisfied
                     two_particle_initial 0 1) _ _ _ sr Hr).
    + vm_compute. lia.
    + repeat split.
    + vm_compute. lia.
  - exfalso. revert Hr. vm_compute. discriminate.
Defined.

(** C7 fails as stated: the particle of [tiny_mass_state] has mass epsilon
    and velocity (1, 0); [rasterize] gives corner 0 the mass epsilon/4, at
    most epsilon, so nothing is divided there, but its velocity slot holds
    the momentum (epsilon/4, 0), not zero; only the before-update velocity
    is zero. *)
Lemma C7_counterexample :
  option_map
    (fun sr => (cornerMass sr 0 0, cornerVelocity sr 0 0, cornerVelocityBefore sr 0 0))
    (rasterize eps_float isEnrichCriteriaSatisfied tiny_mass_state)
  = Some (eps_float * quarter, (eps_float * quarter, (0, tt)), vzero) /\
  eps_float * quarter <= eps_float /\
  (eps_float * quarter, (0, tt)) <> (vzero : Vector 2).
Proof. repeat split; compute_done. Qed.

(** ** Rasterization: conservation of mass *)

Lemma sumTo_S (n : nat) (f : nat -> Scalar) : sumTo (S n) f = sumTo n f + f n.
Proof. unfold sumTo. rewrite loop_S. reflexivity. Qed.

Lemma sumTo_ext (n : nat) (f g : nat -> Scalar) :
  (forall i, (i < n)%nat -> f i = g i) -> sumTo n f = sumTo n g.
Proof.
  induction n as [|n IH]; intros H; [reflexivity|].
  rewrite !sumTo_S, IH by (intros; apply H; lia). rewrite H by lia. reflexivity.
Qed.

Lemma sumTo_update (n k : nat) (f g : nat -> Scalar) (delta : Scalar) :
  (k < n)%nat -> (forall i, i <> k -> g i = f i) -> g k = f k + delta ->
  sumTo n g = sumTo n f + delta.
Proof.
  intros Hk Hne Heq. induction n as [|n IH]; [lia|].
  rewrite !sumTo_S. destruct (decide (k = n)) as [->|Hkn].
  - rewrite Heq, (sumTo_ext n g f) by (intros; apply Hne; lia). ring.
  - rewrite IH by lia. rewrite Hne by congruence. ring.
Qed.

Lemma sumTo_zero (n : nat) (f : nat -> Scalar) :
  (forall i, (i < n)%nat -> f i = 0) -> sumTo n f = 0.
Proof.
  induction n as [|n IH]; intros H; [reflexivity|].
  rewrite sumTo_S, IH by (intros; apply H; lia). rewrite H by lia. ring.
Qed.

Lemma foldl_inv {S E : Type} (P : S -> Prop) (f : S -> E -> S) (l : list E) (s : S) :
  P s -> (forall t e, P t -> P (f t e)) -> P (foldl f s l).
Proof.
  intros H0 Hstep. revert s H0. induction l as [|e l IH]; intros s H0; simpl; [exact H0|].
  apply IH, Hstep, H0.
Qed.

Section MassConservation.
Context {Dim : nat}.
Variable epsilon : Scalar.
Implicit Types s t : InvertibleMPMSolid Dim.
Implicit Types b : CPDIMPMSolid Dim.

Lemma gridMass_alter (F : gmap nat Scalar -> gmap nat Scalar) (node : nat) b (obj n : nat) :
  gridMass (map_grid_mass (alter F node) b) obj n =
  if decide (node = n /\ (node < length (grid_mass_ b))%nat)
  then default 0 (F (default ∅ (grid_mass_ b !! node)) !! obj)
  else gridMass b obj n.
Proof.
  unfold gridMass. simpl. rewrite list_lookup_alter.
  destruct (decide (node = n)) as [<-|Hne].
  - destruct (grid_mass_ b !! node) as [m|] eqn:Hm; simpl.
    + destruct (decide _) as [_|Hn]; [reflexivity|].
      exfalso. apply Hn. split; [reflexivity|]. eapply lookup_lt_Some, Hm.
    + destruct (decide _) as [[_ Hlt]|_]; [|reflexivity].
      apply lookup_ge_None_1 in Hm. lia.
  - destruct (decide _) as [[? _]|_]; [contradiction|reflexivity].
Qed.

Lemma scatter_mass_lookup (o obj : nat) (delta : Scalar) (m : gmap nat Scalar) :
  default 0 (match m !! o with
             | Some old => <[o := old + delta]> m
             | None => <[o := delta]> m
             end !! obj)
  = default 0 (m !! obj) + (if decide (o = obj) then delta else 0).
Proof.
  destruct (decide (o = obj)) as [<-|Hne].
  - destruct (m !! o) as [old|] eqn:Ho; rewrite lookup_insert_eq; simpl; [reflexivity|ring].
  - destruct (m !! o); rewrite lookup_insert_ne by exact Hne; ring.
Qed.

Lemma gridMassOf_scatter (o node obj : nat) (delta : Scalar) b :
  (node < length (grid_mass_ b))%nat ->
  gridMassOf
    (map_grid_mass
       (alter (fun m => match m !! o with
                        | Some old => <[o := old + delta]> m
                        | None => <[o := delta]> m
                        end) node) b) obj
  = gridMassOf b obj + (if decide (o = obj) then delta else 0).
Proof.
  intros Hnode. unfold gridMassOf. simpl. rewrite length_alter.
  apply (sumTo_update _ node); [exact Hnode| |].
  - intros n Hn. rewrite gridMass_alter.
    destruct (decide _) as [[? _]|_]; [congruence|reflexivity].
  - rewrite gridMass_alter. destruct (decide _) as [_|Hn]; [|exfalso; apply Hn; auto].
    rewrite scatter_mass_lookup. unfold gridMass.
    destruct (grid_mass_ b !! node); reflexivity.
Qed.

Lemma eraseGrid_pairs b b' (o p i : nat) :
  eraseGrid b' = eraseGrid b ->
  at3 noPair (particle_grid_weight_and_gradient_ b') o p i
    = at3 noPair (particle_grid_weight_and_gradient_ b) o p i /\
  at2 0%nat (particle_grid_pair_num_ b') o p = at2 0%nat (particle_grid_pair_num_ b) o p /\
  particles_ b' = particles_ b.
Proof.
  intros H. assert (H1 := f_equal particle_grid_weight_and_gradient_ H).
  assert (H2 := f_equal particle_grid_pair_num_ H). assert (H3 := f_equal particles_ H).
  simpl in H1, H2, H3. rewrite H1, H2, H3. repeat split.
Qed.

Lemma rasterizeParticleToGrid_mass (o p obj : nat) b b' :
  (forall i, (i < at2 0%nat (particle_grid_pair_num_ b) o p)%nat ->
     (node_idx_ (at3 noPair (particle_grid_weight_and_gradient_ b) o p i)
        < length (grid_mass_ b))%nat) ->
  rasterizeParticleToGrid epsilon o p b = Some b' ->
  gridMassOf b' obj =
  gridMassOf b obj + (if decide (o = obj) then mass (particle b o p) * gridWeightSum b o p else 0).
Proof.
  intros Hrange Hrun.
  assert (Hinv : eraseGrid b' = eraseGrid b /\
                 length (grid_mass_ b') = length (grid_mass_ b) /\
                 gridMassOf b' obj =
                 gridMassOf b obj +
                 (if decide (o = obj)
                  then mass (particle b o p)
                       * sumTo (at2 0%nat (particle_grid_pair_num_ b) o p) (gridWeight b o p)
                  else 0)).
  { revert Hrun. unfold rasterizeParticleToGrid.
    apply (loopM_ind (fun i u =>
             eraseGrid u = eraseGrid b /\
             length (grid_mass_ u) = length (grid_mass_ b) /\
             gridMassOf u obj =
             gridMassOf b obj +
             (if decide (o = obj)
              then mass (particle b o p) * sumTo i (gridWeight b o p) else 0))).
    { split; [reflexivity|]. split; [reflexivity|].
      destruct (decide (o = obj)); unfold sumTo, loop; simpl; ring. }
    intros i u u' Hi (Her & Hlen & Hsum) Hstep.
    destruct (eraseGrid_pairs b u o p i Her) as (Hpair & _ & _).
    rewrite Hpair in Hstep. fold (gridWeight b o p i) in Hstep.
    destruct (decide (epsilon < gridWeight b o p i)); [|discriminate].
    set (node := node_idx_ (at3 noPair (particle_grid_weight_and_gradient_ b) o p i)) in *.
    set (delta := gridWeight b o p i * mass (particle b o p)) in *.
    assert (Hmass : forall u1,
              u1 = map_grid_mass
                     (alter (fun m => match m !! o with
                                      | Some old => <[o := old + delta]> m
                                      | None => <[o := delta]> m
                                      end) node) u ->
              eraseGrid u1 = eraseGrid b /\
              length (grid_mass_ u1) = length (grid_mass_ b) /\
              gridMassOf u1 obj =
              gridMassOf b obj +
              (if decide (o = obj)
               then mass (particle b o p) * sumTo (S i) (gridWeight b o p) else 0)).
    { intros u1 ->. split; [exact Her|]. split; [simpl; rewrite length_alter; exact Hlen|].
      rewrite gridMassOf_scatter by (rewrite Hlen; apply Hrange, Hi).
      rewrite Hsum, sumTo_S. unfold delta. destruct (decide (o = obj)); ring. }
    destruct (isDirichletGridNode _ node o); injection Hstep as <-.
    - apply Hmass. reflexivity.
    - destruct (Hmass _ eq_refl) as (H1 & H2 & H3). split; [exact H1|]. split; [exact H2|].
      exact H3. }
  destruct Hinv as (_ & _ & Hsum). exact Hsum.
Qed.

Lemma cornerMass_alter (f : Scalar -> Scalar) (o g : nat) s (obj g' : nat) :
  cornerMass (map_corner_mass (alter (alter f g) o) s) obj g' =
  if decide (o = obj /\ g = g' /\ (g < length (row (domain_corner_mass_ s) o))%nat)
  then f (cornerMass s o g) else cornerMass s obj g'.
Proof. unfold cornerMass. simpl. apply at2_alter. Qed.

Lemma cornerMassOf_scatter (o g obj : nat) (delta : Scalar) s :
  (o = obj -> (g < length (row (domain_corner_mass_ s) o))%nat) ->
  cornerMassOf (map_corner_mass (alter (alter (fun m => m + delta) g) o) s) obj
  = cornerMassOf s obj + (if decide (o = obj) then delta else 0).
Proof.
  intros Hg. unfold cornerMassOf. simpl. rewrite row_length_alter.
  destruct (decide (o = obj)) as [->|Hne].
  - apply (sumTo_update _ g); [apply Hg; reflexivity| |].
    + intros i Hi. rewrite cornerMass_alter.
      destruct (decide _) as [(_ & ? & _)|_]; [congruence|reflexivity].
    + rewrite cornerMass_alter. destruct (decide _) as [_|Hn]; [reflexivity|].
      exfalso. apply Hn. auto.
  - rewrite Qcplus_0_r. apply sumTo_ext. intros i _. rewrite cornerMass_alter.
    destruct (decide _) as [(? & _)|_]; [contradiction|reflexivity].
Qed.

Lemma scatterCorner_frame (F : Scalar -> Scalar) (G : Vector Dim -> Vector Dim) (o g : nat) t :
  rasterFrame t
    (map_corner_velocity (alter (alter G g) o) (map_corner_mass (alter (alter F g) o) t)).
Proof.
  do 7 (split; [reflexivity|]). intros obj. simpl. rewrite !row_length_alter. repeat split.
Qed.

Lemma rasterFrame_particle s t o p :
  rasterFrame s t -> particle (base t) o p = particle (base s) o p.
Proof.
  intros (H & _). unfold particle.
  assert (H3 := f_equal particles_ H). simpl in H3. rewrite H3. reflexivity.
Qed.

Lemma rasterFrame_particleNum s t o :
  rasterFrame s t -> particleNumOfObject (base t) o = particleNumOfObject (base s) o.
Proof.
  intros (H & _). unfold particleNumOfObject.
  assert (H3 := f_equal particles_ H). simpl in H3. rewrite H3. reflexivity.
Qed.

Lemma rasterFrame_objectNum s t :
  rasterFrame s t -> objectNum (base t) = objectNum (base s).
Proof.
  intros (H & _). unfold objectNum.
  assert (H3 := f_equal particles_ H). simpl in H3. rewrite H3. reflexivity.
Qed.

Lemma rasterFrame_enrichedCornerNum s t o p :
  rasterFrame s t -> enrichedCornerNum t o p = enrichedCornerNum s o p.
Proof.
  intros (_ & _ & _ & Hm & He & _). unfold enrichedCornerNum, isEnriched, mesh.
  rewrite Hm, He. reflexivity.
Qed.

Lemma rasterFrame_cornerWeight s t o p c :
  rasterFrame s t -> cornerWeight t o p c = cornerWeight s o p c.
Proof.
  intros (_ & _ & _ & Hm & He & Hw & _). unfold cornerWeight, isEnriched, mesh.
  rewrite Hm, He, Hw. reflexivity.
Qed.

Lemma rasterFrame_gridWeight s t o p i :
  rasterFrame s t -> gridWeight (base t) o p i = gridWeight (base s) o p i.
Proof.
  intros (H & _). unfold gridWeight.
  destruct (eraseGrid_pairs (base s) (base t) o p i H) as (Hp & _). rewrite Hp. reflexivity.
Qed.

Lemma rasterFrame_pairNum s t o p :
  rasterFrame s t ->
  at2 0%nat (particle_grid_pair_num_ (base t)) o p = at2 0%nat (particle_grid_pair_num_ (base s)) o p.
Proof.
  intros (H & _). destruct (eraseGrid_pairs (base s) (base t) o p 0%nat H) as (_ & Hn & _).
  exact Hn.
Qed.

Lemma rasterFrame_usedWeight s t o p :
  rasterFrame s t -> usedWeight t o p = usedWeight s o p.
Proof.
  intros H. unfold usedWeight, gridWeightSum, cornerWeightSum.
  rewrite (rasterFrame_enrichedCornerNum s t o p H), (rasterFrame_pairNum s t o p H).
  rewrite (sumTo_ext _ (gridWeight (base t) o p) (gridWeight (base s) o p))
    by (intros; apply rasterFrame_gridWeight, H).
  rewrite (sumTo_ext _ (cornerWeight t o p) (cornerWeight s o p))
    by (intros; apply rasterFrame_cornerWeight, H).
  reflexivity.
Qed.

(** The enriched corners of [obj] have a slot in its corner-mass array. *)
Lemma rasterizeParticleToCorners_mass (o p obj : nat) s :
  (forall g, isEnriched s obj g = true -> (g < length (row (domain_corner_mass_ s) obj))%nat) ->
  let t := rasterizeParticleToCorners o p s in
  base t = base s /\
  cornerMassOf t obj =
  cornerMassOf s obj
  + (if decide (o = obj) then mass (particle (base s) o p) * cornerWeightSum s o p else 0).
Proof.
  intros Hslot. unfold rasterizeParticleToCorners, cornerWeightSum.
  apply (loop_ind (fun k t =>
           rasterFrame s t /\ base t = base s /\
           cornerMassOf t obj =
           cornerMassOf s obj
           + (if decide (o = obj)
              then mass (particle (base s) o p) * sumTo k (cornerWeight s o p) else 0))).
  { split; [apply rasterFrame_refl|]. split; [reflexivity|].
    destruct (decide (o = obj)); unfold sumTo, loop; simpl; ring. }
  intros c t _ (Hfr & Hb & Hsum).
  assert (Hcw : cornerWeight s o p c = cornerWeight t o p c)
    by (symmetry; apply rasterFrame_cornerWeight, Hfr).
  rewrite sumTo_S, Hcw. set (W := sumTo c _) in *. unfold cornerWeight.
  destruct (isEnriched t o _) eqn:Hen.
  - split; [eapply rasterFrame_trans; [exact Hfr|apply scatterCorner_frame]|].
    split; [exact Hb|].
    change (cornerMassOf (map_corner_velocity ?F ?u) obj) with (cornerMassOf u obj).
    rewrite cornerMassOf_scatter.
    + rewrite Hsum. destruct (decide (o = obj)); ring.
    + intros ->. rewrite (rasterFrame_isEnriched s t obj _ Hfr) in Hen.
      destruct Hfr as (_ & _ & _ & _ & _ & _ & _ & Hsh).
      destruct (Hsh obj) as (_ & Hl & _). rewrite Hl. apply Hslot, Hen.
  - split; [exact Hfr|]. split; [exact Hb|]. rewrite Hsum.
    destruct (decide (o = obj)); ring.
Qed.

Lemma rasterizeParticle_mass (o p obj : nat) s s' :
  (forall i, (i < at2 0%nat (particle_grid_pair_num_ (base s)) o p)%nat ->
     (node_idx_ (at3 noPair (particle_grid_weight_and_gradient_ (base s)) o p i)
        < length (grid_mass_ (base s)))%nat) ->
  (forall g, isEnriched s obj g = true -> (g < length (row (domain_corner_mass_ s) obj))%nat) ->
  rasterizeParticle epsilon o p s = Some s' ->
  totalMass s' obj =
  totalMass s obj + (if decide (o = obj) then mass (particle (base s) o p) * usedWeight s o p else 0).
Proof.
  intros Hrange Hslot. unfold rasterizeParticle, usedWeight, totalMass. intros H.
  destruct (decide (enrichedCornerNum s o p < corner_num Dim)%nat) as [Hlt|Hge].
  - destruct (rasterizeParticleToGrid epsilon o p (base s)) as [b'|] eqn:Hb'; [|discriminate].
    simpl in H.
    pose proof (rasterizeParticleToGrid_mass o p obj _ _ Hrange Hb') as Hgrid.
    destruct (rasterizeParticleToGrid_frame epsilon o p _ _ Hb') as (Her & _ & _).
    destruct (eraseGrid_pairs (base s) b' o p 0%nat Her) as (_ & _ & Hpart).
    set (s1 := map_base (fun _ => b') s) in *.
    destruct (decide (0 < enrichedCornerNum s o p)%nat); injection H as <-.
    + destruct (rasterizeParticleToCorners_mass o p obj s1 Hslot) as [Hb Hc].
      rewrite Hb, Hc.
      change (base s1) with b'. change (cornerMassOf s1 obj) with (cornerMassOf s obj).
      change (cornerWeightSum s1 o p) with (cornerWeightSum s o p).
      rewrite Hgrid. unfold particle. rewrite Hpart.
      destruct (decide (o = obj)); ring.
    + change (base s1) with b'. change (cornerMassOf s1 obj) with (cornerMassOf s obj).
      rewrite Hgrid. destruct (decide (o = obj)); ring.
  - destruct (decide (0 < enrichedCornerNum s o p)%nat); injection H as <-.
    + destruct (rasterizeParticleToCorners_mass o p obj s Hslot) as [Hb Hc].
      rewrite Hb, Hc. destruct (decide (o = obj)); ring.
    + destruct (decide (o = obj)); ring.
Qed.

Lemma rasterizeParticles_mass (o n obj : nat) s s' :
  (forall p i, (p < n)%nat -> (i < at2 0%nat (particle_grid_pair_num_ (base s)) o p)%nat ->
     (node_idx_ (at3 noPair (particle_grid_weight_and_gradient_ (base s)) o p i)
        < length (grid_mass_ (base s)))%nat) ->
  (forall g, isEnriched s obj g = true -> (g < length (row (domain_corner_mass_ s) obj))%nat) ->
  loopM n (rasterizeParticle epsilon o) s = Some s' ->
  totalMass s' obj =
  totalMass s obj
  + (if decide (o = obj)
     then sumTo n (fun p => mass (particle (base s) o p) * usedWeight s o p) else 0).
Proof.
  intros Hrange Hslot Hrun.
  assert (Hinv : cornerScatter o s s' /\
                 totalMass s' obj =
                 totalMass s obj
                 + (if decide (o = obj)
                    then sumTo n (fun p => mass (particle (base s) o p) * usedWeight s o p)
                    else 0)).
  { revert Hrun.
    apply (loopM_ind (fun k t =>
             cornerScatter o s t /\
             totalMass t obj =
             totalMass s obj
             + (if decide (o = obj)
                then sumTo k (fun p => mass (particle (base s) o p) * usedWeight s o p)
                else 0))).
    { split; [apply cornerScatter_refl|].
      destruct (decide (o = obj)); unfold sumTo, loop; simpl; ring. }
    intros p t t' Hp (Hsc & Hsum) Hstep.
    pose proof Hsc as (Hfr & _).
    split; [eapply cornerScatter_trans;
            [exact Hsc|eapply rasterizeParticle_scatter, Hstep]|].
    rewrite (rasterizeParticle_mass o p obj t t'); [| | |exact Hstep].
    - rewrite Hsum, sumTo_S, (rasterFrame_particle s t o p Hfr),
        (rasterFrame_usedWeight s t o p Hfr).
      destruct (decide (o = obj)); ring.
    - intros i Hi. rewrite (rasterFrame_pairNum s t o p Hfr) in Hi.
      destruct Hfr as (Her & Hlen & _).
      destruct (eraseGrid_pairs (base s) (base t) o p i Her) as (Hpair & _).
      rewrite Hpair, Hlen. apply Hrange; assumption.
    - intros g Hg. rewrite (rasterFrame_isEnriched s t obj g Hfr) in Hg.
      destruct Hfr as (_ & _ & _ & _ & _ & _ & _ & Hsh).
      destruct (Hsh obj) as (_ & Hl & _). rewrite Hl. apply Hslot, Hg. }
  apply Hinv.
Qed.

Lemma normalizeFrame_totalMass s t obj :
  normalizeFrame s t -> totalMass t obj = totalMass s obj.
Proof.
  intros ((Hb & _) & _ & _ & Hm). unfold totalMass, cornerMassOf, cornerMass.
  rewrite Hb, Hm. reflexivity.
Qed.

Lemma rasterizeObjects_mass (obj : nat) s2 s' :
  (forall o, gridTargetsInRange s2 o) ->
  (forall g, isEnriched s2 obj g = true -> (g < length (row (domain_corner_mass_ s2) obj))%nat) ->
  partitionOfUnity s2 obj ->
  (obj < objectNum (base s2))%nat ->
  rasterizeObjects epsilon s2 = Some s' ->
  rasterFrame s2 s' /\
  totalMass s' obj = totalMass s2 obj + particleMassSum (base s2) obj.
Proof.
  intros Hrange Hslot Hpou Hobj Hrun.
  assert (Hinv : rasterFrame s2 s' /\
                 totalMass s' obj =
                 totalMass s2 obj
                 + (if decide_rel lt obj (objectNum (base s2))
                    then particleMassSum (base s2) obj else 0)).
  { revert Hrun. unfold rasterizeObjects.
    apply (loopM_ind (fun k t =>
             rasterFrame s2 t /\
             totalMass t obj =
             totalMass s2 obj
             + (if decide_rel lt obj k then particleMassSum (base s2) obj else 0))).
    { split; [apply rasterFrame_refl|]. destruct (decide_rel lt obj 0%nat); [lia|ring]. }
    intros k t t' Hk (Hfr & Hsum) Hstep.
    destruct (loopM _ _ t) as [u|] eqn:Hu; [|discriminate]. injection Hstep as <-.
    pose proof (rasterizeParticles_scatter epsilon k _ t u Hu) as (Hfr1 & _).
    destruct (computeDomainCornerVelocity_spec epsilon k u) as (Hnf & _).
    split.
    { eapply rasterFrame_trans; [exact Hfr|]. eapply rasterFrame_trans; [exact Hfr1|].
      apply normalizeFrame_rasterFrame, Hnf. }
    rewrite (normalizeFrame_totalMass u _ obj Hnf).
    rewrite (rasterizeParticles_mass k (particleNumOfObject (base t) k) obj t u);
      [| | |exact Hu].
    - rewrite Hsum. destruct (decide (k = obj)) as [->|Hne].
      + rewrite (rasterFrame_particleNum s2 t obj Hfr).
        rewrite (sumTo_ext _ _ (fun p => mass (particle (base s2) obj p))).
        * unfold particleMassSum.
          destruct (decide_rel lt obj obj); [lia|].
          destruct (decide_rel lt obj (S obj)); [ring|lia].
        * intros p Hp. rewrite (rasterFrame_particle s2 t obj p Hfr),
            (rasterFrame_usedWeight s2 t obj p Hfr), (Hpou p Hp). ring.
      + destruct (decide_rel lt obj k); destruct (decide_rel lt obj (S k)); try lia; ring.
    - intros p i Hp Hi. rewrite (rasterFrame_particleNum s2 t k Hfr) in Hp.
      rewrite (rasterFrame_pairNum s2 t k p Hfr) in Hi.
      destruct Hfr as (Her & Hlen & _).
      destruct (eraseGrid_pairs (base s2) (base t) k p i Her) as (Hpair & _).
      rewrite Hpair, Hlen. apply Hrange; assumption.
    - intros g Hg. rewrite (rasterFrame_isEnriched s2 t obj g Hfr) in Hg.
      destruct Hfr as (_ & _ & _ & _ & _ & _ & _ & Hsh).
      destruct (Hsh obj) as (_ & Hl & _). rewrite Hl. apply Hslot, Hg. }
  destruct Hinv as [Hfr Hsum]. split; [exact Hfr|]. rewrite Hsum.
  destruct (decide_rel lt obj _); [reflexivity|contradiction].
Qed.

End MassConservation.

(** ** Rasterization: the grid passes *)

Lemma lookup_touch {V} (d : V) (k k' : nat) (m : gmap nat V) :
  touch d k m !! k' =
  if decide (k = k') then Some (default d (m !! k)) else m !! k'.
Proof.
  unfold touch. destruct (decide (k = k')) as [<-|Hne].
  - destruct (m !! k) as [x|] eqn:Hx; [rewrite Hx; reflexivity|].
    rewrite lookup_insert_eq. reflexivity.
  - destruct (m !! k); [reflexivity|]. rewrite lookup_insert_ne by exact Hne. reflexivity.
Qed.

Lemma touch_default {V} (d : V) (k k' : nat) (m : gmap nat V) :
  default d (touch d k m !! k') = default d (m !! k').
Proof. rewrite lookup_touch. destruct (decide (k = k')) as [<-|]; reflexivity. Qed.

Lemma touch_present {V} (d : V) (k : nat) (m : gmap nat V) :
  is_Some (m !! k) -> touch d k m = m.
Proof. intros [x Hx]. unfold touch. rewrite Hx. reflexivity. Qed.

Lemma multimap_insert_last (k v : nat) (l : list (nat * nat)) :
  Forall (fun e => (e.1 <= k)%nat) l -> multimap_insert k v l = l ++ [(k, v)].
Proof.
  induction l as [|[k' v'] l IH]; intros H; simpl; [reflexivity|].
  inversion H as [|? ? Hk Hl]; subst. simpl in Hk.
  destruct (decide (k' <= k)%nat); [|lia]. rewrite IH by exact Hl. reflexivity.
Qed.

Lemma equal_range_app (k : nat) (l1 l2 : list (nat * nat)) :
  equal_range k (l1 ++ l2) = equal_range k l1 ++ equal_range k l2.
Proof. unfold equal_range. rewrite filter_app, fmap_app. reflexivity. Qed.

Lemma equal_range_pair (k node : nat) (objs : list nat) :
  equal_range k (pair node <$> objs) = if decide (node = k) then objs else [].
Proof.
  unfold equal_range. destruct (decide (node = k)) as [->|Hne].
  - induction objs as [|o objs IH]; [reflexivity|].
    rewrite fmap_cons, filter_cons_True by reflexivity. rewrite fmap_cons, IH. reflexivity.
  - induction objs as [|o objs IH]; [reflexivity|].
    rewrite fmap_cons, filter_cons_False by exact Hne. exact IH.
Qed.

Lemma equal_range_flat_map (k n : nat) (f : nat -> list nat) :
  equal_range k (flat_map (fun node => pair node <$> f node) (seq 0 n)) =
  if decide (k < n)%nat then f k else [].
Proof.
  induction n as [|n IH]; [reflexivity|].
  rewrite seq_S, flat_map_app, equal_range_app, IH. simpl. rewrite app_nil_r, equal_range_pair.
  destruct (decide (k < n)%nat); destruct (decide (n = k)); destruct (decide (k < S n)%nat);
    try lia; subst; rewrite ?app_nil_r; reflexivity.
Qed.

Lemma flat_map_keys_lt (n : nat) (f : nat -> list nat) :
  Forall (fun e : nat * nat => (e.1 < n)%nat)
    (flat_map (fun node => pair node <$> f node) (seq 0 n)).
Proof.
  induction n as [|n IH]; [constructor|].
  rewrite seq_S, flat_map_app. apply Forall_app. split.
  - eapply Forall_impl; [exact IH|]. intros e He. simpl in *. lia.
  - simpl. rewrite app_nil_r. apply Forall_fmap, Forall_forall. intros o _. simpl. lia.
Qed.

Lemma lookup_alter_default {A} (d : A) (F : A -> A) (l : list A) (n n' : nat) :
  default d (alter F n l !! n') =
  if decide (n = n' /\ (n < length l)%nat) then F (default d (l !! n)) else default d (l !! n').
Proof.
  rewrite list_lookup_alter. destruct (decide (n = n')) as [<-|Hne].
  - destruct (l !! n) as [x|] eqn:Hx; simpl.
    + rewrite decide_True; [reflexivity|]. split; [reflexivity|]. eapply lookup_lt_Some, Hx.
    + rewrite decide_False; [reflexivity|]. intros [_ Hlt].
      apply lookup_ge_None_1 in Hx. lia.
  - rewrite decide_False by (intros [? _]; contradiction). reflexivity.
Qed.

Lemma lookup_foldl_touch {V} (d : V) (objs : list nat) (m : gmap nat V) (o : nat) :
  foldl (fun m o => touch d o m) m objs !! o =
  if decide (o ∈ objs) then Some (default d (m !! o)) else m !! o.
Proof.
  revert m. induction objs as [|o1 objs IH]; intros m; cbn [foldl].
  - rewrite decide_False by apply not_elem_of_nil. reflexivity.
  - rewrite IH, touch_default, lookup_touch.
    destruct (decide (o ∈ objs)) as [Hin|Hout].
    + rewrite decide_True by (right; exact Hin). reflexivity.
    + destruct (decide (o1 = o)) as [->|Hne].
      * rewrite decide_True by left. reflexivity.
      * rewrite decide_False; [reflexivity|]. intros Hin. apply elem_of_cons in Hin.
        destruct Hin; [congruence|contradiction].
Qed.

Lemma lookup_foldl_insert {V} (v : V) (ks : list nat) (m : gmap nat V) (o : nat) :
  foldl (fun m k => <[k := v]> m) m ks !! o = if decide (o ∈ ks) then Some v else m !! o.
Proof.
  revert m. induction ks as [|k ks IH]; intros m; cbn [foldl].
  - rewrite decide_False by apply not_elem_of_nil. reflexivity.
  - rewrite IH. destruct (decide (o ∈ ks)) as [Hin|Hout].
    + rewrite decide_True by (right; exact Hin). reflexivity.
    + destruct (decide (k = o)) as [->|Hne].
      * rewrite lookup_insert_eq, decide_True by left. reflexivity.
      * rewrite lookup_insert_ne by exact Hne. rewrite decide_False; [reflexivity|].
        intros Hin. apply elem_of_cons in Hin. destruct Hin; [congruence|contradiction].
Qed.

Lemma elem_of_keys {V} (m : gmap nat V) (k : nat) : k ∈ keys m <-> is_Some (m !! k).
Proof.
  unfold keys. rewrite merge_sort_Permutation, elem_of_elements, elem_of_dom. reflexivity.
Qed.

Lemma keys_sorted {V} (m : gmap nat V) : StronglySorted Nat.le (keys m).
Proof.
  unfold keys. apply StronglySorted_merge_sort.
  - intros x y z. apply Nat.le_trans.
  - intros x y. apply Nat.le_ge_cases.
Qed.

Lemma keys_NoDup {V} (m : gmap nat V) : NoDup (keys m).
Proof. unfold keys. rewrite merge_sort_Permutation. apply NoDup_elements. Qed.

Lemma foldl_ext_eq {A B} (f g : A -> B -> A) (a : A) (l : list B) :
  (forall acc x, f acc x = g acc x) -> foldl f a l = foldl g a l.
Proof.
  intros H. revert a. induction l as [|x l IH]; intros a; simpl; [reflexivity|].
  rewrite H. apply IH.
Qed.

Lemma is_Some_foldl_touch {V} (d : V) (objs : list nat) (m : gmap nat V) (k : nat) :
  is_Some (foldl (fun m o => touch d o m) m objs !! k) <-> k ∈ objs \/ is_Some (m !! k).
Proof.
  rewrite lookup_foldl_touch. destruct (decide (k ∈ objs)) as [Hin|Hout].
  - split; [intros _; left; exact Hin|intros _; eauto].
  - split; [intros H; right; exact H|intros [?|H]; [contradiction|exact H]].
Qed.

Lemma default_foldl_touch {V} (d : V) (objs : list nat) (m : gmap nat V) (k : nat) :
  default d (foldl (fun m o => touch d o m) m objs !! k) = default d (m !! k).
Proof. rewrite lookup_foldl_touch. destruct (decide (k ∈ objs)); reflexivity. Qed.

Section GridPasses.
Context {Dim : nat}.
Variable epsilon : Scalar.
Implicit Types b : CPDIMPMSolid Dim.
Implicit Types s t : InvertibleMPMSolid Dim.

Lemma gridMass_nodeMass b o n : gridMass b o n = default 0 (nodeMass b n !! o).
Proof. unfold gridMass, nodeMass. destruct (grid_mass_ b !! n); reflexivity. Qed.

Lemma gridVelocity_nodeVelocity b o n :
  gridVelocity b o n = default vzero (nodeVelocity b n !! o).
Proof. unfold gridVelocity, nodeVelocity. destruct (grid_velocity_ b !! n); reflexivity. Qed.

Lemma activeObjects_S b node (j : nat) :
  filter (fun o => epsilon < gridMass b o node) (seq 0 (S j)) =
  filter (fun o => epsilon < gridMass b o node) (seq 0 j)
  ++ (if decide (epsilon < gridMass b j node) then [j] else []).
Proof.
  rewrite seq_S, filter_app. simpl. rewrite filter_cons, filter_nil. reflexivity.
Qed.

(** Lines 165-179 on an empty table: the table lists, node by node, the
    objects whose mass exceeds epsilon, and the local map has exactly the
    nodes with such an object. *)
Lemma determineActiveGridNodes_spec b :
  active_grid_node_ b = [] ->
  let st := determineActiveGridNodes epsilon b in
  map_active_grid_node (fun _ => []) st.1 = b /\
  active_grid_node_ st.1 = activeList epsilon b /\
  (forall n, st.2 !! n =
             if decide ((n < length (grid_mass_ b))%nat /\ activeObjects epsilon b n <> [])
             then Some n else None).
Proof.
  intros Hempty. unfold determineActiveGridNodes, activeList.
  set (act := activeObjects epsilon b).
  pose (Inv := fun k (st : CPDIMPMSolid Dim * gmap nat nat) =>
           map_active_grid_node (fun _ => []) st.1 = b /\
           active_grid_node_ st.1 = flat_map (fun node => pair node <$> act node) (seq 0 k) /\
           (forall n, st.2 !! n =
                      if decide ((n < k)%nat /\ act n <> []) then Some n else None)).
  apply (loop_ind Inv); unfold Inv; clear Inv.
  { split; [|split].
    - destruct b; simpl in *. rewrite Hempty. reflexivity.
    - exact Hempty.
    - intros n. destruct (decide ((n < 0)%nat /\ act n <> [])) as [[? _]|_]; [lia|].
      apply lookup_empty. }
  intros k st Hk (Hb & Hl & Hm).
  set (pre := flat_map (fun node => pair node <$> act node) (seq 0 k)) in *.
  assert (Hinner :
    let st' := loop (objectNum b)
                 (fun obj_idx (st : CPDIMPMSolid Dim * gmap nat nat) =>
                    if decide (epsilon < gridMass st.1 obj_idx k) then
                      (map_active_grid_node (multimap_insert k obj_idx) st.1,
                       match st.2 !! k with
                       | Some _ => st.2
                       | None => <[k := k]> st.2
                       end)
                    else st) st in
    map_active_grid_node (fun _ => []) st'.1 = b /\
    active_grid_node_ st'.1 = pre ++ (pair k <$> act k) /\
    (forall n, st'.2 !! n =
               if decide ((n < k)%nat /\ act n <> []) then Some n
               else if decide (n = k /\ act k <> []) then Some n else None)).
  { unfold act at 2 4. unfold activeObjects.
    pose (Inv := fun j (st' : CPDIMPMSolid Dim * gmap nat nat) =>
             map_active_grid_node (fun _ => []) st'.1 = b /\
             active_grid_node_ st'.1
               = pre ++ (pair k <$> filter (fun o => epsilon < gridMass b o k) (seq 0 j)) /\
             (forall n, st'.2 !! n =
                        if decide ((n < k)%nat /\ act n <> []) then Some n
                        else if decide (n = k /\
                                        filter (fun o => epsilon < gridMass b o k) (seq 0 j) <> [])
                             then Some n else None)).
    apply (loop_ind Inv); unfold Inv; clear Inv.
    { split; [exact Hb|]. split; [simpl; rewrite app_nil_r; exact Hl|].
      intros n. rewrite Hm. destruct (decide ((n < k)%nat /\ act n <> [])); [reflexivity|].
      rewrite decide_False by (intros [_ Hne]; apply Hne; reflexivity). reflexivity. }
    intros j st' Hj (Hb' & Hl' & Hm').
    assert (Hmass : gridMass st'.1 j k = gridMass b j k).
    { rewrite <- Hb'. reflexivity. }
    rewrite Hmass, activeObjects_S.
    destruct (decide (epsilon < gridMass b j k)) as [Hact|Hno].
    - simpl. split; [rewrite <- Hb'; reflexivity|]. split.
      + rewrite Hl', fmap_app, app_assoc. apply multimap_insert_last.
        apply Forall_app. split.
        * eapply Forall_impl; [apply flat_map_keys_lt|]. intros e He. simpl in *. lia.
        * apply Forall_fmap, Forall_forall. intros o _. simpl. lia.
      + intros n. destruct (decide ((n < k)%nat /\ act n <> [])) as [Hin|Hout].
        * specialize (Hm' n). rewrite decide_True in Hm' by exact Hin.
          destruct (st'.2 !! k) eqn:Hk'; [exact Hm'|].
          rewrite lookup_insert_ne by (destruct Hin; lia). exact Hm'.
        * specialize (Hm' n). rewrite decide_False in Hm' by exact Hout.
          destruct (decide (n = k)) as [->|Hne].
          -- rewrite decide_True by (split; [reflexivity|]; intros Habs;
                                     apply app_eq_nil in Habs; destruct Habs; discriminate).
             destruct (st'.2 !! k) as [x|] eqn:Hk'; [|rewrite lookup_insert_eq; reflexivity].
             rewrite Hk'. destruct (decide _); [exact Hm'|discriminate].
          -- rewrite decide_False by (intros [? _]; contradiction).
             rewrite decide_False in Hm' by (intros [? _]; contradiction).
             destruct (st'.2 !! k); [exact Hm'|].
             rewrite lookup_insert_ne by congruence. exact Hm'.
    - rewrite app_nil_r. split; [exact Hb'|]. split; [exact Hl'|exact Hm']. }
  destruct Hinner as (Hb1 & Hl1 & Hm1). split; [exact Hb1|]. split.
  - rewrite Hl1, seq_S, flat_map_app. simpl. rewrite app_nil_r. reflexivity.
  - intros n. rewrite Hm1.
    destruct (decide ((n < k)%nat /\ act n <> [])) as [[H1 H2]|Hout].
    + rewrite decide_True by (split; [lia|exact H2]). reflexivity.
    + destruct (decide (n = k /\ act k <> [])) as [[-> H2]|Hout'].
      * rewrite decide_True by (split; [lia|exact H2]). reflexivity.
      * rewrite decide_False; [reflexivity|]. intros [H1 H2].
        destruct (decide (n = k)) as [->|]; [apply Hout'; auto|apply Hout; split; [lia|auto]].
Qed.

Lemma nodeMass_alter (F : gmap nat Scalar -> gmap nat Scalar) (n n' : nat) b :
  nodeMass (map_grid_mass (alter F n) b) n' =
  if decide (n = n' /\ (n < length (grid_mass_ b))%nat) then F (nodeMass b n) else nodeMass b n'.
Proof. unfold nodeMass. simpl. apply lookup_alter_default. Qed.

Lemma nodeVelocity_alter (F : gmap nat (Vector Dim) -> gmap nat (Vector Dim)) (n n' : nat) b :
  nodeVelocity (map_grid_velocity (alter F n) b) n' =
  if decide (n = n' /\ (n < length (grid_velocity_ b))%nat)
  then F (nodeVelocity b n) else nodeVelocity b n'.
Proof. unfold nodeVelocity. simpl. apply lookup_alter_default. Qed.

Lemma nodeVelocityBefore_alter (F : gmap nat (Vector Dim) -> gmap nat (Vector Dim))
  (n n' : nat) b :
  nodeVelocityBefore (map_grid_velocity_before (alter F n) b) n' =
  if decide (n = n' /\ (n < length (grid_velocity_before_ b))%nat)
  then F (nodeVelocityBefore b n) else nodeVelocityBefore b n'.
Proof. unfold nodeVelocityBefore. simpl. apply lookup_alter_default. Qed.

Lemma gridMass_velocity_frame F b o n : gridMass (map_grid_velocity F b) o n = gridMass b o n.
Proof. reflexivity. Qed.

Lemma gridMass_before_frame F b o n :
  gridMass (map_grid_velocity_before F b) o n = gridMass b o n.
Proof. reflexivity. Qed.

Lemma gridVelocity_mass_frame F b o n : gridVelocity (map_grid_mass F b) o n = gridVelocity b o n.
Proof. reflexivity. Qed.

Lemma gridVelocity_before_frame F b o n :
  gridVelocity (map_grid_velocity_before F b) o n = gridVelocity b o n.
Proof. reflexivity. Qed.

Lemma gridVelocityBefore_mass_frame F b o n :
  gridVelocityBefore (map_grid_mass F b) o n = gridVelocityBefore b o n.
Proof. reflexivity. Qed.

Lemma gridVelocityBefore_velocity_frame F b o n :
  gridVelocityBefore (map_grid_velocity F b) o n = gridVelocityBefore b o n.
Proof. reflexivity. Qed.

Lemma gridMass_touch (o n : nat) b (o' n' : nat) :
  gridMass (map_grid_mass (alter (touch 0 o) n) b) o' n' = gridMass b o' n'.
Proof.
  rewrite !gridMass_nodeMass, nodeMass_alter.
  destruct (decide _) as [[<- _]|_]; [apply touch_default|reflexivity].
Qed.

Lemma gridVelocity_touch (o n : nat) b (o' n' : nat) :
  gridVelocity (map_grid_velocity (alter (touch vzero o) n) b) o' n' = gridVelocity b o' n'.
Proof.
  rewrite !gridVelocity_nodeVelocity, nodeVelocity_alter.
  destruct (decide _) as [[<- _]|_]; [apply touch_default|reflexivity].
Qed.

Lemma gridVelocity_set (x : gmap nat (Vector Dim) -> Vector Dim) (o n : nat) b (o' n' : nat) :
  gridVelocity (map_grid_velocity (alter (fun m => <[o := x m]> m) n) b) o' n' =
  if decide (n = n' /\ o = o' /\ (n < length (grid_velocity_ b))%nat)
  then x (nodeVelocity b n) else gridVelocity b o' n'.
Proof.
  rewrite !gridVelocity_nodeVelocity, nodeVelocity_alter.
  destruct (decide (n = n' /\ (n < length (grid_velocity_ b))%nat)) as [[<- Hlt]|Hno].
  - destruct (decide (o = o')) as [<-|Hne].
    + rewrite lookup_insert_eq, decide_True by auto. reflexivity.
    + rewrite lookup_insert_ne by exact Hne.
      rewrite decide_False by (intros (_ & ? & _); contradiction). reflexivity.
  - rewrite decide_False; [reflexivity|]. intros (? & _ & ?). apply Hno. auto.
Qed.

Lemma gridVelocityBefore_set (v : Vector Dim) (o n : nat) b (o' n' : nat) :
  gridVelocityBefore (map_grid_velocity_before (alter (<[o := v]>) n) b) o' n' =
  if decide (n = n' /\ o = o' /\ (n < length (grid_velocity_before_ b))%nat)
  then v else gridVelocityBefore b o' n'.
Proof.
  unfold gridVelocityBefore. rewrite nodeVelocityBefore_alter.
  destruct (decide (n = n' /\ (n < length (grid_velocity_before_ b))%nat)) as [[<- Hlt]|Hno].
  - destruct (decide (o = o')) as [<-|Hne].
    + rewrite lookup_insert_eq, decide_True by auto. reflexivity.
    + rewrite lookup_insert_ne by exact Hne.
      rewrite decide_False by (intros (_ & ? & _); contradiction). reflexivity.
  - rewrite decide_False; [reflexivity|]. intros (? & _ & ?). apply Hno. auto.
Qed.

Lemma eraseNodes_dirichlet b b' n o :
  eraseNodes b' = eraseNodes b -> isDirichletGridNode b' n o = isDirichletGridNode b n o.
Proof.
  intros H. unfold isDirichletGridNode.
  assert (H1 := f_equal is_dirichlet_grid_node_ H). simpl in H1. rewrite H1. reflexivity.
Qed.

Lemma gridDivided_nil b : gridDivided [] b b.
Proof.
  repeat (split; [reflexivity|]). split; [intros o n H; inversion H|].
  split; [reflexivity|]. split; [intros o n H; inversion H|reflexivity].
Qed.

Lemma gridDivided_single (n o : nat) b b' :
  eraseNodes b' = eraseNodes b ->
  length (grid_mass_ b') = length (grid_mass_ b) ->
  length (grid_velocity_ b') = length (grid_velocity_ b) ->
  length (grid_velocity_before_ b') = length (grid_velocity_before_ b) ->
  (forall o' n', gridMass b' o' n' = gridMass b o' n') ->
  (forall o' n', gridVelocity b' o' n' =
     if decide (n = n' /\ o = o' /\ (n < length (grid_velocity_ b))%nat /\
                isDirichletGridNode b n o = false)
     then vdiv (gridVelocity b o n) (gridMass b o n) else gridVelocity b o' n') ->
  (forall o' n', gridVelocityBefore b' o' n' =
     if decide (n = n' /\ o = o' /\ (n < length (grid_velocity_before_ b))%nat)
     then gridVelocity b' o n else gridVelocityBefore b o' n') ->
  gridDivided [(n, o)] b b'.
Proof.
  intros He Hl1 Hl2 Hl3 HM HV HB.
  split; [exact He|]. split; [exact Hl1|]. split; [exact Hl2|]. split; [exact Hl3|].
  split; [exact HM|]. split; [|split; [|split]].
  - intros o' n' Hin Hlt Hd. apply list_elem_of_singleton in Hin. injection Hin as -> ->.
    rewrite HV, decide_True by auto. reflexivity.
  - intros o' n' Hcase. rewrite HV, decide_False; [reflexivity|].
    intros (-> & -> & Hlt & Hd). destruct Hcase as [Hn|[Hge|Ht]].
    + apply Hn, list_elem_of_singleton. reflexivity.
    + lia.
    + congruence.
  - intros o' n' Hin Hlt. apply list_elem_of_singleton in Hin. injection Hin as -> ->.
    rewrite HB, decide_True by auto. reflexivity.
  - intros o' n' Hcase. rewrite HB, decide_False; [reflexivity|].
    intros (-> & -> & Hlt). destruct Hcase as [Hn|Hge].
    + apply Hn, list_elem_of_singleton. reflexivity.
    + lia.
Qed.

Lemma gridDivided_cons (e : nat * nat) (l : list (nat * nat)) b b1 b2 :
  e ∉ l -> gridDivided [e] b b1 -> gridDivided l b1 b2 -> gridDivided (e :: l) b b2.
Proof.
  intros Hnotin (He & Hl1 & Hl2 & Hl3 & HM & HVin & HVout & HBin & HBout)
         (He' & Hl1' & Hl2' & Hl3' & HM' & HVin' & HVout' & HBin' & HBout').
  assert (Hdir : forall n o, isDirichletGridNode b1 n o = isDirichletGridNode b n o)
    by (intros; apply eraseNodes_dirichlet, He).
  split; [congruence|]. split; [congruence|]. split; [congruence|]. split; [congruence|].
  split; [intros; rewrite HM', HM; reflexivity|].
  assert (Hsingle : forall o n, (n, o) ∈ [e] <-> (n, o) = e)
    by (intros; apply list_elem_of_singleton).
  split; [|split; [|split]].
  - intros o n Hin Hlt Hd. apply elem_of_cons in Hin. destruct Hin as [Heq|Hin].
    + rewrite HVout' by (left; rewrite Heq; exact Hnotin).
      apply HVin; [apply Hsingle, Heq|exact Hlt|exact Hd].
    + rewrite HVin'; [|exact Hin|rewrite Hl2; exact Hlt|rewrite Hdir; exact Hd].
      rewrite HM, HVout; [reflexivity|]. left. rewrite Hsingle. intros <-. contradiction.
  - intros o n Hcase.
    rewrite HVout', HVout; [reflexivity| |].
    + destruct Hcase as [Hn|[Hge|Hd]]; [left|right; left; exact Hge|right; right; exact Hd].
      rewrite Hsingle. intros <-. apply Hn. left.
    + destruct Hcase as [Hn|[Hge|Hd]];
        [left|right; left; rewrite Hl2; exact Hge|right; right; rewrite Hdir; exact Hd].
      intros Hin. apply Hn. right. exact Hin.
  - intros o n Hin Hlt. apply elem_of_cons in Hin. destruct Hin as [Heq|Hin].
    + rewrite HBout' by (left; rewrite Heq; exact Hnotin).
      rewrite HVout' by (left; rewrite Heq; exact Hnotin).
      apply HBin; [apply Hsingle, Heq|exact Hlt].
    + apply HBin'; [exact Hin|rewrite Hl3; exact Hlt].
  - intros o n Hcase. rewrite HBout', HBout; [reflexivity| |].
    + destruct Hcase as [Hn|Hge]; [left|right; exact Hge].
      rewrite Hsingle. intros <-. apply Hn. left.
    + destruct Hcase as [Hn|Hge]; [left|right; rewrite Hl3; exact Hge].
      intros Hin. apply Hn. right. exact Hin.
Qed.

(** Lines 181-188: for every entry of the table the velocity of a
    non-Dirichlet node is divided by the mass, once, and the result is
    buffered as the before-update velocity. *)
Lemma computeGridVelocity_spec (st : CPDIMPMSolid Dim * gmap nat nat) :
  NoDup (active_grid_node_ st.1) ->
  (forall e, e ∈ active_grid_node_ st.1 -> st.2 !! e.1 = Some e.1) ->
  let st' := computeGridVelocity st in
  st'.2 = st.2 /\ gridDivided (active_grid_node_ st.1) st.1 st'.1.
Proof.
  intros Hnd Hid. unfold computeGridVelocity.
  match goal with |- context [foldl ?f _ _] => set (body := f) end.
  assert (Hstep : forall (u : CPDIMPMSolid Dim * gmap nat nat) (e : nat * nat),
            u.2 !! e.1 = Some e.1 ->
            (body u e).2 = u.2 /\ gridDivided [e] u.1 (body u e).1).
  { intros [b amap] [n o] Hn. simpl in Hn. unfold body. simpl.
    rewrite (touch_present 0%nat n amap) by (rewrite Hn; eauto). rewrite Hn. simpl.
    split; [reflexivity|].
    apply gridDivided_single.
    - destruct (isDirichletGridNode b n o); reflexivity.
    - destruct (isDirichletGridNode b n o); simpl; rewrite ?length_alter; reflexivity.
    - destruct (isDirichletGridNode b n o); simpl; rewrite ?length_alter; reflexivity.
    - destruct (isDirichletGridNode b n o); simpl; rewrite ?length_alter; reflexivity.
    - intros o' n'. rewrite gridMass_before_frame, gridMass_velocity_frame.
      destruct (isDirichletGridNode b n o); [reflexivity|].
      rewrite gridMass_velocity_frame, gridMass_touch, gridMass_velocity_frame. reflexivity.
    - intros o' n'. rewrite gridVelocity_before_frame, gridVelocity_touch.
      destruct (isDirichletGridNode b n o).
      + rewrite decide_False by (intros (_ & _ & _ & ?); discriminate). reflexivity.
      + rewrite gridVelocity_set. simpl. rewrite length_alter.
        rewrite gridMass_touch, gridMass_velocity_frame.
        change (nodeVelocity (map_grid_mass ?F ?x) n) with (nodeVelocity x n).
        rewrite <- gridVelocity_nodeVelocity, !gridVelocity_touch, gridVelocity_mass_frame,
          gridVelocity_touch.
        destruct (decide (n = n' /\ o = o' /\ (n < length (grid_velocity_ b))%nat))
          as [(-> & -> & Hlt)|Hno].
        * rewrite decide_True by auto. reflexivity.
        * rewrite decide_False; [reflexivity|]. intros (? & ? & ? & _). apply Hno. auto.
    - intros o' n'. rewrite gridVelocityBefore_set.
      rewrite gridVelocity_before_frame.
      replace (length (grid_velocity_before_ _)) with (length (grid_velocity_before_ b))
        by (destruct (isDirichletGridNode b n o); reflexivity).
      destruct (decide _); [reflexivity|].
      rewrite gridVelocityBefore_velocity_frame.
      destruct (isDirichletGridNode b n o); reflexivity. }
  clearbody body.
  assert (Hall : forall (l : list (nat * nat)) (u : CPDIMPMSolid Dim * gmap nat nat),
            NoDup l -> (forall e, e ∈ l -> u.2 !! e.1 = Some e.1) ->
            (foldl body u l).2 = u.2 /\ gridDivided l u.1 (foldl body u l).1).
  { induction l as [|e l IH]; intros u Hn Hi; simpl.
    - split; [reflexivity|apply gridDivided_nil].
    - apply NoDup_cons in Hn. destruct Hn as [Hnotin Hn].
      destruct (Hstep u e) as [H2 Hdiv]; [apply Hi; left|].
      destruct (IH (body u e) Hn) as [H2' Hdiv'].
      { intros e' He'. rewrite H2. apply Hi. right. exact He'. }
      split; [congruence|]. eapply gridDivided_cons; eassumption. }
  apply Hall; assumption.
Qed.

Lemma elem_of_activeList b (e : nat * nat) :
  e ∈ activeList epsilon b <->
  (e.1 < length (grid_mass_ b))%nat /\ e.2 ∈ activeObjects epsilon b e.1.
Proof.
  unfold activeList. generalize (activeObjects epsilon b) as f. intros f.
  induction (length (grid_mass_ b)) as [|n IH].
  - simpl. split; [intros H; inversion H|intros [H _]; lia].
  - rewrite seq_S, flat_map_app, elem_of_app, IH. simpl. rewrite app_nil_r, list_elem_of_fmap.
    split.
    + intros [[H1 H2]|(o & -> & Ho)]; simpl; [split; [lia|exact H2]|split; [lia|exact Ho]].
    + intros [H1 H2]. destruct (decide (e.1 = n)) as [Heq|Hne].
      * right. exists e.2. rewrite <- Heq. split; [destruct e; reflexivity|exact H2].
      * left. split; [lia|exact H2].
Qed.

Lemma NoDup_activeList b : NoDup (activeList epsilon b).
Proof.
  unfold activeList. generalize (length (grid_mass_ b)) as n.
  induction n as [|n IH]; [constructor|].
  rewrite seq_S, flat_map_app. simpl. rewrite app_nil_r. apply NoDup_app. split; [exact IH|].
  split.
  - intros e He Hin. apply list_elem_of_fmap in Hin. destruct Hin as (o & -> & _).
    pose proof (flat_map_keys_lt n (activeObjects epsilon b)) as Hlt.
    rewrite Forall_forall in Hlt. specialize (Hlt _ He). simpl in Hlt. lia.
  - apply NoDup_fmap_2; [intros x y [= ->]; reflexivity|].
    unfold activeObjects. apply NoDup_filter, NoDup_seq.
Qed.

Lemma occupying_activeList b b' (n : nat) :
  active_grid_node_ b' = activeList epsilon b ->
  occupying b' n =
  if decide (n < length (grid_mass_ b))%nat then activeObjects epsilon b n else [].
Proof. intros H. unfold occupying. rewrite H. apply equal_range_flat_map. Qed.

(** Lines 216-222 on the keys in increasing order. *)
Lemma dirichletOverride_spec (dir : gset nat) (vel : gmap nat (Vector Dim)) (ks : list nat)
  (d : Vector Dim) :
  StronglySorted Nat.le ks ->
  ((forall k, k ∈ ks -> k ∉ dir) /\ dirichletOverride dir vel ks d = d) \/
  (exists k, k ∈ ks /\ k ∈ dir /\ (forall k', k' ∈ ks -> k' ∈ dir -> (k <= k')%nat) /\
             dirichletOverride dir vel ks d = default vzero (vel !! k)).
Proof.
  induction ks as [|k ks IH]; intros Hs; simpl.
  - left. split; [intros k Hk; inversion Hk|reflexivity].
  - apply StronglySorted_inv in Hs. destruct Hs as [Hs Hle].
    destruct (decide (k ∈ dir)) as [Hin|Hout].
    + right. exists k. split; [left|]. split; [exact Hin|]. split; [|reflexivity].
      intros k' Hk' _. apply elem_of_cons in Hk'. destruct Hk' as [->|Hk']; [lia|].
      rewrite Forall_forall in Hle. apply Hle, Hk'.
    + destruct (IH Hs) as [[Hnone Heq]|(k0 & Hk0 & Hd0 & Hmin & Heq)].
      * left. split; [|exact Heq]. intros k' Hk'. apply elem_of_cons in Hk'.
        destruct Hk' as [->|Hk']; [exact Hout|apply Hnone, Hk'].
      * right. exists k0. split; [right; exact Hk0|]. split; [exact Hd0|]. split; [|exact Heq].
        intros k' Hk' Hd'. apply elem_of_cons in Hk'.
        destruct Hk' as [->|Hk']; [contradiction|apply Hmin; assumption].
Qed.

(** Lines 202-210: the sums over the listed objects; reading
    [grid_mass_(node)[obj]] and [grid_velocity_(node)[obj]] creates the
    entries that are absent. *)
Lemma accumulateAtNode_spec (n : nat) (objs : list nat) b :
  let r := accumulateAtNode n objs b in
  eraseNodes r.1.1 = eraseNodes b /\
  grid_velocity_before_ r.1.1 = grid_velocity_before_ b /\
  length (grid_mass_ r.1.1) = length (grid_mass_ b) /\
  length (grid_velocity_ r.1.1) = length (grid_velocity_ b) /\
  (forall n', nodeMass r.1.1 n' =
     if decide (n = n' /\ (n < length (grid_mass_ b))%nat)
     then foldl (fun m o => touch 0 o m) (nodeMass b n) objs else nodeMass b n') /\
  (forall n', nodeVelocity r.1.1 n' =
     if decide (n = n' /\ (n < length (grid_velocity_ b))%nat)
     then foldl (fun m o => touch vzero o m) (nodeVelocity b n) objs else nodeVelocity b n') /\
  r.1.2 = sumList (fun o => gridMass b o n) objs /\
  r.2 = vsumList (fun o => vscale (gridMass b o n) (gridVelocity b o n)) objs.
Proof.
  unfold accumulateAtNode, sumList, vsumList.
  match goal with |- context [foldl ?f (b, _, _) _] => set (g := f) end.
  cut (forall (P0 : Vector Dim) (M0 : Scalar),
         let r := foldl g (b, M0, P0) objs in
         eraseNodes r.1.1 = eraseNodes b /\
         grid_velocity_before_ r.1.1 = grid_velocity_before_ b /\
         length (grid_mass_ r.1.1) = length (grid_mass_ b) /\
         length (grid_velocity_ r.1.1) = length (grid_velocity_ b) /\
         (forall n', nodeMass r.1.1 n' =
            if decide (n = n' /\ (n < length (grid_mass_ b))%nat)
            then foldl (fun m o => touch 0 o m) (nodeMass b n) objs else nodeMass b n') /\
         (forall n', nodeVelocity r.1.1 n' =
            if decide (n = n' /\ (n < length (grid_velocity_ b))%nat)
            then foldl (fun m o => touch vzero o m) (nodeVelocity b n) objs
            else nodeVelocity b n') /\
         r.1.2 = foldl (fun acc o => acc + gridMass b o n) M0 objs /\
         r.2 = foldl (fun acc o => vadd acc (vscale (gridMass b o n) (gridVelocity b o n)))
                 P0 objs).
  { intros H. apply H. }
  revert b. induction objs as [|o1 objs IH]; intros b P0 M0; cbn [foldl].
  - cbn zeta. simpl.
    repeat (split; [reflexivity|]). split; [|split; [|split; reflexivity]].
    + intros n'. destruct (decide _) as [[<- _]|_]; reflexivity.
    + intros n'. destruct (decide _) as [[<- _]|_]; reflexivity.
  - set (b1 := map_grid_velocity (alter (touch vzero o1) n)
                 (map_grid_mass (alter (touch 0 o1) n) b)).
    assert (Hg : g (b, M0, P0) o1 =
                 (b1, M0 + gridMass b o1 n,
                  vadd P0 (vscale (gridMass b o1 n) (gridVelocity b o1 n)))).
    { unfold g, b1. simpl. rewrite !gridMass_velocity_frame, !gridMass_touch.
      rewrite gridVelocity_touch, gridVelocity_mass_frame. reflexivity. }
    rewrite Hg. specialize (IH b1 (vadd P0 (vscale (gridMass b o1 n) (gridVelocity b o1 n)))
                             (M0 + gridMass b o1 n)).
    cbn zeta in IH. destruct IH as (H1 & H2 & H3 & H4 & H5 & H6 & H7 & H8).
    cbn zeta.
    split; [rewrite H1; reflexivity|]. split; [rewrite H2; reflexivity|].
    split; [rewrite H3; unfold b1; simpl; rewrite length_alter; reflexivity|].
    split; [rewrite H4; unfold b1; simpl; rewrite length_alter; reflexivity|].
    split; [|split; [|split]].
    + intros n'. rewrite H5. unfold b1.
      change (grid_mass_ (map_grid_velocity ?F ?x)) with (grid_mass_ x).
      change (nodeMass (map_grid_velocity ?F ?x)) with (nodeMass x).
      simpl length. rewrite length_alter, !nodeMass_alter.
      destruct (decide (n = n' /\ (n < length (grid_mass_ b))%nat)) as [[<- Hlt]|Hno].
      * rewrite decide_True by auto. reflexivity.
      * rewrite ?decide_False by exact Hno. reflexivity.
    + intros n'. rewrite H6. unfold b1. simpl length. rewrite length_alter, !nodeVelocity_alter.
      change (grid_velocity_ (map_grid_mass ?F ?x)) with (grid_velocity_ x).
      change (nodeVelocity (map_grid_mass ?F ?x)) with (nodeVelocity x).
      destruct (decide (n = n' /\ (n < length (grid_velocity_ b))%nat)) as [[<- Hlt]|Hno].
      * rewrite decide_True by auto. reflexivity.
      * rewrite ?decide_False by exact Hno. reflexivity.
    + rewrite H7. apply foldl_ext_eq. intros acc o. unfold b1.
      rewrite gridMass_velocity_frame, gridMass_touch. reflexivity.
    + rewrite H8. apply foldl_ext_eq. intros acc o. unfold b1.
      rewrite gridMass_velocity_frame, gridMass_touch, gridVelocity_touch,
        gridVelocity_mass_frame. reflexivity.
Qed.

(** Lines 195-229 at one node. *)
Lemma unifyNode_spec (n : nat) b :
  (n < length (grid_mass_ b))%nat -> gridSized b ->
  let b' := unifyNode n n b in
  eraseNodes b' = eraseNodes b /\
  length (grid_mass_ b') = length (grid_mass_ b) /\
  length (grid_velocity_ b') = length (grid_velocity_ b) /\
  length (grid_velocity_before_ b') = length (grid_velocity_before_ b) /\
  (forall n', n' <> n -> sameNode b b' n') /\
  (length (occupying b n) = 1%nat -> b' = b) /\
  (length (occupying b n) <> 1%nat -> unified b b' n).
Proof.
  intros Hn (Hlv & Hlb & Hld). unfold unifyNode. fold (occupying b n).
  destruct (decide (length (occupying b n) = 1%nat)) as [Hone|Hmany].
  { repeat (split; [reflexivity|]). split; [intros n' _; repeat split|].
    split; [reflexivity|contradiction]. }
  pose proof (accumulateAtNode_spec n (occupying b n) b) as Hacc. cbn zeta in Hacc.
  destruct (accumulateAtNode n (occupying b n) b) as [[b1 M] P]. simpl in Hacc.
  destruct Hacc as (He & Hbef & Hl1 & Hl2 & Hm & Hv & HM & HP).
  change (is_dirichlet_grid_node_ (map_grid_mass (alter (fmap (fun _ : Scalar => M)) n) b1))
    with (is_dirichlet_grid_node_ b1).
  change (grid_velocity_ (map_grid_mass (alter (fmap (fun _ : Scalar => M)) n) b1))
    with (grid_velocity_ b1).
  fold (nodeVelocity b1 n).
  set (vel := nodeVelocity b1 n). set (dir := default ∅ (is_dirichlet_grid_node_ b1 !! n)).
  set (V := dirichletOverride dir vel (keys vel) (vdiv P M)).
  set (b2 := map_grid_mass (alter (fmap (fun _ : Scalar => M)) n) b1).
  set (b3 := map_grid_velocity (alter (fmap (fun _ : Vector Dim => V)) n) b2).
  set (b4 := map_grid_velocity_before _ b3).
  assert (Hvel : vel = foldl (fun m o => touch vzero o m) (nodeVelocity b n) (occupying b n)).
  { unfold vel. rewrite Hv, decide_True by (split; [reflexivity|lia]). reflexivity. }
  assert (Hdir : forall k, isDirichletGridNode b n k = true <-> k ∈ dir).
  { intros k. unfold isDirichletGridNode, dir.
    assert (H1 := f_equal is_dirichlet_grid_node_ He). simpl in H1. rewrite H1.
    apply bool_decide_eq_true. }
  assert (Hkeys : forall k, k ∈ keys vel <-> holdsVelocity b n k).
  { intros k. rewrite elem_of_keys, Hvel. apply is_Some_foldl_touch. }
  assert (Hvk : forall k, default vzero (vel !! k) = gridVelocity b k n).
  { intros k. rewrite Hvel, default_foldl_touch, gridVelocity_nodeVelocity. reflexivity. }
  assert (Hm4 : forall n', nodeMass b4 n' =
            if decide (n = n') then (fun _ : Scalar => M) <$> nodeMass b1 n else nodeMass b n').
  { intros n'. unfold b4, b3, b2.
    change (nodeMass (map_grid_velocity_before ?F ?x)) with (nodeMass x).
    change (nodeMass (map_grid_velocity ?F ?x)) with (nodeMass x).
    rewrite nodeMass_alter, Hl1.
    destruct (decide (n = n')) as [<-|Hne].
    - rewrite decide_True by auto. reflexivity.
    - rewrite decide_False by (intros [? _]; contradiction).
      rewrite Hm, decide_False by (intros [? _]; contradiction). reflexivity. }
  assert (Hv4 : forall n', nodeVelocity b4 n' =
            if decide (n = n') then (fun _ : Vector Dim => V) <$> vel else nodeVelocity b n').
  { intros n'. unfold b4, b3.
    change (nodeVelocity (map_grid_velocity_before ?F ?x)) with (nodeVelocity x).
    rewrite nodeVelocity_alter.
    change (grid_velocity_ b2) with (grid_velocity_ b1).
    change (nodeVelocity b2) with (nodeVelocity b1). rewrite Hl2.
    destruct (decide (n = n')) as [<-|Hne].
    - rewrite decide_True by (split; [reflexivity|lia]). reflexivity.
    - rewrite decide_False by (intros [? _]; contradiction).
      rewrite Hv, decide_False by (intros [? _]; contradiction). reflexivity. }
  assert (Hb4 : forall n', nodeVelocityBefore b4 n' =
            if decide (n = n')
            then foldl (fun before k => <[k := V]> before) (nodeVelocityBefore b n) (keys vel)
            else nodeVelocityBefore b n').
  { intros n'. unfold b4. rewrite nodeVelocityBefore_alter.
    change (grid_velocity_before_ b3) with (grid_velocity_before_ b1).
    change (nodeVelocityBefore b3) with (nodeVelocityBefore b1).
    unfold nodeVelocityBefore. rewrite Hbef.
    destruct (decide (n = n')) as [<-|Hne].
    - rewrite decide_True by (split; [reflexivity|lia]). reflexivity.
    - rewrite decide_False by (intros [? _]; contradiction). reflexivity. }
  split; [rewrite <- He; reflexivity|].
  split; [unfold b4, b3, b2; simpl; rewrite length_alter; exact Hl1|].
  split; [unfold b4, b3, b2; simpl; rewrite length_alter; exact Hl2|].
  split; [unfold b4, b3, b2; simpl; rewrite length_alter, Hbef; reflexivity|].
  split.
  { intros n' Hne. unfold sameNode. rewrite Hm4, Hv4, Hb4.
    rewrite !decide_False by congruence. repeat split. }
  split; [intros Hone; contradiction|]. intros _.
  exists V. split; [|split; [|split; [|split]]].
  - destruct (dirichletOverride_spec dir vel (keys vel) (vdiv P M) (keys_sorted vel))
      as [[Hnone Heq]|(k & Hk & Hd & Hmin & Heq)].
    + left. split.
      * intros k [Hh Hd]. apply (Hnone k); [apply Hkeys, Hh|apply Hdir, Hd].
      * unfold V. rewrite Heq. unfold momentumAtNode, massAtNode. rewrite <- HM, <- HP.
        reflexivity.
    + right. exists k. split; [split; [apply Hkeys, Hk|apply Hdir, Hd]|]. split.
      * intros k' [Hh' Hd']. apply Hmin; [apply Hkeys, Hh'|apply Hdir, Hd'].
      * unfold V. rewrite Heq. apply Hvk.
  - intros o Ho. rewrite gridMass_nodeMass, Hm4, decide_True by reflexivity.
    rewrite lookup_fmap, Hm, decide_True by auto.
    destruct (proj2 (is_Some_foldl_touch 0 (occupying b n) (nodeMass b n) o) Ho) as [x Hx].
    rewrite Hx. simpl. unfold massAtNode. rewrite HM. reflexivity.
  - intros o Ho. rewrite Hm4, decide_True by reflexivity.
    rewrite lookup_fmap, Hm, decide_True by auto.
    destruct (foldl _ _ _ !! o) as [x|] eqn:Hx; [|reflexivity].
    exfalso. apply Ho. apply (is_Some_foldl_touch 0). rewrite Hx. eauto.
  - intros o Ho. split.
    + rewrite gridVelocity_nodeVelocity, Hv4, decide_True by reflexivity.
      rewrite lookup_fmap. apply Hkeys, elem_of_keys in Ho. destruct Ho as [x Hx].
      rewrite Hx. reflexivity.
    + unfold gridVelocityBefore. rewrite Hb4, decide_True by reflexivity.
      rewrite lookup_foldl_insert, decide_True by (apply Hkeys, Ho). reflexivity.
  - intros o Ho. split.
    + rewrite Hv4, decide_True by reflexivity. rewrite lookup_fmap.
      destruct (vel !! o) as [x|] eqn:Hx; [|reflexivity].
      exfalso. apply Ho, Hkeys, elem_of_keys. rewrite Hx. eauto.
    + rewrite Hb4, decide_True by reflexivity.
      rewrite lookup_foldl_insert, decide_False; [reflexivity|].
      intros Hin. apply Ho, Hkeys, Hin.
Qed.

Lemma sameNode_refl b n : sameNode b b n.
Proof. repeat split. Qed.

Lemma sameNode_trans b c d n : sameNode b c n -> sameNode c d n -> sameNode b d n.
Proof. intros (H1 & H2 & H3) (H1' & H2' & H3'). repeat split; congruence. Qed.

Lemma sameNode_values b b' n (o : nat) :
  sameNode b b' n ->
  gridMass b' o n = gridMass b o n /\ gridVelocity b' o n = gridVelocity b o n /\
  gridVelocityBefore b' o n = gridVelocityBefore b o n.
Proof.
  intros (H1 & H2 & H3). rewrite !gridMass_nodeMass, !gridVelocity_nodeVelocity.
  unfold gridVelocityBefore. rewrite H1, H2, H3. repeat split.
Qed.

Lemma occupying_eraseNodes b b' n : eraseNodes b' = eraseNodes b -> occupying b' n = occupying b n.
Proof.
  intros H. unfold occupying.
  assert (H1 := f_equal active_grid_node_ H). simpl in H1. rewrite H1. reflexivity.
Qed.

Lemma unified_source b c b' n :
  eraseNodes c = eraseNodes b -> sameNode b c n -> unified c b' n -> unified b b' n.
Proof.
  intros He Hs (V & HV & Hm & Hm' & Hv & Hv').
  pose proof (occupying_eraseNodes b c n He) as Hocc.
  pose proof Hs as (Hnm & Hnv & Hnb).
  assert (Hgm : forall o, gridMass c o n = gridMass b o n)
    by (intros o; apply (sameNode_values b c n o Hs)).
  assert (Hgv : forall o, gridVelocity c o n = gridVelocity b o n)
    by (intros o; apply (sameNode_values b c n o Hs)).
  assert (HhM : forall o, holdsMass c n o <-> holdsMass b n o)
    by (intros o; unfold holdsMass; rewrite Hocc, Hnm; reflexivity).
  assert (HhV : forall o, holdsVelocity c n o <-> holdsVelocity b n o)
    by (intros o; unfold holdsVelocity; rewrite Hocc, Hnv; reflexivity).
  assert (HM : massAtNode c n = massAtNode b n).
  { unfold massAtNode, sumList. rewrite Hocc. apply foldl_ext_eq. intros acc o.
    rewrite Hgm. reflexivity. }
  assert (HP : momentumAtNode c n = momentumAtNode b n).
  { unfold momentumAtNode, vsumList. rewrite Hocc. apply foldl_ext_eq. intros acc o.
    rewrite Hgm, Hgv. reflexivity. }
  assert (Hdh : forall k, dirichletHolder c n k <-> dirichletHolder b n k).
  { intros k. unfold dirichletHolder. rewrite HhV, (eraseNodes_dirichlet b c n k He).
    reflexivity. }
  exists V. split; [|split; [|split; [|split]]].
  - destruct HV as [[Hnone Heq]|(k & Hk & Hmin & Heq)].
    + left. split; [intros k Hk; apply (Hnone k), Hdh, Hk|]. rewrite <- HM, <- HP. exact Heq.
    + right. exists k. split; [apply Hdh, Hk|]. split.
      * intros k' Hk'. apply Hmin, Hdh, Hk'.
      * rewrite <- Hgv. exact Heq.
  - intros o Ho. rewrite <- HM. apply Hm, HhM, Ho.
  - intros o Ho. apply Hm'. rewrite HhM. exact Ho.
  - intros o Ho. apply Hv, HhV, Ho.
  - intros o Ho. rewrite <- Hnb. apply Hv'. rewrite HhV. exact Ho.
Qed.

Lemma unified_target b c c' n : sameNode c c' n -> unified b c n -> unified b c' n.
Proof.
  intros Hs (V & HV & Hm & Hm' & Hv & Hv').
  pose proof Hs as (Hnm & Hnv & Hnb).
  exists V. split; [exact HV|]. split; [|split; [|split]].
  - intros o Ho. destruct (sameNode_values c c' n o Hs) as (-> & _). apply Hm, Ho.
  - intros o Ho. rewrite Hnm. apply Hm', Ho.
  - intros o Ho. destruct (sameNode_values c c' n o Hs) as (_ & -> & ->). apply Hv, Ho.
  - intros o Ho. rewrite Hnv, Hnb. apply Hv', Ho.
Qed.

(** Lines 190-231: every node of the local map is unified when it lists
    more than one object, in terms of the grid before the merge; the other
    nodes keep their maps. *)
Lemma unifyMultiValuedNodes_spec b (amap : gmap nat nat) :
  contact_method_ b = false -> gridSized b ->
  (forall k, is_Some (amap !! k) ->
     amap !! k = Some k /\ (k < length (grid_mass_ b))%nat) ->
  let b' := unifyMultiValuedNodes (b, amap) in
  eraseNodes b' = eraseNodes b /\
  length (grid_mass_ b') = length (grid_mass_ b) /\
  length (grid_velocity_ b') = length (grid_velocity_ b) /\
  length (grid_velocity_before_ b') = length (grid_velocity_before_ b) /\
  forall n,
    (is_Some (amap !! n) -> length (occupying b n) <> 1%nat -> unified b b' n) /\
    (amap !! n = None \/ length (occupying b n) = 1%nat -> sameNode b b' n).
Proof.
  intros Hc Hsized Hmap. unfold unifyMultiValuedNodes. simpl. rewrite Hc.
  assert (Hks : forall k, k ∈ keys amap -> is_Some (amap !! k))
    by (intros k; apply elem_of_keys).
  assert (Hks' : forall k, is_Some (amap !! k) -> k ∈ keys amap)
    by (intros k; apply elem_of_keys).
  pose proof (keys_NoDup amap) as Hnd.
  set (step := fun (b : CPDIMPMSolid Dim) (node_idx_1d : nat) =>
                 unifyNode node_idx_1d (default 0%nat (amap !! node_idx_1d)) b).
  cut (forall ks, NoDup ks -> (forall k, k ∈ ks -> is_Some (amap !! k)) ->
         let b' := foldl step b ks in
         eraseNodes b' = eraseNodes b /\
         length (grid_mass_ b') = length (grid_mass_ b) /\
         length (grid_velocity_ b') = length (grid_velocity_ b) /\
         length (grid_velocity_before_ b') = length (grid_velocity_before_ b) /\
         forall n,
           (n ∈ ks -> length (occupying b n) <> 1%nat -> unified b b' n) /\
           (n ∉ ks \/ length (occupying b n) = 1%nat -> sameNode b b' n)).
  { intros Hcut. destruct (Hcut (keys amap) Hnd Hks) as (H1 & H2 & H3 & H4 & H5).
    split; [exact H1|]. split; [exact H2|]. split; [exact H3|]. split; [exact H4|].
    intros n. destruct (H5 n) as [Hu Hs]. split.
    - intros Hin. apply Hu, Hks', Hin.
    - intros [Hnone|Hone]; apply Hs; [left|right; exact Hone].
      intros Hin. apply Hks in Hin. rewrite Hnone in Hin. destruct Hin; discriminate. }
  induction ks as [|k ks IH] using rev_ind; intros Hn Hin.
  { simpl. repeat (split; [reflexivity|]). intros n. split.
    - intros Habs. inversion Habs.
    - intros _. apply sameNode_refl. }
  rewrite foldl_app. cbn [foldl]. apply NoDup_app in Hn. destruct Hn as (Hn & Hdisj & _).
  destruct (IH Hn) as (He & Hl1 & Hl2 & Hl3 & Hnodes).
  { intros k' Hk'. apply Hin, elem_of_app. left. exact Hk'. }
  set (cur := foldl step b ks) in *.
  destruct (Hmap k) as [Hid Hlt]; [apply Hin, elem_of_app; right; left|].
  assert (Hstep : step cur k = unifyNode k k cur) by (unfold step; rewrite Hid; reflexivity).
  cbn zeta. rewrite Hstep.
  destruct Hsized as (Hs1 & Hs2 & Hs3).
  assert (Hs3' : length (is_dirichlet_grid_node_ cur) = length (grid_mass_ cur)).
  { assert (H1 := f_equal is_dirichlet_grid_node_ He). simpl in H1. rewrite H1. lia. }
  destruct (unifyNode_spec k cur) as (He' & Hl1' & Hl2' & Hl3' & Hother & Hone & Hmany);
    [lia|repeat split; lia|].
  assert (Hk : k ∉ ks).
  { intros Hk. apply (Hdisj k Hk). left. }
  assert (Hsk : sameNode b cur k) by (apply (Hnodes k); left; exact Hk).
  assert (Hocc : occupying cur k = occupying b k) by (apply occupying_eraseNodes, He).
  split; [rewrite He'; exact He|]. split; [rewrite Hl1'; exact Hl1|].
  split; [rewrite Hl2'; exact Hl2|]. split; [rewrite Hl3'; exact Hl3|].
  intros n. destruct (decide (n = k)) as [->|Hne].
  - split.
    + intros _ Hlen. apply (unified_source b cur _ k He Hsk). apply Hmany. rewrite Hocc.
      exact Hlen.
    + intros [Hout|Hlen].
      * exfalso. apply Hout, elem_of_app. right. left.
      * rewrite Hone by (rewrite Hocc; exact Hlen). exact Hsk.
  - destruct (Hnodes n) as [Hu Hs]. split.
    + intros Hin' Hlen. apply elem_of_app in Hin'. destruct Hin' as [Hin'|Hin'].
      * apply (unified_target b cur _ n (Hother n Hne)). apply Hu; assumption.
      * apply list_elem_of_singleton in Hin'. contradiction.
    + intros Hcase. apply (sameNode_trans b cur _ n); [|apply Hother, Hne].
      apply Hs. destruct Hcase as [Hout|Hlen]; [left|right; exact Hlen].
      intros Hin'. apply Hout, elem_of_app. left. exact Hin'.
Qed.

Lemma rasterizeObjects_frame s2 u :
  rasterizeObjects epsilon s2 = Some u -> rasterFrame s2 u.
Proof.
  unfold rasterizeObjects.
  apply (loopM_ind (fun _ t => rasterFrame s2 t)); [apply rasterFrame_refl|].
  intros k t t' _ Hfr Hstep.
  destruct (loopM _ _ t) as [v|] eqn:Hv; [|discriminate]. injection Hstep as <-.
  pose proof (rasterizeParticles_scatter epsilon k _ t v Hv) as (Hfr1 & _).
  destruct (computeDomainCornerVelocity_spec epsilon k v) as (Hnf & _).
  eapply rasterFrame_trans; [exact Hfr|]. eapply rasterFrame_trans; [exact Hfr1|].
  apply normalizeFrame_rasterFrame, Hnf.
Qed.

Lemma classified_base crit s :
  base (updateParticleDomainEnrichState crit
          (resetParticleDomainData (map_base resetGridData s)))
  = resetGridData (base s).
Proof.
  destruct (reset_spec (map_base resetGridData s)) as ((Hb & _) & _).
  destruct (enrich_spec crit (resetParticleDomainData (map_base resetGridData s)))
    as ((Hb' & _) & _).
  rewrite Hb', Hb. reflexivity.
Qed.

Lemma activeObjects_ext b b' n :
  objectNum b' = objectNum b -> (forall o, gridMass b' o n = gridMass b o n) ->
  activeObjects epsilon b' n = activeObjects epsilon b n.
Proof.
  intros Hn Hm. unfold activeObjects. rewrite Hn.
  induction (seq 0 (objectNum b)) as [|o l IH]; [reflexivity|].
  rewrite !filter_cons, Hm, IH. reflexivity.
Qed.

(** The grid of the state that [rasterizeBeforeMerge] returns, in terms of
    the grid [b] that the scatter of lines 102-163 leaves. *)
Lemma rasterizeBeforeMerge_spec crit s t (amap : gmap nat nat) :
  rasterizeBeforeMerge epsilon crit s = Some (t, amap) ->
  exists u b1,
    rasterizeObjects epsilon
      (updateParticleDomainEnrichState crit
         (resetParticleDomainData (map_base resetGridData s))) = Some u /\
    t = map_base (fun _ => base t) u /\
    map_active_grid_node (fun _ => []) b1 = base u /\
    active_grid_node_ b1 = activeList epsilon (base u) /\
    gridDivided (activeList epsilon (base u)) b1 (base t) /\
    (forall n, amap !! n =
               if decide ((n < length (grid_mass_ (base u)))%nat /\
                          activeObjects epsilon (base u) n <> [])
               then Some n else None).
Proof.
  unfold rasterizeBeforeMerge. intros H.
  set (s2 := updateParticleDomainEnrichState crit _) in *.
  destruct (rasterizeObjects epsilon s2) as [u|] eqn:Hu; [|discriminate].
  injection H as <- <-.
  pose proof (rasterizeObjects_frame s2 u Hu) as (Her & _).
  assert (Hempty : active_grid_node_ (base u) = []).
  { assert (H1 := f_equal active_grid_node_ Her). simpl in H1. rewrite H1.
    unfold s2. rewrite classified_base. reflexivity. }
  destruct (determineActiveGridNodes_spec (base u) Hempty) as (Hb1 & Hl1 & Hm1).
  set (st1 := determineActiveGridNodes epsilon (base u)) in *.
  destruct (computeGridVelocity_spec st1) as (H2 & Hdiv).
  { rewrite Hl1. apply NoDup_activeList. }
  { intros e He. rewrite Hl1 in He. apply elem_of_activeList in He. destruct He as [Hlt Hin].
    rewrite Hm1, decide_True; [reflexivity|]. split; [exact Hlt|].
    intros Hnil. rewrite Hnil in Hin. inversion Hin. }
  exists u, st1.1. split; [reflexivity|]. split; [reflexivity|]. split; [exact Hb1|].
  split; [exact Hl1|]. split; [rewrite <- Hl1; exact Hdiv|].
  intros n. rewrite H2. apply Hm1.
Qed.

End GridPasses.

(** ** Rasterization: the merge without a contact method, and the masses *)

Section MergeClaims.
Context {Dim : nat}.
Variable epsilon : Scalar.
Implicit Types b : CPDIMPMSolid Dim.
Implicit Types s t : InvertibleMPMSolid Dim.

Lemma resetGridData_lengths b :
  length (grid_mass_ (resetGridData b)) = length (grid_mass_ b) /\
  length (grid_velocity_ (resetGridData b)) = length (grid_velocity_ b) /\
  length (grid_velocity_before_ (resetGridData b)) = length (grid_velocity_before_ b).
Proof.
  unfold resetGridData. simpl. rewrite length_fmap, !length_imap. repeat split.
Qed.

(** The grid that [rasterizeBeforeMerge] returns: sizes, the objects listed
    at a node, and the local map of active nodes. *)
Lemma beforeMerge_grid crit s t (amap : gmap nat nat) :
  gridSized (base s) ->
  rasterizeBeforeMerge epsilon crit s = Some (t, amap) ->
  contact_method_ (base t) = contact_method_ (base s) /\
  gridSized (base t) /\
  length (grid_mass_ (base t)) = length (grid_mass_ (base s)) /\
  objectNum (base t) = objectNum (base s) /\
  (forall n, occupying (base t) n =
             if decide (n < length (grid_mass_ (base s)))%nat
             then activeObjects epsilon (base t) n else []) /\
  (forall n, amap !! n = if decide (occupying (base t) n <> []) then Some n else None).
Proof.
  intros (Hs1 & Hs2 & Hs3) Hrun.
  destruct (rasterizeBeforeMerge_spec epsilon crit s t amap Hrun)
    as (u & b1 & Hu & _ & Hb1 & Hl1 & Hdiv & Hamap).
  pose proof (rasterizeObjects_frame epsilon _ u Hu) as (Her & Hlm & Hlv & _).
  rewrite classified_base in Her, Hlm, Hlv.
  destruct (resetGridData_lengths (base s)) as (Hr1 & Hr2 & Hr3).
  destruct Hdiv as (He & Hd1 & Hd2 & Hd3 & HM & _).
  assert (Hmass1 : grid_mass_ b1 = grid_mass_ (base u))
    by (rewrite <- Hb1; reflexivity).
  assert (Hvel1 : grid_velocity_ b1 = grid_velocity_ (base u))
    by (rewrite <- Hb1; reflexivity).
  assert (Hbef1 : grid_velocity_before_ b1 = grid_velocity_before_ (base u))
    by (rewrite <- Hb1; reflexivity).
  assert (Hlen : length (grid_mass_ (base t)) = length (grid_mass_ (base s))).
  { rewrite Hd1, Hmass1, Hlm. exact Hr1. }
  assert (Hobj : objectNum (base t) = objectNum (base u)).
  { unfold objectNum. assert (H1 := f_equal particles_ He). simpl in H1. rewrite H1.
    rewrite <- Hb1. reflexivity. }
  assert (Hobj' : objectNum (base u) = objectNum (base s)).
  { unfold objectNum. assert (H1 := f_equal particles_ Her). simpl in H1. rewrite H1.
    reflexivity. }
  assert (Hact : forall n, activeObjects epsilon (base t) n = activeObjects epsilon (base u) n).
  { intros n. apply activeObjects_ext; [exact Hobj|]. intros o. rewrite HM.
    unfold gridMass. rewrite Hmass1. reflexivity. }
  assert (Hocc : forall n, occupying (base t) n =
                           if decide (n < length (grid_mass_ (base s)))%nat
                           then activeObjects epsilon (base t) n else []).
  { intros n. rewrite (occupying_activeList epsilon (base u) (base t) n).
    - rewrite Hlm, Hr1, Hact. reflexivity.
    - assert (H1 := f_equal active_grid_node_ He). simpl in H1. rewrite H1. exact Hl1. }
  split.
  { assert (H1 := f_equal contact_method_ He). simpl in H1. rewrite H1.
    transitivity (contact_method_ (base u)); [rewrite <- Hb1; reflexivity|].
    assert (H2 := f_equal contact_method_ Her). simpl in H2. exact H2. }
  split.
  { split; [|split].
    - rewrite Hd2, Hvel1, Hlv, Hr2, Hlen. exact Hs1.
    - rewrite Hd3, Hbef1, Hlen.
      assert (H2 := f_equal grid_velocity_before_ Her). simpl in H2. rewrite H2.
      rewrite length_imap. exact Hs2.
    - assert (H1 := f_equal is_dirichlet_grid_node_ He). simpl in H1. rewrite H1.
      replace (is_dirichlet_grid_node_ b1) with (is_dirichlet_grid_node_ (base u))
        by (rewrite <- Hb1; reflexivity).
      assert (H2 := f_equal is_dirichlet_grid_node_ Her). simpl in H2. rewrite H2, Hlen.
      exact Hs3. }
  split; [exact Hlen|]. split; [rewrite Hobj; exact Hobj'|]. split; [exact Hocc|].
  intros n. rewrite Hamap, Hocc, Hlm, Hr1, <- Hact.
  destruct (decide (n < length (grid_mass_ (base s)))%nat) as [Hlt|Hge].
  - destruct (decide (activeObjects epsilon (base t) n <> [])) as [Hne|He'].
    + rewrite decide_True by auto. reflexivity.
    + rewrite decide_False; [reflexivity|]. intros [_ ?]. contradiction.
  - rewrite decide_False by (intros [? _]; contradiction).
    rewrite decide_False; [reflexivity|]. intros H. apply H. reflexivity.
Qed.

(** X14: For every enrichment criterion, with no contact method,
    [rasterize] returns the state of lines 102-188 with the merge of lines
    189-231 applied to its grid.  The objects listed at a node are those
    whose mass there exceeds epsilon.  At a node listing two or more objects
    every object that has a mass entry holds the summed mass of the listed
    objects, and every object that has a velocity entry holds one velocity,
    also as its before-update velocity: the velocity entry of the
    lowest-indexed object that has a velocity entry and marks the node
    Dirichlet, whether that object is listed or not, and otherwise total
    momentum over total mass.  A node listing at most one object keeps its
    maps. *)
Theorem no_contact_merge_unifies (crit : nat -> nat -> bool) s t (amap : gmap nat nat) (n : nat) :
  contact_method_ (base s) = false ->
  gridSized (base s) ->
  rasterizeBeforeMerge epsilon crit s = Some (t, amap) ->
  exists sr,
    rasterize epsilon crit s = Some sr /\
    (forall o, o ∈ occupying (base t) n <->
               (o < objectNum (base s))%nat /\ (n < length (grid_mass_ (base s)))%nat /\
               epsilon < gridMass (base t) o n) /\
    ((2 <= length (occupying (base t) n))%nat -> unified (base t) (base sr) n) /\
    ((length (occupying (base t) n) < 2)%nat -> sameNode (base t) (base sr) n).
Proof.
  intros Hc Hsized Hrun.
  destruct (beforeMerge_grid crit s t amap Hsized Hrun)
    as (Hc' & Hsized' & Hlen & Hobj & Hocc & Hamap).
  exists (map_base (fun b => unifyMultiValuedNodes (b, amap)) t).
  split; [unfold rasterize; rewrite Hrun; reflexivity|].
  destruct (unifyMultiValuedNodes_spec (base t) amap) as (_ & _ & _ & _ & Hnodes).
  { rewrite Hc'. exact Hc. }
  { exact Hsized'. }
  { intros k Hk. rewrite Hamap in Hk |- *.
    destruct (decide (occupying (base t) k <> [])) as [Hne|He]; [|destruct Hk; discriminate].
    split; [reflexivity|]. rewrite Hocc in Hne.
    destruct (decide (k < length (grid_mass_ (base s)))%nat); [lia|].
    exfalso. apply Hne. reflexivity. }
  destruct (Hnodes n) as [Hu Hs]. split; [|split].
  - intros o. rewrite Hocc.
    destruct (decide (n < length (grid_mass_ (base s)))%nat) as [Hlt|Hge].
    + unfold activeObjects. rewrite list_elem_of_filter, elem_of_seq, Hobj.
      split; [intros [H1 H2]; repeat split; [lia|exact Hlt|exact H1]
             |intros (H1 & _ & H3); split; [exact H3|lia]].
    + split; [intros H; inversion H|intros (_ & H & _); contradiction].
  - intros Hlen2. apply Hu; [|simpl; lia]. rewrite Hamap.
    rewrite decide_True; [eauto|]. intros Hnil. rewrite Hnil in Hlen2. simpl in Hlen2. lia.
  - intros Hlen2. apply Hs.
    destruct (occupying (base t) n) as [|o1 [|o2 l]] eqn:Ho; simpl in *.
    + left. rewrite Hamap, Ho. rewrite decide_False; [reflexivity|].
      intros H. apply H. reflexivity.
    + right. reflexivity.
    + lia.
Qed.

Lemma rasterizeParticleToGrid_total (o p : nat) b :
  (forall i, (i < at2 0%nat (particle_grid_pair_num_ b) o p)%nat ->
     epsilon < gridWeight b o p i) ->
  exists b', rasterizeParticleToGrid epsilon o p b = Some b'.
Proof.
  intros Hw. unfold rasterizeParticleToGrid.
  destruct (loopM_total (fun _ u => eraseGrid u = eraseGrid b)
              (at2 0%nat (particle_grid_pair_num_ b) o p)
              (fun i b0 =>
                 let pair := at3 noPair (particle_grid_weight_and_gradient_ b0) o p i in
                 let weight := weight_value_ pair in
                 if decide (epsilon < weight) then
                   let b1 :=
                     map_grid_mass
                       (alter (fun m =>
                                 match m !! o with
                                 | Some old => <[o := old + weight * mass (particle b o p)]> m
                                 | None => <[o := weight * mass (particle b o p)]> m
                                 end) (node_idx_ pair)) b0 in
                   if isDirichletGridNode b1 (node_idx_ pair) o then Some b1
                   else
                     Some (map_grid_velocity
                             (alter (fun m =>
                                       match m !! o with
                                       | Some old =>
                                           <[o := vadd old
                                                    (vscale weight
                                                       (vscale (mass (particle b o p))
                                                          (velocity (particle b o p))))]> m
                                       | None =>
                                           <[o := vscale weight
                                                    (vscale (mass (particle b o p))
                                                       (velocity (particle b o p)))]> m
                                       end) (node_idx_ pair)) b1)
                 else None) b) as (b' & Hb' & _).
  - reflexivity.
  - intros i u Hi Her. cbn zeta.
    destruct (eraseGrid_pairs b u o p i Her) as (Hpair & _). rewrite Hpair.
    fold (gridWeight b o p i). rewrite decide_True by (apply Hw, Hi).
    destruct (isDirichletGridNode _ _ o); eexists; (split; [reflexivity|exact Her]).
  - exists b'. exact Hb'.
Qed.

Lemma rasterizeObjects_total s2 :
  gridWeightsAsserted epsilon s2 -> exists u, rasterizeObjects epsilon s2 = Some u.
Proof.
  intros Hw. unfold rasterizeObjects.
  destruct (loopM_total (fun _ t => rasterFrame s2 t) (objectNum (base s2))
              (fun obj_idx s =>
                 match loopM (particleNumOfObject (base s) obj_idx)
                         (rasterizeParticle epsilon obj_idx) s with
                 | Some s => Some (computeDomainCornerVelocity epsilon obj_idx s)
                 | None => None
                 end) s2) as (u & Hu & _).
  - apply rasterFrame_refl.
  - intros k t Hk Hfr.
    destruct (loopM_total (fun _ v => rasterFrame s2 v) (particleNumOfObject (base t) k)
                (rasterizeParticle epsilon k) t) as (v & Hv & Hfr').
    + exact Hfr.
    + intros p v Hp Hfrv.
      assert (Hgrid : (enrichedCornerNum v k p < corner_num Dim)%nat ->
                      exists b', rasterizeParticleToGrid epsilon k p (base v) = Some b').
      { intros Hlt. apply rasterizeParticleToGrid_total. intros i Hi.
        rewrite (rasterFrame_gridWeight s2 v k p i Hfrv).
        rewrite (rasterFrame_pairNum s2 v k p Hfrv) in Hi.
        rewrite (rasterFrame_enrichedCornerNum s2 v k p Hfrv) in Hlt.
        rewrite (rasterFrame_particleNum s2 t k Hfr) in Hp.
        apply Hw; assumption. }
      assert (Hsome : exists v', rasterizeParticle epsilon k p v = Some v').
      { unfold rasterizeParticle.
        destruct (decide (enrichedCornerNum v k p < corner_num Dim)%nat) as [Hlt|_].
        - destruct (Hgrid Hlt) as [b' Hb']. rewrite Hb'. simpl.
          destruct (decide _); eauto.
        - destruct (decide _); eauto. }
      destruct Hsome as [v' Hv']. exists v'. split; [exact Hv'|].
      eapply rasterFrame_trans; [exact Hfrv|].
      apply (rasterizeParticle_scatter epsilon k p v v' Hv').
    + rewrite Hv. eexists. split; [reflexivity|].
      destruct (computeDomainCornerVelocity_spec epsilon k v) as (Hnf & _).
      eapply rasterFrame_trans; [exact Hfr'|]. apply normalizeFrame_rasterFrame, Hnf.
  - exists u. exact Hu.
Qed.

Lemma gridMassOf_resetGridData b obj : gridMassOf (resetGridData b) obj = 0.
Proof.
  unfold gridMassOf. apply sumTo_zero. intros n _.
  unfold gridMass, resetGridData. simpl. rewrite list_lookup_fmap.
  destruct (grid_mass_ b !! n); reflexivity.
Qed.

Lemma gridMassOf_ext b b' obj :
  length (grid_mass_ b') = length (grid_mass_ b) ->
  (forall n, gridMass b' obj n = gridMass b obj n) ->
  gridMassOf b' obj = gridMassOf b obj.
Proof.
  intros Hl Hm. unfold gridMassOf. rewrite Hl. apply sumTo_ext. intros n _. apply Hm.
Qed.

(** Under the partition of unity, with the grid targets of the influence
    lists in range and the corner arrays of the size of the mesh, the state
    of lines 102-188 holds for an object, on the grid nodes plus its domain
    corners, exactly the sum of its particle masses, for every enrichment
    criterion; [rasterize] returns when every grid weight passes its
    assertion.  The equality holds after the whole of [rasterize] when a
    contact method is configured or no node lists more than one object. *)
Lemma scatter_mass_conservation (crit : nat -> nat -> bool) s (obj : nat) :
  let s2 := updateParticleDomainEnrichState crit
              (resetParticleDomainData (map_base resetGridData s)) in
  (obj < objectNum (base s))%nat ->
  cornerArraysSized s obj ->
  (forall o, gridTargetsInRange s o) ->
  partitionOfUnity s2 obj ->
  (gridWeightsAsserted epsilon s2 -> exists sr, rasterize epsilon crit s = Some sr) /\
  (forall t amap, rasterizeBeforeMerge epsilon crit s = Some (t, amap) ->
     totalMass t obj = particleMassSum (base s) obj /\
     forall sr, rasterize epsilon crit s = Some sr ->
       contact_method_ (base s) = true \/
       (gridSized (base s) /\ forall n, (length (occupying (base t) n) <= 1)%nat) ->
       totalMass sr obj = particleMassSum (base s) obj).
Proof.
  intros s2 Hobj Hsized Hrange Hpou.
  pose proof (classified_base crit s) as Hbase. fold s2 in Hbase.
  split.
  { intros Hw. destruct (rasterizeObjects_total s2 Hw) as [u Hu].
    unfold rasterize, rasterizeBeforeMerge. fold s2. rewrite Hu. eauto. }
  intros t amap Hrun.
  destruct (rasterizeBeforeMerge_spec epsilon crit s t amap Hrun)
    as (u & b1 & Hu & Ht & Hb1 & _ & Hdiv & _). fold s2 in Hu.
  destruct (classified_pending crit s obj Hobj Hsized) as (Hn & Hmesh & Hsized2 & _).
  fold s2 in Hn, Hmesh, Hsized2.
  destruct Hsized2 as (Hz1 & Hz2 & _).
  assert (Hzero : totalMass s2 obj = 0).
  { unfold totalMass. rewrite Hbase, gridMassOf_resetGridData.
    unfold cornerMassOf. rewrite sumTo_zero; [ring|]. intros g Hg.
    destruct (reset_spec (map_base resetGridData s)) as (Hfr & _ & Hcl).
    destruct (enrich_spec crit (resetParticleDomainData (map_base resetGridData s)))
      as (_ & _ & Hm & _). fold s2 in Hm.
    rewrite Hz2, Hmesh in Hg.
    destruct (Hcl obj g Hobj Hg) as (_ & Hcm & _).
    unfold cornerMass in *. rewrite Hm. exact Hcm. }
  destruct (rasterizeObjects_mass epsilon obj s2 u) as (Hfr & Hsum); [| | | |exact Hu|].
  { intros o p i Hp Hi. rewrite Hbase in *. destruct (resetGridData_lengths (base s)) as (-> & _).
    apply (Hrange o p i); assumption. }
  { intros g Hg. rewrite Hz2, <- Hz1. unfold isEnriched, at2 in Hg.
    destruct (row (is_enriched_domain_corner_ s2) obj !! g) as [x|] eqn:Hx; [|discriminate].
    eapply lookup_lt_Some, Hx. }
  { exact Hpou. }
  { rewrite Hn. exact Hobj. }
  assert (Hpre : totalMass t obj = particleMassSum (base s) obj).
  { destruct Hdiv as (_ & Hd1 & _ & _ & HM & _).
    unfold totalMass.
    replace (cornerMassOf t obj) with (cornerMassOf u obj) by (rewrite Ht; reflexivity).
    rewrite (gridMassOf_ext (base u) (base t) obj).
    - fold (totalMass u obj). rewrite Hsum, Hzero, Hbase.
      change (particleMassSum (resetGridData (base s)) obj)
        with (particleMassSum (base s) obj). ring.
    - rewrite Hd1, <- Hb1. reflexivity.
    - intros n. rewrite HM. unfold gridMass. rewrite <- Hb1. reflexivity. }
  split; [exact Hpre|].
  intros sr Hsr Hcase. unfold rasterize in Hsr. rewrite Hrun in Hsr. injection Hsr as <-.
  rewrite <- Hpre. unfold totalMass. simpl.
  fold (cornerMassOf t obj). f_equal.
  destruct Hcase as [Hc|[Hgs Hocc]].
  - unfold unifyMultiValuedNodes. simpl.
    replace (contact_method_ (base t)) with true; [reflexivity|].
    destruct Hdiv as (He & _).
    assert (H1 := f_equal contact_method_ He). simpl in H1. rewrite H1.
    replace (contact_method_ b1) with (contact_method_ (base u)) by (rewrite <- Hb1; reflexivity).
    destruct Hfr as (Her & _).
    assert (H2 := f_equal contact_method_ Her). simpl in H2. rewrite H2, Hbase. simpl.
    symmetry. exact Hc.
  - destruct (contact_method_ (base s)) eqn:Hc.
    + unfold unifyMultiValuedNodes. simpl.
      replace (contact_method_ (base t)) with true; [reflexivity|].
      destruct (beforeMerge_grid crit s t amap Hgs Hrun) as (Hc' & _). rewrite Hc', Hc.
      reflexivity.
    + destruct (beforeMerge_grid crit s t amap Hgs Hrun)
        as (Hc' & Hsized' & Hlen & _ & Hocc' & Hamap).
      destruct (unifyMultiValuedNodes_spec (base t) amap) as (_ & Hl & _ & _ & Hnodes).
      { rewrite Hc'. exact Hc. }
      { exact Hsized'. }
      { intros k Hk. rewrite Hamap in Hk |- *.
        destruct (decide (occupying (base t) k <> [])) as [Hne|He];
          [|destruct Hk; discriminate].
        split; [reflexivity|]. rewrite Hocc' in Hne.
        destruct (decide (k < length (grid_mass_ (base s)))%nat); [lia|].
        exfalso. apply Hne. reflexivity. }
      apply gridMassOf_ext; [exact Hl|]. intros n.
      apply (sameNode_values (base t) _ n obj). apply (Hnodes n).
      specialize (Hocc n).
      destruct (occupying (base t) n) as [|o1 [|o2 l]] eqn:Ho; simpl in *.
      * left. rewrite Hamap, Ho. rewrite decide_False; [reflexivity|].
        intros H. apply H. reflexivity.
      * right. reflexivity.
      * lia.
Qed.

End MergeClaims.

(** The three-object example: side conditions. *)
Lemma three_object_contact : contact_method_ (base three_object_state) = false.
Proof. reflexivity. Qed.

Lemma three_object_gridSized : gridSized (base three_object_state).
Proof. repeat split. Qed.

Lemma three_object_returns :
  exists st, rasterizeBeforeMerge eps_float neverEnrich three_object_state = Some st.
Proof.
  destruct (rasterizeBeforeMerge eps_float neverEnrich three_object_state) as [st|] eqn:H;
    [eauto|]. exfalso. revert H. vm_compute. discriminate.
Qed.

Lemma three_object_shared_node t (amap : gmap nat nat) :
  rasterizeBeforeMerge eps_float neverEnrich three_object_state = Some (t, amap) ->
  (2 <= length (occupying (base t) 0))%nat.
Proof.
  intros Hr.
  assert (H : option_map (fun st : InvertibleMPMSolid 2 * gmap nat nat =>
                            length (occupying (base st.1) 0))
                (rasterizeBeforeMerge eps_float neverEnrich three_object_state)
              = Some 2%nat) by (vm_compute; reflexivity).
  rewrite Hr in H. simpl in H. injection H as ->. lia.
Qed.

(** On [three_object_state] with a criterion that enriches nothing, node 0
    lists the objects 1 and 2 and is unified. *)
Lemma no_contact_merge_unifies_witness :
  exists t amap sr,
    rasterizeBeforeMerge eps_float neverEnrich three_object_state = Some (t, amap) /\
    rasterize eps_float neverEnrich three_object_state = Some sr /\
    unified (base t) (base sr) 0.
Proof.
  destruct three_object_returns as [[t amap] Hr].
  destruct (no_contact_merge_unifies eps_float neverEnrich three_object_state t amap 0
              three_object_contact three_object_gridSized Hr) as (sr & Hsr & _ & Hu & _).
  exists t, amap, sr. split; [exact Hr|]. split; [exact Hsr|].
  exact (Hu (three_object_shared_node t amap Hr)).
Defined.

(** * Further properties of the solver *)

(** ** The table of active grid nodes and the grid velocities *)

Section ActiveNodes.
Context {Dim : nat}.
Variable epsilon : Scalar.
Implicit Types b : CPDIMPMSolid Dim.
Implicit Types s t : InvertibleMPMSolid Dim.

Lemma activeList_ext b b' :
  objectNum b' = objectNum b -> length (grid_mass_ b') = length (grid_mass_ b) ->
  (forall o n, gridMass b' o n = gridMass b o n) ->
  activeList epsilon b' = activeList epsilon b.
Proof.
  intros Hn Hl Hm. unfold activeList. rewrite Hl.
  induction (seq 0 (length (grid_mass_ b))) as [|n l IH]; [reflexivity|].
  simpl. rewrite IH, (activeObjects_ext epsilon b b' n Hn); [reflexivity|].
  intros o. apply Hm.
Qed.

(** X1: Lines 165-179, as [rasterize] runs them: before the merge the table
    [active_grid_node_] is the list of the pairs (node, object) whose mass
    exceeds epsilon, node by node and object by object in increasing order,
    each pair once, and the local map of active nodes has exactly the nodes
    of the table. *)
Theorem active_grid_nodes_listed (crit : nat -> nat -> bool) s t (amap : gmap nat nat)
  (n o : nat) :
  rasterizeBeforeMerge epsilon crit s = Some (t, amap) ->
  active_grid_node_ (base t) = activeList epsilon (base t) /\
  NoDup (active_grid_node_ (base t)) /\
  ((n, o) ∈ active_grid_node_ (base t) <->
   (n < length (grid_mass_ (base t)))%nat /\ (o < objectNum (base t))%nat /\
   epsilon < gridMass (base t) o n) /\
  (is_Some (amap !! n) <-> exists o', (n, o') ∈ active_grid_node_ (base t)).
Proof.
  intros Hrun.
  destruct (rasterizeBeforeMerge_spec epsilon crit s t amap Hrun)
    as (u & b1 & Hu & _ & Hb1 & Hl1 & Hdiv & Hamap).
  destruct Hdiv as (He & Hd1 & _ & _ & HM & _).
  assert (Hmass1 : grid_mass_ b1 = grid_mass_ (base u)) by (rewrite <- Hb1; reflexivity).
  assert (Hobj : objectNum (base t) = objectNum (base u)).
  { unfold objectNum. assert (H1 := f_equal particles_ He). simpl in H1. rewrite H1.
    rewrite <- Hb1. reflexivity. }
  assert (Hlen : length (grid_mass_ (base t)) = length (grid_mass_ (base u)))
    by (rewrite Hd1, Hmass1; reflexivity).
  assert (Hgm : forall o n, gridMass (base t) o n = gridMass (base u) o n).
  { intros o' n'. rewrite HM. unfold gridMass. rewrite Hmass1. reflexivity. }
  assert (Hlist : active_grid_node_ (base t) = activeList epsilon (base t)).
  { rewrite (activeList_ext (base u) (base t) Hobj Hlen Hgm).
    assert (H1 := f_equal active_grid_node_ He). simpl in H1. rewrite H1. exact Hl1. }
  split; [exact Hlist|]. split; [rewrite Hlist; apply NoDup_activeList|]. split.
  - rewrite Hlist, elem_of_activeList. simpl. unfold activeObjects.
    rewrite list_elem_of_filter, elem_of_seq. split.
    + intros (H1 & H2 & H3). repeat split; [exact H1|lia|exact H2].
    + intros (H1 & H2 & H3). repeat split; [exact H1|exact H3|lia|lia].
  - rewrite Hamap. rewrite <- Hlen.
    rewrite <- (activeObjects_ext epsilon (base u) (base t) n Hobj (fun o' => Hgm o' n)).
    split.
    + intros Hsome.
      destruct (decide ((n < length (grid_mass_ (base t)))%nat /\
                        activeObjects epsilon (base t) n <> [])) as [[Hlt Hne]|Hno];
        [|destruct Hsome; discriminate].
      destruct (activeObjects epsilon (base t) n) as [|o' l] eqn:Hact; [contradiction|].
      exists o'. rewrite Hlist. apply elem_of_activeList. simpl. split; [exact Hlt|].
      rewrite Hact. left.
    + intros [o' Ho']. rewrite Hlist in Ho'. apply elem_of_activeList in Ho'. simpl in Ho'.
      destruct Ho' as [Hlt Hin]. rewrite decide_True; [eauto|]. split; [exact Hlt|].
      intros Hnil. rewrite Hnil in Hin. inversion Hin.
Qed.

(** X2: Lines 181-188, as [rasterize] runs them: [u] is the solver after the
    scatter of lines 102-163.  At a listed pair the velocity of a
    non-Dirichlet node is the scattered momentum divided by the mass, that
    of a Dirichlet node is kept, and the before-update velocity is the
    velocity; elsewhere both are left as the scatter gave them.  The masses
    are those of the scatter. *)
Theorem grid_velocity_normalisation (crit : nat -> nat -> bool) s t (amap : gmap nat nat) :
  gridSized (base s) ->
  rasterizeBeforeMerge epsilon crit s = Some (t, amap) ->
  exists u,
    rasterizeObjects epsilon
      (updateParticleDomainEnrichState crit
         (resetParticleDomainData (map_base resetGridData s))) = Some u /\
    forall o n,
      gridMass (base t) o n = gridMass (base u) o n /\
      ((n, o) ∈ active_grid_node_ (base t) ->
         (isDirichletGridNode (base u) n o = false ->
            gridVelocity (base t) o n = vdiv (gridVelocity (base u) o n) (gridMass (base u) o n)) /\
         (isDirichletGridNode (base u) n o = true ->
            gridVelocity (base t) o n = gridVelocity (base u) o n) /\
         gridVelocityBefore (base t) o n = gridVelocity (base t) o n) /\
      ((n, o) ∉ active_grid_node_ (base t) ->
         gridVelocity (base t) o n = gridVelocity (base u) o n /\
         gridVelocityBefore (base t) o n = gridVelocityBefore (base u) o n).
Proof.
  intros (Hs1 & Hs2 & Hs3) Hrun.
  destruct (rasterizeBeforeMerge_spec epsilon crit s t amap Hrun)
    as (u & b1 & Hu & _ & Hb1 & Hl1 & Hdiv & Hamap).
  exists u. split; [exact Hu|]. intros o n.
  pose proof (rasterizeObjects_frame epsilon _ u Hu) as (Her & Hlm & Hlv & _).
  rewrite classified_base in Her, Hlm, Hlv.
  destruct (resetGridData_lengths (base s)) as (Hr1 & Hr2 & Hr3).
  destruct Hdiv as (He & Hd1 & Hd2 & Hd3 & HM & HVin & HVout & HBin & HBout).
  assert (Hact : active_grid_node_ (base t) = activeList epsilon (base u)).
  { assert (H1 := f_equal active_grid_node_ He). simpl in H1. rewrite H1. exact Hl1. }
  assert (Hgm : forall o n, gridMass b1 o n = gridMass (base u) o n)
    by (intros; rewrite <- Hb1; reflexivity).
  assert (Hgv : forall o n, gridVelocity b1 o n = gridVelocity (base u) o n)
    by (intros; rewrite <- Hb1; reflexivity).
  assert (Hgb : forall o n, gridVelocityBefore b1 o n = gridVelocityBefore (base u) o n)
    by (intros; rewrite <- Hb1; reflexivity).
  assert (Hgd : forall n o, isDirichletGridNode b1 n o = isDirichletGridNode (base u) n o)
    by (intros; rewrite <- Hb1; reflexivity).
  assert (Hlen1 : length (grid_velocity_ b1) = length (grid_mass_ (base s))).
  { replace (grid_velocity_ b1) with (grid_velocity_ (base u)) by (rewrite <- Hb1; reflexivity).
    rewrite Hlv, Hr2. exact Hs1. }
  assert (Hlen2 : length (grid_velocity_before_ b1) = length (grid_mass_ (base s))).
  { replace (grid_velocity_before_ b1) with (grid_velocity_before_ (base u))
      by (rewrite <- Hb1; reflexivity).
    assert (H2 := f_equal grid_velocity_before_ Her). simpl in H2. rewrite H2.
    rewrite length_imap. exact Hs2. }
  assert (Hlenm : length (grid_mass_ (base u)) = length (grid_mass_ (base s)))
    by (rewrite Hlm; exact Hr1).
  split; [rewrite HM; apply Hgm|]. split.
  - intros Hin. rewrite Hact in Hin.
    pose proof Hin as Hin'. apply elem_of_activeList in Hin'. simpl in Hin'.
    destruct Hin' as [Hlt _]. rewrite Hlenm in Hlt.
    split; [|split].
    + intros Hd. rewrite (HVin o n Hin); [|lia|rewrite Hgd; exact Hd].
      rewrite Hgv, Hgm. reflexivity.
    + intros Hd. rewrite (HVout o n); [apply Hgv|]. right. right. rewrite Hgd. exact Hd.
    + apply (HBin o n Hin). lia.
  - intros Hout. rewrite Hact in Hout. split.
    + rewrite (HVout o n); [apply Hgv|]. left. exact Hout.
    + rewrite (HBout o n); [apply Hgb|]. left. exact Hout.
Qed.

End ActiveNodes.

(** ** When [rasterize] returns *)

Section RasterizeReturns.
Context {Dim : nat}.
Variable epsilon : Scalar.
Implicit Types b : CPDIMPMSolid Dim.
Implicit Types s t : InvertibleMPMSolid Dim.

Lemma rasterizeParticleToGrid_asserted (o p : nat) b b' :
  rasterizeParticleToGrid epsilon o p b = Some b' ->
  forall i, (i < at2 0%nat (particle_grid_pair_num_ b) o p)%nat ->
    epsilon < gridWeight b o p i.
Proof.
  unfold rasterizeParticleToGrid. intros Hrun.
  assert (Hinv : eraseGrid b' = eraseGrid b /\
                 forall i, (i < at2 0%nat (particle_grid_pair_num_ b) o p)%nat ->
                   epsilon < gridWeight b o p i).
  { revert Hrun.
    apply (loopM_ind (fun k u => eraseGrid u = eraseGrid b /\
                        forall i, (i < k)%nat -> epsilon < gridWeight b o p i)).
    { split; [reflexivity|]. intros i Hi. lia. }
    intros k u u' Hk (Her & Hdone) Hstep.
    destruct (eraseGrid_pairs b u o p k Her) as (Hpair & _). rewrite Hpair in Hstep.
    fold (gridWeight b o p k) in Hstep.
    destruct (decide (epsilon < gridWeight b o p k)) as [Hw|]; [|discriminate].
    split.
    - destruct (isDirichletGridNode _ _ o); injection Hstep as <-; exact Her.
    - intros i Hi. destruct (decide (i = k)) as [->|]; [exact Hw|apply Hdone; lia]. }
  apply Hinv.
Qed.

Lemma rasterizeObjects_asserted s2 u :
  rasterizeObjects epsilon s2 = Some u -> gridWeightsAsserted epsilon s2.
Proof.
  unfold rasterizeObjects. intros Hrun.
  assert (Hinv : rasterFrame s2 u /\
                 forall obj p i, (obj < objectNum (base s2))%nat ->
                   (p < particleNumOfObject (base s2) obj)%nat ->
                   (enrichedCornerNum s2 obj p < corner_num Dim)%nat ->
                   (i < at2 0%nat (particle_grid_pair_num_ (base s2)) obj p)%nat ->
                   epsilon < gridWeight (base s2) obj p i).
  { revert Hrun.
    apply (loopM_ind (fun k t =>
             rasterFrame s2 t /\
             forall obj p i, (obj < k)%nat ->
               (p < particleNumOfObject (base s2) obj)%nat ->
               (enrichedCornerNum s2 obj p < corner_num Dim)%nat ->
               (i < at2 0%nat (particle_grid_pair_num_ (base s2)) obj p)%nat ->
               epsilon < gridWeight (base s2) obj p i)).
    { split; [apply rasterFrame_refl|]. intros; lia. }
    intros k t t' Hk (Hfr & Hdone) Hstep.
    destruct (loopM _ _ t) as [v|] eqn:Hv; [|discriminate]. injection Hstep as <-.
    rewrite (rasterFrame_particleNum s2 t k Hfr) in Hv.
    assert (Hinner : rasterFrame s2 v /\
                     forall p i, (p < particleNumOfObject (base s2) k)%nat ->
                       (enrichedCornerNum s2 k p < corner_num Dim)%nat ->
                       (i < at2 0%nat (particle_grid_pair_num_ (base s2)) k p)%nat ->
                       epsilon < gridWeight (base s2) k p i).
    { revert Hv.
      apply (loopM_ind (fun q w =>
               rasterFrame s2 w /\
               forall p i, (p < q)%nat ->
                 (enrichedCornerNum s2 k p < corner_num Dim)%nat ->
                 (i < at2 0%nat (particle_grid_pair_num_ (base s2)) k p)%nat ->
                 epsilon < gridWeight (base s2) k p i)).
      { split; [exact Hfr|]. intros; lia. }
      intros q w w' Hq (Hfrw & Hdonew) Hstepw.
      split.
      { eapply rasterFrame_trans; [exact Hfrw|].
        apply (rasterizeParticle_scatter epsilon k q w w' Hstepw). }
      intros p i Hp Hen Hi. destruct (decide (p = q)) as [->|]; [|apply Hdonew; [lia|assumption..]].
      unfold rasterizeParticle in Hstepw.
      rewrite (rasterFrame_enrichedCornerNum s2 w k q Hfrw) in Hstepw.
      rewrite decide_True in Hstepw by exact Hen.
      destruct (rasterizeParticleToGrid epsilon k q (base w)) as [b'|] eqn:Hb'; [|discriminate].
      rewrite <- (rasterFrame_gridWeight s2 w k q i Hfrw).
      apply (rasterizeParticleToGrid_asserted k q (base w) b' Hb').
      rewrite (rasterFrame_pairNum s2 w k q Hfrw). exact Hi. }
    destruct Hinner as [Hfrv Hk'].
    destruct (computeDomainCornerVelocity_spec epsilon k v) as (Hnf & _).
    split.
    { eapply rasterFrame_trans; [exact Hfrv|]. apply normalizeFrame_rasterFrame, Hnf. }
    intros obj p i Hobj. destruct (decide (obj = k)) as [->|]; [apply Hk'|apply Hdone; lia]. }
  intros obj p i. apply Hinv.
Qed.

(** X3: On a state whose storage is in range (in particular every object
    has its domain mesh, so that the assertion of line 642 holds),
    [rasterize] returns, for every enrichment criterion, exactly when every
    grid weight that the scatter reads, that is every weight of the
    influence list of a particle that is not fully enriched, passes
    [PHYSIKA_ASSERT(weight > epsilon)] (line 126). *)
Theorem rasterize_returns_iff (crit : nat -> nat -> bool) s :
  storageInRange s ->
  ((exists sr, rasterize epsilon crit s = Some sr) <->
   gridWeightsAsserted epsilon
     (updateParticleDomainEnrichState crit
        (resetParticleDomainData (map_base resetGridData s)))).
Proof.
  intros _.
  set (s2 := updateParticleDomainEnrichState crit _).
  split.
  - intros [sr Hsr]. unfold rasterize, rasterizeBeforeMerge in Hsr. fold s2 in Hsr.
    destruct (rasterizeObjects epsilon s2) as [u|] eqn:Hu; [|discriminate].
    apply (rasterizeObjects_asserted s2 u Hu).
  - intros Hw. destruct (rasterizeObjects_total epsilon s2 Hw) as [u Hu].
    unfold rasterize, rasterizeBeforeMerge. fold s2. rewrite Hu. eauto.
Qed.

End RasterizeReturns.

(** ** What the particle phases write *)

Section ParticlePhases.
Context {Dim : nat}.
Variable epsilon : Scalar.
Implicit Types b : CPDIMPMSolid Dim.
Implicit Types s t : InvertibleMPMSolid Dim.

Lemma particle_alter (f : SolidParticle Dim -> SolidParticle Dim) (o q : nat) b (obj p : nat) :
  particle (map_particles (alter (alter f q) o) b) obj p =
  if decide (o = obj /\ q = p /\ (q < particleNumOfObject b o)%nat)
  then f (particle b o q) else particle b obj p.
Proof. unfold particle, particleNumOfObject. simpl. apply at2_alter. Qed.

Lemma constitutive_fields (dt : Scalar) s s' :
  updateParticleConstitutiveModelState dt s = Some s' ->
  forall obj p,
    mass (particle (base s') obj p) = mass (particle (base s) obj p) /\
    velocity (particle (base s') obj p) = velocity (particle (base s) obj p).
Proof.
  unfold updateParticleConstitutiveModelState.
  apply (loopM_ind (fun _ t => forall obj p,
           mass (particle (base t) obj p) = mass (particle (base s) obj p) /\
           velocity (particle (base t) obj p) = velocity (particle (base s) obj p))).
  { intros; repeat split. }
  intros o t t' _ Hinv.
  apply (loopM_ind (fun _ u => forall obj p,
           mass (particle (base u) obj p) = mass (particle (base s) obj p) /\
           velocity (particle (base u) obj p) = velocity (particle (base s) obj p)));
    [exact Hinv|].
  intros q u u' _ Hu Hstep obj p. unfold updateParticleConstitutiveModel in Hstep.
  destruct (decide _); [|discriminate]. injection Hstep as <-. simpl.
  rewrite particle_alter. destruct (decide _) as [(-> & -> & _)|_]; [|apply Hu].
  simpl. apply Hu.
Qed.

(** X4: Lines 299-302 of [updateParticleConstitutiveModelState]: the volume of
    every particle becomes the determinant of its new deformation gradient
    times its initial volume, so it is positive when the initial volume is;
    the update calls no setter of mass or velocity, which stay as they are,
    and everything in the solver but the particles is left as it is. *)
Theorem constitutive_update_volume (dt : Scalar) s s' (obj p : nat) :
  updateParticleConstitutiveModelState dt s = Some s' ->
  (obj < objectNum (base s))%nat -> (p < particleNumOfObject (base s) obj)%nat ->
  volume (particle (base s') obj p) =
    determinant Dim (deformationGradient (particle (base s') obj p))
    * at2 0 (particle_initial_volume_ (base s)) obj p /\
  (0 < at2 0 (particle_initial_volume_ (base s)) obj p -> 0 < volume (particle (base s') obj p)) /\
  mass (particle (base s') obj p) = mass (particle (base s) obj p) /\
  velocity (particle (base s') obj p) = velocity (particle (base s) obj p) /\
  erase_particles s' = erase_particles s.
Proof.
  intros Hrun Hobj Hp.
  destruct (update_sound dt s s' Hrun) as (Her & _ & _ & Hpart).
  destruct (Hpart obj p Hobj Hp) as [Hdone _].
  destruct Hdone as (HF & HV & Hdet); [unfold before; lia|].
  destruct (constitutive_fields dt s s' Hrun obj p) as (Hm & Hv).
  split; [rewrite HV, HF; reflexivity|].
  split; [intros Hpos; rewrite HV; apply Qcmult_pos_pos; assumption|].
  repeat split; assumption.
Qed.

Lemma particleNum_alter (f : SolidParticle Dim -> SolidParticle Dim) (o q : nat) b (obj : nat) :
  particleNumOfObject (map_particles (alter (alter f q) o) b) obj = particleNumOfObject b obj.
Proof. unfold particleNumOfObject. simpl. apply row_length_alter. Qed.

Lemma gridVelocityDelta_erase s t (o q : nat) (v : Vector Dim) :
  erase_particles t = erase_particles s ->
  gridVelocityDelta epsilon t o q v = gridVelocityDelta epsilon s o q v.
Proof.
  intros H. unfold gridVelocityDelta, gridMass.
  assert (H1 := f_equal (fun x => particle_grid_pair_num_ (base x)) H).
  assert (H2 := f_equal (fun x => particle_grid_weight_and_gradient_ (base x)) H).
  assert (H3 := f_equal (fun x => grid_mass_ (base x)) H).
  assert (H4 := f_equal (fun x => grid_velocity_ (base x)) H).
  assert (H5 := f_equal (fun x => grid_velocity_before_ (base x)) H).
  simpl in H1, H2, H3, H4, H5. rewrite H1, H2, H3, H4, H5. reflexivity.
Qed.

Lemma cornerVelocityDelta_erase s t (o q : nat) (v : Vector Dim) :
  erase_particles t = erase_particles s ->
  cornerVelocityDelta t o q v = cornerVelocityDelta s o q v.
Proof.
  intros H. unfold cornerVelocityDelta, mesh, isEnriched, cornerVelocity, cornerVelocityBefore.
  assert (H1 := f_equal particle_domain_mesh_ H).
  assert (H2 := f_equal is_enriched_domain_corner_ H).
  assert (H3 := f_equal particle_corner_weight_ H).
  assert (H4 := f_equal domain_corner_velocity_ H).
  assert (H5 := f_equal domain_corner_velocity_before_ H).
  simpl in H1, H2, H3, H4, H5. rewrite H1, H2, H3, H4, H5. reflexivity.
Qed.

Lemma erase_particles_enrichedCornerNum s t (o q : nat) :
  erase_particles t = erase_particles s -> enrichedCornerNum t o q = enrichedCornerNum s o q.
Proof.
  intros H. apply enrichedCornerNum_classification. unfold classification.
  assert (H1 := f_equal particle_domain_mesh_ H).
  assert (H2 := f_equal is_enriched_domain_corner_ H).
  simpl in H1, H2. rewrite H1, H2. reflexivity.
Qed.

Lemma erase_particles_dirichlet s t (o q : nat) :
  erase_particles t = erase_particles s ->
  at2 false (is_dirichlet_particle_ (base t)) o q = at2 false (is_dirichlet_particle_ (base s)) o q.
Proof.
  intros H. assert (H1 := f_equal (fun x => is_dirichlet_particle_ (base x)) H).
  simpl in H1. rewrite H1. reflexivity.
Qed.

(** The velocity that [updateParticleVelocity] gives a non-Dirichlet
    particle, from the state at the start of the update. *)
Lemma updateOneParticleVelocity_step (o q : nat) s t t' :
  erase_particles t = erase_particles s ->
  updateOneParticleVelocity epsilon o q t = Some t' ->
  erase_particles t' = erase_particles s /\
  (forall obj, particleNumOfObject (base t') obj = particleNumOfObject (base t) obj) /\
  objectNum (base t') = objectNum (base t) /\
  (forall obj p,
     mass (particle (base t') obj p) = mass (particle (base t) obj p) /\
     volume (particle (base t') obj p) = volume (particle (base t) obj p) /\
     deformationGradient (particle (base t') obj p)
       = deformationGradient (particle (base t) obj p) /\
     cauchyStress (particle (base t') obj p) = cauchyStress (particle (base t) obj p) /\
     ((obj, p) <> (o, q) \/ at2 false (is_dirichlet_particle_ (base s)) o q = true ->
      particle (base t') obj p = particle (base t) obj p)).
Proof.
  intros Her. unfold updateOneParticleVelocity.
  rewrite (erase_particles_dirichlet s t o q Her).
  destruct (at2 false (is_dirichlet_particle_ (base s)) o q) eqn:Hd.
  { intros [= <-]. split; [exact Her|]. repeat split. }
  intros Hstep.
  assert (Hshape : exists v, t' = map_base (map_particles (alter (alter (setVelocity v) q) o)) t).
  { destruct (decide (_ < corner_num Dim)%nat).
    - destruct (gridVelocityDelta _ _ _ _ _) as [v|]; [|discriminate].
      injection Hstep as <-. eexists. reflexivity.
    - injection Hstep as <-. eexists. reflexivity. }
  destruct Hshape as [v ->]. split; [rewrite <- Her; reflexivity|].
  split; [intros obj; apply particleNum_alter|].
  split; [unfold objectNum; simpl; apply length_alter|].
  intros obj p. simpl. rewrite particle_alter.
  match goal with |- context [decide ?P] => destruct (decide P) as [(<- & <- & _)|Hno] end.
  - repeat (split; [reflexivity|]). intros [Hne|Habs]; congruence.
  - repeat split.
Qed.

(** X5: [updateParticleVelocity] writes particle velocities only: everything in
    the solver but the particles is left as it is, every particle keeps its
    mass, volume, deformation gradient and stress, and a Dirichlet particle
    (line 325) keeps its velocity. *)
Theorem updateParticleVelocity_writes_velocities s s' (obj p : nat) :
  updateParticleVelocity epsilon s = Some s' ->
  erase_particles s' = erase_particles s /\
  objectNum (base s') = objectNum (base s) /\
  particleNumOfObject (base s') obj = particleNumOfObject (base s) obj /\
  mass (particle (base s') obj p) = mass (particle (base s) obj p) /\
  volume (particle (base s') obj p) = volume (particle (base s) obj p) /\
  deformationGradient (particle (base s') obj p)
    = deformationGradient (particle (base s) obj p) /\
  cauchyStress (particle (base s') obj p) = cauchyStress (particle (base s) obj p) /\
  (at2 false (is_dirichlet_particle_ (base s)) obj p = true ->
   particle (base s') obj p = particle (base s) obj p).
Proof.
  intros Hrun.
  pose (Inv := fun t : InvertibleMPMSolid Dim =>
    erase_particles t = erase_particles s /\
    objectNum (base t) = objectNum (base s) /\
    (forall obj, particleNumOfObject (base t) obj = particleNumOfObject (base s) obj) /\
    (forall obj p,
       mass (particle (base t) obj p) = mass (particle (base s) obj p) /\
       volume (particle (base t) obj p) = volume (particle (base s) obj p) /\
       deformationGradient (particle (base t) obj p)
         = deformationGradient (particle (base s) obj p) /\
       cauchyStress (particle (base t) obj p) = cauchyStress (particle (base s) obj p) /\
       (at2 false (is_dirichlet_particle_ (base s)) obj p = true ->
        particle (base t) obj p = particle (base s) obj p))).
  assert (Hfin : Inv s').
  { revert Hrun. unfold updateParticleVelocity.
    apply (loopM_ind (fun _ t => Inv t)); [unfold Inv; repeat split|].
    intros o t t' _ Ht. apply (loopM_ind (fun _ u => Inv u)); [exact Ht|].
    intros q u u' _ (Her & Hn & Hpn & Hf) Hstep.
    destruct (updateOneParticleVelocity_step o q s u u' Her Hstep) as (Her' & Hpn' & Hn' & Hf').
    split; [exact Her'|]. split; [rewrite Hn'; exact Hn|].
    split; [intros obj'; rewrite Hpn'; apply Hpn|].
    intros obj' p'. destruct (Hf obj' p') as (A1 & A2 & A3 & A4 & A5).
    destruct (Hf' obj' p') as (B1 & B2 & B3 & B4 & B5).
    split; [rewrite B1; exact A1|]. split; [rewrite B2; exact A2|].
    split; [rewrite B3; exact A3|]. split; [rewrite B4; exact A4|].
    intros Hd. rewrite B5; [apply A5, Hd|].
    destruct (decide (obj' = o /\ p' = q)) as [[-> ->]|Hne]; [right; exact Hd|left].
    intros [= -> ->]. apply Hne. auto. }
  destruct Hfin as (Her & Hn & Hpn & Hf). destruct (Hf obj p) as (A1 & A2 & A3 & A4 & A5).
  repeat split; try assumption. apply Hpn.
Qed.

Lemma gridVelocityDelta_returns s (o q : nat) (v : Vector Dim) :
  (exists v', gridVelocityDelta epsilon s o q v = Some v') <->
  (forall i, (i < at2 0%nat (particle_grid_pair_num_ (base s)) o q)%nat ->
     let node := node_idx_ (at3 noPair (particle_grid_weight_and_gradient_ (base s)) o q i) in
     epsilon < gridMass (base s) o node ->
     is_Some (nodeVelocity (base s) node !! o) /\
     is_Some (nodeVelocityBefore (base s) node !! o)).
Proof.
  unfold gridVelocityDelta. fold (nodeVelocity (base s)). fold (nodeVelocityBefore (base s)).
  split.
  - intros [v' Hrun]. revert Hrun.
    apply (loopM_ind (fun k _ =>
             forall i, (i < k)%nat ->
               let node := node_idx_ (at3 noPair (particle_grid_weight_and_gradient_ (base s))
                                        o q i) in
               epsilon < gridMass (base s) o node ->
               is_Some (nodeVelocity (base s) node !! o) /\
               is_Some (nodeVelocityBefore (base s) node !! o))).
    { intros i Hi. lia. }
    intros k w w' Hk Hdone Hstep i Hi node Hm.
    destruct (decide (i = k)) as [->|]; [|apply Hdone; [lia|exact Hm]].
    cbn zeta in Hstep. fold node in Hstep.
    destruct (decide (gridMass (base s) o node <= epsilon)) as [Hle|_].
    { exfalso. exact (Qcle_not_lt _ _ Hle Hm). }
    change (default ∅ (grid_velocity_ (base s) !! node)) with (nodeVelocity (base s) node)
      in Hstep.
    change (default ∅ (grid_velocity_before_ (base s) !! node))
      with (nodeVelocityBefore (base s) node) in Hstep.
    destruct (nodeVelocity (base s) node !! o); [|discriminate].
    destruct (nodeVelocityBefore (base s) node !! o); [|discriminate]. eauto.
  - intros Hcond.
    destruct (loopM_total (fun _ (_ : Vector Dim) => True)
                (at2 0%nat (particle_grid_pair_num_ (base s)) o q)
                (fun i new_vel =>
                   let pair := at3 noPair (particle_grid_weight_and_gradient_ (base s)) o q i in
                   let node_idx := node_idx_ pair in
                   if decide (gridMass (base s) o node_idx <= epsilon) then Some new_vel
                   else
                     let weight := weight_value_ pair in
                     match default ∅ (grid_velocity_ (base s) !! node_idx) !! o with
                     | Some cur_grid_vel =>
                         match default ∅ (grid_velocity_before_ (base s) !! node_idx) !! o with
                         | Some grid_vel_before =>
                             Some (vadd new_vel
                                     (vscale weight (vsub cur_grid_vel grid_vel_before)))
                         | None => None
                         end
                     | None => None
                     end) v) as (v' & Hv' & _); [exact I| |eauto].
    intros i w Hi _. cbn zeta.
    destruct (decide _) as [_|Hgt]; [eauto|].
    destruct (Hcond i Hi) as [[x Hx] [y Hy]].
    { apply Qcnot_le_lt, Hgt. }
    unfold nodeVelocity in Hx. unfold nodeVelocityBefore in Hy. rewrite Hx, Hy. eauto.
Qed.

Lemma updateOneParticleVelocity_returns s u (o q : nat) :
  erase_particles u = erase_particles s ->
  (exists u', updateOneParticleVelocity epsilon o q u = Some u') <->
  (at2 false (is_dirichlet_particle_ (base s)) o q = false ->
   (enrichedCornerNum s o q < corner_num Dim)%nat ->
   forall i, (i < at2 0%nat (particle_grid_pair_num_ (base s)) o q)%nat ->
     let node := node_idx_ (at3 noPair (particle_grid_weight_and_gradient_ (base s))
                              o q i) in
     epsilon < gridMass (base s) o node ->
     is_Some (nodeVelocity (base s) node !! o) /\
     is_Some (nodeVelocityBefore (base s) node !! o)).
Proof.
  intros Her. unfold updateOneParticleVelocity.
  rewrite (erase_particles_dirichlet s u o q Her),
    (erase_particles_enrichedCornerNum s u o q Her).
  destruct (at2 false (is_dirichlet_particle_ (base s)) o q).
  { split; [intros _ Habs; discriminate|eauto]. }
  destruct (decide (enrichedCornerNum s o q < corner_num Dim)%nat) as [Hlt|Hge].
  - rewrite (gridVelocityDelta_erase s u o q _ Her).
    rewrite <- (gridVelocityDelta_returns s o q (velocity (particle (base u) o q))).
    split.
    + intros [u' Hu'] _ _.
      destruct (gridVelocityDelta epsilon s o q _) as [v'|]; [eauto|discriminate].
    + intros Hc. destruct (Hc eq_refl Hlt) as [v' Hv']. rewrite Hv'. eauto.
  - split; [intros _ _ Habs; contradiction|eauto].
Qed.

Lemma velocityEntries_returns s :
  velocityEntriesPresent epsilon s -> exists s', updateParticleVelocity epsilon s = Some s'.
Proof.
  pose (Inv := fun t : InvertibleMPMSolid Dim =>
    erase_particles t = erase_particles s /\
    objectNum (base t) = objectNum (base s) /\
    (forall obj, particleNumOfObject (base t) obj = particleNumOfObject (base s) obj)).
  assert (Hstep : forall o q u u', Inv u -> updateOneParticleVelocity epsilon o q u = Some u' ->
                                   Inv u').
  { intros o q u u' (Her & Hn & Hpn) Hrun.
    destruct (updateOneParticleVelocity_step o q s u u' Her Hrun) as (Her' & Hpn' & Hn' & _).
    split; [exact Her'|]. split; [rewrite Hn'; exact Hn|].
    intros obj. rewrite Hpn'. apply Hpn. }
  assert (Hone : forall o q u, Inv u ->
            ((exists u', updateOneParticleVelocity epsilon o q u = Some u') <->
             (at2 false (is_dirichlet_particle_ (base s)) o q = false ->
              (enrichedCornerNum s o q < corner_num Dim)%nat ->
              forall i, (i < at2 0%nat (particle_grid_pair_num_ (base s)) o q)%nat ->
                let node := node_idx_ (at3 noPair (particle_grid_weight_and_gradient_ (base s))
                                         o q i) in
                epsilon < gridMass (base s) o node ->
                is_Some (nodeVelocity (base s) node !! o) /\
                is_Some (nodeVelocityBefore (base s) node !! o)))).
  { intros o q u (Her & _ & _). apply updateOneParticleVelocity_returns, Her. }
  intros Hall.
  destruct (loopM_total (fun _ t => Inv t) (objectNum (base s))
              (fun obj_idx t =>
                 loopM (particleNumOfObject (base t) obj_idx)
                   (updateOneParticleVelocity epsilon obj_idx) t) s)
    as (s' & Hs' & _); [unfold Inv; repeat split| |eauto].
  intros o t Ho Ht.
  assert (Hpn : particleNumOfObject (base t) o = particleNumOfObject (base s) o)
    by apply Ht.
  rewrite Hpn.
  destruct (loopM_total (fun _ u => Inv u) (particleNumOfObject (base s) o)
              (updateOneParticleVelocity epsilon o) t) as (t' & Ht' & Hinv');
    [exact Ht| |eauto].
  intros q u Hq Hu.
  destruct (proj2 (Hone o q u Hu)) as [u' Hu'].
  { intros Hd Hen i Hi. apply (Hall o q i); assumption. }
  exists u'. split; [exact Hu'|apply (Hstep o q u u' Hu Hu')].
Qed.

(** X6: On a state whose storage is in range, and in which the weight
    record that line 364 reads exists, [updateParticleVelocity] returns
    exactly when no [PHYSIKA_ERROR] of lines 349 and 353 is reached: every
    grid node of mass above epsilon in the influence list of a
    non-Dirichlet, not fully enriched particle has a velocity entry and a
    before-update velocity entry for the object. *)
Theorem updateParticleVelocity_returns_iff s :
  storageInRange s -> weightReadInRange s ->
  ((exists s', updateParticleVelocity epsilon s = Some s') <-> velocityEntriesPresent epsilon s).
Proof.
  intros _ _.
  pose (Inv := fun t : InvertibleMPMSolid Dim =>
    erase_particles t = erase_particles s /\
    objectNum (base t) = objectNum (base s) /\
    (forall obj, particleNumOfObject (base t) obj = particleNumOfObject (base s) obj)).
  assert (Hstep : forall o q u u', Inv u -> updateOneParticleVelocity epsilon o q u = Some u' ->
                                   Inv u').
  { intros o q u u' (Her & Hn & Hpn) Hrun.
    destruct (updateOneParticleVelocity_step o q s u u' Her Hrun) as (Her' & Hpn' & Hn' & _).
    split; [exact Her'|]. split; [rewrite Hn'; exact Hn|].
    intros obj. rewrite Hpn'. apply Hpn. }
  assert (Hone : forall o q u, Inv u ->
            ((exists u', updateOneParticleVelocity epsilon o q u = Some u') <->
             (at2 false (is_dirichlet_particle_ (base s)) o q = false ->
              (enrichedCornerNum s o q < corner_num Dim)%nat ->
              forall i, (i < at2 0%nat (particle_grid_pair_num_ (base s)) o q)%nat ->
                let node := node_idx_ (at3 noPair (particle_grid_weight_and_gradient_ (base s))
                                         o q i) in
                epsilon < gridMass (base s) o node ->
                is_Some (nodeVelocity (base s) node !! o) /\
                is_Some (nodeVelocityBefore (base s) node !! o)))).
  { intros o q u (Her & _ & _). apply updateOneParticleVelocity_returns, Her. }
  split.
  - intros [s' Hrun].
    assert (Hfin : Inv s' /\
              forall obj p i, (obj < objectNum (base s))%nat ->
                (p < particleNumOfObject (base s) obj)%nat ->
                at2 false (is_dirichlet_particle_ (base s)) obj p = false ->
                (enrichedCornerNum s obj p < corner_num Dim)%nat ->
                (i < at2 0%nat (particle_grid_pair_num_ (base s)) obj p)%nat ->
                let node := node_idx_ (at3 noPair (particle_grid_weight_and_gradient_ (base s))
                                         obj p i) in
                epsilon < gridMass (base s) obj node ->
                is_Some (nodeVelocity (base s) node !! obj) /\
                is_Some (nodeVelocityBefore (base s) node !! obj)).
    { revert Hrun. unfold updateParticleVelocity.
      apply (loopM_ind (fun k t =>
               Inv t /\
               forall obj p i, (obj < k)%nat ->
                 (p < particleNumOfObject (base s) obj)%nat ->
                 at2 false (is_dirichlet_particle_ (base s)) obj p = false ->
                 (enrichedCornerNum s obj p < corner_num Dim)%nat ->
                 (i < at2 0%nat (particle_grid_pair_num_ (base s)) obj p)%nat ->
                 let node := node_idx_ (at3 noPair
                                          (particle_grid_weight_and_gradient_ (base s))
                                          obj p i) in
                 epsilon < gridMass (base s) obj node ->
                 is_Some (nodeVelocity (base s) node !! obj) /\
                 is_Some (nodeVelocityBefore (base s) node !! obj))).
      { split; [unfold Inv; repeat split|]. intros; lia. }
      intros o t t' Ho (Ht & Hdone) Hinner.
      assert (Hpn : particleNumOfObject (base t) o = particleNumOfObject (base s) o)
        by apply Ht.
      rewrite Hpn in Hinner.
      assert (Hin : Inv t' /\
                forall p i, (p < particleNumOfObject (base s) o)%nat ->
                  at2 false (is_dirichlet_particle_ (base s)) o p = false ->
                  (enrichedCornerNum s o p < corner_num Dim)%nat ->
                  (i < at2 0%nat (particle_grid_pair_num_ (base s)) o p)%nat ->
                  let node := node_idx_ (at3 noPair
                                           (particle_grid_weight_and_gradient_ (base s))
                                           o p i) in
                  epsilon < gridMass (base s) o node ->
                  is_Some (nodeVelocity (base s) node !! o) /\
                  is_Some (nodeVelocityBefore (base s) node !! o)).
      { revert Hinner.
        apply (loopM_ind (fun q u =>
                 Inv u /\
                 forall p i, (p < q)%nat ->
                   at2 false (is_dirichlet_particle_ (base s)) o p = false ->
                   (enrichedCornerNum s o p < corner_num Dim)%nat ->
                   (i < at2 0%nat (particle_grid_pair_num_ (base s)) o p)%nat ->
                   let node := node_idx_ (at3 noPair
                                            (particle_grid_weight_and_gradient_ (base s))
                                            o p i) in
                   epsilon < gridMass (base s) o node ->
                   is_Some (nodeVelocity (base s) node !! o) /\
                   is_Some (nodeVelocityBefore (base s) node !! o))).
        { split; [exact Ht|]. intros; lia. }
        intros q u u' Hq (Hu & Hdoneq) Hrunq.
        split; [apply (Hstep o q u u' Hu Hrunq)|].
        intros p i Hp. destruct (decide (p = q)) as [->|]; [|apply Hdoneq; lia].
        intros Hd Hen Hi. apply (proj1 (Hone o q u Hu)); eauto. }
      destruct Hin as [Ht' Hk]. split; [exact Ht'|].
      intros obj p i Hobj. destruct (decide (obj = o)) as [->|]; [apply Hk|apply Hdone; lia]. }
    intros obj p i. apply Hfin.
  - apply velocityEntries_returns.
Qed.

End ParticlePhases.

(** ** The explicit solve *)

Section GridSolve.
Context {Dim : nat}.
Variable epsilon : Scalar.
Implicit Types b : CPDIMPMSolid Dim.
Implicit Types s t : InvertibleMPMSolid Dim.

Lemma dirichlet_set_nonempty b (n o : nat) :
  isDirichletGridNode b n o = true ->
  (0 < size (default (∅ : gset nat) (is_dirichlet_grid_node_ b !! n)))%nat.
Proof.
  unfold isDirichletGridNode. intros H. apply bool_decide_eq_true in H.
  destruct (size (default (∅ : gset nat) (is_dirichlet_grid_node_ b !! n))) eqn:Hs; [|lia].
  apply size_empty_inv in Hs. exfalso. rewrite Hs in H. set_solver.
Qed.

Lemma eraseGrid_dirichlet b b' (n o : nat) :
  eraseGrid b' = eraseGrid b -> isDirichletGridNode b' n o = isDirichletGridNode b n o.
Proof.
  intros H. unfold isDirichletGridNode.
  assert (H1 := f_equal is_dirichlet_grid_node_ H). simpl in H1. rewrite H1. reflexivity.
Qed.

Lemma gridSolveFrame_refl b : gridSolveFrame b b.
Proof. repeat split. Qed.

Lemma gridSolveFrame_trans b c d :
  gridSolveFrame b c -> gridSolveFrame c d -> gridSolveFrame b d.
Proof.
  intros (H1 & H2 & H3 & H4 & H5) (H1' & H2' & H3' & H4' & H5').
  split; [congruence|]. split; [congruence|]. split; [congruence|].
  split; [intros; rewrite H4', H4; reflexivity|].
  intros n o Hd.
  assert (Hd' : isDirichletGridNode c n o = true)
    by (rewrite (eraseGrid_dirichlet b c n o H1); exact Hd).
  assert (Hc : contact_method_ c = contact_method_ b).
  { assert (Hx := f_equal contact_method_ H1). simpl in Hx. exact Hx. }
  destruct (H5 n o Hd) as [A1 A2]. destruct (H5' n o Hd') as [B1 B2].
  split; [rewrite B1; exact A1|].
  intros Hcon o'. rewrite B2, A2; [reflexivity|exact Hcon|rewrite Hc; exact Hcon].
Qed.

Lemma solveParticleOnGrid_frame (dt : Scalar) (o q : nat) b :
  gridSolveFrame b (solveParticleOnGrid epsilon dt o q b).
Proof.
  unfold solveParticleOnGrid.
  apply (loop_ind (fun _ c => gridSolveFrame b c)); [apply gridSolveFrame_refl|].
  intros i c _ Hc. eapply gridSolveFrame_trans; [exact Hc|]. clear Hc.
  set (node := node_idx_ _).
  destruct (isDirichletGridNode c node o) eqn:Hdo; [apply gridSolveFrame_refl|].
  set (c1 := map_grid_mass (alter (touch 0 o) node) c).
  assert (H1 : gridSolveFrame c c1).
  { split; [reflexivity|]. split; [unfold c1; simpl; apply length_alter|].
    split; [reflexivity|]. split; [intros; apply gridMass_touch|].
    intros n o' _. split; [reflexivity|]. intros _ o''. reflexivity. }
  destruct (decide (gridMass c1 o node <= epsilon)) as [|Hgt]; [exact H1|].
  assert (Hvel : forall F,
            (forall m o', o' <> o -> F m !! o' = m !! o') ->
            contact_method_ c = true ->
            gridSolveFrame c (map_grid_velocity (alter F node) c1)).
  { intros F HF Hcon.
    split; [reflexivity|]. split; [unfold c1; simpl; apply length_alter|].
    split; [simpl; apply length_alter|].
    split; [intros; rewrite gridMass_velocity_frame; apply gridMass_touch|].
    intros n o' Hd. split; [|intros Hno; congruence].
    rewrite !gridVelocity_nodeVelocity, nodeVelocity_alter.
    change (nodeVelocity c1) with (nodeVelocity c).
    destruct (decide _) as [[<- _]|_]; [|reflexivity].
    rewrite HF; [reflexivity|]. intros ->. congruence. }
  destruct (contact_method_ c1) eqn:Hcon.
  - apply Hvel; [|exact Hcon]. intros m o' Hne. apply lookup_insert_ne. congruence.
  - destruct (decide (0 < size _)%nat) as [_|Hempty]; [exact H1|].
    split; [reflexivity|]. split; [unfold c1; simpl; apply length_alter|].
    split; [simpl; apply length_alter|].
    split; [intros; rewrite gridMass_velocity_frame; apply gridMass_touch|].
    intros n o' Hd.
    assert (Hne : node <> n).
    { intros ->. apply Hempty.
      apply (dirichlet_set_nonempty c1 n o'). exact Hd. }
    assert (Hsame : forall o'', gridVelocity (map_grid_velocity (alter
                       (fun m => foldl (fun m k =>
                                   if decide (epsilon < gridMass c1 k node)
                                   then <[k := vadd (default vzero (m !! k))
                                                  (internalForceDelta dt (particle b o q)
                                                     (gradient_value_
                                                        (at3 noPair
                                                           (particle_grid_weight_and_gradient_ c)
                                                           o q i))
                                                     (gridMass c1 o node))]> m
                                   else m) m (keys m)) node) c1) o'' n
                     = gridVelocity c o'' n).
    { intros o''. rewrite !gridVelocity_nodeVelocity, nodeVelocity_alter.
      rewrite decide_False by (intros [? _]; contradiction). reflexivity. }
    split; [apply Hsame|]. intros _ o''. apply Hsame.
Qed.

Lemma cornerSolveFrame_refl s : cornerSolveFrame s s.
Proof. repeat split. Qed.

Lemma cornerSolveFrame_isEnriched s t obj g :
  cornerSolveFrame s t -> isEnriched t obj g = isEnriched s obj g.
Proof.
  intros (H & _). unfold isEnriched.
  assert (H1 := f_equal is_enriched_domain_corner_ H). simpl in H1. rewrite H1. reflexivity.
Qed.

Lemma cornerSolveFrame_trans s t u :
  cornerSolveFrame s t -> cornerSolveFrame t u -> cornerSolveFrame s u.
Proof.
  intros (H1 & H2 & H3) (H1' & H2' & H3').
  split; [congruence|]. split; [intros; rewrite H2', H2; reflexivity|].
  intros obj g Hen. rewrite H3', H3; [reflexivity|exact Hen|].
  rewrite (cornerSolveFrame_isEnriched s t obj g); [exact Hen|]. repeat split; assumption.
Qed.

Lemma cornerVelocity_alter (f : Vector Dim -> Vector Dim) (o g : nat) s (obj g' : nat) :
  cornerVelocity (map_corner_velocity (alter (alter f g) o) s) obj g' =
  if decide (o = obj /\ g = g' /\ (g < length (row (domain_corner_velocity_ s) o))%nat)
  then f (cornerVelocity s o g) else cornerVelocity s obj g'.
Proof. unfold cornerVelocity. simpl. apply at2_alter. Qed.

Lemma alterCorner_frame (f : Vector Dim -> Vector Dim) (o g : nat) s :
  isEnriched s o g = true ->
  cornerSolveFrame s (map_corner_velocity (alter (alter f g) o) s).
Proof.
  intros Hen. split; [reflexivity|]. split; [intros; simpl; apply row_length_alter|].
  intros obj g' Hord. rewrite cornerVelocity_alter.
  destruct (decide _) as [(<- & <- & _)|_]; [congruence|reflexivity].
Qed.

Lemma solveParticleOnCorners_frame (dt : Scalar) (o q : nat) s :
  cornerSolveFrame s (solveParticleOnCorners epsilon dt o q s).
Proof.
  unfold solveParticleOnCorners.
  apply (loop_ind (fun _ t => cornerSolveFrame s t)); [apply cornerSolveFrame_refl|].
  intros c t _ Ht. eapply cornerSolveFrame_trans; [exact Ht|].
  destruct (isEnriched t o _) eqn:Hen; [|apply cornerSolveFrame_refl].
  destruct (decide _); [apply cornerSolveFrame_refl|].
  apply alterCorner_frame, Hen.
Qed.

Lemma tget_talter {A} (d : A) (f : A -> A) (n i j : nat) (v : Tup A n) :
  tget d n j (talter f n i v) =
  if decide (i = j /\ (j < n)%nat) then f (tget d n j v) else tget d n j v.
Proof.
  revert i j v. induction n as [|n IH]; intros i j v; cbn [tget talter].
  - rewrite decide_False by (intros [_ ?]; lia). reflexivity.
  - destruct i as [|i], j as [|j]; cbn [tget talter fst snd].
    + rewrite decide_True by (split; [reflexivity|lia]). reflexivity.
    + rewrite decide_False by (intros [? _]; discriminate). reflexivity.
    + rewrite decide_False by (intros [? _]; discriminate). reflexivity.
    + rewrite IH. destruct (decide (i = j /\ (j < n)%nat)) as [[-> Hlt]|Hno].
      * rewrite decide_True by (split; [reflexivity|lia]). reflexivity.
      * rewrite decide_False; [reflexivity|]. intros [[= ->] Hlt]. apply Hno. split; [reflexivity|lia].
Qed.

Lemma applyGravity_corner_values (dt : Scalar) s :
  let t := applyGravityOnEnrichedDomainCorner dt s in
  cornerSolveFrame s t /\
  forall obj g, cornerVelocity t obj g =
    if decide ((obj < objectNum (base s))%nat /\
               (g < length (row (domain_corner_velocity_ s) obj))%nat /\
               isEnriched s obj g = true)
    then talter (fun x => x + dt * (- (1)) * gravity_ (base s)) Dim 1 (cornerVelocity s obj g)
    else cornerVelocity s obj g.
Proof.
  unfold applyGravityOnEnrichedDomainCorner.
  set (G := talter (fun x => x + dt * (- (1)) * gravity_ (base s)) Dim 1).
  pose (Inv := fun (k : nat) (t : InvertibleMPMSolid Dim) =>
    cornerSolveFrame s t /\
    forall obj g, cornerVelocity t obj g =
      if decide ((obj < k)%nat /\ (g < length (row (domain_corner_velocity_ s) obj))%nat /\
                 isEnriched s obj g = true)
      then G (cornerVelocity s obj g) else cornerVelocity s obj g).
  assert (Hfin : Inv (objectNum (base s))
                   (loop (objectNum (base s))
                      (fun obj_idx s0 =>
                         loop (length (row (domain_corner_velocity_ s0) obj_idx))
                           (fun corner_idx s1 =>
                              if isEnriched s1 obj_idx corner_idx
                              then map_corner_velocity
                                     (alter (alter (talter
                                         (fun x => x + dt * (- (1)) * gravity_ (base s1))
                                         Dim 1) corner_idx) obj_idx) s1
                              else s1) s0) s)).
  { apply (loop_ind Inv); unfold Inv.
    { split; [apply cornerSolveFrame_refl|]. intros obj' g'.
      rewrite decide_False by (intros [? _]; lia). reflexivity. }
    intros k t Hk (Hfr & Hval).
    assert (Hlen : length (row (domain_corner_velocity_ t) k)
                   = length (row (domain_corner_velocity_ s) k)) by apply Hfr.
    rewrite Hlen.
    pose (Inv2 := fun (c : nat) (u : InvertibleMPMSolid Dim) =>
      cornerSolveFrame s u /\
      forall obj g, cornerVelocity u obj g =
        if decide (((obj < k)%nat \/ (obj = k /\ (g < c)%nat)) /\
                   (g < length (row (domain_corner_velocity_ s) obj))%nat /\
                   isEnriched s obj g = true)
        then G (cornerVelocity s obj g) else cornerVelocity s obj g).
    assert (Hin : Inv2 (length (row (domain_corner_velocity_ s) k))
                    (loop (length (row (domain_corner_velocity_ s) k))
                       (fun corner_idx s1 =>
                          if isEnriched s1 k corner_idx
                          then map_corner_velocity
                                 (alter (alter (talter
                                     (fun x => x + dt * (- (1)) * gravity_ (base s1))
                                     Dim 1) corner_idx) k) s1
                          else s1) t)).
    { apply (loop_ind Inv2); unfold Inv2.
      { split; [exact Hfr|]. intros obj' g'. rewrite Hval.
        destruct (decide ((obj' < k)%nat /\ _)) as [(H1 & H2 & H3)|Hno].
        - rewrite decide_True by (repeat split; auto). reflexivity.
        - rewrite decide_False; [reflexivity|]. intros ([H1|[_ H1]] & H2 & H3); [|lia].
          apply Hno. auto. }
      intros c u Hc (Hfru & Hvalu).
      rewrite (cornerSolveFrame_isEnriched s u k c Hfru).
      assert (Hgrav : gravity_ (base u) = gravity_ (base s)).
      { destruct Hfru as (He & _).
        assert (Hx := f_equal (fun x => gravity_ (base x)) He). simpl in Hx. exact Hx. }
      destruct (isEnriched s k c) eqn:Hen.
      - split.
        { eapply cornerSolveFrame_trans; [exact Hfru|]. apply alterCorner_frame.
          rewrite (cornerSolveFrame_isEnriched s u k c Hfru). exact Hen. }
        intros obj' g'. rewrite cornerVelocity_alter, Hgrav. fold G.
        destruct Hfru as (_ & Hlenu & _). rewrite Hlenu.
        destruct (decide (k = obj' /\ c = g' /\ _)) as [(<- & <- & Hlt)|Hno].
        + rewrite Hvalu. rewrite decide_False by (intros ([?|[_ ?]] & _); lia).
          rewrite decide_True; [reflexivity|]. split; [right; split; [reflexivity|lia]|].
          split; [exact Hlt|exact Hen].
        + rewrite Hvalu.
          destruct (decide (((obj' < k)%nat \/ obj' = k /\ (g' < c)%nat) /\ _))
            as [(H1 & H2 & H3)|Hno'].
          * rewrite decide_True; [reflexivity|]. split; [|split; assumption].
            destruct H1 as [?|[? ?]]; [left; assumption|right; split; [assumption|lia]].
          * rewrite decide_False; [reflexivity|]. intros (H1 & H2 & H3).
            destruct H1 as [H1|[-> H1]]; [apply Hno'; auto|].
            destruct (decide (g' = c)) as [->|Hne]; [apply Hno; auto|].
            apply Hno'. split; [right; split; [reflexivity|lia]|]. auto.
      - split; [exact Hfru|]. intros obj' g'. rewrite Hvalu.
        destruct (decide (((obj' < k)%nat \/ obj' = k /\ (g' < c)%nat) /\ _))
          as [(H1 & H2 & H3)|Hno'].
        + rewrite decide_True; [reflexivity|]. split; [|split; assumption].
          destruct H1 as [?|[? ?]]; [left; assumption|right; split; [assumption|lia]].
        + rewrite decide_False; [reflexivity|]. intros (H1 & H2 & H3).
          destruct H1 as [H1|[-> H1]]; [apply Hno'; auto|].
          destruct (decide (g' = c)) as [->|Hne]; [congruence|].
          apply Hno'. split; [right; split; [reflexivity|lia]|]. auto. }
    destruct Hin as [Hfr' Hval']. split; [exact Hfr'|].
    intros obj' g'. rewrite Hval'.
    destruct (decide (((obj' < k)%nat \/ obj' = k /\ _) /\ _)) as [(H1 & H2 & H3)|Hno].
    - rewrite decide_True; [reflexivity|]. split; [|split; assumption].
      destruct H1 as [?|[? ?]]; lia.
    - rewrite decide_False; [reflexivity|]. intros (H1 & H2 & H3). apply Hno.
      split; [|split; assumption].
      destruct (decide (obj' = k)) as [->|]; [right; split; [reflexivity|exact H2]|left; lia]. }
  exact Hfin.
Qed.

(** X7: [applyGravityOnEnrichedDomainCorner]: the velocity of every enriched
    corner that has a slot loses [dt * gravity] in its component 1, once;
    the other components and the ordinary corners are left as they are, and
    so is everything in the solver but the corner velocities. *)
Theorem gravity_on_enriched_corners (dt : Scalar) s (obj g j : nat) :
  let t := applyGravityOnEnrichedDomainCorner dt s in
  cornerSolveFrame s t /\
  tget 0 Dim j (cornerVelocity t obj g) =
    if decide ((obj < objectNum (base s))%nat /\
               (g < length (row (domain_corner_velocity_ s) obj))%nat /\
               isEnriched s obj g = true /\ j = 1%nat /\ (1 < Dim)%nat)
    then tget 0 Dim j (cornerVelocity s obj g) + dt * (- (1)) * gravity_ (base s)
    else tget 0 Dim j (cornerVelocity s obj g).
Proof.
  destruct (applyGravity_corner_values dt s) as [Hfr Hval]. cbn zeta. split; [exact Hfr|].
  rewrite Hval.
  destruct (decide ((obj < objectNum (base s))%nat /\ _ /\ isEnriched s obj g = true))
    as [(H1 & H2 & H3)|Hno].
  - rewrite tget_talter.
    destruct (decide (1%nat = j /\ (j < Dim)%nat)) as [[<- Hlt]|Hno'].
    + rewrite decide_True by auto. reflexivity.
    + rewrite decide_False; [reflexivity|]. intros (_ & _ & _ & -> & Hlt). apply Hno'. auto.
  - rewrite decide_False; [reflexivity|]. intros (A1 & A2 & A3 & _). apply Hno. auto.
Qed.

Lemma solve_invariant (dt : Scalar) s :
  let t := solveOnGridForwardEuler epsilon dt s in
  eraseVelocities t = eraseVelocities s /\
  gridSolveFrame (base s) (base t) /\
  (forall obj, length (row (domain_corner_velocity_ t) obj)
               = length (row (domain_corner_velocity_ s) obj)) /\
  (forall obj g, isEnriched s obj g = false -> cornerVelocity t obj g = cornerVelocity s obj g).
Proof.
  pose (Inv := fun t : InvertibleMPMSolid Dim =>
    eraseVelocities t = eraseVelocities s /\
    gridSolveFrame (base s) (base t) /\
    (forall obj, length (row (domain_corner_velocity_ t) obj)
                 = length (row (domain_corner_velocity_ s) obj)) /\
    (forall obj g, isEnriched s obj g = false -> cornerVelocity t obj g = cornerVelocity s obj g)).
  assert (Hen : forall t obj g, eraseVelocities t = eraseVelocities s ->
                  isEnriched t obj g = isEnriched s obj g).
  { intros t obj g H. unfold isEnriched.
    assert (H1 := f_equal is_enriched_domain_corner_ H). simpl in H1. rewrite H1. reflexivity. }
  assert (Hcorner : forall t u, Inv t -> cornerSolveFrame t u -> Inv u).
  { intros t u (He & Hg & Hl & Ho) (Hc1 & Hc2 & Hc3).
    split.
    { change (eraseVelocities u) with (map_base eraseGrid (map_corner_velocity (fun _ => []) u)).
      rewrite Hc1. exact He. }
    split.
    { assert (Hb : base u = base t).
      { assert (Hx := f_equal base Hc1). simpl in Hx. exact Hx. }
      rewrite Hb. exact Hg. }
    split; [intros obj; rewrite Hc2; apply Hl|].
    intros obj g Hord. rewrite Hc3; [apply Ho, Hord|]. rewrite (Hen t obj g He). exact Hord. }
  assert (Hgrid : forall t o q, Inv t ->
                    Inv (map_base (solveParticleOnGrid epsilon dt o q) t)).
  { intros t o q (He & Hg & Hl & Ho).
    pose proof (solveParticleOnGrid_frame dt o q (base t)) as Hf.
    split.
    { rewrite <- He. unfold eraseVelocities, map_corner_velocity, map_base. simpl.
      destruct Hf as (Hx & _). rewrite Hx. reflexivity. }
    split; [eapply gridSolveFrame_trans; [exact Hg|exact Hf]|].
    split; [exact Hl|exact Ho]. }
  assert (Hfin : Inv (solveOnGridForwardEuler epsilon dt s)).
  { unfold solveOnGridForwardEuler.
    cbn zeta. eapply Hcorner; [|exact (proj1 (applyGravity_corner_values dt _))].
    apply (loop_ind (fun _ t => Inv t)).
      { unfold Inv. split; [reflexivity|]. split; [apply gridSolveFrame_refl|]. repeat split. }
      intros o t _ Ht. apply (loop_ind (fun _ u => Inv u)); [exact Ht|].
      intros q u _ Hu. cbn zeta.
      assert (Hu' : Inv (if decide (enrichedCornerNum u o q < corner_num Dim)%nat
                         then map_base (solveParticleOnGrid epsilon dt o q) u else u)).
      { destruct (decide _); [apply Hgrid, Hu|exact Hu]. }
      destruct (decide (0 < enrichedCornerNum u o q)%nat); [|exact Hu'].
      eapply Hcorner; [exact Hu'|apply solveParticleOnCorners_frame]. }
  exact Hfin.
Qed.

(** X8: [solveOnGridForwardEuler] writes velocities only: the per-object masses
    of the grid nodes, the before-update velocities, the particles, the
    meshes, the flags, the corner masses and the weights are left as they
    are, and so is the velocity of every ordinary corner. *)
Theorem solve_writes_velocities (dt : Scalar) s (obj g o n : nat) :
  let t := solveOnGridForwardEuler epsilon dt s in
  eraseVelocities t = eraseVelocities s /\
  gridMass (base t) o n = gridMass (base s) o n /\
  length (grid_mass_ (base t)) = length (grid_mass_ (base s)) /\
  length (grid_velocity_ (base t)) = length (grid_velocity_ (base s)) /\
  length (row (domain_corner_velocity_ t) obj) = length (row (domain_corner_velocity_ s) obj) /\
  (isEnriched s obj g = false -> cornerVelocity t obj g = cornerVelocity s obj g).
Proof.
  destruct (solve_invariant dt s) as (He & (_ & Hl1 & Hl2 & Hm & _) & Hl & Ho).
  cbn zeta. repeat split; auto.
Qed.

(** X9: Lines 461-462 and 471-472 of [solveOnGridForwardEuler]: the velocity of
    an object at a grid node that is a Dirichlet node for it is not changed
    by the solve, and without a contact method no object's velocity at that
    node is. *)
Theorem solve_keeps_dirichlet_velocity (dt : Scalar) s (n o : nat) :
  isDirichletGridNode (base s) n o = true ->
  let t := solveOnGridForwardEuler epsilon dt s in
  gridVelocity (base t) o n = gridVelocity (base s) o n /\
  (contact_method_ (base s) = false ->
   forall o', gridVelocity (base t) o' n = gridVelocity (base s) o' n).
Proof.
  intros Hd. destruct (solve_invariant dt s) as (_ & (_ & _ & _ & _ & Hdir) & _).
  apply (Hdir n o Hd).
Qed.

End GridSolve.

(** ** Concrete checks of the properties above *)

Lemma three_object_dirichlet : isDirichletGridNode (base three_object_state) 0 0 = true.
Proof. vm_compute. reflexivity. Qed.

Lemma compressed_state_updates :
  exists s', updateParticleConstitutiveModelState (Dim := 2) half compressed_state = Some s'.
Proof.
  destruct (updateParticleConstitutiveModelState half compressed_state) as [s'|] eqn:H;
    [eauto|].
  exfalso. revert H. vm_compute. discriminate.
Qed.

Lemma compressed_state_objects : (0 < objectNum (base compressed_state))%nat.
Proof. vm_compute. lia. Qed.

Lemma compressed_state_particles : (0 < particleNumOfObject (base compressed_state) 0)%nat.
Proof. vm_compute. lia. Qed.

Lemma rest_state_objects : (0 < objectNum (base rest_state))%nat.
Proof. vm_compute. lia. Qed.

Lemma rest_state_particles : (0 < particleNumOfObject (base rest_state) 0)%nat.
Proof. vm_compute. lia. Qed.

Lemma two_particle_velocity_returns :
  exists s', updateParticleVelocity eps_float two_particle_state = Some s'.
Proof.
  destruct (updateParticleVelocity eps_float two_particle_state) as [s'|] eqn:H; [eauto|].
  exfalso. revert H. vm_compute. discriminate.
Qed.

(** On [three_object_state] the pair (node 0, object 1) is in the table
    exactly when object 1 has mass above epsilon at node 0. *)
Lemma active_grid_nodes_listed_witness :
  exists t amap,
    rasterizeBeforeMerge eps_float neverEnrich three_object_state = Some (t, amap) /\
    ((0%nat, 1%nat) ∈ active_grid_node_ (base t) <->
     (0 < length (grid_mass_ (base t)))%nat /\ (1 < objectNum (base t))%nat /\
     eps_float < gridMass (base t) 1 0).
Proof.
  destruct three_object_returns as [[t amap] Hr].
  exists t, amap. split; [exact Hr|].
  exact (proj1 (proj2 (proj2
           (active_grid_nodes_listed eps_float neverEnrich three_object_state t amap 0 1 Hr)))).
Defined.

(** On [three_object_state] the masses before the merge are those of the
    scatter. *)
Lemma grid_velocity_normalisation_witness :
  exists t amap u,
    rasterizeBeforeMerge eps_float neverEnrich three_object_state = Some (t, amap) /\
    rasterizeObjects eps_float
      (updateParticleDomainEnrichState neverEnrich
         (resetParticleDomainData (map_base resetGridData three_object_state))) = Some u /\
    gridMass (base t) 1 0 = gridMass (base u) 1 0.
Proof.
  destruct three_object_returns as [[t amap] Hr].
  destruct (grid_velocity_normalisation eps_float neverEnrich three_object_state t amap
              three_object_gridSized Hr) as (u & Hu & Hall).
  exists t, amap, u. split; [exact Hr|]. split; [exact Hu|].
  exact (proj1 (Hall 1%nat 0%nat)).
Defined.

(** On [compressed_state] with dt = 1/2 the update takes the remedy branch
    and returns, and the particle's volume is det(F) times its initial
    volume. *)
Lemma constitutive_update_volume_witness :
  exists s', updateParticleConstitutiveModelState (Dim := 2) half compressed_state = Some s' /\
    volume (particle (base s') 0 0) =
      determinant 2 (deformationGradient (particle (base s') 0 0))
      * at2 0 (particle_initial_volume_ (base compressed_state)) 0 0.
Proof.
  destruct compressed_state_updates as [s' Hr].
  exists s'. split; [exact Hr|].
  exact (proj1 (constitutive_update_volume half compressed_state s' 0 0 Hr
                  compressed_state_objects compressed_state_particles)).
Defined.

(** On [two_particle_state] the velocity update returns and keeps the mass
    of particle 1. *)
Lemma updateParticleVelocity_writes_velocities_witness :
  exists s', updateParticleVelocity eps_float two_particle_state = Some s' /\
    mass (particle (base s') 0 1) = mass (particle (base two_particle_state) 0 1).
Proof.
  destruct two_particle_velocity_returns as [s' Hr].
  exists s'. split; [exact Hr|].
  exact (proj1 (proj2 (proj2 (proj2
           (updateParticleVelocity_writes_velocities eps_float two_particle_state s' 0 1 Hr))))).
Defined.

(** On [three_object_state] node 0 is a Dirichlet node of object 0, and the
    solve keeps the prescribed velocity there. *)
Lemma solve_keeps_dirichlet_velocity_witness :
  gridVelocity (base (solveOnGridForwardEuler eps_float 1 three_object_state)) 0 0
  = gridVelocity (base three_object_state) 0 0.
Proof.
  exact (proj1 (solve_keeps_dirichlet_velocity eps_float 1 three_object_state 0 0
                  three_object_dirichlet)).
Defined.

(** ** The welded particle-domain mesh *)

Section MeshConstruction.
Context {Dim : nat}.
Implicit Types s t : InvertibleMPMSolid Dim.

Lemma weld_particle_NoDup (pc : list (list (Vector Dim))) (p : nat) (cp0 : list (Vector Dim)) :
  NoDup cp0 ->
  NoDup (loop (corner_num Dim)
           (fun corner_idx (acc : list (Vector Dim) * list nat) =>
              let pos := at2 vzero pc p corner_idx in
              match list_find (fun q => q = pos) acc.1 with
              | None => (acc.1 ++ [pos], acc.2 ++ [length acc.1])
              | Some (idx, _) => (acc.1, acc.2 ++ [idx])
              end)
           (cp0, [])).1.
Proof.
  intros H0.
  apply (loop_ind (fun _ (acc : list (Vector Dim) * list nat) => NoDup acc.1)); [exact H0|].
  intros k [cp el] _ Hnd. simpl in *.
  destruct (list_find _ cp) as [[idx x]|] eqn:Hfind; simpl; [exact Hnd|].
  apply list_find_None in Hfind.
  apply NoDup_app. split; [exact Hnd|]. split; [|apply NoDup_singleton].
  intros x Hx Hx'. apply list_elem_of_singleton in Hx'. subst x.
  rewrite Forall_forall in Hfind. apply (Hfind _ Hx). reflexivity.
Qed.

Lemma weld_NoDup (pc : list (list (Vector Dim))) (n : nat) :
  NoDup (weldDomainCorners pc n).1.
Proof.
  unfold weldDomainCorners.
  apply (loop_ind (fun _ (acc : list (Vector Dim) * list (list nat)) => NoDup acc.1)).
  { simpl. apply NoDup_nil_2. }
  intros k [cp dom] _ Hnd. simpl in *.
  pose proof (weld_particle_NoDup pc k cp Hnd) as Hw.
  destruct (loop (corner_num Dim) _ (cp, [])) as [cp' el']. simpl in *. exact Hw.
Qed.

(** X10: [constructParticleDomainMesh] welds by exact equality of positions: in
    the mesh it builds for an object no two vertices have the same
    position, and two corners of the object's particles are the same mesh
    vertex exactly when the particles store the same position for them. *)
Theorem constructed_mesh_welds_equal_corners s (obj p c p' c' : nat) :
  (obj < objectNum (base s))%nat ->
  (p < particleNumOfObject (base s) obj)%nat -> (c < corner_num Dim)%nat ->
  (p' < particleNumOfObject (base s) obj)%nat -> (c' < corner_num Dim)%nat ->
  let t := constructParticleDomainMesh s in
  NoDup (vertices (mesh t obj)) /\
  (eleVertIndex (mesh t obj) p c = eleVertIndex (mesh t obj) p' c' <->
   at3 vzero (particle_domain_corners_ (base s)) obj p c
   = at3 vzero (particle_domain_corners_ (base s)) obj p' c').
Proof.
  intros Hobj Hp Hc Hp' Hc'. cbn zeta.
  destruct (construct_spec s) as (_ & _ & _ & _ & _ & _ & _ & _ & Hbuilt).
  destruct (Hbuilt obj Hobj) as (Hmesh & _).
  destruct (construct_well_formed s obj Hobj) as (Hbase & _ & _ & _ & Hwf & _ & _ & _ & Hpos).
  destruct Hwf as (_ & Hin & _).
  assert (Hnd : NoDup (vertices (mesh (constructParticleDomainMesh s) obj))).
  { rewrite Hmesh. unfold meshOf. simpl. apply weld_NoDup. }
  split; [exact Hnd|].
  rewrite <- (Hpos p c Hp Hc), <- (Hpos p' c' Hp' Hc').
  split; [intros ->; reflexivity|].
  assert (Hp1 : (p < particleNumOfObject (base (constructParticleDomainMesh s)) obj)%nat)
    by (rewrite Hbase; exact Hp).
  assert (Hp2 : (p' < particleNumOfObject (base (constructParticleDomainMesh s)) obj)%nat)
    by (rewrite Hbase; exact Hp').
  destruct (Hin p Hp1) as (_ & Hlt). destruct (Hin p' Hp2) as (_ & Hlt').
  specialize (Hlt c Hc). specialize (Hlt' c' Hc').
  unfold vertNum in Hlt, Hlt'. unfold vertPos.
  destruct (lookup_lt_is_Some_2 _ _ Hlt) as [x Hx].
  destruct (lookup_lt_is_Some_2 _ _ Hlt') as [x' Hx'].
  rewrite Hx, Hx'. simpl. intros ->.
  apply (NoDup_lookup _ _ _ _ Hnd Hx Hx').
Qed.

End MeshConstruction.

(** ** Reset of the per-corner data *)

Section ResetCorners.
Context {Dim : nat}.
Implicit Types s t : InvertibleMPMSolid Dim.

(** The corner data of one corner. *)
Lemma resetCorner_other o j s (obj g : nat) :
  ~ (obj = o /\ g = j) ->
  isEnriched (resetCorner o j s) obj g = isEnriched s obj g /\
  cornerMass (resetCorner o j s) obj g = cornerMass s obj g /\
  cornerVelocity (resetCorner o j s) obj g = cornerVelocity s obj g /\
  cornerVelocityBefore (resetCorner o j s) obj g = cornerVelocityBefore s obj g.
Proof.
  intros Hne.
  unfold isEnriched, cornerMass, cornerVelocity, cornerVelocityBefore. simpl.
  rewrite !at2_insert.
  repeat split; (destruct (decide _) as [(<- & <- & _)|_]; [exfalso; apply Hne; auto|reflexivity]).
Qed.

(** X11: [resetParticleDomainData] clears the flag, the mass and the two
    velocities of every corner that is a vertex of the mesh of an object,
    and of no other slot: the slots of the per-corner arrays beyond the
    vertices of the mesh keep their values, the arrays keep their sizes,
    and the base class, the meshes and the corner weights are left as they
    are. *)
Theorem reset_clears_mesh_corners_only s (obj g : nat) :
  let s1 := resetParticleDomainData s in
  cornerFrame s s1 /\ cornerShape s s1 /\
  ((obj < objectNum (base s))%nat /\ (g < vertNum (mesh s obj))%nat -> cleared s1 obj g) /\
  (~ ((obj < objectNum (base s))%nat /\ (g < vertNum (mesh s obj))%nat) ->
   isEnriched s1 obj g = isEnriched s obj g /\
   cornerMass s1 obj g = cornerMass s obj g /\
   cornerVelocity s1 obj g = cornerVelocity s obj g /\
   cornerVelocityBefore s1 obj g = cornerVelocityBefore s obj g).
Proof.
  destruct (reset_spec s) as (Hfr & Hsh & Hcl). cbn zeta.
  split; [exact Hfr|]. split; [exact Hsh|]. split; [intros [Hobj Hg]; apply Hcl; assumption|].
  intros Hout. unfold resetParticleDomainData.
  pose (Inv := fun (t : InvertibleMPMSolid Dim) =>
    cornerFrame s t /\
    isEnriched t obj g = isEnriched s obj g /\
    cornerMass t obj g = cornerMass s obj g /\
    cornerVelocity t obj g = cornerVelocity s obj g /\
    cornerVelocityBefore t obj g = cornerVelocityBefore s obj g).
  assert (Hfin : Inv (loop (objectNum (base s))
                        (fun obj_idx s0 =>
                           loop (vertNum (mesh s0 obj_idx))
                             (fun domain_corner_idx s1 => resetCorner obj_idx domain_corner_idx s1)
                             s0) s)).
  { apply (loop_ind (fun _ t => Inv t)); unfold Inv.
    { split; [apply cornerFrame_refl|]. repeat split. }
    intros o t Ho Ht.
    assert (Hmesh : mesh t o = mesh s o) by (apply mesh_frame, Ht).
    rewrite Hmesh.
    apply (loop_ind (fun _ u =>
             cornerFrame s u /\
             isEnriched u obj g = isEnriched s obj g /\
             cornerMass u obj g = cornerMass s obj g /\
             cornerVelocity u obj g = cornerVelocity s obj g /\
             cornerVelocityBefore u obj g = cornerVelocityBefore s obj g)); [exact Ht|].
    intros j u Hj (Hfu & H1 & H2 & H3 & H4).
    split; [eapply cornerFrame_trans; [exact Hfu|apply resetCorner_frame]|].
    destruct (resetCorner_other o j u obj g) as (E1 & E2 & E3 & E4).
    { intros [-> ->]. apply Hout. split; assumption. }
    rewrite E1, E2, E3, E4. repeat split; assumption. }
  destruct Hfin as (_ & H). exact H.
Qed.

End ResetCorners.

(** ** Appending and deleting the record of the last particle or object *)

Section LifeCycleRoundTrip.
Context {Dim : nat}.
Implicit Types s t : InvertibleMPMSolid Dim.

Lemma alter_delete_snoc {A} (l : list (list A)) (obj n : nat) (r : A) :
  length (row l obj) = n ->
  alter (delete n) obj (alter (fun w => w ++ [r]) obj l) = l.
Proof.
  intros Hn. apply list_eq. intros i. destruct (decide (i = obj)) as [->|Hne].
  - rewrite !list_lookup_alter_eq. unfold row in Hn.
    destruct (l !! obj) as [w|] eqn:Hw; simpl in *; [|reflexivity].
    f_equal. subst n. rewrite (delete_middle w [] r). apply app_nil_r.
  - rewrite !list_lookup_alter_ne by congruence. reflexivity.
Qed.

Lemma delete_snoc {A} (l : list A) (r : A) : delete (length l) (l ++ [r]) = l.
Proof. rewrite (delete_middle l [] r). apply app_nil_r. Qed.

(** X12: Deleting the record that was just appended restores the solver's own
    storage: [deleteOneParticleRelatedDataOfObject] at the index of the
    particle that [appendLastParticleRelatedDataOfObject] added gives back
    the corner weights and gradients, and so does
    [deleteAllParticleRelatedDataOfObject] at the index of the object that
    [appendAllParticleRelatedDataOfLastObject] added when the base class
    has left a count of objects that is not 0 and fits [unsigned int] (line
    513 reads the particle count of object [objectNum() - 1]), whatever else
    the base class does to its own members. *)
Theorem delete_after_append_restores_storage
  (hookAppendAll : CPDIMPMSolid Dim -> CPDIMPMSolid Dim)
  (hookAppendLast hookDeleteAll : nat -> CPDIMPMSolid Dim -> CPDIMPMSolid Dim)
  (hookDeleteOne : nat -> nat -> CPDIMPMSolid Dim -> CPDIMPMSolid Dim) s (obj : nat) :
  length (row (particle_corner_gradient_ s) obj) = length (row (particle_corner_weight_ s) obj) ->
  length (particle_corner_gradient_ s) = length (particle_corner_weight_ s) ->
  (let t := deleteOneParticleRelatedDataOfObject hookDeleteOne obj
              (length (row (particle_corner_weight_ s) obj))
              (appendLastParticleRelatedDataOfObject hookAppendLast obj s) in
   particle_corner_weight_ t = particle_corner_weight_ s /\
   particle_corner_gradient_ t = particle_corner_gradient_ s /\
   domainMeshData t = domainMeshData s) /\
  ((0 < Z.of_nat (objectNum (hookAppendAll (base s))) < 2 ^ 32)%Z ->
   let t := deleteAllParticleRelatedDataOfObject hookDeleteAll
              (length (particle_corner_weight_ s))
              (appendAllParticleRelatedDataOfLastObject hookAppendAll s) in
   particle_corner_weight_ t = particle_corner_weight_ s /\
   particle_corner_gradient_ t = particle_corner_gradient_ s /\
   domainMeshData t = domainMeshData s).
Proof.
  intros Hrow Hlen. split; cbn zeta.
  - unfold deleteOneParticleRelatedDataOfObject, appendLastParticleRelatedDataOfObject. simpl.
    split; [apply alter_delete_snoc; reflexivity|].
    split; [apply alter_delete_snoc; exact Hrow|reflexivity].
  - intros _.
    unfold deleteAllParticleRelatedDataOfObject, appendAllParticleRelatedDataOfLastObject.
    cbn [base map_base map_corner_weight map_corner_gradient particle_corner_weight_
      particle_corner_gradient_ domainMeshData particle_domain_mesh_
      is_enriched_domain_corner_ domain_corner_mass_ domain_corner_velocity_
      domain_corner_velocity_before_].
    split; [apply delete_snoc|].
    split; [rewrite <- Hlen; apply delete_snoc|reflexivity].
Qed.

End LifeCycleRoundTrip.

(** ** Enrichment flags *)

Section EnrichmentFlags.
Context {Dim : nat}.
Implicit Types s t : InvertibleMPMSolid Dim.

(** X15: [updateParticleDomainEnrichState] only sets flags: it leaves the base
    class, the meshes, the corner weights and the other per-corner arrays
    as they are, a corner that is enriched stays enriched, and running it a
    second time changes no flag. *)
Theorem enrich_state_monotone_idempotent (crit : nat -> nat -> bool) s (obj g : nat) :
  let t := updateParticleDomainEnrichState crit s in
  cornerFrame s t /\ cornerShape s t /\
  domain_corner_mass_ t = domain_corner_mass_ s /\
  domain_corner_velocity_ t = domain_corner_velocity_ s /\
  domain_corner_velocity_before_ t = domain_corner_velocity_before_ s /\
  (isEnriched s obj g = true -> isEnriched t obj g = true) /\
  isEnriched (updateParticleDomainEnrichState crit t) obj g = isEnriched t obj g.
Proof.
  cbn zeta. set (t := updateParticleDomainEnrichState crit s).
  destruct (enrich_spec crit s) as (Hfr & Hsh & Hm & Hv & Hb & Hiff). fold t in Hfr, Hsh, Hm, Hv, Hb, Hiff.
  destruct (enrich_spec crit t) as (_ & _ & _ & _ & _ & Hiff').
  split; [exact Hfr|]. split; [exact Hsh|]. split; [exact Hm|]. split; [exact Hv|].
  split; [exact Hb|]. split; [intros H; apply Hiff; left; exact H|].
  assert (Hbase : base t = base s) by apply Hfr.
  assert (Hmesh : mesh t obj = mesh s obj) by (apply mesh_frame, Hfr).
  assert (H : isEnriched (updateParticleDomainEnrichState crit t) obj g = true <->
              isEnriched t obj g = true).
  { rewrite Hiff'. split; [|intros H; left; exact H].
    intros [H|(Hlt & p & c & HD & Hc & He)]; [exact H|].
    apply Hiff. right. destruct (Hsh obj) as (Hl & _). rewrite Hl in Hlt.
    split; [exact Hlt|]. exists p, c. rewrite Hbase, Hmesh in HD. rewrite Hmesh in He.
    split; [exact HD|]. split; [exact Hc|exact He]. }
  destruct (isEnriched (updateParticleDomainEnrichState crit t) obj g),
    (isEnriched t obj g); try reflexivity.
  - symmetry. apply H. reflexivity.
  - apply H. reflexivity.
Qed.

End EnrichmentFlags.

(** ** The velocity update after rasterization and the explicit solve *)

Section StepSafety.
Context {Dim : nat}.
Variable epsilon : Scalar.
Implicit Types b : CPDIMPMSolid Dim.
Implicit Types s t : InvertibleMPMSolid Dim.

Lemma entriesKept_refl b : entriesKept b b.
Proof. split; auto. Qed.

Lemma entriesKept_trans b c d : entriesKept b c -> entriesKept c d -> entriesKept b d.
Proof. intros [H1 H2] [H1' H2']. split; intros n o H; auto. Qed.

Lemma entriesKept_mass F b : entriesKept b (map_grid_mass F b).
Proof. split; intros n o H; exact H. Qed.

Lemma entriesKept_velocity (F : gmap nat (Vector Dim) -> gmap nat (Vector Dim)) (n : nat) b :
  (forall m o, is_Some (m !! o) -> is_Some (F m !! o)) ->
  entriesKept b (map_grid_velocity (alter F n) b).
Proof.
  intros HF. split; intros n' o H; [|exact H].
  rewrite nodeVelocity_alter. destruct (decide _) as [[<- _]|_]; [apply HF, H|exact H].
Qed.

Lemma entriesKept_before (F : gmap nat (Vector Dim) -> gmap nat (Vector Dim)) (n : nat) b :
  (forall m o, is_Some (m !! o) -> is_Some (F m !! o)) ->
  entriesKept b (map_grid_velocity_before (alter F n) b).
Proof.
  intros HF. split; intros n' o H; [exact H|].
  rewrite nodeVelocityBefore_alter. destruct (decide _) as [[<- _]|_]; [apply HF, H|exact H].
Qed.

Lemma is_Some_touch {V} (d : V) (k o : nat) (m : gmap nat V) :
  is_Some (m !! o) -> is_Some (touch d k m !! o).
Proof. intros H. rewrite lookup_touch. destruct (decide (k = o)); [eauto|exact H]. Qed.

Lemma is_Some_insert {V} (v : V) (k o : nat) (m : gmap nat V) :
  is_Some (m !! o) -> is_Some (<[k := v]> m !! o).
Proof.
  intros H. destruct (decide (k = o)) as [->|Hne].
  - rewrite lookup_insert_eq. eauto.
  - rewrite lookup_insert_ne by exact Hne. exact H.
Qed.

Lemma computeGridVelocity_entries (st : CPDIMPMSolid Dim * gmap nat nat) :
  (forall e, e ∈ active_grid_node_ st.1 -> st.2 !! e.1 = Some e.1) ->
  let st' := computeGridVelocity st in
  entriesKept st.1 st'.1 /\
  forall n o, (n, o) ∈ active_grid_node_ st.1 ->
    (n < length (grid_velocity_ st.1))%nat -> (n < length (grid_velocity_before_ st.1))%nat ->
    is_Some (nodeVelocity st'.1 n !! o) /\ is_Some (nodeVelocityBefore st'.1 n !! o).
Proof.
  intros Hid. unfold computeGridVelocity.
  match goal with |- context [foldl ?f _ _] => set (body := f) end.
  assert (Hstep : forall (u : CPDIMPMSolid Dim * gmap nat nat) (e : nat * nat),
            u.2 !! e.1 = Some e.1 ->
            (body u e).2 = u.2 /\
            length (grid_velocity_ (body u e).1) = length (grid_velocity_ u.1) /\
            length (grid_velocity_before_ (body u e).1) = length (grid_velocity_before_ u.1) /\
            entriesKept u.1 (body u e).1 /\
            ((e.1 < length (grid_velocity_ u.1))%nat ->
             (e.1 < length (grid_velocity_before_ u.1))%nat ->
             is_Some (nodeVelocity (body u e).1 e.1 !! e.2) /\
             is_Some (nodeVelocityBefore (body u e).1 e.1 !! e.2))).
  { intros [b amap] [n o] Hn. simpl in Hn. unfold body. simpl.
    rewrite (touch_present 0%nat n amap) by (rewrite Hn; eauto). rewrite Hn. simpl.
    set (b0 := if isDirichletGridNode b n o then b else _).
    assert (H0 : entriesKept b b0 /\ length (grid_velocity_ b0) = length (grid_velocity_ b) /\
                 length (grid_velocity_before_ b0) = length (grid_velocity_before_ b)).
    { unfold b0. destruct (isDirichletGridNode b n o).
      - split; [apply entriesKept_refl|]. split; reflexivity.
      - split.
        + apply (entriesKept_trans _ (map_grid_velocity (alter (touch vzero o) n) b)).
          { apply entriesKept_velocity. intros m o' Hm. apply is_Some_touch, Hm. }
          eapply entriesKept_trans; [apply entriesKept_mass|].
          apply entriesKept_velocity. intros m o' Hm. apply is_Some_insert, Hm.
        + simpl. rewrite !length_alter. split; reflexivity. }
    destruct H0 as (Hk0 & Hl0 & Hlb0).
    set (b1 := map_grid_velocity (alter (touch vzero o) n) b0).
    assert (Hk1 : entriesKept b0 b1)
      by (apply entriesKept_velocity; intros m o' Hm; apply is_Some_touch, Hm).
    split; [reflexivity|].
    split; [simpl; rewrite length_alter; exact Hl0|].
    split; [simpl; rewrite length_alter; exact Hlb0|].
    split.
    { eapply entriesKept_trans; [exact Hk0|]. eapply entriesKept_trans; [exact Hk1|].
      apply entriesKept_before. intros m o' Hm. apply is_Some_insert, Hm. }
    intros Hlt Hltb. split.
    - change (nodeVelocity (map_grid_velocity_before ?F ?x)) with (nodeVelocity x).
      unfold b1. rewrite nodeVelocity_alter, decide_True by (split; [reflexivity|lia]).
      rewrite lookup_touch, decide_True by reflexivity. eauto.
    - rewrite nodeVelocityBefore_alter.
      rewrite decide_True by (split; [reflexivity|simpl; lia]).
      rewrite lookup_insert_eq. eauto. }
  clearbody body.
  assert (Hall : forall (l : list (nat * nat)) (u : CPDIMPMSolid Dim * gmap nat nat),
            (forall e, e ∈ l -> u.2 !! e.1 = Some e.1) ->
            (foldl body u l).2 = u.2 /\
            length (grid_velocity_ (foldl body u l).1) = length (grid_velocity_ u.1) /\
            length (grid_velocity_before_ (foldl body u l).1)
              = length (grid_velocity_before_ u.1) /\
            entriesKept u.1 (foldl body u l).1 /\
            forall n o, (n, o) ∈ l ->
              (n < length (grid_velocity_ u.1))%nat ->
              (n < length (grid_velocity_before_ u.1))%nat ->
              is_Some (nodeVelocity (foldl body u l).1 n !! o) /\
              is_Some (nodeVelocityBefore (foldl body u l).1 n !! o)).
  { induction l as [|e l IH]; intros u Hi; simpl.
    - split; [reflexivity|]. split; [reflexivity|]. split; [reflexivity|].
      split; [apply entriesKept_refl|]. intros n o Hin. inversion Hin.
    - destruct (Hstep u e) as (H2 & Hl & Hlb & Hk & Hpres); [apply Hi; left|].
      destruct (IH (body u e)) as (H2' & Hl' & Hlb' & Hk' & Hpres').
      { intros e' He'. rewrite H2. apply Hi. right. exact He'. }
      split; [congruence|]. split; [congruence|]. split; [congruence|].
      split; [eapply entriesKept_trans; eassumption|].
      intros n o Hin Hlt Hltb. apply elem_of_cons in Hin. destruct Hin as [<-|Hin].
      + destruct (Hpres Hlt Hltb) as [A B]. destruct Hk' as [K1 K2].
        split; [apply K1, A|apply K2, B].
      + apply Hpres'; [exact Hin|rewrite Hl; exact Hlt|rewrite Hlb; exact Hltb]. }
  destruct (Hall (active_grid_node_ st.1) st Hid) as (_ & _ & _ & Hk & Hp).
  cbn zeta. split; [exact Hk|exact Hp].
Qed.

Lemma unifyNode_entries (n : nat) b :
  (n < length (grid_mass_ b))%nat -> gridSized b ->
  let b' := unifyNode n n b in
  entriesKept b b' /\
  (length (occupying b n) <> 1%nat ->
   forall o, is_Some (nodeVelocity b n !! o) -> is_Some (nodeVelocityBefore b' n !! o)).
Proof.
  intros Hn (Hlv & Hlb & Hld). unfold unifyNode. fold (occupying b n).
  destruct (decide (length (occupying b n) = 1%nat)) as [Hone|Hmany].
  { split; [apply entriesKept_refl|contradiction]. }
  pose proof (accumulateAtNode_spec n (occupying b n) b) as Hacc. cbn zeta in Hacc.
  destruct (accumulateAtNode n (occupying b n) b) as [[b1 M] P]. simpl in Hacc.
  destruct Hacc as (He & Hbef & Hl1 & Hl2 & Hm & Hv & HM & HP).
  change (is_dirichlet_grid_node_ (map_grid_mass (alter (fmap (fun _ : Scalar => M)) n) b1))
    with (is_dirichlet_grid_node_ b1).
  change (grid_velocity_ (map_grid_mass (alter (fmap (fun _ : Scalar => M)) n) b1))
    with (grid_velocity_ b1).
  fold (nodeVelocity b1 n).
  set (vel := nodeVelocity b1 n). set (dir := default ∅ (is_dirichlet_grid_node_ b1 !! n)).
  set (V := dirichletOverride dir vel (keys vel) (vdiv P M)).
  set (b2 := map_grid_mass (alter (fmap (fun _ : Scalar => M)) n) b1).
  set (b3 := map_grid_velocity (alter (fmap (fun _ : Vector Dim => V)) n) b2).
  set (b4 := map_grid_velocity_before _ b3).
  assert (Hvel : vel = foldl (fun m o => touch vzero o m) (nodeVelocity b n) (occupying b n)).
  { unfold vel. rewrite Hv, decide_True by (split; [reflexivity|lia]). reflexivity. }
  assert (Hv4 : forall n', nodeVelocity b4 n' =
            if decide (n = n') then (fun _ : Vector Dim => V) <$> vel else nodeVelocity b n').
  { intros n'. unfold b4, b3.
    change (nodeVelocity (map_grid_velocity_before ?F ?x)) with (nodeVelocity x).
    rewrite nodeVelocity_alter.
    change (grid_velocity_ b2) with (grid_velocity_ b1).
    change (nodeVelocity b2) with (nodeVelocity b1). rewrite Hl2.
    destruct (decide (n = n')) as [<-|Hne].
    - rewrite decide_True by (split; [reflexivity|lia]). reflexivity.
    - rewrite decide_False by (intros [? _]; contradiction).
      rewrite Hv, decide_False by (intros [? _]; contradiction). reflexivity. }
  assert (Hb4 : forall n', nodeVelocityBefore b4 n' =
            if decide (n = n')
            then foldl (fun before k => <[k := V]> before) (nodeVelocityBefore b n) (keys vel)
            else nodeVelocityBefore b n').
  { intros n'. unfold b4. rewrite nodeVelocityBefore_alter.
    change (grid_velocity_before_ b3) with (grid_velocity_before_ b1).
    change (nodeVelocityBefore b3) with (nodeVelocityBefore b1).
    unfold nodeVelocityBefore. rewrite Hbef.
    destruct (decide (n = n')) as [<-|Hne].
    - rewrite decide_True by (split; [reflexivity|lia]). reflexivity.
    - rewrite decide_False by (intros [? _]; contradiction). reflexivity. }
  assert (Hvk : forall o, is_Some (nodeVelocity b n !! o) -> is_Some (vel !! o)).
  { intros o Ho. rewrite Hvel. apply is_Some_foldl_touch. right. exact Ho. }
  cbn zeta. split; [split|].
  - intros n' o Ho. rewrite Hv4. destruct (decide (n = n')) as [<-|]; [|exact Ho].
    rewrite lookup_fmap. apply fmap_is_Some, Hvk, Ho.
  - intros n' o Ho. rewrite Hb4. destruct (decide (n = n')) as [<-|]; [|exact Ho].
    rewrite lookup_foldl_insert. destruct (decide (o ∈ keys vel)); [eauto|exact Ho].
  - intros _ o Ho. rewrite Hb4, decide_True by reflexivity.
    rewrite lookup_foldl_insert, decide_True; [eauto|]. apply elem_of_keys, Hvk, Ho.
Qed.

Lemma unifyMultiValuedNodes_entries b (amap : gmap nat nat) :
  contact_method_ b = false -> gridSized b ->
  (forall k, is_Some (amap !! k) ->
     amap !! k = Some k /\ (k < length (grid_mass_ b))%nat) ->
  let b' := unifyMultiValuedNodes (b, amap) in
  entriesKept b b' /\
  forall n o, is_Some (amap !! n) -> length (occupying b n) <> 1%nat ->
    is_Some (nodeVelocity b n !! o) -> is_Some (nodeVelocityBefore b' n !! o).
Proof.
  intros Hc Hsized Hmap. unfold unifyMultiValuedNodes. simpl. rewrite Hc.
  assert (Hks : forall k, k ∈ keys amap -> is_Some (amap !! k))
    by (intros k; apply elem_of_keys).
  assert (Hks' : forall k, is_Some (amap !! k) -> k ∈ keys amap)
    by (intros k; apply elem_of_keys).
  set (step := fun (b : CPDIMPMSolid Dim) (node_idx_1d : nat) =>
                 unifyNode node_idx_1d (default 0%nat (amap !! node_idx_1d)) b).
  cut (forall ks, (forall k, k ∈ ks -> is_Some (amap !! k)) ->
         let b' := foldl step b ks in
         eraseNodes b' = eraseNodes b /\
         length (grid_mass_ b') = length (grid_mass_ b) /\
         length (grid_velocity_ b') = length (grid_velocity_ b) /\
         length (grid_velocity_before_ b') = length (grid_velocity_before_ b) /\
         entriesKept b b' /\
         forall n o, n ∈ ks -> length (occupying b n) <> 1%nat ->
           is_Some (nodeVelocity b n !! o) -> is_Some (nodeVelocityBefore b' n !! o)).
  { intros Hcut. destruct (Hcut (keys amap) Hks) as (_ & _ & _ & _ & Hk & Hp).
    cbn zeta. split; [exact Hk|]. intros n o Hin. apply Hp, Hks', Hin. }
  induction ks as [|k ks IH] using rev_ind; intros Hin.
  { simpl. repeat (split; [reflexivity|]). split; [apply entriesKept_refl|].
    intros n o Habs. inversion Habs. }
  rewrite foldl_app. cbn [foldl].
  destruct IH as (He & Hl1 & Hl2 & Hl3 & Hkept & Hdone).
  { intros k' Hk'. apply Hin, elem_of_app. left. exact Hk'. }
  set (cur := foldl step b ks) in *.
  destruct (Hmap k) as [Hid Hlt]; [apply Hin, elem_of_app; right; left|].
  assert (Hstep : step cur k = unifyNode k k cur) by (unfold step; rewrite Hid; reflexivity).
  cbn zeta. rewrite Hstep.
  destruct Hsized as (Hs1 & Hs2 & Hs3).
  assert (Hs3' : length (is_dirichlet_grid_node_ cur) = length (grid_mass_ cur)).
  { assert (H1 := f_equal is_dirichlet_grid_node_ He). simpl in H1. rewrite H1. lia. }
  assert (Hcur : gridSized cur) by (repeat split; lia).
  destruct (unifyNode_spec k cur) as (He' & Hl1' & Hl2' & Hl3' & _); [lia|exact Hcur|].
  destruct (unifyNode_entries k cur) as (Hkept' & Hnew); [lia|exact Hcur|].
  assert (Hocc : occupying cur k = occupying b k) by (apply occupying_eraseNodes, He).
  split; [rewrite He'; exact He|]. split; [rewrite Hl1'; exact Hl1|].
  split; [rewrite Hl2'; exact Hl2|]. split; [rewrite Hl3'; exact Hl3|].
  split; [eapply entriesKept_trans; eassumption|].
  intros n o Hn Hlen Ho. apply elem_of_app in Hn. destruct Hn as [Hn|Hn].
  - apply Hkept'. apply (Hdone n o Hn Hlen Ho).
  - apply list_elem_of_singleton in Hn. subst n.
    apply Hnew; [rewrite Hocc; exact Hlen|]. apply Hkept, Ho.
Qed.

Lemma rasterizeParticleToGrid_entries (o p : nat) b b' :
  rasterizeParticleToGrid epsilon o p b = Some b' ->
  entriesKept b b' /\
  forall i, (i < at2 0%nat (particle_grid_pair_num_ b) o p)%nat ->
    let node := node_idx_ (at3 noPair (particle_grid_weight_and_gradient_ b) o p i) in
    (node < length (grid_velocity_ b))%nat -> isDirichletGridNode b node o = false ->
    is_Some (nodeVelocity b' node !! o).
Proof.
  unfold rasterizeParticleToGrid. intros Hrun.
  assert (Hinv : eraseGrid b' = eraseGrid b /\
                 length (grid_velocity_ b') = length (grid_velocity_ b) /\
                 entriesKept b b' /\
                 forall i, (i < at2 0%nat (particle_grid_pair_num_ b) o p)%nat ->
                   let node := node_idx_ (at3 noPair (particle_grid_weight_and_gradient_ b)
                                            o p i) in
                   (node < length (grid_velocity_ b))%nat ->
                   isDirichletGridNode b node o = false ->
                   is_Some (nodeVelocity b' node !! o)).
  { revert Hrun.
    apply (loopM_ind (fun k u =>
             eraseGrid u = eraseGrid b /\
             length (grid_velocity_ u) = length (grid_velocity_ b) /\
             entriesKept b u /\
             forall i, (i < k)%nat ->
               let node := node_idx_ (at3 noPair (particle_grid_weight_and_gradient_ b)
                                        o p i) in
               (node < length (grid_velocity_ b))%nat ->
               isDirichletGridNode b node o = false ->
               is_Some (nodeVelocity u node !! o))).
    { split; [reflexivity|]. split; [reflexivity|]. split; [apply entriesKept_refl|].
      intros i Hi. lia. }
    intros k u u' Hk (Her & Hlen & Hkept & Hdone) Hstep.
    destruct (eraseGrid_pairs b u o p k Her) as (Hpair & _). rewrite Hpair in Hstep.
    set (pr := at3 noPair (particle_grid_weight_and_gradient_ b) o p k) in *.
    destruct (decide (epsilon < weight_value_ pr)) as [Hw|]; [|discriminate].
    cbn zeta in Hstep.
    match type of Hstep with
    | context [map_grid_mass ?F u] => set (u1 := map_grid_mass F u) in *
    end.
    assert (Hd1 : isDirichletGridNode u1 (node_idx_ pr) o
                  = isDirichletGridNode b (node_idx_ pr) o).
    { apply eraseGrid_dirichlet. exact Her. }
    rewrite Hd1 in Hstep.
    destruct (isDirichletGridNode b (node_idx_ pr) o) eqn:Hdir; injection Hstep as <-.
    - split; [exact Her|]. split; [exact Hlen|].
      split; [apply (entriesKept_trans _ u); [exact Hkept|unfold u1; apply entriesKept_mass]|].
      intros i Hi node Hnode Hnd. destruct (decide (i = k)) as [->|Hne].
      + unfold node in Hnd. fold pr in Hnd. congruence.
      + apply (Hdone i); [lia|exact Hnode|exact Hnd].
    - match goal with
      | |- context [map_grid_velocity (alter ?F ?n) u1] => set (G := F)
      end.
      assert (HG : forall m o', is_Some (m !! o') -> is_Some (G m !! o')).
      { intros m o' Hm. unfold G. destruct (m !! o); apply is_Some_insert, Hm. }
      assert (HGo : forall m, is_Some (G m !! o)).
      { intros m. unfold G. destruct (m !! o); rewrite lookup_insert_eq; eauto. }
      assert (Hk1 : entriesKept u (map_grid_velocity (alter G (node_idx_ pr)) u1)).
      { apply (entriesKept_trans _ u1); [unfold u1; apply entriesKept_mass|].
        apply entriesKept_velocity, HG. }
      split; [exact Her|]. split; [simpl; rewrite length_alter; exact Hlen|].
      split; [eapply entriesKept_trans; [exact Hkept|exact Hk1]|].
      intros i Hi node Hnode Hnd. destruct (decide (i = k)) as [->|Hne].
      + unfold node. fold pr. rewrite nodeVelocity_alter.
        rewrite decide_True; [apply HGo|]. split; [reflexivity|].
        change (grid_velocity_ u1) with (grid_velocity_ u). rewrite Hlen. exact Hnode.
      + apply Hk1. apply (Hdone i); [lia|exact Hnode|exact Hnd]. }
  destruct Hinv as (_ & _ & Hkept & Hp). split; [exact Hkept|exact Hp].
Qed.

Lemma rasterizeParticleToCorners_base (o p : nat) s :
  base (rasterizeParticleToCorners o p s) = base s.
Proof.
  unfold rasterizeParticleToCorners.
  apply (loop_ind (fun _ t => base t = base s)); [reflexivity|].
  intros c t _ Ht. destruct (isEnriched t o _); [|exact Ht]. exact Ht.
Qed.

Lemma computeDomainCornerVelocity_base (o : nat) s :
  base (computeDomainCornerVelocity epsilon o s) = base s.
Proof.
  unfold computeDomainCornerVelocity.
  apply (loop_ind (fun _ t => base t = base s)); [reflexivity|].
  intros c t _ Ht. destruct (decide _); [|exact Ht]. exact Ht.
Qed.

Lemma rasterizeParticle_entries (o p : nat) s s' :
  rasterizeParticle epsilon o p s = Some s' ->
  entriesKept (base s) (base s') /\
  ((enrichedCornerNum s o p < corner_num Dim)%nat ->
   forall i, (i < at2 0%nat (particle_grid_pair_num_ (base s)) o p)%nat ->
     let node := node_idx_ (at3 noPair (particle_grid_weight_and_gradient_ (base s)) o p i) in
     (node < length (grid_velocity_ (base s)))%nat ->
     isDirichletGridNode (base s) node o = false ->
     is_Some (nodeVelocity (base s') node !! o)).
Proof.
  unfold rasterizeParticle. intros Hrun.
  destruct (decide (enrichedCornerNum s o p < corner_num Dim)%nat) as [Hlt|Hge].
  - destruct (rasterizeParticleToGrid epsilon o p (base s)) as [b'|] eqn:Hb'; [|discriminate].
    simpl in Hrun.
    destruct (rasterizeParticleToGrid_entries o p (base s) b' Hb') as [Hk Hp].
    assert (Hbase : base s' = b').
    { destruct (decide (0 < enrichedCornerNum s o p)%nat); injection Hrun as <-;
        [rewrite rasterizeParticleToCorners_base|]; reflexivity. }
    rewrite Hbase. split; [exact Hk|]. intros _. exact Hp.
  - assert (Hbase : base s' = base s).
    { destruct (decide (0 < enrichedCornerNum s o p)%nat); injection Hrun as <-;
        [rewrite rasterizeParticleToCorners_base|]; reflexivity. }
    rewrite Hbase. split; [apply entriesKept_refl|]. intros Habs. contradiction.
Qed.

Lemma rasterizeObjects_entries s2 u :
  rasterizeObjects epsilon s2 = Some u ->
  entriesKept (base s2) (base u) /\
  forall obj p i, (obj < objectNum (base s2))%nat ->
    (p < particleNumOfObject (base s2) obj)%nat ->
    (enrichedCornerNum s2 obj p < corner_num Dim)%nat ->
    (i < at2 0%nat (particle_grid_pair_num_ (base s2)) obj p)%nat ->
    let node := node_idx_ (at3 noPair (particle_grid_weight_and_gradient_ (base s2)) obj p i) in
    (node < length (grid_velocity_ (base s2)))%nat ->
    isDirichletGridNode (base s2) node obj = false ->
    is_Some (nodeVelocity (base u) node !! obj).
Proof.
  unfold rasterizeObjects. intros Hrun.
  assert (Hinv : rasterFrame s2 u /\ entriesKept (base s2) (base u) /\
                 forall obj p i, (obj < objectNum (base s2))%nat ->
                   (p < particleNumOfObject (base s2) obj)%nat ->
                   (enrichedCornerNum s2 obj p < corner_num Dim)%nat ->
                   (i < at2 0%nat (particle_grid_pair_num_ (base s2)) obj p)%nat ->
                   let node := node_idx_ (at3 noPair
                                            (particle_grid_weight_and_gradient_ (base s2))
                                            obj p i) in
                   (node < length (grid_velocity_ (base s2)))%nat ->
                   isDirichletGridNode (base s2) node obj = false ->
                   is_Some (nodeVelocity (base u) node !! obj)).
  { revert Hrun.
    apply (loopM_ind (fun k t =>
             rasterFrame s2 t /\ entriesKept (base s2) (base t) /\
             forall obj p i, (obj < k)%nat ->
               (p < particleNumOfObject (base s2) obj)%nat ->
               (enrichedCornerNum s2 obj p < corner_num Dim)%nat ->
               (i < at2 0%nat (particle_grid_pair_num_ (base s2)) obj p)%nat ->
               let node := node_idx_ (at3 noPair
                                        (particle_grid_weight_and_gradient_ (base s2))
                                        obj p i) in
               (node < length (grid_velocity_ (base s2)))%nat ->
               isDirichletGridNode (base s2) node obj = false ->
               is_Some (nodeVelocity (base t) node !! obj))).
    { split; [apply rasterFrame_refl|]. split; [apply entriesKept_refl|]. intros; lia. }
    intros k t t' Hk (Hfr & Hkept & Hdone) Hstep.
    destruct (loopM _ _ t) as [v|] eqn:Hv; [|discriminate]. injection Hstep as <-.
    rewrite (rasterFrame_particleNum s2 t k Hfr) in Hv.
    assert (Hinner : rasterFrame s2 v /\ entriesKept (base t) (base v) /\
                     forall p i, (p < particleNumOfObject (base s2) k)%nat ->
                       (enrichedCornerNum s2 k p < corner_num Dim)%nat ->
                       (i < at2 0%nat (particle_grid_pair_num_ (base s2)) k p)%nat ->
                       let node := node_idx_ (at3 noPair
                                                (particle_grid_weight_and_gradient_ (base s2))
                                                k p i) in
                       (node < length (grid_velocity_ (base s2)))%nat ->
                       isDirichletGridNode (base s2) node k = false ->
                       is_Some (nodeVelocity (base v) node !! k)).
    { revert Hv.
      apply (loopM_ind (fun q w =>
               rasterFrame s2 w /\ entriesKept (base t) (base w) /\
               forall p i, (p < q)%nat ->
                 (enrichedCornerNum s2 k p < corner_num Dim)%nat ->
                 (i < at2 0%nat (particle_grid_pair_num_ (base s2)) k p)%nat ->
                 let node := node_idx_ (at3 noPair
                                          (particle_grid_weight_and_gradient_ (base s2))
                                          k p i) in
                 (node < length (grid_velocity_ (base s2)))%nat ->
                 isDirichletGridNode (base s2) node k = false ->
                 is_Some (nodeVelocity (base w) node !! k))).
      { split; [exact Hfr|]. split; [apply entriesKept_refl|]. intros; lia. }
      intros q w w' Hq (Hfrw & Hkw & Hdonew) Hstepw.
      destruct (rasterizeParticle_entries k q w w' Hstepw) as [Hkw' Hnew].
      split.
      { eapply rasterFrame_trans; [exact Hfrw|].
        apply (rasterizeParticle_scatter epsilon k q w w' Hstepw). }
      split; [eapply entriesKept_trans; eassumption|].
      intros p i Hp Hen Hi node Hnode Hnd.
      destruct (decide (p = q)) as [->|].
      - pose proof Hfrw as (Her & _ & Hlv & _).
        destruct (eraseGrid_pairs (base s2) (base w) k q i Her) as (Hpair & Hnum & _).
        unfold node. rewrite <- Hpair. apply Hnew.
        + rewrite (rasterFrame_enrichedCornerNum s2 w k q Hfrw). exact Hen.
        + rewrite Hnum. exact Hi.
        + rewrite Hpair, Hlv. exact Hnode.
        + rewrite Hpair, (eraseGrid_dirichlet (base s2) (base w) _ _ Her). exact Hnd.
      - apply Hkw'. apply (Hdonew p i); [lia|assumption..]. }
    destruct Hinner as (Hfrv & Hkv & Hk').
    destruct (computeDomainCornerVelocity_spec epsilon k v) as (Hnf & _).
    rewrite computeDomainCornerVelocity_base.
    split.
    { eapply rasterFrame_trans; [exact Hfrv|]. apply normalizeFrame_rasterFrame, Hnf. }
    split; [eapply entriesKept_trans; eassumption|].
    intros obj p i Hobj. destruct (decide (obj = k)) as [->|]; [apply Hk'|].
    intros Hp Hen Hi node Hnode Hnd. apply Hkv. apply (Hdone obj p i); [lia|assumption..]. }
  destruct Hinv as (_ & Hkept & Hp). split; [exact Hkept|exact Hp].
Qed.

Lemma foldl_is_Some {V} (f : gmap nat V -> nat -> gmap nat V) (ks : list nat)
  (m : gmap nat V) (o : nat) :
  (forall m k, is_Some (m !! o) -> is_Some (f m k !! o)) ->
  is_Some (m !! o) -> is_Some (foldl f m ks !! o).
Proof.
  intros Hf. revert m. induction ks as [|k ks IH]; intros m Hm; simpl; [exact Hm|].
  apply IH, Hf, Hm.
Qed.

Lemma solveParticleOnGrid_entries (dt : Scalar) (o q : nat) b :
  entriesKept b (solveParticleOnGrid epsilon dt o q b).
Proof.
  unfold solveParticleOnGrid.
  apply (loop_ind (fun _ c => entriesKept b c)); [apply entriesKept_refl|].
  intros i c _ Hc. eapply entriesKept_trans; [exact Hc|]. clear Hc.
  set (node := node_idx_ _).
  destruct (isDirichletGridNode c node o); [apply entriesKept_refl|].
  set (c1 := map_grid_mass (alter (touch 0 o) node) c).
  assert (H1 : entriesKept c c1) by (unfold c1; apply entriesKept_mass).
  destruct (decide (gridMass c1 o node <= epsilon)); [exact H1|].
  destruct (contact_method_ c1).
  - eapply entriesKept_trans; [exact H1|]. apply entriesKept_velocity.
    intros m o' Hm. apply is_Some_insert, Hm.
  - destruct (decide (0 < size _)%nat); [exact H1|].
    eapply entriesKept_trans; [exact H1|]. apply entriesKept_velocity.
    intros m o' Hm. apply foldl_is_Some; [|exact Hm].
    intros m' k Hm'. destruct (decide _); [apply is_Some_insert, Hm'|exact Hm'].
Qed.

Lemma cornerSolveFrame_base s t : cornerSolveFrame s t -> base t = base s.
Proof. intros (H & _). assert (Hx := f_equal base H). simpl in Hx. exact Hx. Qed.

Lemma solveOnGridForwardEuler_entries (dt : Scalar) s :
  entriesKept (base s) (base (solveOnGridForwardEuler epsilon dt s)).
Proof.
  unfold solveOnGridForwardEuler. cbn zeta.
  rewrite (cornerSolveFrame_base _ _ (proj1 (applyGravity_corner_values dt _))).
  apply (loop_ind (fun _ t => entriesKept (base s) (base t))); [apply entriesKept_refl|].
  intros o t _ Ht.
  apply (loop_ind (fun _ u => entriesKept (base s) (base u))); [exact Ht|].
  intros q u _ Hu. cbn zeta.
  assert (Hu' : entriesKept (base s)
                  (base (if decide (enrichedCornerNum u o q < corner_num Dim)%nat
                         then map_base (solveParticleOnGrid epsilon dt o q) u else u))).
  { destruct (decide _); [|exact Hu]. simpl.
    eapply entriesKept_trans; [exact Hu|apply solveParticleOnGrid_entries]. }
  destruct (decide (0 < enrichedCornerNum u o q)%nat); [|exact Hu'].
  rewrite (cornerSolveFrame_base _ _ (solveParticleOnCorners_frame epsilon dt o q _)).
  exact Hu'.
Qed.

Lemma particleInputs_eraseNodes b b' :
  eraseNodes b' = eraseNodes b -> particleInputs b' = particleInputs b.
Proof.
  intros H. change (particleInputs b') with (particleInputs (eraseNodes b')).
  rewrite H. reflexivity.
Qed.

Lemma particleInputs_eraseGrid b b' :
  eraseGrid b' = eraseGrid b -> particleInputs b' = particleInputs b.
Proof.
  intros H. change (particleInputs b') with (particleInputs (eraseGrid b')).
  rewrite H. reflexivity.
Qed.

Lemma particleInputs_fields b b' :
  particleInputs b' = particleInputs b ->
  objectNum b' = objectNum b /\
  (forall o, particleNumOfObject b' o = particleNumOfObject b o) /\
  is_dirichlet_particle_ b' = is_dirichlet_particle_ b /\
  particle_grid_pair_num_ b' = particle_grid_pair_num_ b /\
  particle_grid_weight_and_gradient_ b' = particle_grid_weight_and_gradient_ b /\
  (forall n o, isDirichletGridNode b' n o = isDirichletGridNode b n o) /\
  contact_method_ b' = contact_method_ b.
Proof.
  unfold particleInputs. intros [= H1 H2 H3 H4 H5 H6].
  unfold objectNum, particleNumOfObject, isDirichletGridNode.
  rewrite H1, H5. repeat split; assumption.
Qed.

Lemma velocityEntriesPresent_transport s t :
  objectNum (base t) = objectNum (base s) ->
  (forall o, particleNumOfObject (base t) o = particleNumOfObject (base s) o) ->
  is_dirichlet_particle_ (base t) = is_dirichlet_particle_ (base s) ->
  particle_grid_pair_num_ (base t) = particle_grid_pair_num_ (base s) ->
  particle_grid_weight_and_gradient_ (base t) = particle_grid_weight_and_gradient_ (base s) ->
  classification t = classification s ->
  (forall o n, gridMass (base t) o n = gridMass (base s) o n) ->
  entriesKept (base s) (base t) ->
  velocityEntriesPresent epsilon s -> velocityEntriesPresent epsilon t.
Proof.
  intros Hn Hpn Hdp Hnum Hpairs Hcl Hm [Hkv Hkb] Hs obj p i Hobj Hp Hd Hen Hi.
  rewrite Hpairs. cbn zeta. intros Hmass.
  destruct (Hs obj p i) as [A B].
  - rewrite <- Hn. exact Hobj.
  - rewrite <- Hpn. exact Hp.
  - rewrite <- Hdp. exact Hd.
  - rewrite <- (enrichedCornerNum_classification s t obj p Hcl). exact Hen.
  - rewrite <- Hnum. exact Hi.
  - rewrite <- Hm. exact Hmass.
  - split; [apply Hkv, A|apply Hkb, B].
Qed.

Lemma rasterize_entries (crit : nat -> nat -> bool) s sr :
  gridSized (base s) -> (forall o, gridTargetsInRange s o) ->
  (contact_method_ (base s) = true \/ dirichletVelocitiesSet (resetGridData (base s))) ->
  rasterize epsilon crit s = Some sr -> velocityEntriesPresent epsilon sr.
Proof.
  intros Hsized Hrange Hdir Hrun.
  pose proof (rasterize_classification epsilon crit s sr Hrun) as Hcl.
  unfold rasterize in Hrun.
  destruct (rasterizeBeforeMerge epsilon crit s) as [[t amap]|] eqn:Hbm; [|discriminate].
  injection Hrun as <-.
  destruct (beforeMerge_grid epsilon crit s t amap Hsized Hbm)
    as (Hc' & Hsized' & Hlen & Hobj & Hocc & Hamap).
  pose proof Hbm as Hbm'. unfold rasterizeBeforeMerge in Hbm'.
  set (s2 := updateParticleDomainEnrichState crit _) in *.
  destruct (rasterizeObjects epsilon s2) as [u|] eqn:Hu; [|discriminate].
  cbn zeta in Hbm'.
  set (st1 := determineActiveGridNodes epsilon (base u)) in *.
  match type of Hbm' with context [map_base (fun _ => ?x.1) u] => set (st' := x) in * end.
  injection Hbm' as Ht Hamap'.
  assert (Hbt : base t = st'.1) by (rewrite <- Ht; reflexivity).
  pose proof (rasterizeObjects_frame epsilon s2 u Hu) as Hfr.
  pose proof Hfr as (Her & Hlm & Hlv & _).
  assert (Hs2 : base s2 = resetGridData (base s)) by apply classified_base.
  destruct (resetGridData_lengths (base s)) as (Hr1 & Hr2 & Hr3).
  assert (Hempty : active_grid_node_ (base u) = []).
  { assert (H1 := f_equal active_grid_node_ Her). simpl in H1. rewrite H1, Hs2. reflexivity. }
  destruct (determineActiveGridNodes_spec epsilon (base u) Hempty) as (Hb1 & Hl1 & Hm1).
  fold st1 in Hb1, Hl1, Hm1.
  assert (Hid : forall e, e ∈ active_grid_node_ st1.1 -> st1.2 !! e.1 = Some e.1).
  { intros e He. rewrite Hl1 in He. apply elem_of_activeList in He. destruct He as [Hlt Hin].
    rewrite Hm1, decide_True; [reflexivity|]. split; [exact Hlt|].
    intros Hnil. rewrite Hnil in Hin. inversion Hin. }
  destruct (computeGridVelocity_spec st1) as (_ & Hdiv);
    [rewrite Hl1; apply NoDup_activeList|exact Hid|].
  destruct (computeGridVelocity_entries st1 Hid) as (Hk_t & Hp_t).
  fold st' in Hdiv, Hk_t, Hp_t.
  destruct (rasterizeObjects_entries s2 u Hu) as (Hk_u & Hp_u).
  destruct Hdiv as (He_t & _ & _ & _ & HM & _).
  assert (Hgm1 : grid_mass_ st1.1 = grid_mass_ (base u)) by (rewrite <- Hb1; reflexivity).
  assert (Hgv1 : grid_velocity_ st1.1 = grid_velocity_ (base u))
    by (rewrite <- Hb1; reflexivity).
  assert (Hgb1 : grid_velocity_before_ st1.1 = grid_velocity_before_ (base u))
    by (rewrite <- Hb1; reflexivity).
  assert (Hgbu : grid_velocity_before_ (base u) = grid_velocity_before_ (base s2)).
  { assert (H1 := f_equal grid_velocity_before_ Her). simpl in H1. exact H1. }
  (* the members that are only read *)
  assert (HPIu : particleInputs (base u) = particleInputs (base s)).
  { rewrite (particleInputs_eraseGrid _ _ Her), Hs2. reflexivity. }
  assert (HPI1 : particleInputs st1.1 = particleInputs (base s)).
  { rewrite <- HPIu, <- Hb1. reflexivity. }
  assert (HPIt : particleInputs (base t) = particleInputs (base s)).
  { rewrite Hbt, (particleInputs_eraseNodes _ _ He_t). exact HPI1. }
  destruct (particleInputs_fields _ _ HPIu) as (Hnu & Hpnu & Hdpu & Hnumu & Hpairsu & Hdnu & Hcu).
  destruct (particleInputs_fields _ _ HPIt) as (Hnt & Hpnt & Hdpt & Hnumt & Hpairst & Hdnt & Hct).
  assert (HPI2 : particleInputs (base s2) = particleInputs (base s))
    by (rewrite Hs2; reflexivity).
  destruct (particleInputs_fields _ _ HPI2) as (Hn2 & Hpn2 & Hdp2 & Hnum2 & Hpairs2 & Hdn2 & Hc2).
  (* masses above epsilon before the merge have both entries *)
  assert (F1 : forall obj node, (obj < objectNum (base s))%nat ->
            (node < length (grid_mass_ (base s)))%nat ->
            epsilon < gridMass (base t) obj node ->
            is_Some (nodeVelocity (base t) node !! obj) /\
            is_Some (nodeVelocityBefore (base t) node !! obj)).
  { intros obj node Ho Hnode Hmass. rewrite Hbt. apply Hp_t.
    - rewrite Hl1. apply elem_of_activeList. simpl. split; [rewrite Hlm, Hs2, Hr1; exact Hnode|].
      unfold activeObjects. apply list_elem_of_filter. split.
      + rewrite Hbt, HM in Hmass. unfold gridMass in Hmass |- *. rewrite <- Hgm1. exact Hmass.
      + apply elem_of_seq. rewrite Hnu. lia.
    - rewrite Hgv1, Hlv, Hs2, Hr2. destruct Hsized as (A & _). lia.
    - rewrite Hgb1, Hgbu, Hs2, Hr3. destruct Hsized as (_ & A & _). lia. }
  (* a scattered pair has a velocity entry before the merge *)
  assert (F2 : dirichletVelocitiesSet (resetGridData (base s)) ->
            forall obj p i, (obj < objectNum (base s))%nat ->
              (p < particleNumOfObject (base s) obj)%nat ->
              (enrichedCornerNum s2 obj p < corner_num Dim)%nat ->
              (i < at2 0%nat (particle_grid_pair_num_ (base s)) obj p)%nat ->
              let node := node_idx_ (at3 noPair (particle_grid_weight_and_gradient_ (base s))
                                       obj p i) in
              is_Some (nodeVelocity (base t) node !! obj)).
  { intros Hset obj p i Ho Hp Hen Hi node.
    assert (Hnode : (node < length (grid_mass_ (base s)))%nat) by (apply (Hrange obj p i Hp Hi)).
    rewrite Hbt. apply Hk_t. unfold nodeVelocity. rewrite Hgv1. fold (nodeVelocity (base u) node).
    destruct (isDirichletGridNode (base s) node obj) eqn:Hd.
    - apply Hk_u. rewrite Hs2. apply Hset. exact Hd.
    - unfold node. rewrite <- Hpairs2. apply Hp_u.
      + rewrite Hn2. exact Ho.
      + rewrite Hpn2. exact Hp.
      + exact Hen.
      + rewrite Hnum2. exact Hi.
      + rewrite Hpairs2. fold node. rewrite Hs2, Hr2. destruct Hsized as (A & _). lia.
      + rewrite Hpairs2, Hdn2. exact Hd. }
  set (bsr := unifyMultiValuedNodes (base t, amap)).
  assert (Hmain : particleInputs bsr = particleInputs (base s) /\
            forall obj p i, (obj < objectNum (base s))%nat ->
              (p < particleNumOfObject (base s) obj)%nat ->
              (enrichedCornerNum s2 obj p < corner_num Dim)%nat ->
              (i < at2 0%nat (particle_grid_pair_num_ (base s)) obj p)%nat ->
              let node := node_idx_ (at3 noPair (particle_grid_weight_and_gradient_ (base s))
                                       obj p i) in
              epsilon < gridMass bsr obj node ->
              is_Some (nodeVelocity bsr node !! obj) /\
              is_Some (nodeVelocityBefore bsr node !! obj)).
  { destruct (contact_method_ (base t)) eqn:Hcon.
    - assert (Hsame : bsr = base t).
      { unfold bsr, unifyMultiValuedNodes. simpl. rewrite Hcon. reflexivity. }
      rewrite Hsame. split; [exact HPIt|].
      intros obj p i Ho Hp Hen Hi node Hmass. apply F1; [exact Ho| |exact Hmass].
      apply (Hrange obj p i Hp Hi).
    - assert (Hset : dirichletVelocitiesSet (resetGridData (base s))).
      { destruct Hdir as [Habs|Hset]; [|exact Hset]. rewrite Hct in Hcon. congruence. }
      assert (Hmapid : forall k, is_Some (amap !! k) ->
                amap !! k = Some k /\ (k < length (grid_mass_ (base t)))%nat).
      { intros k Hk. rewrite Hamap in Hk |- *.
        destruct (decide (occupying (base t) k <> [])) as [Hne|He];
          [|destruct Hk; discriminate].
        split; [reflexivity|]. rewrite Hocc in Hne.
        destruct (decide (k < length (grid_mass_ (base s)))%nat); [lia|].
        exfalso. apply Hne. reflexivity. }
      destruct (unifyMultiValuedNodes_spec (base t) amap Hcon Hsized' Hmapid)
        as (He_sr & _ & _ & _ & Hnodes).
      destruct (unifyMultiValuedNodes_entries (base t) amap Hcon Hsized' Hmapid)
        as (Hk_sr & Hp_sr).
      fold bsr in He_sr, Hnodes, Hk_sr, Hp_sr.
      split; [rewrite (particleInputs_eraseNodes _ _ He_sr); exact HPIt|].
      intros obj p i Ho Hp Hen Hi node Hmass.
      destruct (Hnodes node) as [_ Hsn].
      destruct (decide (is_Some (amap !! node) /\ length (occupying (base t) node) <> 1%nat))
        as [[Hin Hmany]|Hno].
      + pose proof (F2 Hset obj p i Ho Hp Hen Hi) as Hv. cbn zeta in Hv. fold node in Hv.
        split; [apply Hk_sr, Hv|apply Hp_sr; assumption].
      + assert (Hsame : sameNode (base t) bsr node).
        { apply Hsn. destruct (amap !! node) eqn:Ha; [|left; reflexivity].
          right. destruct (decide (length (occupying (base t) node) = 1%nat)); [assumption|].
          exfalso. apply Hno. split; [eauto|assumption]. }
        destruct (sameNode_values (base t) bsr node obj Hsame) as (Hmv & _).
        destruct Hsame as (_ & Hvv & Hbb). rewrite Hvv, Hbb.
        apply F1; [exact Ho|apply (Hrange obj p i Hp Hi)|rewrite <- Hmv; exact Hmass]. }
  destruct Hmain as (HPIsr & Hall).
  destruct (particleInputs_fields _ _ HPIsr) as (Hnr & Hpnr & Hdpr & Hnumr & Hpairsr & _).
  intros obj p i Ho Hp Hd Hen Hi.
  change (base (map_base (fun b => unifyMultiValuedNodes (b, amap)) t)) with bsr in *.
  rewrite Hpairsr. apply Hall.
  - rewrite <- Hnr. exact Ho.
  - rewrite <- Hpnr. exact Hp.
  - rewrite <- (enrichedCornerNum_classification _ _ obj p Hcl). exact Hen.
  - rewrite <- Hnumr. exact Hi.
Qed.

Lemma solve_keeps_entries (dt : Scalar) s :
  velocityEntriesPresent epsilon s ->
  velocityEntriesPresent epsilon (solveOnGridForwardEuler epsilon dt s).
Proof.
  destruct (solve_invariant epsilon dt s) as (He & (Heg & _ & _ & Hm & _) & _).
  destruct (particleInputs_fields _ _ (particleInputs_eraseGrid _ _ Heg))
    as (Hn & Hpn & Hdp & Hnum & Hpairs & _).
  apply velocityEntriesPresent_transport; try assumption.
  - apply solveOnGridForwardEuler_classification.
  - apply solveOnGridForwardEuler_entries.
Qed.

Lemma constitutive_keeps_entries (dt : Scalar) s s' :
  updateParticleConstitutiveModelState dt s = Some s' ->
  velocityEntriesPresent epsilon s -> velocityEntriesPresent epsilon s'.
Proof.
  intros Hrun.
  destruct (update_sound dt s s' Hrun) as (Her & Hn & Hpn & _).
  assert (Hb : map_particles (fun _ => []) (base s') = map_particles (fun _ => []) (base s)).
  { assert (Hx := f_equal base Her). simpl in Hx. exact Hx. }
  assert (Hgm : grid_mass_ (base s') = grid_mass_ (base s)).
  { assert (Hx := f_equal grid_mass_ Hb). simpl in Hx. exact Hx. }
  assert (Hgv : grid_velocity_ (base s') = grid_velocity_ (base s)).
  { assert (Hx := f_equal grid_velocity_ Hb). simpl in Hx. exact Hx. }
  assert (Hgb : grid_velocity_before_ (base s') = grid_velocity_before_ (base s)).
  { assert (Hx := f_equal grid_velocity_before_ Hb). simpl in Hx. exact Hx. }
  apply velocityEntriesPresent_transport; try assumption.
  - assert (Hx := f_equal is_dirichlet_particle_ Hb). simpl in Hx. exact Hx.
  - assert (Hx := f_equal particle_grid_pair_num_ Hb). simpl in Hx. exact Hx.
  - assert (Hx := f_equal particle_grid_weight_and_gradient_ Hb). simpl in Hx. exact Hx.
  - apply (updateParticleConstitutiveModelState_classification dt s s' Hrun).
  - intros o n. unfold gridMass. rewrite Hgm. reflexivity.
  - split; intros n o; unfold nodeVelocity, nodeVelocityBefore; rewrite ?Hgv, ?Hgb; auto.
Qed.

(** X13: For every enrichment criterion, if after the grid reset every
    Dirichlet node of an object holds a velocity entry for it (or a contact
    method is configured), then [updateParticleVelocity] does not reach the
    [PHYSIKA_ERROR] of lines 349 and 353 in a step: every grid node that it
    reads with a mass above epsilon has the velocity entry and the
    before-update velocity entry it looks up (lines 346-353).  This is so
    right after [rasterize], after [solveOnGridForwardEuler], and after the
    constitutive update that follows it.  The storage is taken to be in
    range, with the weight record that line 364 reads. *)
Theorem velocity_update_returns_after_rasterize (crit : nat -> nat -> bool) (dt : Scalar) s sr :
  storageInRange s -> weightReadInRange s ->
  (contact_method_ (base s) = true \/ dirichletVelocitiesSet (resetGridData (base s))) ->
  rasterize epsilon crit s = Some sr ->
  (exists s', updateParticleVelocity epsilon sr = Some s') /\
  (exists s', updateParticleVelocity epsilon (solveOnGridForwardEuler epsilon dt sr) = Some s') /\
  (forall s3,
     updateParticleConstitutiveModelState dt (solveOnGridForwardEuler epsilon dt sr) = Some s3 ->
     exists s', updateParticleVelocity epsilon s3 = Some s').
Proof.
  intros (Hs1 & Hs2 & Hs3 & Hobjs) _ Hdir Hrun.
  assert (Hsized : gridSized (base s)) by (repeat split; assumption).
  assert (Hrange : forall o, gridTargetsInRange s o).
  { intros o p i Hp Hi.
    destruct (decide (o < objectNum (base s))%nat) as [Ho|Ho].
    - destruct (Hobjs o Ho) as (_ & _ & _ & _ & Hr & _). apply (Hr p i Hp Hi).
    - exfalso. unfold particleNumOfObject, objectNum, row in Hp, Ho.
      rewrite (lookup_ge_None_2 (particles_ (base s)) o) in Hp by lia. simpl in Hp. lia. }
  pose proof (rasterize_entries crit s sr Hsized Hrange Hdir Hrun) as Hsr.
  pose proof (solve_keeps_entries dt sr Hsr) as Hsolve.
  split; [apply velocityEntries_returns, Hsr|].
  split; [apply velocityEntries_returns, Hsolve|].
  intros s3 Hs3'. apply velocityEntries_returns.
  apply (constitutive_keeps_entries dt _ s3 Hs3' Hsolve).
Qed.

End StepSafety.

Lemma three_object_base_eq : base three_object_state = three_object_base.
Proof. reflexivity. Qed.

Lemma corner_num_2_one : (1 < corner_num 2)%nat.
Proof. change (corner_num 2) with 4%nat; lia. Qed.

Lemma rest_state_rows :
  length (row (particle_corner_gradient_ rest_state) 0)
  = length (row (particle_corner_weight_ rest_state) 0).
Proof. reflexivity. Qed.

Lemma rest_state_storage :
  length (particle_corner_gradient_ rest_state) = length (particle_corner_weight_ rest_state).
Proof. reflexivity. Qed.

(** On [rest_state] the corners 0 and 1 of the particle are the same vertex
    of the constructed mesh exactly when they have the same position. *)
Lemma constructed_mesh_welds_equal_corners_witness :
  eleVertIndex (mesh (constructParticleDomainMesh rest_state) 0) 0 0
  = eleVertIndex (mesh (constructParticleDomainMesh rest_state) 0) 0 1 <->
  at3 vzero (particle_domain_corners_ (base rest_state)) 0 0 0
  = at3 vzero (particle_domain_corners_ (base rest_state)) 0 0 1.
Proof.
  exact (proj2 (constructed_mesh_welds_equal_corners rest_state 0 0 0 0 1
                  rest_state_objects rest_state_particles corner_num_2_pos
                  rest_state_particles corner_num_2_one)).
Defined.

Lemma rest_state_object_count (f : CPDIMPMSolid 2 -> CPDIMPMSolid 2) :
  objectNum (f (base rest_state)) = 2%nat ->
  (0 < Z.of_nat (objectNum (f (base rest_state))) < 2 ^ 32)%Z.
Proof. intros ->. split; reflexivity. Qed.

Lemma rest_state_aligned : storageAligned rest_state.
Proof.
  split; (split; [reflexivity|]); intros o Ho;
    change (length (particles_ (base rest_state))) with 1%nat in Ho;
    (destruct o; [reflexivity|lia]).
Qed.

Lemma rest_state_one_object : (0 < objectNum (base rest_state))%nat.
Proof. vm_compute. lia. Qed.

(** On [rest_state], with a base class that appends a particle to object 0
    of its own array, or an empty new object, the storage is aligned after
    [appendLastParticleRelatedDataOfObject] and after
    [appendAllParticleRelatedDataOfLastObject]. *)
Lemma C9_witness :
  storageAligned
    (appendLastParticleRelatedDataOfObject
       (fun o => map_particles (alter (fun r => r ++ [noParticle]) o)) 0 rest_state) /\
  storageAligned
    (appendAllParticleRelatedDataOfLastObject
       (map_particles (fun l => l ++ [[]])) rest_state).
Proof.
  pose proof (C9_life_cycle_storage
                (map_particles (fun l => l ++ [[]]))
                (fun o => map_particles (alter (fun r => r ++ [noParticle]) o))
                (fun _ b => b) (fun _ _ b => b) rest_state 0 0) as (H1 & H2 & _).
  split.
  - exact (proj2 (proj2 (proj2 (proj2 H2))) noParticle rest_state_one_object
             (alter_snoc_appended _ _ _) rest_state_aligned).
  - exact (proj2 (proj2 (proj2 (proj2
             (H1 (rest_state_object_count (map_particles (fun l => l ++ [[]])) eq_refl)))))
             [] (snoc_object_appended _ _) rest_state_aligned).
Defined.

(** On [rest_state], with a base class that appends and deletes the
    particle and the (empty) object in its own array, appending a particle
    record to object 0 and deleting it again restores the corner weights,
    and so does appending the records of a new object and deleting them. *)
Lemma delete_after_append_restores_storage_witness :
  let addObject := map_particles (fun l : list (list (SolidParticle 2)) => l ++ [[]]) in
  let addParticle (o : nat) :=
    map_particles (alter (fun r : list (SolidParticle 2) => r ++ [noParticle]) o) in
  let dropObject (o : nat) :=
    map_particles (delete o : list (list (SolidParticle 2)) -> _) in
  let dropParticle (o q : nat) :=
    map_particles (alter (delete q : list (SolidParticle 2) -> _) o) in
  particle_corner_weight_
    (deleteOneParticleRelatedDataOfObject dropParticle 0
       (length (row (particle_corner_weight_ rest_state) 0))
       (appendLastParticleRelatedDataOfObject addParticle 0 rest_state))
  = particle_corner_weight_ rest_state /\
  particle_corner_weight_
    (deleteAllParticleRelatedDataOfObject dropObject
       (length (particle_corner_weight_ rest_state))
       (appendAllParticleRelatedDataOfLastObject addObject rest_state))
  = particle_corner_weight_ rest_state.
Proof.
  intros addObject addParticle dropObject dropParticle.
  pose proof (delete_after_append_restores_storage
                addObject addParticle dropObject dropParticle
                rest_state 0 rest_state_rows rest_state_storage) as [H1 H2].
  split; [exact (proj1 H1)|].
  exact (proj1 (H2 (rest_state_object_count addObject eq_refl))).
Defined.

(** ** The explicit solve without internal forces *)

Section ForceFreeSolve.
Context {Dim : nat}.
Variable epsilon : Scalar.
Implicit Types b : CPDIMPMSolid Dim.
Implicit Types s t : InvertibleMPMSolid Dim.

Lemma tmap_constant {A B} (f : A -> B) (c : B) (n : nat) (t : Tup A n) :
  (forall x, f x = c) -> tmap f n t = tconst n c.
Proof.
  intros Hf. induction n as [|n IH]; simpl; [destruct t; reflexivity|].
  rewrite Hf, IH. reflexivity.
Qed.

Lemma vadd_vzero (v : Vector Dim) : vadd v vzero = v.
Proof.
  unfold vadd, vzero. induction Dim as [|n IH]; simpl; [destruct v; reflexivity|].
  destruct v as [x v]. simpl. rewrite IH, Qcplus_0_r. reflexivity.
Qed.

Lemma dot_zero (n : nat) (v : Tup Scalar n) :
  tfold Qcplus 0 n (tzip Qcmult n (tconst n 0) v) = 0.
Proof.
  induction n as [|n IH]; simpl; [reflexivity|].
  rewrite IH, Qcmult_0_l. apply Qcplus_0_r.
Qed.

Lemma mvmul_mzero (v : Vector Dim) : mvmul (mzero : SquareMatrix Dim) v = vzero.
Proof.
  unfold mvmul, mzero, vzero. rewrite tmap_tconst. f_equal. apply dot_zero.
Qed.

Lemma mscale_mzero (k : Scalar) : mscale k (mzero : SquareMatrix Dim) = mzero.
Proof.
  unfold mscale, mzero. rewrite tmap_tconst. f_equal.
  unfold vscale, vzero. rewrite tmap_tconst. f_equal. apply Qcmult_0_r.
Qed.

Lemma mscale_zero (A : SquareMatrix Dim) : mscale 0 A = mzero.
Proof.
  unfold mscale, mzero. apply tmap_constant. intros x.
  unfold vscale, vzero. apply tmap_constant. intros y. apply Qcmult_0_l.
Qed.

Lemma internalForceDelta_zero (dt : Scalar) (p : SolidParticle Dim) (w : Vector Dim)
  (m : Scalar) :
  dt = 0 \/ cauchyStress p = mzero -> internalForceDelta dt p w m = vzero.
Proof.
  unfold internalForceDelta. intros [-> | ->].
  - rewrite !Qcmult_0_l, mscale_zero, mvmul_mzero. apply vdiv_vzero.
  - rewrite mscale_mzero, mvmul_mzero. apply vdiv_vzero.
Qed.

Lemma default_foldl_add_zero (P : nat -> Prop) `{forall k, Decision (P k)}
  (ks : list nat) (m : gmap nat (Vector Dim)) (o : nat) :
  default vzero
    (foldl (fun m k => if decide (P k)
                       then <[k := vadd (default vzero (m !! k)) vzero]> m else m) m ks !! o)
  = default vzero (m !! o).
Proof.
  revert m. induction ks as [|k ks IH]; intros m; simpl; [reflexivity|].
  rewrite IH. destruct (decide (P k)); [|reflexivity].
  destruct (decide (k = o)) as [->|Hne].
  - rewrite lookup_insert_eq. simpl. apply vadd_vzero.
  - rewrite lookup_insert_ne by exact Hne. reflexivity.
Qed.

Lemma solveParticleOnGrid_no_force (dt : Scalar) (o q : nat) b :
  (forall w m, internalForceDelta dt (particle b o q) w m = vzero) ->
  forall o' n', gridVelocity (solveParticleOnGrid epsilon dt o q b) o' n' = gridVelocity b o' n'.
Proof.
  intros Hforce. unfold solveParticleOnGrid.
  apply (loop_ind (fun _ c => forall o' n', gridVelocity c o' n' = gridVelocity b o' n'));
    [reflexivity|].
  intros i c _ Hc o' n'. rewrite <- Hc. clear Hc.
  set (node := node_idx_ _).
  destruct (isDirichletGridNode c node o); [reflexivity|].
  set (c1 := map_grid_mass (alter (touch 0 o) node) c).
  destruct (decide (gridMass c1 o node <= epsilon)); [reflexivity|].
  rewrite Hforce.
  destruct (contact_method_ c1).
  - rewrite gridVelocity_set.
    destruct (decide _) as [(<- & <- & _)|_]; [|reflexivity].
    rewrite vadd_vzero, gridVelocity_nodeVelocity. reflexivity.
  - destruct (decide (0 < size _)%nat); [reflexivity|].
    rewrite !gridVelocity_nodeVelocity, nodeVelocity_alter.
    destruct (decide _) as [[<- _]|_]; [|reflexivity].
    apply (default_foldl_add_zero (fun k => epsilon < gridMass c1 k node)).
Qed.

Lemma solveParticleOnCorners_no_force (dt : Scalar) (o q : nat) s :
  (forall w m, internalForceDelta dt (particle (base s) o q) w m = vzero) ->
  forall obj g,
    cornerVelocity (solveParticleOnCorners epsilon dt o q s) obj g = cornerVelocity s obj g.
Proof.
  intros Hforce. unfold solveParticleOnCorners.
  apply (loop_ind (fun _ t => forall obj g, cornerVelocity t obj g = cornerVelocity s obj g));
    [reflexivity|].
  intros c t _ Ht obj g. rewrite <- Ht. clear Ht.
  destruct (isEnriched t o _); [|reflexivity].
  destruct (decide _); [reflexivity|].
  rewrite cornerVelocity_alter.
  destruct (decide _) as [(<- & <- & _)|_]; [|reflexivity].
  rewrite Hforce. apply vadd_vzero.
Qed.

(** X16: Without internal forces the solve is gravity alone: when the time step
    is zero or no particle carries stress, [solveOnGridForwardEuler] leaves
    every grid velocity as it is, and changes a corner velocity only by the
    gravity term of [applyGravityOnEnrichedDomainCorner]. *)
Theorem solve_without_internal_force (dt : Scalar) s (o n obj g j : nat) :
  dt = 0 \/ (forall obj p, cauchyStress (particle (base s) obj p) = mzero) ->
  let t := solveOnGridForwardEuler epsilon dt s in
  gridVelocity (base t) o n = gridVelocity (base s) o n /\
  tget 0 Dim j (cornerVelocity t obj g) =
    if decide ((obj < objectNum (base s))%nat /\
               (g < length (row (domain_corner_velocity_ s) obj))%nat /\
               isEnriched s obj g = true /\ j = 1%nat /\ (1 < Dim)%nat)
    then tget 0 Dim j (cornerVelocity s obj g) + dt * (- (1)) * gravity_ (base s)
    else tget 0 Dim j (cornerVelocity s obj g).
Proof.
  intros Hfree.
  assert (Hforce : forall obj p w m,
            internalForceDelta dt (particle (base s) obj p) w m = vzero).
  { intros obj' p w m. apply internalForceDelta_zero.
    destruct Hfree as [?|Hs]; [left; assumption|right; apply Hs]. }
  pose (Inv := fun u : InvertibleMPMSolid Dim =>
    eraseVelocities u = eraseVelocities s /\
    (forall obj, length (row (domain_corner_velocity_ u) obj)
                 = length (row (domain_corner_velocity_ s) obj)) /\
    (forall o n, gridVelocity (base u) o n = gridVelocity (base s) o n) /\
    (forall obj g, cornerVelocity u obj g = cornerVelocity s obj g)).
  assert (Hpart : forall u o q, Inv u -> particle (base u) o q = particle (base s) o q).
  { intros u o' q (He & _). unfold particle.
    assert (Hx := f_equal (fun x => particles_ (base x)) He). simpl in Hx. rewrite Hx.
    reflexivity. }
  unfold solveOnGridForwardEuler. cbn zeta.
  match goal with
  | |- context [applyGravityOnEnrichedDomainCorner dt ?x] => set (v := x)
  end.
  assert (Hv : Inv v).
  { unfold v. apply (loop_ind (fun _ u => Inv u)).
    { unfold Inv. repeat split. }
    intros o' u _ Hu. apply (loop_ind (fun _ w => Inv w)); [exact Hu|].
    intros q w _ Hw. cbn zeta.
    assert (Hw' : Inv (if decide (enrichedCornerNum w o' q < corner_num Dim)%nat
                       then map_base (solveParticleOnGrid epsilon dt o' q) w else w)).
    { destruct (decide _); [|exact Hw].
      pose proof (Hpart w o' q Hw) as Hp.
      destruct Hw as (He & Hl & Hg & Hc).
      destruct (solveParticleOnGrid_frame epsilon dt o' q (base w)) as (Hx & _).
      split.
      { rewrite <- He. unfold eraseVelocities, map_corner_velocity, map_base. simpl.
        rewrite Hx. reflexivity. }
      split; [exact Hl|]. split; [|exact Hc].
      intros o'' n''. simpl. rewrite solveParticleOnGrid_no_force; [apply Hg|].
      intros w0 m. rewrite Hp. apply Hforce. }
    destruct (decide (0 < enrichedCornerNum w o' q)%nat); [|exact Hw'].
    set (w1 := if decide (enrichedCornerNum w o' q < corner_num Dim)%nat
               then map_base (solveParticleOnGrid epsilon dt o' q) w else w) in *.
    pose proof (Hpart w1 o' q Hw') as Hp.
    destruct Hw' as (He & Hl & Hg & Hc).
    destruct (solveParticleOnCorners_frame epsilon dt o' q w1) as (Hc1 & Hc2 & _).
    split.
    { change (eraseVelocities (solveParticleOnCorners epsilon dt o' q w1))
        with (map_base eraseGrid
                (map_corner_velocity (fun _ => []) (solveParticleOnCorners epsilon dt o' q w1))).
      rewrite Hc1. exact He. }
    split; [intros obj'; rewrite Hc2; apply Hl|].
    split.
    { assert (Hb : base (solveParticleOnCorners epsilon dt o' q w1) = base w1).
      { assert (Hx := f_equal base Hc1). simpl in Hx. exact Hx. }
      rewrite Hb. exact Hg. }
    intros obj' g'. rewrite solveParticleOnCorners_no_force; [apply Hc|].
    intros w0 m. rewrite Hp. apply Hforce. }
  destruct Hv as (He & Hl & Hg & Hc).
  destruct (applyGravity_corner_values dt v) as (Hfr & Hval).
  assert (Hb : base (applyGravityOnEnrichedDomainCorner dt v) = base v).
  { destruct Hfr as (Hx & _). assert (Hy := f_equal base Hx). simpl in Hy. exact Hy. }
  split; [rewrite Hb; apply Hg|].
  rewrite Hval, Hl, Hc.
  assert (Hn : objectNum (base v) = objectNum (base s)).
  { unfold objectNum. assert (Hx := f_equal (fun x => particles_ (base x)) He). simpl in Hx.
    rewrite Hx. reflexivity. }
  assert (Hgr : gravity_ (base v) = gravity_ (base s)).
  { assert (Hx := f_equal (fun x => gravity_ (base x)) He). simpl in Hx. exact Hx. }
  assert (Hen : isEnriched v obj g = isEnriched s obj g).
  { unfold isEnriched. assert (Hx := f_equal is_enriched_domain_corner_ He). simpl in Hx.
    rewrite Hx. reflexivity. }
  rewrite Hn, Hgr, Hen.
  destruct (decide ((obj < objectNum (base s))%nat /\ _ /\ isEnriched s obj g = true))
    as [(H1 & H2 & H3)|Hno].
  - rewrite tget_talter.
    destruct (decide (1%nat = j /\ (j < Dim)%nat)) as [[<- Hlt]|Hno'].
    + rewrite decide_True by auto. reflexivity.
    + rewrite decide_False; [reflexivity|]. intros (_ & _ & _ & -> & Hlt). apply Hno'. auto.
  - rewrite decide_False; [reflexivity|]. intros (A1 & A2 & A3 & _). apply Hno. auto.
Qed.

End ForceFreeSolve.

Lemma three_object_stress_free (obj p : nat) :
  cauchyStress (particle (base three_object_state) obj p) = mzero.
Proof.
  rewrite three_object_base_eq.
  destruct obj as [|[|[|obj]]]; destruct p as [|p]; reflexivity.
Qed.

(** On [three_object_state], whose particles carry no stress, a solve with
    time step 1 leaves the velocity of object 1 at node 0 as it is. *)
Lemma solve_without_internal_force_witness :
  gridVelocity (base (solveOnGridForwardEuler eps_float 1 three_object_state)) 1 0
  = gridVelocity (base three_object_state) 1 0.
Proof.
  exact (proj1 (solve_without_internal_force eps_float 1 three_object_state 1 0 0 0 0
                  (or_intror three_object_stress_free))).
Defined.

(** ** The step under the built-in enrichment criterion *)

Section BuiltinStep.
Context {Dim : nat}.
Variable epsilon : Scalar.
Implicit Types b : CPDIMPMSolid Dim.
Implicit Types s t u : InvertibleMPMSolid Dim.

Lemma corner_num_pos : (0 < corner_num Dim)%nat.
Proof. unfold corner_num. destruct (decide _); lia. Qed.

Lemma fullyEnriched_transport s t :
  classification t = classification s ->
  objectNum (base t) = objectNum (base s) ->
  (forall o, particleNumOfObject (base t) o = particleNumOfObject (base s) o) ->
  fullyEnriched s -> fullyEnriched t.
Proof.
  intros Hcl Hn Hp Hs obj p Hobj Hlt.
  rewrite (enrichedCornerNum_classification s t obj p Hcl).
  apply Hs; [rewrite <- Hn; exact Hobj|rewrite <- Hp; exact Hlt].
Qed.

Lemma builtin_fullyEnriched s :
  (forall obj, (obj < objectNum (base s))%nat -> wellFormedDomainMesh s obj) ->
  let s2 := updateParticleDomainEnrichState isEnrichCriteriaSatisfied
              (resetParticleDomainData (map_base resetGridData s)) in
  base s2 = resetGridData (base s) /\
  (forall obj g, (obj < objectNum (base s))%nat -> (g < vertNum (mesh s obj))%nat ->
     isEnriched s2 obj g = true) /\
  fullyEnriched s2.
Proof.
  intros Hwf s2.
  set (s0 := resetParticleDomainData (map_base resetGridData s)) in *.
  destruct (reset_spec (map_base resetGridData s)) as (Hfr & Hsh & _). fold s0 in Hfr, Hsh.
  assert (Hb0 : base s0 = resetGridData (base s)) by apply Hfr.
  assert (Hb2 : base s2 = resetGridData (base s)) by apply classified_base.
  assert (Hall : forall obj, (obj < objectNum (base s))%nat ->
            (forall g, (g < vertNum (mesh s obj))%nat -> isEnriched s2 obj g = true) /\
            (forall t p, classification t = classification s2 ->
               (p < particleNumOfObject (base s) obj)%nat ->
               enrichedCornerNum t obj p = corner_num Dim)).
  { intros obj Hobj.
    assert (Hwf0 : wellFormedDomainMesh s0 obj).
    { apply (wellFormedDomainMesh_frame (map_base resetGridData s) s0 obj Hfr Hsh).
      exact (Hwf obj Hobj). }
    assert (Hm : mesh s0 obj = mesh s obj) by (apply (mesh_frame _ _ obj Hfr)).
    assert (Hobj0 : (obj < objectNum (base s0))%nat) by (rewrite Hb0; exact Hobj).
    destruct (builtin_enriches_all s0 obj Hobj0 Hwf0) as (Ha & Hnum).
    fold s2 in Ha, Hnum. rewrite Hm in Ha. rewrite Hb0 in Hnum. split; assumption. }
  split; [exact Hb2|]. split.
  - intros obj g Hobj Hg. apply (Hall obj Hobj), Hg.
  - intros obj p Hobj Hp. rewrite Hb2 in Hobj, Hp.
    apply (Hall obj Hobj); [reflexivity|exact Hp].
Qed.

(** Lines 104-155 for a fully enriched particle: the branch of lines
    108-141 is skipped. *)
Lemma rasterizeParticle_enriched t (obj p : nat) :
  enrichedCornerNum t obj p = corner_num Dim ->
  rasterizeParticle epsilon obj p t = Some (rasterizeParticleToCorners obj p t).
Proof.
  intros Hn. unfold rasterizeParticle. rewrite Hn.
  destruct (decide (corner_num Dim < corner_num Dim)%nat) as [Hlt|_]; [lia|].
  destruct (decide (0 < corner_num Dim)%nat) as [_|Hno]; [reflexivity|].
  exfalso. apply Hno, corner_num_pos.
Qed.

Lemma particleVelocityGradient_enriched t (obj p : nat) :
  enrichedCornerNum t obj p = corner_num Dim ->
  particleVelocityGradient t obj p = cornerVelocityGradient t obj p.
Proof.
  intros Hn. unfold particleVelocityGradient, cornerVelocityGradient. rewrite Hn.
  destruct (decide (corner_num Dim < corner_num Dim)%nat) as [Hlt|_]; [lia|].
  destruct (decide (0 < corner_num Dim)%nat) as [_|Hno]; [reflexivity|].
  exfalso. apply Hno, corner_num_pos.
Qed.

Lemma updateOneParticleVelocity_enriched t (obj p : nat) :
  enrichedCornerNum t obj p = corner_num Dim ->
  updateOneParticleVelocity epsilon obj p t =
  Some (if at2 false (is_dirichlet_particle_ (base t)) obj p then t
        else cornerVelocityUpdate t obj p).
Proof.
  intros Hn. unfold updateOneParticleVelocity, cornerVelocityUpdate.
  destruct (at2 false (is_dirichlet_particle_ (base t)) obj p); [reflexivity|].
  rewrite Hn.
  destruct (decide (corner_num Dim < corner_num Dim)%nat) as [Hlt|_]; [lia|].
  destruct (decide (0 < corner_num Dim)%nat) as [_|Hno]; [reflexivity|].
  exfalso. apply Hno, corner_num_pos.
Qed.

(** The scatter of lines 102-163 leaves the base class, and with it the
    grid, as it is when every particle is fully enriched. *)
Lemma rasterizeObjects_enriched s2 :
  fullyEnriched s2 ->
  exists u, rasterizeObjects epsilon s2 = Some u /\ base u = base s2 /\
            classification u = classification s2.
Proof.
  intros Hfull. unfold rasterizeObjects.
  pose (Inv := fun t => base t = base s2 /\ classification t = classification s2).
  destruct (loopM_total (fun _ t => Inv t) (objectNum (base s2))
              (fun obj_idx s =>
                 match loopM (particleNumOfObject (base s) obj_idx)
                         (rasterizeParticle epsilon obj_idx) s with
                 | Some s => Some (computeDomainCornerVelocity epsilon obj_idx s)
                 | None => None
                 end) s2) as (u & Hu & Hinv).
  - split; reflexivity.
  - intros k t Hk [Hbt Hct].
    destruct (loopM_total (fun _ v => Inv v) (particleNumOfObject (base t) k)
                (rasterizeParticle epsilon k) t) as (v & Hv & [Hbv Hcv]).
    + split; assumption.
    + intros p v Hp [Hbv Hcv]. eexists. split.
      * apply rasterizeParticle_enriched.
        rewrite (enrichedCornerNum_classification s2 v k p Hcv).
        apply Hfull; [exact Hk|]. rewrite <- Hbt. exact Hp.
      * split.
        -- rewrite rasterizeParticleToCorners_base. exact Hbv.
        -- rewrite rasterizeParticleToCorners_classification. exact Hcv.
    + rewrite Hv. eexists. split; [reflexivity|]. split.
      * rewrite computeDomainCornerVelocity_base. exact Hbv.
      * rewrite computeDomainCornerVelocity_classification. exact Hcv.
  - exists u. split; [exact Hu|exact Hinv].
Qed.

Lemma unifyNode_particleInputs (n k : nat) b :
  particleInputs (unifyNode n k b) = particleInputs b.
Proof.
  unfold unifyNode.
  destruct (decide _) as [|_]; [reflexivity|].
  pose proof (accumulateAtNode_spec k (equal_range n (active_grid_node_ b)) b) as Hacc.
  cbn zeta in Hacc.
  destruct (accumulateAtNode k (equal_range n (active_grid_node_ b)) b) as [[b1 M] P].
  simpl in Hacc. destruct Hacc as (He & _).
  rewrite <- (particleInputs_eraseNodes _ _ He). reflexivity.
Qed.

Lemma unifyMultiValuedNodes_particleInputs b (amap : gmap nat nat) :
  particleInputs (unifyMultiValuedNodes (b, amap)) = particleInputs b.
Proof.
  unfold unifyMultiValuedNodes. simpl.
  destruct (contact_method_ b); [reflexivity|].
  apply (foldl_frame particleInputs). intros t e. apply unifyNode_particleInputs.
Qed.

(** [rasterize] leaves the members of the base class that it only reads. *)
Lemma rasterize_particleInputs (crit : nat -> nat -> bool) s sr :
  rasterize epsilon crit s = Some sr ->
  particleInputs (base sr) = particleInputs (base s).
Proof.
  unfold rasterize. intros Hrun.
  destruct (rasterizeBeforeMerge epsilon crit s) as [[t amap]|] eqn:Hbm; [|discriminate].
  injection Hrun as <-.
  destruct (rasterizeBeforeMerge_spec epsilon crit s t amap Hbm)
    as (u & b1 & Hu & _ & Hb1 & _ & Hdiv & _).
  simpl. rewrite unifyMultiValuedNodes_particleInputs.
  destruct Hdiv as (He & _).
  rewrite (particleInputs_eraseNodes _ _ He).
  change (particleInputs b1) with (particleInputs (map_active_grid_node (fun _ => []) b1)).
  rewrite Hb1.
  pose proof (rasterizeObjects_frame epsilon _ u Hu) as (Her & _).
  rewrite (particleInputs_eraseGrid _ _ Her), classified_base. reflexivity.
Qed.

(** The explicit solve leaves the base class, and with it the grid, as it
    is when every particle is fully enriched. *)
Lemma solveOnGridForwardEuler_enriched (dt : Scalar) t :
  fullyEnriched t -> base (solveOnGridForwardEuler epsilon dt t) = base t.
Proof.
  intros Hfull. unfold solveOnGridForwardEuler.
  rewrite (cornerSolveFrame_base _ _ (proj1 (applyGravity_corner_values dt _))).
  pose (Inv := fun u => base u = base t /\ classification u = classification t).
  assert (H : Inv (loop (objectNum (base t))
                     (fun obj_idx s =>
                        loop (particleNumOfObject (base s) obj_idx)
                          (fun particle_idx s =>
                             let enriched_corner_num :=
                               enrichedCornerNum s obj_idx particle_idx in
                             let s :=
                               if decide (enriched_corner_num < corner_num Dim)%nat
                               then map_base (solveParticleOnGrid epsilon dt obj_idx particle_idx) s
                               else s in
                             if decide (0 < enriched_corner_num)%nat
                             then solveParticleOnCorners epsilon dt obj_idx particle_idx s
                             else s)
                          s)
                     t)); [|exact (proj1 H)].
  apply (loop_ind (fun _ u => Inv u)); [split; reflexivity|].
  intros o u Ho [Hbu Hcu].
  apply (loop_ind (fun _ v => Inv v)); [split; assumption|].
  intros q v Hq [Hbv Hcv]. cbn zeta.
  assert (Hn : enrichedCornerNum v o q = corner_num Dim).
  { rewrite (enrichedCornerNum_classification t v o q Hcv).
    apply Hfull; [exact Ho|]. rewrite <- Hbu. exact Hq. }
  rewrite Hn.
  destruct (decide (corner_num Dim < corner_num Dim)%nat) as [Hlt|_]; [lia|].
  destruct (decide (0 < corner_num Dim)%nat) as [_|Hno];
    [|exfalso; apply Hno, corner_num_pos].
  split.
  - rewrite (cornerSolveFrame_base _ _ (solveParticleOnCorners_frame epsilon dt o q v)).
    exact Hbv.
  - rewrite solveParticleOnCorners_classification. exact Hcv.
Qed.

Lemma updateParticleVelocity_counts t t' :
  updateParticleVelocity epsilon t = Some t' ->
  objectNum (base t') = objectNum (base t) /\
  forall o, particleNumOfObject (base t') o = particleNumOfObject (base t) o.
Proof.
  unfold updateParticleVelocity.
  pose (Inv := fun u : InvertibleMPMSolid Dim =>
    erase_particles u = erase_particles t /\
    objectNum (base u) = objectNum (base t) /\
    forall o, particleNumOfObject (base u) o = particleNumOfObject (base t) o).
  intros Hrun.
  assert (H : Inv t'); [|exact (proj2 H)].
  revert Hrun. apply (loopM_ind (fun _ u => Inv u)); [repeat split|].
  intros o u u' _ Hu. apply (loopM_ind (fun _ v => Inv v)); [exact Hu|].
  intros q v v' _ (He & Hn & Hp) Hstep.
  destruct (updateOneParticleVelocity_step epsilon o q t v v' He Hstep) as (He' & Hp' & Hn' & _).
  split; [exact He'|]. split; [congruence|]. intros o'. rewrite Hp'. apply Hp.
Qed.

Lemma updateParticleVelocity_enriched t :
  fullyEnriched t -> exists t', updateParticleVelocity epsilon t = Some t'.
Proof.
  intros Hfull. apply velocityEntries_returns.
  intros obj p i Hobj Hp _ Hlt. rewrite (Hfull obj p Hobj Hp) in Hlt. lia.
Qed.

Lemma gridMass_resetGridData b (o n : nat) : gridMass (resetGridData b) o n = 0.
Proof.
  unfold gridMass, resetGridData. simpl. rewrite list_lookup_fmap.
  destruct (grid_mass_ b !! n); reflexivity.
Qed.

Lemma unifyMultiValuedNodes_empty b : unifyMultiValuedNodes (b, ∅) = b.
Proof.
  unfold unifyMultiValuedNodes. simpl. destruct (contact_method_ b); reflexivity.
Qed.

(** With a grid reset to zero mass and a non-negative epsilon (the source
    has the positive constant [std::numeric_limits<Scalar>::epsilon()]) no
    node is active. *)
Lemma activeObjects_reset b b' (n : nat) :
  0 <= epsilon -> b' = resetGridData b -> activeObjects epsilon b' n = [].
Proof.
  intros Heps ->. apply elem_of_nil_inv. intros o Ho.
  unfold activeObjects in Ho. apply list_elem_of_filter in Ho. destruct Ho as [Hlt _].
  rewrite gridMass_resetGridData in Hlt.
  exact (Qclt_not_le _ _ Hlt Heps).
Qed.

(** Under the built-in criterion the map of active nodes that the merge of
    lines 189-231 walks is empty. *)
Lemma builtin_no_active_node s t (amap : gmap nat nat) :
  0 <= epsilon ->
  (forall obj, (obj < objectNum (base s))%nat -> wellFormedDomainMesh s obj) ->
  rasterizeBeforeMerge epsilon isEnrichCriteriaSatisfied s = Some (t, amap) ->
  amap = ∅.
Proof.
  intros Heps Hwf Hbm.
  destruct (builtin_fullyEnriched s Hwf) as (Hb2 & _ & Hfull2).
  destruct (rasterizeObjects_enriched _ Hfull2) as (u & Hu & Hbu & _).
  destruct (rasterizeBeforeMerge_spec epsilon _ s t amap Hbm)
    as (u' & b1 & Hu' & _ & _ & _ & _ & Hamap).
  rewrite Hu in Hu'. injection Hu' as <-.
  apply map_empty. intros n. rewrite Hamap.
  rewrite (activeObjects_reset (base s) (base u) n Heps) by (rewrite Hbu; exact Hb2).
  destruct (decide _) as [[_ Hne]|_]; [contradiction|reflexivity].
Qed.

Lemma map_active_grid_node_nil b :
  active_grid_node_ b = [] -> map_active_grid_node (fun _ => []) b = b.
Proof. destruct b. simpl. intros ->. reflexivity. Qed.

(** Under the built-in criterion [rasterize] leaves the base class, and with
    it the grid, as [resetGridData] left it. *)
Lemma rasterize_enriched_base s sr :
  0 <= epsilon ->
  (forall obj, (obj < objectNum (base s))%nat -> wellFormedDomainMesh s obj) ->
  rasterize epsilon isEnrichCriteriaSatisfied s = Some sr ->
  base sr = resetGridData (base s).
Proof.
  intros Heps Hwf Hsr.
  destruct (builtin_fullyEnriched s Hwf) as (Hb2 & _ & Hfull2).
  destruct (rasterizeObjects_enriched _ Hfull2) as (u & Hu & Hbu & _).
  unfold rasterize in Hsr.
  destruct (rasterizeBeforeMerge epsilon isEnrichCriteriaSatisfied s) as [[t amap]|] eqn:Hbm;
    [|discriminate].
  injection Hsr as <-.
  rewrite (builtin_no_active_node s t amap Heps Hwf Hbm). simpl.
  rewrite unifyMultiValuedNodes_empty.
  unfold rasterizeBeforeMerge in Hbm. rewrite Hu in Hbm. cbn zeta in Hbm.
  injection Hbm as <- _. simpl.
  assert (Hempty : active_grid_node_ (base u) = [])
    by (rewrite Hbu, Hb2; reflexivity).
  destruct (determineActiveGridNodes_spec epsilon (base u) Hempty) as (Hb1 & Hl1 & _).
  assert (Hnil : activeList epsilon (base u) = []).
  { unfold activeList. apply elem_of_nil_inv. intros e He.
    apply elem_of_activeList in He. destruct He as [_ He].
    rewrite (activeObjects_reset (base s) (base u) _ Heps) in He by (rewrite Hbu; exact Hb2).
    inversion He. }
  unfold computeGridVelocity. rewrite Hl1, Hnil. simpl.
  rewrite <- Hb2, <- Hbu.
  transitivity (map_active_grid_node (fun _ => [])
                  (determineActiveGridNodes epsilon (base u)).1); [|exact Hb1].
  symmetry. apply map_active_grid_node_nil. rewrite Hl1. exact Hnil.
Qed.

(** C6: under the partition of unity of section 8.1, with domain meshes as
    [constructParticleDomainMesh] builds them, the grid targets of the
    influence lists in range and the corner arrays of the size of the mesh,
    [rasterize] returns and the state it returns holds for an object, on
    the grid nodes plus its domain corners, exactly the sum of its particle
    masses.  For every enrichment criterion, and so for every enrichment
    configuration, the scatter of lines 102-163 (with the normalisation of
    lines 165-188) accumulates exactly the sum of the particle masses, and
    so does the whole of [rasterize] when a contact method is configured or
    no node lists more than one object. *)
Theorem C6_mass_conservation s (obj : nat) :
  0 <= epsilon ->
  (forall o, (o < objectNum (base s))%nat -> wellFormedDomainMesh s o) ->
  (obj < objectNum (base s))%nat ->
  cornerArraysSized s obj ->
  (forall o, gridTargetsInRange s o) ->
  let s2 crit := updateParticleDomainEnrichState crit
                   (resetParticleDomainData (map_base resetGridData s)) in
  (partitionOfUnity (s2 isEnrichCriteriaSatisfied) obj ->
   exists sr, rasterize epsilon isEnrichCriteriaSatisfied s = Some sr /\
     totalMass sr obj = particleMassSum (base s) obj) /\
  (forall crit t amap, partitionOfUnity (s2 crit) obj ->
     rasterizeBeforeMerge epsilon crit s = Some (t, amap) ->
     totalMass t obj = particleMassSum (base s) obj /\
     forall sr, rasterize epsilon crit s = Some sr ->
       contact_method_ (base s) = true \/
       (gridSized (base s) /\ forall n, (length (occupying (base t) n) <= 1)%nat) ->
       totalMass sr obj = particleMassSum (base s) obj).
Proof.
  intros Heps Hwf Hobj Hsized Hrange s2. split.
  - intros Hpou.
    destruct (builtin_fullyEnriched s Hwf) as (_ & _ & Hfull2).
    destruct (rasterizeObjects_enriched _ Hfull2) as (u & Hu & _).
    assert (Hbm : exists st, rasterizeBeforeMerge epsilon isEnrichCriteriaSatisfied s = Some st).
    { unfold rasterizeBeforeMerge. rewrite Hu. eauto. }
    destruct Hbm as [[t amap] Hbm].
    exists (map_base (fun b => unifyMultiValuedNodes (b, amap)) t).
    split; [unfold rasterize; rewrite Hbm; reflexivity|].
    destruct (scatter_mass_conservation epsilon isEnrichCriteriaSatisfied s obj
                Hobj Hsized Hrange Hpou) as (_ & Hmass).
    destruct (Hmass t amap Hbm) as (Hpre & _). rewrite <- Hpre.
    rewrite (builtin_no_active_node s t amap Heps Hwf Hbm).
    unfold totalMass. simpl. rewrite unifyMultiValuedNodes_empty. reflexivity.
  - intros crit t amap Hpou Hbm.
    destruct (scatter_mass_conservation epsilon crit s obj Hobj Hsized Hrange Hpou)
      as (_ & Hmass).
    exact (Hmass t amap Hbm).
Qed.

(** C10: with the built-in criterion and domain meshes as
    [constructParticleDomainMesh] builds them, every domain corner of every
    object is enriched right after [updateParticleDomainEnrichState] and
    every particle is fully enriched; the four phases keep it so.  In a
    state with every particle fully enriched the guard
    [enriched_corner_num < corner_num] is false and the grid-influence
    branch is not executed: [rasterize] scatters a particle to its corners
    only and its scatter leaves the base class, and with it the grid, as it
    is; the velocity gradient of the constitutive update is the one of the
    corners; [solveOnGridForwardEuler] leaves the base class as it is; and
    the velocity update of a particle is the corner update, so that
    [updateParticleVelocity] does not reach the error of lines 349 and 353
    (where the weight record that line 364 reads exists). *)
Theorem C10_builtin_criterion_enriches_every_corner s :
  (forall obj, (obj < objectNum (base s))%nat -> wellFormedDomainMesh s obj) ->
  let s2 := updateParticleDomainEnrichState isEnrichCriteriaSatisfied
              (resetParticleDomainData (map_base resetGridData s)) in
  (forall obj g, (obj < objectNum (base s))%nat -> (g < vertNum (mesh s obj))%nat ->
     isEnriched s2 obj g = true) /\
  fullyEnriched s2 /\
  (exists u, rasterizeObjects epsilon s2 = Some u /\ base u = base s2) /\
  (exists sr, rasterize epsilon isEnrichCriteriaSatisfied s = Some sr /\ fullyEnriched sr /\
     (0 <= epsilon -> base sr = resetGridData (base s))) /\
  (forall t, fullyEnriched t ->
     (forall obj p, (obj < objectNum (base t))%nat ->
        (p < particleNumOfObject (base t) obj)%nat ->
        ~ (enrichedCornerNum t obj p < corner_num Dim)%nat /\
        rasterizeParticle epsilon obj p t = Some (rasterizeParticleToCorners obj p t) /\
        particleVelocityGradient t obj p = cornerVelocityGradient t obj p /\
        ((corner_num Dim <= length (row (row (particle_corner_weight_ t) obj) obj))%nat ->
         updateOneParticleVelocity epsilon obj p t =
           Some (if at2 false (is_dirichlet_particle_ (base t)) obj p then t
                 else cornerVelocityUpdate t obj p))) /\
     (forall dt t', updateParticleConstitutiveModelState dt t = Some t' ->
        fullyEnriched t') /\
     (forall dt, base (solveOnGridForwardEuler epsilon dt t) = base t /\
        fullyEnriched (solveOnGridForwardEuler epsilon dt t)) /\
     (weightReadInRange t -> exists t', updateParticleVelocity epsilon t = Some t') /\
     (forall t', updateParticleVelocity epsilon t = Some t' -> fullyEnriched t')).
Proof.
  intros Hwf s2.
  destruct (builtin_fullyEnriched s Hwf) as (Hb2 & Hall & Hfull2). fold s2 in Hb2, Hall, Hfull2.
  split; [exact Hall|]. split; [exact Hfull2|].
  destruct (rasterizeObjects_enriched s2 Hfull2) as (u & Hu & Hbu & Hcu).
  split; [exists u; split; assumption|].
  split.
  { assert (Hex : exists sr, rasterize epsilon isEnrichCriteriaSatisfied s = Some sr).
    { unfold rasterize, rasterizeBeforeMerge. fold s2. rewrite Hu. eauto. }
    destruct Hex as [sr Hsr]. exists sr. split; [exact Hsr|].
    destruct (particleInputs_fields _ _ (rasterize_particleInputs _ s sr Hsr))
      as (Hn & Hp & _).
    split.
    - apply (fullyEnriched_transport s2 sr).
      + apply (rasterize_classification epsilon _ s sr Hsr).
      + rewrite Hn, Hb2. reflexivity.
      + intros o. rewrite Hp, Hb2. reflexivity.
      + exact Hfull2.
    - intros Heps. apply (rasterize_enriched_base s sr Heps Hwf Hsr). }
  intros t Hfull. split; [|split; [|split; [|split]]].
  - intros obj p Hobj Hp. pose proof (Hfull obj p Hobj Hp) as Hn.
    split; [rewrite Hn; lia|].
    split; [apply rasterizeParticle_enriched, Hn|].
    split; [apply particleVelocityGradient_enriched, Hn|].
    intros _. apply updateOneParticleVelocity_enriched, Hn.
  - intros dt t' Hrun.
    destruct (update_sound dt t t' Hrun) as (_ & Hn & Hp & _).
    apply (fullyEnriched_transport t t');
      [apply (updateParticleConstitutiveModelState_classification dt t t' Hrun)
      |exact Hn|exact Hp|exact Hfull].
  - intros dt. pose proof (solveOnGridForwardEuler_enriched dt t Hfull) as Hb.
    split; [exact Hb|].
    apply (fullyEnriched_transport t);
      [apply solveOnGridForwardEuler_classification
      |rewrite Hb; reflexivity|intros o; rewrite Hb; reflexivity|exact Hfull].
  - intros _. apply updateParticleVelocity_enriched, Hfull.
  - intros t' Hrun. destruct (updateParticleVelocity_counts t t' Hrun) as (Hn & Hp).
    apply (fullyEnriched_transport t t');
      [apply (updateParticleVelocity_classification epsilon t t' Hrun)
      |exact Hn|exact Hp|exact Hfull].
Qed.

End BuiltinStep.

Lemma two_particle_initial_meshes (obj : nat) :
  (obj < objectNum (base two_particle_initial))%nat ->
  wellFormedDomainMesh two_particle_initial obj.
Proof.
  intros Hobj. change (objectNum (base two_particle_initial)) with 1%nat in Hobj.
  assert (obj = 0%nat) as -> by lia. exact two_particle_initial_wellFormed.
Qed.

(** Concrete check of C10 on [two_particle_initial], whose meshes come from
    [constructParticleDomainMesh]: the shared vertex 1 is enriched after
    [updateParticleDomainEnrichState], the scatter of [rasterize] returns
    with the base class untouched, and [rasterize] returns a state in which
    every particle is fully enriched. *)
Lemma C10_witness :
  isEnriched
    (updateParticleDomainEnrichState isEnrichCriteriaSatisfied
       (resetParticleDomainData (map_base resetGridData two_particle_initial))) 0 1 = true /\
  (exists u,
     rasterizeObjects eps_float
       (updateParticleDomainEnrichState isEnrichCriteriaSatisfied
          (resetParticleDomainData (map_base resetGridData two_particle_initial))) = Some u /\
     base u = base (updateParticleDomainEnrichState isEnrichCriteriaSatisfied
                      (resetParticleDomainData
                         (map_base resetGridData two_particle_initial)))) /\
  exists sr, rasterize eps_float isEnrichCriteriaSatisfied two_particle_initial = Some sr /\
             fullyEnriched sr /\
             (0 <= eps_float -> base sr = resetGridData (base two_particle_initial)).
Proof.
  pose proof (C10_builtin_criterion_enriches_every_corner eps_float two_particle_initial
                two_particle_initial_meshes) as (Hall & _ & Hu & Hsr & _).
  split; [exact (Hall 0%nat 1%nat two_particle_initial_objects two_particle_initial_vertex)|].
  split; [exact Hu|exact Hsr].
Defined.

Lemma eps_float_nonneg : 0 <= eps_float.
Proof. compute_done. Qed.

Lemma two_particle_initial_sized : cornerArraysSized two_particle_initial 0.
Proof.
  unfold two_particle_initial.
  match goal with
  | |- cornerArraysSized (constructParticleDomainMesh ?x) _ =>
      destruct (construct_well_formed x 0) as (_ & _ & _ & _ & (H1 & _) & H2 & H3 & H4 & _);
        [vm_compute; lia | repeat split; assumption]
  end.
Qed.

Lemma two_particle_initial_range : forall o, gridTargetsInRange two_particle_initial o.
Proof.
  intros o p i Hp Hi. exfalso. revert Hi.
  destruct o as [|o]; [destruct p as [|[|p]]|]; vm_compute; lia.
Qed.

Lemma two_particle_initial_partitionOfUnity :
  partitionOfUnity
    (updateParticleDomainEnrichState isEnrichCriteriaSatisfied
       (resetParticleDomainData (map_base resetGridData two_particle_initial))) 0.
Proof.
  intros p Hp. destruct p as [|[|p]]; [compute_done|compute_done|vm_compute in Hp; lia].
Qed.

(** Concrete check of C6 on [two_particle_initial] with the built-in
    criterion: [rasterize] returns, and object 0 then holds the mass of its
    two particles on its domain corners. *)
Lemma C6_witness :
  exists sr, rasterize eps_float isEnrichCriteriaSatisfied two_particle_initial = Some sr /\
             totalMass sr 0 = particleMassSum (base two_particle_initial) 0.
Proof.
  exact (proj1 (C6_mass_conservation eps_float two_particle_initial 0
                  eps_float_nonneg two_particle_initial_meshes two_particle_initial_objects
                  two_particle_initial_sized two_particle_initial_range)
           two_particle_initial_partitionOfUnity).
Defined.

(** The two-particle examples: storage in range. *)
Lemma two_particle_initial_storage : storageInRange two_particle_initial.
Proof.
  split; [reflexivity|]. split; [reflexivity|]. split; [reflexivity|].
  intros obj Hobj. change (objectNum (base two_particle_initial)) with 1%nat in Hobj.
  assert (obj = 0%nat) as -> by lia.
  split; [vm_compute; lia|]. split; [reflexivity|].
  split; [exact two_particle_initial_wellFormed|].
  split; [exact two_particle_initial_sized|].
  split; [apply two_particle_initial_range|].
  intros p Hp. change (particleNumOfObject (base two_particle_initial) 0) with 2%nat in Hp.
  destruct p as [|[|p]]; [| |lia]; repeat split; vm_compute; lia.
Qed.

Lemma two_particle_state_storage : storageInRange two_particle_state.
Proof.
  split; [reflexivity|]. split; [reflexivity|]. split; [reflexivity|].
  intros obj Hobj. change (objectNum (base two_particle_state)) with 1%nat in Hobj.
  assert (obj = 0%nat) as -> by lia.
  split; [vm_compute; lia|]. split; [reflexivity|].
  split.
  { destruct two_particle_initial_wellFormed as (_ & H2 & H3).
    split; [reflexivity|]. split; [exact H2|exact H3]. }
  split; [repeat split|].
  split; [exact (two_particle_initial_range 0)|].
  intros p Hp. change (particleNumOfObject (base two_particle_state) 0) with 2%nat in Hp.
  destruct p as [|[|p]]; [| |lia]; repeat split; vm_compute; lia.
Qed.

Lemma two_particle_state_weights : weightReadInRange two_particle_state.
Proof.
  intros obj Hobj _. change (objectNum (base two_particle_state)) with 1%nat in Hobj.
  assert (obj = 0%nat) as -> by lia. vm_compute. lia.
Qed.

Lemma two_particle_initial_weights : weightReadInRange two_particle_initial.
Proof.
  intros obj Hobj _. change (objectNum (base two_particle_initial)) with 1%nat in Hobj.
  assert (obj = 0%nat) as -> by lia. vm_compute. lia.
Qed.

Lemma two_particle_initial_asserted :
  gridWeightsAsserted eps_float
    (updateParticleDomainEnrichState isEnrichCriteriaSatisfied
       (resetParticleDomainData (map_base resetGridData two_particle_initial))).
Proof.
  intros obj p i Hobj Hp Hen Hi. exfalso. revert Hi.
  destruct obj as [|obj]; [destruct p as [|[|p]]|]; vm_compute; lia.
Qed.

Lemma two_particle_initial_dirichlet :
  dirichletVelocitiesSet (resetGridData (base two_particle_initial)).
Proof.
  intros n o Hd. exfalso. revert Hd.
  destruct n as [|[|n]]; vm_compute; discriminate.
Qed.

(** On [two_particle_initial], with the built-in criterion, [rasterize]
    returns. *)
Lemma rasterize_returns_iff_witness :
  exists sr, rasterize eps_float isEnrichCriteriaSatisfied two_particle_initial = Some sr.
Proof.
  exact (proj2 (rasterize_returns_iff eps_float isEnrichCriteriaSatisfied two_particle_initial
                  two_particle_initial_storage) two_particle_initial_asserted).
Defined.

(** On [two_particle_state] the velocity update returns, so no grid node
    that it reads lacks an entry. *)
Lemma updateParticleVelocity_returns_iff_witness :
  velocityEntriesPresent eps_float two_particle_state.
Proof.
  exact (proj1 (updateParticleVelocity_returns_iff eps_float two_particle_state
                  two_particle_state_storage two_particle_state_weights)
           two_particle_velocity_returns).
Defined.

Lemma two_particle_initial_rasterizes :
  exists sr, rasterize eps_float isEnrichCriteriaSatisfied two_particle_initial = Some sr.
Proof.
  destruct (rasterize eps_float isEnrichCriteriaSatisfied two_particle_initial) as [sr|] eqn:H;
    [eauto|]. exfalso. revert H. vm_compute. discriminate.
Qed.

(** On [two_particle_initial], with the built-in criterion, the velocity
    update returns right after [rasterize] and after the solve. *)
Lemma velocity_update_returns_after_rasterize_witness :
  exists sr s' s'',
    rasterize eps_float isEnrichCriteriaSatisfied two_particle_initial = Some sr /\
    updateParticleVelocity eps_float sr = Some s' /\
    updateParticleVelocity eps_float (solveOnGridForwardEuler eps_float 1 sr) = Some s''.
Proof.
  destruct two_particle_initial_rasterizes as [sr Hsr].
  destruct (velocity_update_returns_after_rasterize eps_float isEnrichCriteriaSatisfied 1
              two_particle_initial sr two_particle_initial_storage
              two_particle_initial_weights (or_intror two_particle_initial_dirichlet) Hsr)
    as ([s' Hs'] & [s'' Hs''] & _).
  exists sr, s', s''. split; [exact Hsr|]. split; [exact Hs'|exact Hs''].
Defined.
